(** * Word rarity classifier: a shallow embedding and its verified properties

    The Python sources under [classificator/] are embedded function by
    function.  Python [int] is [Z]; a Python [float] that the code only
    compares or rounds is the rational it denotes ([Q]); a Python [str] is
    its sequence of Unicode code points; [dict]s that are iterated keep
    their insertion order as association lists and [set]s used for
    membership only are [gset]s.  A function that can raise returns a
    [result]. *)

From stdpp Require Import base gmap sets list strings sorting.
From Stdlib Require Import ZArith QArith Lia DecimalString.

Local Open Scope Z_scope.

(** ** Python primitives *)

Module Py.

(** A Python [str]: the sequence of its code points. *)
Definition pystr : Type := list N.

(** The code points of UTF-8 encoded bytes. *)
Fixpoint utf8_decode (bytes : list N) : pystr :=
  match bytes with
  | [] => []
  | b :: rest =>
      if (b <? 128)%N then b :: utf8_decode rest
      else if (b <? 224)%N then
        match rest with
        | b2 :: rest' => ((b - 192) * 64 + (b2 - 128))%N :: utf8_decode rest'
        | _ => []
        end
      else if (b <? 240)%N then
        match rest with
        | b2 :: b3 :: rest' =>
            ((b - 224) * 4096 + (b2 - 128) * 64 + (b3 - 128))%N :: utf8_decode rest'
        | _ => []
        end
      else
        match rest with
        | b2 :: b3 :: b4 :: rest' =>
            ((b - 240) * 262144 + (b2 - 128) * 4096 + (b3 - 128) * 64 + (b4 - 128))%N
            :: utf8_decode rest'
        | _ => []
        end
  end.

(** A literal of this file (UTF-8) as a [pystr]. *)
Definition str (s : string) : pystr :=
  utf8_decode (map (fun c => N.of_nat (Ascii.nat_of_ascii c)) (String.list_ascii_of_string s)).

(** [str(n)] for an [int]. *)
Definition str_of_int (n : Z) : pystr := str (NilZero.string_of_int (Z.to_int n)).

(** The exception classes the embedded code raises, with their message. *)
Inductive exn : Type :=
  | ValueError (msg : pystr)
  | RuntimeError (msg : pystr)
  | KeyError (msg : pystr)
  | CsvFormatError (msg : pystr)
  | FileNotFoundError (msg : pystr)
  | Timeout (msg : pystr)            (* requests.Timeout, socket.timeout, TimeoutError *)
  | ConnectionError (msg : pystr)    (* requests.ConnectionError *)
  | ZeroDivisionError (msg : pystr).

(** [str(exc)] *)
Definition exn_message (e : exn) : pystr :=
  match e with
  | ValueError m | RuntimeError m | KeyError m | CsvFormatError m
  | FileNotFoundError m | Timeout m | ConnectionError m | ZeroDivisionError m => m
  end.

Inductive result (A : Type) : Type :=
  | Ok (a : A)
  | Raise (e : exn).
Arguments Ok {A} a.
Arguments Raise {A} e.

Definition is_ok {A} (r : result A) : bool :=
  match r with Ok _ => true | Raise _ => false end.

Definition bind {A B} (r : result A) (k : A -> result B) : result B :=
  match r with Ok a => k a | Raise e => Raise e end.

(** [x < y] and [x <= y] on the rationals that stand for floats. *)
Definition Qltb (x y : Q) : bool := Qnum x * Zpos (Qden y) <? Qnum y * Zpos (Qden x).
Definition Qleb (x y : Q) : bool := Qnum x * Zpos (Qden y) <=? Qnum y * Zpos (Qden x).

(** A float argument that may be NaN; the infinities behave like numbers
    beyond every bound the code compares with. *)
Inductive pyfloat : Type :=
  | Num (q : Q)
  | NaN.

(** [round(a / b)] for [b > 0]: Python rounds a float to the nearest
    integer and a tie to the even neighbour.  The quotient is taken
    exactly. *)
Definition round_div (a b : Z) : Z :=
  let q := a / b in
  let r := a mod b in
  if 2 * r <? b then q
  else if b <? 2 * r then q + 1
  else if Z.even q then q else q + 1.

(** [round(n * ratio)] for an [int] [n] and a float [ratio]. *)
Definition round_mul (n : Z) (ratio : Q) : Z :=
  round_div (n * Qnum ratio) (Zpos (Qden ratio)).

(** [len(l)] *)
Definition len {A} (l : list A) : Z := Z.of_nat (length l).

(** [enumerate(l, start)] *)
Definition enumerate {A} (start : nat) (l : list A) : list (nat * A) :=
  combine (seq start (length l)) l.

(** The suffix left when the leading elements satisfying [p] are dropped. *)
Fixpoint drop_while {A} (p : A -> bool) (l : list A) : list A :=
  match l with
  | [] => []
  | x :: rest => if p x then drop_while p rest else l
  end.

(** The leading elements satisfying [p]. *)
Fixpoint take_while {A} (p : A -> bool) (l : list A) : list A :=
  match l with
  | [] => []
  | x :: rest => if p x then x :: take_while p rest else []
  end.

(** [text.replace(old, new)] for a non-empty [old]. *)
Fixpoint starts_with (old text : pystr) : option pystr :=
  match old, text with
  | [], _ => Some text
  | o :: old', c :: text' => if N.eqb o c then starts_with old' text' else None
  | _ :: _, [] => None
  end.

Fixpoint replace_fuel (fuel : nat) (old new text : pystr) : pystr :=
  match fuel, text with
  | O, _ => text
  | _, [] => []
  | S fuel, c :: text' =>
      match starts_with old text with
      | Some after => new ++ replace_fuel fuel old new after
      | None => c :: replace_fuel fuel old new text'
      end
  end.
Definition replace (old new text : pystr) : pystr :=
  replace_fuel (length text) old new text.

(** [needle in text] *)
Fixpoint contains (needle text : pystr) : bool :=
  match starts_with needle text with
  | Some _ => true
  | None => match text with [] => false | _ :: rest => contains needle rest end
  end.

(** A loop body that either goes on with a new state or leaves the
    function with a value. *)
Inductive step (S R : Type) : Type :=
  | Next (s : S)
  | Return (r : R).
Arguments Next {S R} s.
Arguments Return {S R} r.

(** A decoded JSON value, as [json.loads] hands it over. *)
#[warnings="-register-all"]
Inductive json : Type :=
  | JNull
  | JBool (b : bool)
  | JInt (n : Z)
  | JFloat (q : Q)
  | JStr (s : pystr)
  | JList (items : list json)
  | JDict (fields : list (pystr * json)).

(** [node.get(key)] on a decoded object: [None] both for a missing key and
    for a JSON [null]. *)
Fixpoint fields_get (fields : list (pystr * json)) (key : pystr) : option json :=
  match fields with
  | [] => None
  | (k, v) :: rest =>
      if bool_decide (k = key)
      then match v with JNull => None | _ => Some v end
      else fields_get rest key
  end.

(** The builtins of the Python runtime the embedded code calls on text. *)
Record builtins : Type := {
  int_of_str : pystr -> option Z;      (* [int(s)], [None] when it raises *)
  float_of_str : pystr -> option pyfloat;  (* [float(s)], [None] when it raises *)
  str_of_float : pyfloat -> pystr;     (* [f"{x}"] for a float *)
  str_of : json -> pystr;              (* [str(value)] *)
  strip : pystr -> pystr;              (* [s.strip()] *)
  lower : pystr -> pystr;              (* [s.lower()] *)
  isdigit : N -> bool;                 (* [ch.isdigit()] *)
  isspace : N -> bool;                 (* [ch.isspace()] *)
  isword : N -> bool                   (* the regex class [\w] (it contains [\d]) *)
}.

End Py.
Import Py.

(** ** The runtime's builtins on ASCII text

    An instance of [builtins] to run the embedded code on concrete
    inputs. *)

Module PyAscii.

(** The builtins on ASCII text: decimal literals with an optional sign,
    the ASCII white space and word characters, the ASCII capitals. *)
Definition ascii_isspace (c : N) : bool :=
  ((9 <=? c)%N && (c <=? 13)%N) || ((28 <=? c)%N && (c <=? 32)%N).
Definition ascii_isdigit (c : N) : bool := (48 <=? c)%N && (c <=? 57)%N.
Definition ascii_isword (c : N) : bool :=
  ascii_isdigit c || ((65 <=? c)%N && (c <=? 90)%N) || ((97 <=? c)%N && (c <=? 122)%N)
  || N.eqb c 95.
Definition ascii_strip (s : pystr) : pystr :=
  rev (drop_while ascii_isspace (rev (drop_while ascii_isspace s))).
Definition ascii_lower (s : pystr) : pystr :=
  map (fun c => if (65 <=? c)%N && (c <=? 90)%N then (c + 32)%N else c) s.
Definition digits_value (s : pystr) : option Z :=
  match s with
  | [] => None
  | _ :: _ =>
      fold_left
        (fun acc c =>
           match acc with
           | Some v => if ascii_isdigit c then Some (10 * v + Z.of_N (c - 48)) else None
           | None => None
           end) s (Some 0)
  end.
Definition ascii_int_of_str (s : pystr) : option Z :=
  match ascii_strip s with
  | 45%N :: digits => option_map Z.opp (digits_value digits)
  | 43%N :: digits => digits_value digits
  | digits => digits_value digits
  end.
(** [str(value)] on the scalars; the text of a float, list or object is
    not modelled. *)
Definition ascii_str_of (v : json) : pystr :=
  match v with
  | JStr s => s
  | JInt n => str_of_int n
  | JBool true => str "True"
  | JBool false => str "False"
  | JNull => str "None"
  | _ => str "?"
  end.
(** Decimal literals [ddd.ddd] and their shortest text. *)
Definition ascii_float_of_str (s : pystr) : option pyfloat :=
  let t := ascii_strip s in
  if bool_decide (t = str "nan") then Some NaN
  else
    let int_part := take_while ascii_isdigit t in
    match drop_while ascii_isdigit t with
    | [] => option_map (fun v => Num (inject_Z v)) (digits_value int_part)
    | 46%N :: frac =>
        match digits_value int_part, digits_value frac with
        | Some i, Some f =>
            let scale := 10 ^ Z.of_nat (length frac) in
            Some (Num (Qmake (i * scale + f) (Z.to_pos scale)))
        | _, _ => None
        end
    | _ => None
    end.
Fixpoint fraction_digits (fuel : nat) (num den : Z) : pystr :=
  match fuel with
  | O => []
  | S fuel =>
      if num =? 0 then []
      else N.of_nat (Z.to_nat (48 + (10 * num) / den)) :: fraction_digits fuel ((10 * num) mod den) den
  end.
Definition ascii_str_of_float (x : pyfloat) : pystr :=
  match x with
  | NaN => str "nan"
  | Num q =>
      let n := Qnum q in
      let d := Zpos (Qden q) in
      let a := Z.abs n in
      let frac := fraction_digits 17 (a mod d) d in
      (if n <? 0 then str "-" else []) ++ str_of_int (a / d) ++ str "."
      ++ (match frac with [] => str "0" | _ => frac end)
  end.
Definition ascii_builtins : builtins :=
  {| int_of_str := ascii_int_of_str; float_of_str := ascii_float_of_str;
     str_of_float := ascii_str_of_float;
     str_of := ascii_str_of; strip := ascii_strip;
     lower := ascii_lower; isdigit := ascii_isdigit; isspace := ascii_isspace;
     isword := ascii_isword |}.

End PyAscii.

(** ** batch_size_adapter.py *)

Module BatchSizeAdapter.

Record t : Type := mk {
  initial_size : Z;
  min_size : Z;
  window_size : Z;
  current_size : Z;
  outcomes : list bool   (* the deque, oldest outcome first *)
}.

Definition __init__ (initial_size min_size window_size : Z) : result t :=
  if initial_size <? min_size then Raise (ValueError (str "initial_size must be >= min_size"))
  else if min_size <? 1 then Raise (ValueError (str "min_size must be >= 1"))
  else if window_size <? 1 then Raise (ValueError (str "window_size must be >= 1"))
  else Ok (mk initial_size min_size window_size initial_size []).

Definition recommended_size (self : t) : Z := current_size self.

(** [sum(1 for ok in self.outcomes if ok)] *)
Definition successes (l : list bool) : Z := Z.of_nat (length (filter (fun ok => ok = true) l)).

Definition success_rate (self : t) : Q :=
  match outcomes self with
  | [] => 1%Q
  | _ :: _ =>
      Qmake (successes (outcomes self)) (Z.to_pos (Z.of_nat (length (outcomes self))))
  end.

Definition _adjust_size (self : t) : t :=
  let rate := success_rate self in
  if Qltb rate (1 # 2) then
    mk (initial_size self) (min_size self) (window_size self)
       (Z.max (min_size self) ((current_size self * 2) / 3)) (outcomes self)
  else if Qltb (9 # 10) rate then
    mk (initial_size self) (min_size self) (window_size self)
       (Z.min (initial_size self) ((current_size self * 3) / 2)) (outcomes self)
  else self.

(** [while len(self.outcomes) > self.window_size: self.outcomes.popleft()] *)
Fixpoint popleft_while (window_size : Z) (l : list bool) : list bool :=
  match l with
  | [] => []
  | _ :: rest =>
      if window_size <? Z.of_nat (length l) then popleft_while window_size rest else l
  end.

(** [max(0.0, min(1.0, success_ratio))]: with a NaN argument [min] keeps
    its first argument, so the result is [1.0]. *)
Definition normalized (success_ratio : pyfloat) : Q :=
  match success_ratio with
  | NaN => 1%Q
  | Num q =>
      let m := if Qltb q 1 then q else 1%Q in
      if Qltb 0 m then m else 0%Q
  end.

Definition record_outcome (self : t) (success_ratio : pyfloat) : t :=
  let success := Qleb (9 # 10) (normalized success_ratio) in
  let pushed := outcomes self ++ [success] in
  _adjust_size
    (mk (initial_size self) (min_size self) (window_size self) (current_size self)
        (popleft_while (window_size self) pushed)).

(** The invariant of a constructed adapter. *)
Definition adapter_wf (a : t) : Prop :=
  1 <= min_size a /\ min_size a <= current_size a <= initial_size a.

(** The size the adapter moves to when an outcome has been pushed, as the
    specification words it: shrink below one half, grow above nine tenths. *)
Definition stepped_size (before after : t) : Z :=
  if Qltb (success_rate after) (1 # 2) then
    Z.max (min_size before) ((current_size before * 2) / 3)
  else if Qltb (9 # 10) (success_rate after) then
    Z.min (initial_size before) ((current_size before * 3) / 2)
  else current_size before.

End BatchSizeAdapter.

(** ** lm/client.py: apportioning a selection count over two halves *)

Module SplitExpected.

Definition _compute_split_expected (total_expected left_size total_size : Z) : Z :=
  if (total_expected <=? 0) || (left_size <=? 0) || (total_size <=? 0) then 0
  else if total_size <=? left_size then total_expected
  else round_div (total_expected * left_size) total_size.

End SplitExpected.

(** ** fuzzy_word_matcher.py *)

Module fuzzy_word_matcher.

Definition MAX_EDIT_DISTANCE : Z := 2.

(** The translation table: Romanian letters with a diacritic (comma-below
    and cedilla forms) to their base letter; every other code point is
    left alone by [str.translate]. *)
Definition DIACRITICS_MAP (c : N) : N :=
  match c with
  | 259 => 97   | 258 => 65      (* a breve *)
  | 226 => 97   | 194 => 65      (* a circumflex *)
  | 238 => 105  | 206 => 73      (* i circumflex *)
  | 537 => 115  | 536 => 83      (* s comma below *)
  | 539 => 116  | 538 => 84      (* t comma below *)
  | 351 => 115  | 350 => 83      (* s cedilla *)
  | 355 => 116  | 354 => 84      (* t cedilla *)
  | _ => c
  end%N.

Definition translate (text : pystr) : pystr := map DIACRITICS_MAP text.

(** One pass of the inner loop: [curr.append(min(curr[j-1] + 1,
    prev[j] + 1, prev[j-1] + cost))]. *)
Definition inner_step (ch_a : N) (prev curr : list Z) (jb : nat * N) : list Z :=
  let '(j, ch_b) := jb in
  let cost := if N.eqb ch_a ch_b then 0 else 1 in
  curr ++ [Z.min (Z.min (nth (j - 1) curr 0 + 1) (nth j prev 0 + 1))
                 (nth (j - 1) prev 0 + cost)].

(** One pass of the outer loop: the row [curr] built from [prev]. *)
Definition outer_step (b : pystr) (prev : list Z) (ia : nat * N) : list Z :=
  let '(i, ch_a) := ia in
  fold_left (inner_step ch_a prev) (enumerate 1 b) [Z.of_nat i].

Definition levenshtein (a b : pystr) : Z :=
  if bool_decide (a = b) then 0
  else match a, b with
  | [], _ => len b
  | _, [] => len a
  | _, _ =>
      let prev := map Z.of_nat (seq 0 (length b + 1)) in
      List.last (fold_left (outer_step b) (enumerate 1 a) prev) 0
  end.

Section WithLower.

(** [str.lower] is Unicode's full lower-casing; the matcher is embedded
    over it. *)
Variable lower : pystr -> pystr.

Definition normalize (text : pystr) : pystr := lower (translate text).

Definition matches (expected actual : pystr) : bool :=
  if bool_decide (expected = actual) then true
  else
    let norm_expected := normalize expected in
    let norm_actual := normalize actual in
    if bool_decide (norm_expected = norm_actual) then true
    else if MAX_EDIT_DISTANCE <? Z.abs (len norm_expected - len norm_actual) then false
    else levenshtein norm_expected norm_actual <=? MAX_EDIT_DISTANCE.

End WithLower.

(** Lower-casing restricted to the ASCII capitals; it agrees with
    [str.lower] on every string without other cased letters. *)
Definition ascii_lower (text : pystr) : pystr :=
  map (fun c => if (65 <=? c)%N && (c <=? 90)%N then (c + 32)%N else c) text.

(** What the distance measures: [edit_script a b n] holds when [a] can be
    rewritten into [b] with [n] single-character insertions, deletions
    and substitutions. *)
Inductive edit_script : pystr -> pystr -> nat -> Prop :=
  | es_nil : edit_script [] [] 0
  | es_keep c x y n : edit_script x y n -> edit_script (c :: x) (c :: y) n
  | es_subst c e x y n : edit_script x y n -> edit_script (c :: x) (e :: y) (S n)
  | es_delete c x y n : edit_script x y n -> edit_script (c :: x) y (S n)
  | es_insert e x y n : edit_script x y n -> edit_script x (e :: y) (S n).

(** The textbook recursion on the two heads. *)
Fixpoint lev (x : pystr) : pystr -> nat :=
  fix lev_x (y : pystr) : nat :=
    match x, y with
    | [], _ => length y
    | _, [] => length x
    | c :: x', e :: y' =>
        Nat.min (Nat.min (S (lev_x y')) (S (lev x' y)))
                (lev x' y' + (if N.eqb c e then 0 else 1))%nat
    end.

(** Row [x] of the distance table, up to column [k]: the distances from
    [x] to the prefixes of [b]. *)
Definition row_upto (x b : pystr) (k : nat) : list Z :=
  map (fun j => Z.of_nat (lev x (take j b))) (seq 0 (S k)).

(** The Levenshtein distance from [a] to [b] is at most [k]. *)
Definition distance_at_most (a b : pystr) (k : nat) : Prop :=
  exists n, (n <= k)%nat /\ edit_script a b n.

End fuzzy_word_matcher.

(** ** json_repair.py *)

Module json_repair.

Definition QUOTE : N := 34.      (* the double quote *)
Definition BACKSLASH : N := 92.
Definition SLASH : N := 47.
Definition SPACE : N := 32.
Definition NEWLINE : N := 10.
Definition DOT : N := 46.
Definition ZERO : N := 48.
Definition COMMA : N := 44.
Definition LBRACE : N := 123.
Definition RBRACE : N := 125.
Definition LBRACKET : N := 91.
Definition RBRACKET : N := 93.

(** The scanner state every pass keeps: inside a string literal, and right
    after a backslash inside one. *)
Definition scan_string (escaped : bool) (ch : N) : bool * bool :=
  (* in_string' , escaped' for a character read inside a string *)
  if escaped then (true, false)
  else if N.eqb ch BACKSLASH then (true, true)
  else if N.eqb ch QUOTE then (false, false)
  else (true, false).

Section WithClasses.

(** [str.isdigit] and [str.isspace] are Unicode character classes. *)
Variable isdigit : N -> bool.
Variable isspace : N -> bool.

(** [while out and out[-1] == " ": out.pop()] *)
Fixpoint pop_spaces_rev (out_rev : pystr) : pystr :=
  match out_rev with
  | c :: rest => if N.eqb c SPACE then pop_spaces_rev rest else out_rev
  | [] => []
  end.
Definition pop_spaces (out : pystr) : pystr := rev (pop_spaces_rev (rev out)).

(** The index loop of [_remove_line_comments], read over the text that is
    left.  [skipping] stands for the jump [i = input_text.find("\n", i)]:
    the characters before the next newline are passed over, the newline
    itself is read again by the loop; without a newline the loop ends. *)
Fixpoint remove_line_comments_from (in_string escaped skipping : bool)
    (out : pystr) (text : pystr) : pystr :=
  match text with
  | [] => out
  | ch :: rest =>
      if skipping then
        if N.eqb ch NEWLINE
        then remove_line_comments_from in_string escaped false (out ++ [ch]) rest
        else remove_line_comments_from in_string escaped true out rest
      else if in_string then
        let '(in_string', escaped') := scan_string escaped ch in
        remove_line_comments_from in_string' escaped' false (out ++ [ch]) rest
      else if N.eqb ch QUOTE then
        remove_line_comments_from true escaped false (out ++ [ch]) rest
      else if N.eqb ch SLASH && (match rest with nxt :: _ => N.eqb nxt SLASH | [] => false end) then
        remove_line_comments_from false escaped true (pop_spaces out) rest
      else remove_line_comments_from false escaped false (out ++ [ch]) rest
  end.

Definition _remove_line_comments (input_text : pystr) : pystr :=
  remove_line_comments_from false false false [] input_text.

(** The loop of [_fix_trailing_decimal_points]; [prev] is
    [input_text[i - 1]] when [i > 0]. *)
Fixpoint fix_trailing_decimal_points_from (in_string escaped : bool)
    (prev : option N) (out : pystr) (text : pystr) : pystr :=
  match text with
  | [] => out
  | ch :: rest =>
      if in_string then
        let '(in_string', escaped') := scan_string escaped ch in
        fix_trailing_decimal_points_from in_string' escaped' (Some ch) (out ++ [ch]) rest
      else if N.eqb ch QUOTE then
        fix_trailing_decimal_points_from true escaped (Some ch) (out ++ [ch]) rest
      else if N.eqb ch DOT
              && (match prev with Some p => isdigit p | None => false end)
              && (match rest with nxt :: _ => negb (isdigit nxt) | [] => true end) then
        fix_trailing_decimal_points_from false escaped (Some ch) (out ++ [DOT; ZERO]) rest
      else fix_trailing_decimal_points_from false escaped (Some ch) (out ++ [ch]) rest
  end.

Definition _fix_trailing_decimal_points (input_text : pystr) : pystr :=
  fix_trailing_decimal_points_from false false None [] input_text.

(** The last element of the stack, [stack[-1]]. *)
Definition top (stack : pystr) : option N := List.last (map Some stack) None.

(** The loop of [_close_unclosed_structures]: the stack of open
    structures (top last) and the scanner state after [text]. *)
Fixpoint open_structures_from (in_string escaped : bool) (stack : pystr)
    (text : pystr) : pystr :=
  match text with
  | [] => stack
  | ch :: rest =>
      if in_string then
        if escaped then open_structures_from true false stack rest
        else if N.eqb ch BACKSLASH then open_structures_from true true stack rest
        else if N.eqb ch QUOTE then
          open_structures_from false false
            (if bool_decide (top stack = Some QUOTE) then removelast stack else stack) rest
        else open_structures_from true false stack rest
      else if N.eqb ch QUOTE then open_structures_from true escaped (stack ++ [QUOTE]) rest
      else if N.eqb ch LBRACE then open_structures_from false escaped (stack ++ [LBRACE]) rest
      else if N.eqb ch LBRACKET then open_structures_from false escaped (stack ++ [LBRACKET]) rest
      else if N.eqb ch RBRACE && bool_decide (top stack = Some LBRACE) then
        open_structures_from false escaped (removelast stack) rest
      else if N.eqb ch RBRACKET && bool_decide (top stack = Some LBRACKET) then
        open_structures_from false escaped (removelast stack) rest
      else open_structures_from false escaped stack rest
  end.

(** [closers = {"{": "}", "[": "]", '"': '"'}] *)
Definition closers (s : N) : N :=
  if N.eqb s LBRACE then RBRACE
  else if N.eqb s LBRACKET then RBRACKET
  else s.

Definition _close_unclosed_structures (input_text : pystr) : pystr :=
  let stack := open_structures_from false false [] input_text in
  input_text ++ map closers (rev stack).

(** The loop of [_remove_trailing_commas]. *)
Fixpoint remove_trailing_commas_from (in_string escaped pending_comma : bool)
    (out : pystr) (text : pystr) : pystr :=
  match text with
  | [] => if pending_comma then out ++ [COMMA] else out
  | ch :: rest =>
      if in_string then
        let out := if pending_comma then out ++ [COMMA] else out in
        let '(in_string', escaped') := scan_string escaped ch in
        remove_trailing_commas_from in_string' escaped' false (out ++ [ch]) rest
      else if N.eqb ch QUOTE then
        let out := if pending_comma then out ++ [COMMA] else out in
        remove_trailing_commas_from true escaped false (out ++ [ch]) rest
      else if N.eqb ch COMMA then
        remove_trailing_commas_from false escaped true out rest
      else if N.eqb ch RBRACKET || N.eqb ch RBRACE then
        remove_trailing_commas_from false escaped false (out ++ [ch]) rest
      else if isspace ch && pending_comma then
        remove_trailing_commas_from false escaped true out rest
      else
        let out := if pending_comma then out ++ [COMMA] else out in
        remove_trailing_commas_from false escaped false (out ++ [ch]) rest
  end.

Definition _remove_trailing_commas (input_text : pystr) : pystr :=
  remove_trailing_commas_from false false false [] input_text.

Definition repair (raw : pystr) : pystr :=
  let s1 := _remove_line_comments raw in
  let s2 := _fix_trailing_decimal_points s1 in
  let s3 := _close_unclosed_structures s2 in
  _remove_trailing_commas s3.

End WithClasses.

(** The scanner state [(in_string, escaped)] that the loop of
    [_close_unclosed_structures] is in after reading [text]. *)
Fixpoint scanner_state_from (in_string escaped : bool) (text : pystr) : bool * bool :=
  match text with
  | [] => (in_string, escaped)
  | ch :: rest =>
      if in_string then
        let '(in_string', escaped') := scan_string escaped ch in
        scanner_state_from in_string' escaped' rest
      else if N.eqb ch QUOTE then scanner_state_from true escaped rest
      else scanner_state_from false escaped rest
  end.

(** The text ends inside a string literal, right after a backslash that
    still escapes the next character. *)
Definition ends_after_backslash (text : pystr) : bool :=
  let '(in_string, escaped) := scanner_state_from false false text in
  in_string && escaped.

(** The shape of the stack of [_close_unclosed_structures]: opened braces
    and brackets, with the quote of the string being read on top. *)
Definition stack_ok (in_string : bool) (stack : pystr) : Prop :=
  exists base,
    Forall (fun c => c = LBRACE \/ c = LBRACKET) base /\
    stack = if in_string then base ++ [QUOTE] else base.

(** The two character classes on ASCII text. *)
Definition ascii_isdigit (c : N) : bool := (48 <=? c)%N && (c <=? 57)%N.
Definition ascii_isspace (c : N) : bool :=
  ((9 <=? c)%N && (c <=? 13)%N) || ((28 <=? c)%N && (c <=? 32)%N).

End json_repair.

(** ** A Python [dict] with integer keys, in insertion order *)

Module Dict.
Section WithValues.
Context {V : Type}.

Definition t : Type := list (Z * V).

(** [d.get(k)] *)
Fixpoint get (d : t) (k : Z) : option V :=
  match d with
  | [] => None
  | (k', v) :: rest => if Z.eqb k' k then Some v else get rest k
  end.

(** [d[k] = v]: a present key keeps its place. *)
Fixpoint put (d : t) (k : Z) (v : V) : t :=
  match d with
  | [] => [(k, v)]
  | (k', v') :: rest => if Z.eqb k' k then (k, v) :: rest else (k', v') :: put rest k v
  end.

(** [d.pop(k, None)] *)
Definition pop (d : t) (k : Z) : t :=
  List.filter (fun kv => negb (Z.eqb (fst kv) k)) d.

Definition keys (d : t) : list Z := map fst d.
Definition values (d : t) : list V := map snd d.

End WithValues.
Arguments t : clear implicits.
End Dict.

(** ** models.py *)

Module BaseWordRow.
Record t : Type := mk { word_id : Z; word : pystr; type : pystr }.
End BaseWordRow.

Module ScoreResult.
Record t : Type := mk {
  word_id : Z; word : pystr; type : pystr;
  rarity_level : Z; tag : pystr; confidence : Q
}.
End ScoreResult.

Module ParsedBatch.
Record t : Type := mk {
  scores : list ScoreResult.t;
  unresolved : list BaseWordRow.t
}.
End ParsedBatch.

(** ** lm/response_parser.py: selection mode *)

Module response_parser.

Record SelectionCandidate : Type := mkCandidate {
  returned_id : option Z;
  word : option pystr
}.

Section WithBuiltins.
Variable py : builtins.

(** [_to_int(value)]; a [bool] is an [int] in Python. *)
Definition _to_int (value : option json) : option Z :=
  match value with
  | Some (JInt n) => Some n
  | Some (JBool b) => Some (if b then 1 else 0)
  | Some (JStr s) => int_of_str py s
  | _ => None
  end.

(** [SELECTION_EDGE_PUNCTUATION.sub("", s)]: the leading and the trailing
    run of characters outside [\w]. *)
Definition strip_edge_punctuation (s : pystr) : pystr :=
  let not_word c := negb (isword py c) in
  rev (drop_while not_word (rev (drop_while not_word s))).

Definition _normalize_selection_word (value : pystr) : pystr :=
  match strip py value with
  | [] => []
  | _ :: _ =>
      let lowered := replace [226; 8364; 8482]%N [39]%N (strip py (lower py value)) in
      strip_edge_punctuation lowered
  end.

(** The body of the loop that decodes one result node. *)
Definition candidate_of_node (node : json) : option SelectionCandidate :=
  let '(node_id, word) :=
    match node with
    | JInt _ | JBool _ => (_to_int (Some node), None)
    | JStr s => (int_of_str py s, None)
    | JDict fields =>
        let node_id :=
          match _to_int (fields_get fields (str "local_id")) with
          | Some n => Some n
          | None =>
              match _to_int (fields_get fields (str "word_id")) with
              | Some n => Some n
              | None => _to_int (Some node)
              end
          end in
        let word :=
          match fields_get fields (str "word") with
          | Some raw_word =>
              match strip py (str_of py raw_word) with
              | [] => None
              | w => Some w
              end
          | None => None
          end in
        (node_id, word)
    | _ => (None, None)
    end in
  match node_id, word with
  | None, None => None
  | _, _ => Some (mkCandidate node_id word)
  end.

(** [{r.word_id: r for r in batch}] *)
Definition batch_by_id_of (batch : list BaseWordRow.t) : Dict.t BaseWordRow.t :=
  fold_left (fun d r => Dict.put d (BaseWordRow.word_id r) r) batch [].

(** [{idx + 1: row for idx, row in enumerate(batch)}] *)
Definition batch_by_local_of (batch : list BaseWordRow.t) : Dict.t BaseWordRow.t :=
  fold_left (fun d ir => Dict.put d (Z.of_nat (fst ir) + 1) (snd ir)) (enumerate 0 batch) [].

Definition selection : Type := list Z * gset Z.   (* [selected], [selected_set] *)

(** 1) strict local_id only *)
Fixpoint stage_local_id (batch_by_local_id : Dict.t BaseWordRow.t) (expected : Z)
    (raw_selections : list SelectionCandidate) (st : selection) : step selection (list Z) :=
  match raw_selections with
  | [] => Next st
  | candidate :: rest =>
      match returned_id candidate with
      | None => stage_local_id batch_by_local_id expected rest st
      | Some local_id =>
          let '(selected, selected_set) := st in
          let st' :=
            match Dict.get batch_by_local_id local_id with
            | Some row =>
                let wid := BaseWordRow.word_id row in
                if bool_decide (wid ∈ selected_set) then st
                else (selected ++ [wid], {[ wid ]} ∪ selected_set)
            | None => st
            end in
          if len (fst st') =? expected then Return (fst st')
          else stage_local_id batch_by_local_id expected rest st'
      end
  end.

(** The inner search of the word fallback: the first remaining row whose
    word is the candidate's, exactly or after normalisation. *)
Definition find_matching_row (remaining : Dict.t BaseWordRow.t) (raw_word : pystr)
    : option BaseWordRow.t :=
  let exact_key := lower py raw_word in
  let norm_key := _normalize_selection_word raw_word in
  List.find
    (fun row =>
       bool_decide (lower py (BaseWordRow.word row) = exact_key)
       || (negb (bool_decide (norm_key = []))
           && bool_decide (_normalize_selection_word (BaseWordRow.word row) = norm_key)))
    (Dict.values remaining).

(** 2) fallback by word matching; the state carries [remaining] too. *)
Fixpoint stage_word_match (batch_by_local_id : Dict.t BaseWordRow.t) (expected : Z)
    (raw_selections : list SelectionCandidate)
    (st : selection) (remaining : Dict.t BaseWordRow.t)
    : step (selection * Dict.t BaseWordRow.t) (list Z) :=
  match raw_selections with
  | [] => Next (st, remaining)
  | candidate :: rest =>
      let '(selected, selected_set) := st in
      if len selected =? expected then Return selected
      else
        let skip := stage_word_match batch_by_local_id expected rest st remaining in
        let has_local_id :=
          match returned_id candidate with
          | Some local_id => bool_decide (is_Some (Dict.get batch_by_local_id local_id))
          | None => false
          end in
        if has_local_id then skip
        else
          match word candidate with
          | None | Some [] => skip
          | Some w =>
              match find_matching_row remaining (strip py w) with
              | None => skip
              | Some matched =>
                  let wid := BaseWordRow.word_id matched in
                  if bool_decide (wid ∈ selected_set) then skip
                  else
                    stage_word_match batch_by_local_id expected rest
                      (selected ++ [wid], {[ wid ]} ∪ selected_set)
                      (Dict.pop remaining wid)
              end
          end
  end.

(** The ids the candidates carry, each once, in order. *)
Fixpoint distinct_ids_of (raw_selections : list SelectionCandidate)
    (distinct_ids : list Z) (seen : gset Z) : list Z :=
  match raw_selections with
  | [] => distinct_ids
  | candidate :: rest =>
      match returned_id candidate with
      | Some rid =>
          if bool_decide (rid ∈ seen) then distinct_ids_of rest distinct_ids seen
          else distinct_ids_of rest (distinct_ids ++ [rid]) ({[ rid ]} ∪ seen)
      | None => distinct_ids_of rest distinct_ids seen
      end
  end.

(** The loop that turns the ids into positions of the batch. *)
Fixpoint positional_indices (base : Z) (batch_len expected : Z) (distinct_ids : list Z)
    (indices : list Z) (seen_idx : gset Z) : list Z :=
  match distinct_ids with
  | [] => indices
  | raw_id :: rest =>
      let idx := raw_id - base in
      let '(indices', seen_idx') :=
        if (0 <=? idx) && (idx <? batch_len) && negb (bool_decide (idx ∈ seen_idx))
        then (indices ++ [idx], {[ idx ]} ∪ seen_idx)
        else (indices, seen_idx) in
      if len indices' =? expected then indices'
      else positional_indices base batch_len expected rest indices' seen_idx'
  end.

(** 3) positional fallback (0-based or 1-based) *)
Definition stage_positional (raw_selections : list SelectionCandidate)
    (batch : list BaseWordRow.t) (expected : Z) : result (list Z) :=
  let distinct_ids := distinct_ids_of raw_selections [] ∅ in
  match distinct_ids with
  | [] => Ok []
  | _ :: _ =>
      let has_zero := bool_decide (0 ∈ distinct_ids) in
      let base := if has_zero then 0 else 1 in
      let indices := positional_indices base (len batch) expected distinct_ids [] ∅ in
      (* [[batch[idx].word_id for idx in indices]] *)
      fold_right
        (fun idx acc =>
           bind acc (fun ids =>
             match nth_error batch (Z.to_nat idx) with
             | Some row => Ok (BaseWordRow.word_id row :: ids)
             | None => Raise (KeyError (str "list index out of range"))
             end))
        (Ok []) indices
  end.

Definition _coerce_selections_to_word_ids
    (raw_selections : list SelectionCandidate) (batch : list BaseWordRow.t)
    (batch_by_id batch_by_local_id : Dict.t BaseWordRow.t) (expected : Z)
    : result (list Z) :=
  if (expected <=? 0) || bool_decide (batch = []) then Ok []
  else
    match stage_local_id batch_by_local_id expected raw_selections ([], ∅) with
    | Return selected => Ok selected
    | Next (selected, selected_set) =>
        let after_words :=
          if len selected <? expected then
            let remaining :=
              List.filter (fun kv => negb (bool_decide (fst kv ∈ selected_set))) batch_by_id in
            match stage_word_match batch_by_local_id expected raw_selections
                    (selected, selected_set) remaining with
            | Return selected => Return selected
            | Next ((selected, selected_set), _) =>
                if len selected =? expected then Return selected
                else Next (selected, selected_set)
            end
          else Next (selected, selected_set) in
        match after_words with
        | Return selected => Ok selected
        | Next (selected, _) =>
            match selected with
            | _ :: _ => Ok selected
            | [] => stage_positional raw_selections batch expected
            end
        end
    end.

(** The message of the count check, [f"Expected exactly {expected} selected
    ids, got {len(selected)} for batch of {len(batch)}"]. *)
Definition count_mismatch_message (expected got batch_len : Z) : pystr :=
  str "Expected exactly " ++ str_of_int expected ++ str " selected ids, got "
  ++ str_of_int got ++ str " for batch of " ++ str_of_int batch_len.

Definition _parse_selected_word_ids (batch : list BaseWordRow.t) (results : list json)
    (forced_rarity_level expected_items : option Z) : result ParsedBatch.t :=
  match forced_rarity_level with
  | Some rarity_level =>
      if (1 <=? rarity_level) && (rarity_level <=? 5) then
        match expected_items with
        | Some expected =>
            if 0 <? expected then
              match batch with
              | [] => Ok (ParsedBatch.mk [] [])
              | _ :: _ =>
                  let batch_by_id := batch_by_id_of batch in
                  let batch_by_local := batch_by_local_of batch in
                  let raw := omap candidate_of_node results in
                  bind (_coerce_selections_to_word_ids raw batch batch_by_id batch_by_local expected)
                    (fun selected =>
                       if negb (len selected =? expected) then
                         Raise (RuntimeError
                                  (count_mismatch_message expected (len selected) (len batch)))
                       else
                         bind
                           (fold_right
                              (fun word_id acc =>
                                 bind acc (fun scores =>
                                   match Dict.get batch_by_id word_id with
                                   | Some row =>
                                       Ok (ScoreResult.mk (BaseWordRow.word_id row)
                                             (BaseWordRow.word row) (BaseWordRow.type row)
                                             rarity_level (str "common") (9 # 10)
                                           :: scores)
                                   | None => Raise (KeyError (str_of_int word_id))
                                   end))
                              (Ok []) selected)
                           (fun scores => Ok (ParsedBatch.mk scores [])))
              end
            else Raise (ValueError (str "expected_items is required for selected-word-id mode"))
        | None => Raise (ValueError (str "expected_items is required for selected-word-id mode"))
        end
      else Raise (ValueError (str "forced_rarity_level is required for selected-word-id mode"))
  | None => Raise (ValueError (str "forced_rarity_level is required for selected-word-id mode"))
  end.

End WithBuiltins.

(** Some row of the batch carries the word id [x]. *)
Definition has_row (batch : list BaseWordRow.t) (x : Z) : Prop :=
  exists row, row ∈ batch /\ BaseWordRow.word_id row = x.

(** What the three stages keep true of [selected] and [selected_set]. *)
Definition selection_ok (batch : list BaseWordRow.t) (st : selection) : Prop :=
  NoDup (fst st) /\
  (forall x, x ∈ snd st <-> x ∈ fst st) /\
  (forall x, x ∈ fst st -> has_row batch x).

(** The id is no position of the synthetic 1-based numbering. *)
Definition no_local_id (batch_by_local_id : Dict.t BaseWordRow.t)
    (candidate : SelectionCandidate) : Prop :=
  forall l, returned_id candidate = Some l -> Dict.get batch_by_local_id l = None.

(** The batch of the parser's unit tests: "om" and "casă". *)
Definition selection_test_batch : list BaseWordRow.t :=
  [BaseWordRow.mk 101 (str "om") (str "N");
   BaseWordRow.mk 102 [99; 97; 115; 259]%N (str "N")].

End response_parser.

(** ** csv_codec.py and run_csv_repository.py *)

Module RunCsvRow.
Record t : Type := mk {
  word_id : Z; word : pystr; type : pystr;
  rarity_level : Z; tag : pystr; confidence : pyfloat;
  scored_at : pystr; model : pystr; run_slug : pystr
}.
End RunCsvRow.

Module RunBaseline.
Record t : Type := mk { count : Z; min_id : option Z; max_id : option Z }.
End RunBaseline.

Module csv_codec.

(** A file as [csv.reader] and [csv.writer] see it: its rows of cells.
    The file system maps the paths that exist to their content. *)
Definition file : Type := list (list pystr).
Definition filesystem : Type := gmap pystr file.

Record CsvRecord : Type := mkRecord { line_number : Z; values : list pystr }.
Record CsvTable : Type := mkTable { headers : list pystr; records : list CsvRecord }.

(** The loop over [enumerate(rows[1:], start=2)]. *)
Fixpoint read_records (width : nat) (line : Z) (rows : list (list pystr))
    : result (list CsvRecord) :=
  match rows with
  | [] => Ok []
  | row :: rest =>
      if bool_decide (row = [[]]) then read_records width (line + 1) rest
      else if negb (length row =? width)%nat then
        Raise (CsvFormatError (str "CSV line " ++ str_of_int line ++ str " has "
                 ++ str_of_int (len row) ++ str " columns, expected "
                 ++ str_of_int (Z.of_nat width)))
      else bind (read_records width (line + 1) rest)
                (fun records => Ok (mkRecord line row :: records))
  end.

Definition read_table (fs : filesystem) (path : pystr) : result CsvTable :=
  match fs !! path with
  | None => Raise (FileNotFoundError (str "CSV file not found: " ++ path))
  | Some [] => Raise (CsvFormatError (str "CSV file is empty: " ++ path))
  | Some ([] :: _) => Raise (CsvFormatError (str "CSV has empty header row: " ++ path))
  | Some (headers :: rows) =>
      bind (read_records (length headers) 2 rows) (fun records => Ok (mkTable headers records))
  end.

(** The rows [write_table] has put into the file when it stops, and
    whether it stopped on a row of the wrong width. *)
Fixpoint write_rows (width : nat) (rows : list (list pystr)) (written : file)
    : result unit * file :=
  match rows with
  | [] => (Ok tt, written)
  | row :: rest =>
      if negb (length row =? width)%nat then
        (Raise (CsvFormatError (str "Attempted to write " ++ str_of_int (len row)
                  ++ str " columns, expected " ++ str_of_int (Z.of_nat width))), written)
      else write_rows width rest (written ++ [row])
  end.

Definition write_table (fs : filesystem) (path : pystr) (headers : list pystr)
    (rows : list (list pystr)) : result unit * filesystem :=
  let '(r, content) := write_rows (length headers) rows [headers] in
  (r, <[path := content]> fs).

(** [path.with_name(f"{path.name}.tmp")] *)
Definition tmp_path (path : pystr) : pystr := path ++ str ".tmp".

(** [os.replace(src, dst)] *)
Definition os_replace (fs : filesystem) (src dst : pystr) : filesystem :=
  match fs !! src with
  | Some content => <[dst := content]> (delete src fs)
  | None => fs
  end.

Definition write_table_atomic (fs : filesystem) (path : pystr) (headers : list pystr)
    (rows : list (list pystr)) : result unit * filesystem :=
  let tmp := tmp_path path in
  match write_table fs tmp headers rows with
  | (Ok _, fs') => (Ok tt, os_replace fs' tmp path)
  | (Raise e, fs') => (Raise e, fs')
  end.

End csv_codec.

Module run_csv_repository.
Import csv_codec.

Definition RUN_CSV_HEADERS : list pystr :=
  [str "word_id"; str "word"; str "type"; str "rarity_level"; str "tag";
   str "confidence"; str "scored_at"; str "model"; str "run_slug"].

(** [", ".join(cols)] *)
Fixpoint join_comma (cols : list pystr) : pystr :=
  match cols with
  | [] => []
  | [c] => c
  | c :: rest => c ++ str ", " ++ join_comma rest
  end.

(** support.py *)
Definition required_columns (actual required : list pystr) (label : pystr) : result unit :=
  match List.filter (fun col => negb (bool_decide (col ∈ actual))) required with
  | [] => Ok tt
  | missing =>
      Raise (ValueError (label ++ str " is missing required columns: " ++ join_comma missing))
  end.

(** [dict(zip(headers, values)).get(key, "")]: of two columns with one
    name the later one is read. *)
Definition row_get (headers values : list pystr) (key : pystr) : pystr :=
  match List.find (fun hv => bool_decide (fst hv = key)) (rev (combine headers values)) with
  | Some hv => snd hv
  | None => []
  end.

(** [sorted(rows, key=lambda r: r.word_id)], a stable sort. *)
Fixpoint insert_by_word_id (r : RunCsvRow.t) (sorted : list RunCsvRow.t) : list RunCsvRow.t :=
  match sorted with
  | [] => [r]
  | x :: rest =>
      if RunCsvRow.word_id r <? RunCsvRow.word_id x then r :: sorted
      else x :: insert_by_word_id r rest
  end.
Definition sorted_by_word_id (rows : list RunCsvRow.t) : list RunCsvRow.t :=
  fold_left (fun acc r => insert_by_word_id r acc) rows [].

(** The rows are in ascending order of word id. *)
Definition ids_ascending (rows : list RunCsvRow.t) : Prop :=
  StronglySorted Z.le (map RunCsvRow.word_id rows).

Section WithBuiltins.
Variable py : builtins.

Definition location (path : pystr) (line : Z) : pystr := path ++ str ":" ++ str_of_int line.

Definition _parse_int (path : pystr) (line : Z) (headers values : list pystr) (key : pystr)
    : result Z :=
  match int_of_str py (row_get headers values key) with
  | Some n => Ok n
  | None => Raise (CsvFormatError (str "Invalid " ++ key ++ str " at " ++ location path line))
  end.

Definition _parse_float (path : pystr) (line : Z) (headers values : list pystr) (key : pystr)
    : result pyfloat :=
  match float_of_str py (row_get headers values key) with
  | Some x => Ok x
  | None => Raise (CsvFormatError (str "Invalid " ++ key ++ str " at " ++ location path line))
  end.

Definition _require_non_blank (path : pystr) (line : Z) (headers values : list pystr)
    (key : pystr) : result pystr :=
  let val := row_get headers values key in
  match strip py val with
  | [] => Raise (CsvFormatError (str "Blank " ++ key ++ str " at " ++ location path line))
  | _ => Ok val
  end.

(** [x < 0.0 or x > 1.0]; both comparisons fail on NaN. *)
Definition out_of_unit_range (x : pyfloat) : bool :=
  match x with
  | Num q => Qltb q 0 || Qltb 1 q
  | NaN => false
  end.

(** One pass of the loop of [load_run_rows]. *)
Definition parse_run_row (path : pystr) (headers : list pystr) (rec : CsvRecord)
    : result RunCsvRow.t :=
  let line := line_number rec in
  let row := values rec in
  bind (_parse_int path line headers row (str "rarity_level")) (fun rarity =>
  bind (_parse_float path line headers row (str "confidence")) (fun conf =>
  if (rarity <? 1) || (5 <? rarity) then
    Raise (CsvFormatError (str "rarity_level out of range at " ++ location path line))
  else if out_of_unit_range conf then
    Raise (CsvFormatError (str "confidence out of range at " ++ location path line))
  else
    bind (_parse_int path line headers row (str "word_id")) (fun word_id =>
    bind (_require_non_blank path line headers row (str "word")) (fun word =>
    bind (_require_non_blank path line headers row (str "type")) (fun type =>
    Ok (RunCsvRow.mk word_id word type rarity
          (row_get headers row (str "tag")) conf
          (row_get headers row (str "scored_at"))
          (row_get headers row (str "model"))
          (row_get headers row (str "run_slug")))))))).

Fixpoint load_rows_into (path : pystr) (headers : list pystr) (records : list CsvRecord)
    (by_id : Dict.t RunCsvRow.t) : result (Dict.t RunCsvRow.t) :=
  match records with
  | [] => Ok by_id
  | rec :: rest =>
      bind (parse_run_row path headers rec) (fun parsed =>
        load_rows_into path headers rest (Dict.put by_id (RunCsvRow.word_id parsed) parsed))
  end.

Definition load_run_rows (fs : filesystem) (path : pystr) : result (list RunCsvRow.t) :=
  match fs !! path with
  | None => Ok []
  | Some _ =>
      bind (read_table fs path) (fun table =>
      bind (required_columns (headers table) RUN_CSV_HEADERS (str "CSV " ++ path)) (fun _ =>
      bind (load_rows_into path (headers table) (records table) []) (fun by_id =>
      Ok (sorted_by_word_id (Dict.values by_id)))))
  end.

(** [min(ids)] and [max(ids)] of a non-empty list. *)
Definition list_min (x : Z) (rest : list Z) : Z := fold_left Z.min rest x.
Definition list_max (x : Z) (rest : list Z) : Z := fold_left Z.max rest x.

Definition compute_baseline (rows : list RunCsvRow.t) : RunBaseline.t :=
  match map RunCsvRow.word_id rows with
  | [] => RunBaseline.mk 0 None None
  | x :: rest => RunBaseline.mk (len rows) (Some (list_min x rest)) (Some (list_max x rest))
  end.

Definition _serialize_for_headers (row : RunCsvRow.t) (headers : list pystr) : list pystr :=
  let base : list (pystr * pystr) :=
    [(str "word_id", str_of_int (RunCsvRow.word_id row));
     (str "word", RunCsvRow.word row);
     (str "type", RunCsvRow.type row);
     (str "rarity_level", str_of_int (RunCsvRow.rarity_level row));
     (str "tag", RunCsvRow.tag row);
     (str "confidence", str_of_float py (RunCsvRow.confidence row));
     (str "scored_at", RunCsvRow.scored_at row);
     (str "model", RunCsvRow.model row);
     (str "run_slug", RunCsvRow.run_slug row)] in
  map (fun h =>
         match List.find (fun kv => bool_decide (fst kv = h)) base with
         | Some kv => snd kv
         | None => []
         end) headers.

Definition rewrite_run_rows_atomic (fs : filesystem) (path : pystr) (rows : list RunCsvRow.t)
    : result unit * filesystem :=
  let body := map (fun r => _serialize_for_headers r RUN_CSV_HEADERS) (sorted_by_word_id rows) in
  write_table_atomic fs path RUN_CSV_HEADERS body.

Definition _assert_not_shrunk (path : pystr) (merged_rows : list RunCsvRow.t)
    (baseline : RunBaseline.t) : result unit :=
  let merged_count := len merged_rows in
  if merged_count <? RunBaseline.count baseline then
    Raise (RuntimeError (str "Guarded rewrite aborted for " ++ path ++ str ": mergedCount="
             ++ str_of_int merged_count ++ str " < baseline="
             ++ str_of_int (RunBaseline.count baseline)))
  else
    let first_id := option_map RunCsvRow.word_id (head merged_rows) in
    let last_id := option_map RunCsvRow.word_id (last merged_rows) in
    let check_max_id :=
      match RunBaseline.max_id baseline, last_id with
      | Some base_max, Some last_id =>
          if last_id <? base_max then
            Raise (RuntimeError (str "Guarded rewrite aborted for " ++ path
                     ++ str ": merged maxId " ++ str_of_int last_id ++ str " < baseline "
                     ++ str_of_int base_max))
          else Ok tt
      | _, _ => Ok tt
      end in
    match RunBaseline.min_id baseline, first_id with
    | Some base_min, Some first_id =>
        if base_min <? first_id then
          Raise (RuntimeError (str "Guarded rewrite aborted for " ++ path
                   ++ str ": merged minId " ++ str_of_int first_id ++ str " > baseline "
                   ++ str_of_int base_min))
        else check_max_id
    | _, _ => check_max_id
    end.

(** The table [merge_and_rewrite_atomic] is about to write: the rows on
    disk, overridden and extended by the rows in memory, by word id. *)
Definition merged_rows_of (fs : filesystem) (path : pystr) (in_memory_rows : list RunCsvRow.t)
    : result (list RunCsvRow.t) :=
  bind (load_run_rows fs path) (fun on_disk =>
    let merged := fold_left (fun d r => Dict.put d (RunCsvRow.word_id r) r) on_disk [] in
    let merged := fold_left (fun d r => Dict.put d (RunCsvRow.word_id r) r) in_memory_rows merged in
    Ok (sorted_by_word_id (Dict.values merged))).

Definition merge_and_rewrite_atomic (fs : filesystem) (path : pystr)
    (in_memory_rows : list RunCsvRow.t) (baseline : RunBaseline.t)
    : result unit * filesystem :=
  match merged_rows_of fs path in_memory_rows with
  | Raise e => (Raise e, fs)
  | Ok merged_rows =>
      match _assert_not_shrunk path merged_rows baseline with
      | Raise e => (Raise e, fs)
      | Ok _ => rewrite_run_rows_atomic fs path merged_rows
      end
  end.

End WithBuiltins.

(** A row that [load_run_rows] accepts and whose numbers are read back
    from their text, as Python's [int(str(n))] and [float(str(x))] give
    [n] and [x] back. *)
Definition reads_back (py : builtins) (r : RunCsvRow.t) : Prop :=
  int_of_str py (str_of_int (RunCsvRow.word_id r)) = Some (RunCsvRow.word_id r) /\
  int_of_str py (str_of_int (RunCsvRow.rarity_level r)) = Some (RunCsvRow.rarity_level r) /\
  float_of_str py (str_of_float py (RunCsvRow.confidence r)) = Some (RunCsvRow.confidence r) /\
  1 <= RunCsvRow.rarity_level r <= 5 /\
  out_of_unit_range (RunCsvRow.confidence r) = false /\
  strip py (RunCsvRow.word r) <> [] /\
  strip py (RunCsvRow.type r) <> [].

(** A run file of two rows and rows to merge into it. *)
Definition example_path : pystr := str "runs/a.csv".
Definition example_file : file :=
  [RUN_CSV_HEADERS;
   [str "1"; str "om"; str "N"; str "1"; str "common"; str "0.9"; str "t"; str "m"; str "r"];
   [str "2"; str "cal"; str "N"; str "2"; str "common"; str "0.8"; str "t"; str "m"; str "r"]].
Definition example_fs : filesystem := {[ example_path := example_file ]}.
Definition example_row : RunCsvRow.t :=
  RunCsvRow.mk 2 (str "cal") (str "N") 3 (str "rare") (Num (7 # 10)) (str "t2") (str "m") (str "r").

End run_csv_repository.

(** ** lm/request_builder.py, lm/model_profiles.py: what the client reads *)

Module ResponseFormatMode.
Inductive t : Type := NONE | JSON_OBJECT | JSON_SCHEMA.
Definition eqb (a b : t) : bool :=
  match a, b with
  | NONE, NONE | JSON_OBJECT, JSON_OBJECT | JSON_SCHEMA, JSON_SCHEMA => true
  | _, _ => false
  end.
End ResponseFormatMode.

Module JsonSchemaKind.
Inductive t : Type := SCORE_RESULTS | SELECTED_WORD_IDS.
End JsonSchemaKind.

Module LmApiFlavor.
Inductive t : Type := OPENAI_COMPAT | LMSTUDIO_REST.
End LmApiFlavor.

Module ScoringOutputMode.
Inductive t : Type := SCORE_RESULTS | SELECTED_WORD_IDS.
End ScoringOutputMode.

Module BatchAttempt.
Record t : Type := mk {
  scores : list ScoreResult.t;
  unresolved : list BaseWordRow.t;
  last_error : option pystr;
  connectivity_failure : bool
}.
End BatchAttempt.

Module model_profiles.

Definition MODEL_GPT_OSS_20B : pystr := str "openai/gpt-oss-20b".
Definition MODEL_GLM_47_FLASH : pystr := str "zai-org/glm-4.7-flash".

(** [resolve_model_config(model).has_reasoning_controls()]: of the
    registered profiles these two set a reasoning field; the other three
    and the fallback set none. *)
Definition has_reasoning_controls (py : builtins) (model : pystr) : bool :=
  let key := lower py (strip py model) in
  bool_decide (key = lower py MODEL_GPT_OSS_20B)
  || bool_decide (key = lower py MODEL_GLM_47_FLASH).

End model_profiles.

(** ** lm/client.py *)

Module client.

Definition MAX_RECURSION_DEPTH : nat := 10.
Definition SELECTION_REPAIR_MAX_RETRIES : Z := 1.
Definition MODEL_CRASH_BACKOFF_SECONDS : Z := 10.
Definition REBALANCE_TARGET_COUNT_PLACEHOLDER : pystr := str "{{TARGET_COUNT}}".
Definition REBALANCE_COMMON_COUNT_PLACEHOLDER : pystr := str "{{COMMON_COUNT}}".

Definition SELECTION_REPAIR_SYSTEM_PROMPT : pystr := str
"Ești selector lexical pentru limba română.
Alege cele mai comune intrări din listă (uz curent, vorbire de zi cu zi în România).

Răspunsul trebuie să fie STRICT JSON valid: un array de numere întregi.
Fiecare număr trebuie să fie un `local_id` din input.
Nu adăuga text extra, explicații, markdown sau blocuri de cod.
Nu inventa id-uri. Fără duplicate.
Evită termeni vulgari/obsceni când există alternative.".

Definition SELECTION_REPAIR_USER_TEMPLATE : pystr := str
"Returnează DOAR JSON valid: array de întregi `local_id`.
Fără text extra, fără markdown, fără blocuri de cod.
Selectează cele mai comune intrări din listă.
Numărul exact de id-uri este impus de schema JSON; respectă schema.

Input:
{{INPUT_JSON}}".

Record ScoringContext : Type := mkContext {
  run_slug : pystr;
  model : pystr;
  endpoint : pystr;
  max_retries : Z;
  timeout_seconds : Z;
  run_log_path : pystr;
  failed_log_path : pystr;
  system_prompt : pystr;
  user_template : pystr;
  flavor : LmApiFlavor.t;
  max_tokens : Z;
  allow_partial_results : bool;
  expected_json_items : option Z;
  output_mode : ScoringOutputMode.t;
  forced_rarity_level : option Z
}.

(** [dataclasses.replace] on the fields the client replaces. *)
Definition with_expected (ctx : ScoringContext) (expected : option Z) : ScoringContext :=
  mkContext (run_slug ctx) (model ctx) (endpoint ctx) (max_retries ctx) (timeout_seconds ctx)
    (run_log_path ctx) (failed_log_path ctx) (system_prompt ctx) (user_template ctx)
    (flavor ctx) (max_tokens ctx) (allow_partial_results ctx) expected
    (output_mode ctx) (forced_rarity_level ctx).

Definition repair_context (ctx : ScoringContext) : ScoringContext :=
  mkContext (run_slug ctx ++ str "_repair") (model ctx) (endpoint ctx)
    SELECTION_REPAIR_MAX_RETRIES (timeout_seconds ctx)
    (run_log_path ctx) (failed_log_path ctx)
    SELECTION_REPAIR_SYSTEM_PROMPT SELECTION_REPAIR_USER_TEMPLATE
    (flavor ctx) (max_tokens ctx) false (expected_json_items ctx)
    (output_mode ctx) (forced_rarity_level ctx).

Record CapabilityState : Type := mkCapability {
  response_format_mode : ResponseFormatMode.t;
  reasoning_controls_supported : bool
}.

(** What [build_request] is given, with the endpoint and the timeout of
    the POST: the request as the transport sees it. *)
Record Request : Type := mkRequest {
  rq_endpoint : pystr;
  rq_timeout_seconds : Z;
  rq_model : pystr;
  rq_batch : list BaseWordRow.t;
  rq_system_prompt : pystr;
  rq_user_template : pystr;
  rq_response_format_mode : ResponseFormatMode.t;
  rq_include_reasoning_controls : bool;
  rq_max_tokens : Z;
  rq_expected_items : option Z;
  rq_schema_kind : JsonSchemaKind.t
}.

(** The POST either gets a response or raises. *)
Inductive http_outcome : Type :=
  | Responded (status_code : Z) (text : pystr)
  | Failed (exc : exn).

(** The lines appended to the run log and to the failed-words log (the
    time stamp and the echoed request and response are left out). *)
Inductive log_line : Type :=
  | AttemptParsed (run : pystr) (attempt batch_size parsed_count unresolved_count : Z)
      (disable_after_partial : bool) (mode : ResponseFormatMode.t) (reasoning : bool)
  | AttemptFailed (run : pystr) (attempt batch_size : Z) (error : pystr)
      (connectivity_failure unsupported_response_format switch_to_json_schema
       unsupported_reasoning_controls empty_parsed_results : bool)
      (mode : ResponseFormatMode.t) (reasoning model_crash : bool)
  | FailedWord (run : pystr) (word : BaseWordRow.t) (error : pystr)
      (last_error : option pystr).

(** The client object and what it has done to the world: the capability
    state, every value that was assigned to it (oldest first, starting
    with the initial one), the number of requests sent, the log lines with
    their file, and the seconds slept. *)
Record state : Type := mkState {
  capability_state : CapabilityState;
  capability_history : list CapabilityState;
  requests_sent : nat;
  log_lines : list (pystr * log_line);
  slept : Z
}.

(** [LmStudioClient.__init__] *)
Definition __init__ : state :=
  let initial := mkCapability ResponseFormatMode.JSON_OBJECT true in
  mkState initial [initial] 0 [] 0.

Definition set_capability (st : state) (c : CapabilityState) : state :=
  mkState c (capability_history st ++ [c]) (requests_sent st) (log_lines st) (slept st).

Definition _append_json_line (st : state) (path : pystr) (line : log_line) : state :=
  mkState (capability_state st) (capability_history st) (requests_sent st)
    (log_lines st ++ [(path, line)]) (slept st).

Definition sleep (st : state) (seconds : Z) : state :=
  mkState (capability_state st) (capability_history st) (requests_sent st)
    (log_lines st) (slept st + seconds).

Definition count_request (st : state) : state :=
  mkState (capability_state st) (capability_history st) (S (requests_sent st))
    (log_lines st) (slept st).

Definition _mark_response_format_json_schema (st : state) : state :=
  match response_format_mode (capability_state st) with
  | ResponseFormatMode.JSON_SCHEMA => st
  | _ =>
      set_capability st
        (mkCapability ResponseFormatMode.JSON_SCHEMA
           (reasoning_controls_supported (capability_state st)))
  end.

Definition _mark_response_format_disabled (st : state) : state :=
  match response_format_mode (capability_state st) with
  | ResponseFormatMode.NONE => st
  | _ =>
      set_capability st
        (mkCapability ResponseFormatMode.NONE
           (reasoning_controls_supported (capability_state st)))
  end.

Definition _mark_reasoning_controls_unsupported (st : state) : state :=
  if reasoning_controls_supported (capability_state st) then
    set_capability st
      (mkCapability (response_format_mode (capability_state st)) false)
  else st.

Definition _response_format_mode_for (st : state) (flavor : LmApiFlavor.t)
    : ResponseFormatMode.t :=
  match flavor with
  | LmApiFlavor.OPENAI_COMPAT => response_format_mode (capability_state st)
  | _ => ResponseFormatMode.NONE
  end.

Definition _compute_split_expected := SplitExpected._compute_split_expected.

(** [max(1, int(batch_size * 0.2 + 0.9999))] *)
Definition _should_disable_response_format_after_partial_schema_parse
    (batch_size unresolved_count : Z) : bool :=
  if (batch_size <=? 0) || (unresolved_count <=? 0) then false
  else
    let threshold := Z.max 1 ((batch_size * 2000 + 9999) / 10000) in
    threshold <=? unresolved_count.

Section WithRuntime.
Variable py : builtins.

Definition _error_text (exc : exn) : pystr := lower py (exn_message exc).

Definition _is_connectivity_failure (exc : exn) : bool :=
  match exc with
  | Timeout _ | ConnectionError _ => true
  | _ =>
      let msg := lower py (exn_message exc) in
      contains (str "timed out") msg || contains (str "connection refused") msg
      || contains (str "couldn't connect") msg
  end.

Definition _is_model_crash (exc : exn) : bool :=
  let msg := lower py (exn_message exc) in
  (contains (str "model") msg && contains (str "crash") msg) || contains (str "exit code") msg.

Definition any_in (tokens : list pystr) (text : pystr) : bool :=
  existsb (fun tok => contains tok text) tokens.

Definition _is_unsupported_response_format (exc : exn) : bool :=
  let text := _error_text exc in
  if negb (contains (str "response_format") text) then false
  else any_in [str "unsupported"; str "unknown"; str "must be"; str "json_schema";
               str "json object"] text.

Definition _should_switch_to_json_schema (exc : exn) : bool :=
  let text := _error_text exc in
  contains (str "response_format") text && contains (str "must be") text
  && contains (str "json_schema") text.

Definition _is_unsupported_reasoning_controls (exc : exn) : bool :=
  let text := _error_text exc in
  if negb (any_in [str "reasoning_effort"; str "thinking"; str "chat_template_kwargs";
                   str "enable_thinking"] text) then false
  else any_in [str "unsupported"; str "unknown"; str "unexpected"; str "invalid"] text.

Definition _is_empty_parsed_results (exc : exn) : bool :=
  contains (str "no valid results parsed from 0 result nodes") (_error_text exc).

Definition _is_selection_count_mismatch (last_error : option pystr) : bool :=
  let text := lower py (default [] last_error) in
  contains (str "expected exactly") text && contains (str "selected") text.

Definition _should_include_reasoning_controls (st : state) (flavor : LmApiFlavor.t)
    (model : pystr) : bool :=
  match flavor with
  | LmApiFlavor.OPENAI_COMPAT =>
      if negb (model_profiles.has_reasoning_controls py model) then false
      else reasoning_controls_supported (capability_state st)
  | _ => false
  end.

Definition _apply_selection_count_placeholders (prompt : pystr) (expected : Z) : pystr :=
  replace REBALANCE_COMMON_COUNT_PLACEHOLDER (str_of_int expected)
    (replace REBALANCE_TARGET_COUNT_PLACEHOLDER (str_of_int expected) prompt).

Definition _resolve_selection_prompt_counts (ctx : ScoringContext) : pystr * pystr :=
  match output_mode ctx, expected_json_items ctx with
  | ScoringOutputMode.SELECTED_WORD_IDS, Some expected =>
      (_apply_selection_count_placeholders (system_prompt ctx) expected,
       _apply_selection_count_placeholders (user_template ctx) expected)
  | _, _ => (system_prompt ctx, user_template ctx)
  end.

(** The injected collaborators: the HTTP transport, which answers the
    [n]-th request of the process, and the response parser. *)
Variable post_json : nat -> Request -> http_outcome.
Variable parse :
  list BaseWordRow.t -> pystr -> ScoringOutputMode.t -> option Z -> option Z ->
  result ParsedBatch.t.

(** The [try] block of one attempt: send, check the status, parse. *)
Definition attempt_once (st : state) (request : Request) (batch : list BaseWordRow.t)
    (ctx : ScoringContext) : result ParsedBatch.t :=
  match post_json (requests_sent st) request with
  | Failed exc => Raise exc
  | Responded status_code text =>
      if (status_code <? 200) || (299 <? status_code) then
        Raise (RuntimeError (str "HTTP " ++ str_of_int status_code ++ str ": " ++ text))
      else parse batch text (output_mode ctx) (forced_rarity_level ctx) (expected_json_items ctx)
  end.

(** The loop [for attempt in range(ctx.max_retries)] of [_try_score_batch],
    with [remaining] passes to go; the local variables are arguments. *)
Fixpoint retry_loop (remaining : nat) (attempt : Z)
    (batch : list BaseWordRow.t) (ctx : ScoringContext)
    (response_format_mode : ResponseFormatMode.t) (include_reasoning_controls : bool)
    (last_error : option pystr) (saw_only_connectivity_failures : bool)
    (st : state) : BatchAttempt.t * state :=
  match remaining with
  | O => (BatchAttempt.mk [] batch last_error saw_only_connectivity_failures, st)
  | S remaining =>
      let '(resolved_system_prompt, resolved_user_template) :=
        _resolve_selection_prompt_counts ctx in
      let schema_kind :=
        match output_mode ctx with
        | ScoringOutputMode.SCORE_RESULTS => JsonSchemaKind.SCORE_RESULTS
        | _ => JsonSchemaKind.SELECTED_WORD_IDS
        end in
      let request :=
        mkRequest (endpoint ctx) (timeout_seconds ctx) (model ctx) batch
          resolved_system_prompt resolved_user_template
          response_format_mode include_reasoning_controls
          (max_tokens ctx) (expected_json_items ctx) schema_kind in
      let tried := attempt_once st request batch ctx in
      let st := count_request st in
      match tried with
      | Ok parsed =>
          let disable_after_partial :=
            ResponseFormatMode.eqb response_format_mode ResponseFormatMode.JSON_SCHEMA
            && _should_disable_response_format_after_partial_schema_parse
                 (len batch) (len (ParsedBatch.unresolved parsed)) in
          let st := if disable_after_partial then _mark_response_format_disabled st else st in
          let response_format_mode :=
            if disable_after_partial then ResponseFormatMode.NONE else response_format_mode in
          let st :=
            _append_json_line st (run_log_path ctx)
              (AttemptParsed (run_slug ctx) (attempt + 1) (len batch)
                 (len (ParsedBatch.scores parsed)) (len (ParsedBatch.unresolved parsed))
                 disable_after_partial response_format_mode include_reasoning_controls) in
          (BatchAttempt.mk (ParsedBatch.scores parsed) (ParsedBatch.unresolved parsed)
             None false, st)
      | Raise exc =>
          let last_error := exn_message exc in
          let connectivity_failure := _is_connectivity_failure exc in
          let unsupported_response_format :=
            negb (ResponseFormatMode.eqb response_format_mode ResponseFormatMode.NONE)
            && _is_unsupported_response_format exc in
          let should_switch_schema :=
            ResponseFormatMode.eqb response_format_mode ResponseFormatMode.JSON_OBJECT
            && _should_switch_to_json_schema exc in
          let unsupported_reasoning_controls :=
            include_reasoning_controls && _is_unsupported_reasoning_controls exc in
          let empty_parsed :=
            ResponseFormatMode.eqb response_format_mode ResponseFormatMode.JSON_SCHEMA
            && _is_empty_parsed_results exc in
          let model_crash := _is_model_crash exc in
          let saw_only_connectivity_failures :=
            if negb connectivity_failure then false else saw_only_connectivity_failures in
          let st :=
            _append_json_line st (run_log_path ctx)
              (AttemptFailed (run_slug ctx) (attempt + 1) (len batch) last_error
                 connectivity_failure unsupported_response_format should_switch_schema
                 unsupported_reasoning_controls empty_parsed
                 response_format_mode include_reasoning_controls model_crash) in
          let '(st, response_format_mode) :=
            if should_switch_schema then
              (_mark_response_format_json_schema st, ResponseFormatMode.JSON_SCHEMA)
            else if unsupported_response_format || empty_parsed then
              (_mark_response_format_disabled st, ResponseFormatMode.NONE)
            else (st, response_format_mode) in
          let '(st, include_reasoning_controls) :=
            if unsupported_reasoning_controls then
              (_mark_reasoning_controls_unsupported st, false)
            else (st, include_reasoning_controls) in
          let st :=
            if model_crash then sleep st (MODEL_CRASH_BACKOFF_SECONDS * (attempt + 1)) else st in
          retry_loop remaining (attempt + 1) batch ctx response_format_mode
            include_reasoning_controls (Some last_error) saw_only_connectivity_failures st
      end
  end.

Definition _try_score_batch (batch : list BaseWordRow.t) (ctx : ScoringContext) (st : state)
    : BatchAttempt.t * state :=
  retry_loop (Z.to_nat (max_retries ctx)) 0 batch ctx
    (_response_format_mode_for st (flavor ctx))
    (_should_include_reasoning_controls st (flavor ctx) (model ctx))
    None true st.

Definition _log_failed_word (st : state) (ctx : ScoringContext) (word : BaseWordRow.t)
    (error : pystr) (last_error : option pystr) : state :=
  _append_json_line st (failed_log_path ctx) (FailedWord (run_slug ctx) word error last_error).

Definition _try_selection_repair_before_split (batch : list BaseWordRow.t)
    (ctx : ScoringContext) (st : state) : option (list ScoreResult.t) * state :=
  match expected_json_items ctx with
  | None => (None, st)
  | Some expected =>
      if (expected <=? 0) || (len batch <=? expected) then (None, st)
      else
        let '(repaired, st) := _try_score_batch batch (repair_context ctx) st in
        if BatchAttempt.connectivity_failure repaired then (None, st)
        else
          match BatchAttempt.unresolved repaired with
          | _ :: _ => (None, st)
          | [] =>
              if negb (len (BatchAttempt.scores repaired) =? expected) then (None, st)
              else (Some (BatchAttempt.scores repaired), st)
          end
  end.

Definition connectivity_message (ctx : ScoringContext) (last_error : option pystr) : pystr :=
  str "LM request failed due connectivity/timeout at " ++ endpoint ctx ++ str ": "
  ++ default (str "None") last_error.

(** The contexts of the two halves of a bisected batch. *)
Definition split_contexts (ctx : ScoringContext) (left_size total_size : Z)
    : result (ScoringContext * ScoringContext) :=
  match output_mode ctx with
  | ScoringOutputMode.SELECTED_WORD_IDS =>
      match expected_json_items ctx with
      | None =>
          Raise (ValueError (str "expected_json_items is required for selected-id mode"))
      | Some total_expected =>
          let left_expected := _compute_split_expected total_expected left_size total_size in
          let right_expected := total_expected - left_expected in
          Ok (with_expected ctx (Some left_expected), with_expected ctx (Some right_expected))
      end
  | _ => Ok (ctx, ctx)
  end.

(** The selection-mode entry checks: a result without any request. *)
Definition selection_shortcut (batch : list BaseWordRow.t) (ctx : ScoringContext)
    : option (result (list ScoreResult.t)) :=
  match output_mode ctx with
  | ScoringOutputMode.SELECTED_WORD_IDS =>
      match expected_json_items ctx, forced_rarity_level ctx with
      | None, _ =>
          Some (Raise (ValueError (str "expected_json_items is required for selected-id mode")))
      | Some _, None =>
          Some (Raise (ValueError (str "forced_rarity_level is required for selected-id mode")))
      | Some expected, Some forced =>
          if expected <=? 0 then Some (Ok [])
          else if len batch <=? expected then
            Some (Ok (map (fun row =>
                             ScoreResult.mk (BaseWordRow.word_id row)
                               (BaseWordRow.word row) (BaseWordRow.type row)
                               forced (str "common") (9 # 10)) batch))
          else None
      end
  | _ => None
  end.

(** The stricter attempt after a selection count mismatch. *)
Definition repair_after_count_mismatch (batch : list BaseWordRow.t) (ctx : ScoringContext)
    (direct : BatchAttempt.t) (st : state) : option (list ScoreResult.t) * state :=
  match output_mode ctx with
  | ScoringOutputMode.SELECTED_WORD_IDS =>
      if _is_selection_count_mismatch (BatchAttempt.last_error direct)
      then _try_selection_repair_before_split batch ctx st
      else (None, st)
  | _ => (None, st)
  end.

(** [_score_batch_resilient_internal], by recursion on the depth that is
    left: [budget] is [MAX_RECURSION_DEPTH - depth], so [budget = 0] is the
    test [depth >= MAX_RECURSION_DEPTH]. *)
Fixpoint _score_batch_resilient_internal (budget : nat) (batch : list BaseWordRow.t)
    (ctx : ScoringContext) (st : state) : result (list ScoreResult.t) * state :=
  match budget with
  | O =>
      (Ok [],
       fold_left
         (fun st word =>
            _log_failed_word st ctx word (str "max_recursion_depth_exceeded") None)
         batch st)
  | S budget =>
      match selection_shortcut batch ctx with
      | Some r => (r, st)
      | None =>
          let '(direct, st) := _try_score_batch batch ctx st in
          if BatchAttempt.connectivity_failure direct then
            (Raise (RuntimeError (connectivity_message ctx (BatchAttempt.last_error direct))), st)
          else
            match BatchAttempt.scores direct with
            | _ :: _ =>
                if allow_partial_results ctx then (Ok (BatchAttempt.scores direct), st)
                else
                  match BatchAttempt.unresolved direct with
                  | [] => (Ok (BatchAttempt.scores direct), st)
                  | unresolved =>
                      match _score_batch_resilient_internal budget unresolved ctx st with
                      | (Ok retried, st) => (Ok (BatchAttempt.scores direct ++ retried), st)
                      | (Raise e, st) => (Raise e, st)
                      end
                  end
            | [] =>
                let '(repaired, st) := repair_after_count_mismatch batch ctx direct st in
                match repaired with
                | Some scores => (Ok scores, st)
                | None =>
                    if len batch =? 1 then
                      (Ok [],
                       match batch with
                       | word :: _ =>
                           _log_failed_word st ctx word (str "batch_failed_after_retries")
                             (BatchAttempt.last_error direct)
                       | [] => st
                       end)
                    else
                      let split_idx := Z.to_nat (len batch / 2) in
                      let left_batch := take split_idx batch in
                      let right_batch := drop split_idx batch in
                      match split_contexts ctx (len left_batch) (len batch) with
                      | Raise e => (Raise e, st)
                      | Ok (left_ctx, right_ctx) =>
                          match _score_batch_resilient_internal budget left_batch left_ctx st
                          with
                          | (Raise e, st) => (Raise e, st)
                          | (Ok left_scores, st) =>
                              match _score_batch_resilient_internal budget right_batch
                                      right_ctx st with
                              | (Raise e, st) => (Raise e, st)
                              | (Ok right_scores, st) => (Ok (left_scores ++ right_scores), st)
                              end
                          end
                      end
                end
            end
      end
  end.

Definition score_batch_resilient (batch : list BaseWordRow.t) (context : ScoringContext)
    (st : state) : result (list ScoreResult.t) * state :=
  _score_batch_resilient_internal MAX_RECURSION_DEPTH batch context st.

(** A process that scores one batch after the other and goes on after a
    failed call. *)
Definition run_session (calls : list (list BaseWordRow.t * ScoringContext)) (st : state)
    : state :=
  fold_left (fun st call => snd (score_batch_resilient (fst call) (snd call) st)) calls st.

End WithRuntime.



(** A scenario: a batch of two words is scored with one attempt per
    batch; the first response is not JSON and the parser rejects it, the
    second request times out. *)
Definition scenario_batch : list BaseWordRow.t :=
  [BaseWordRow.mk 1 (str "om") (str "N"); BaseWordRow.mk 2 (str "cal") (str "N")].
Definition scenario_context : ScoringContext :=
  mkContext (str "run") (str "m") (str "http://127.0.0.1:1234/v1/chat/completions") 1 300
    (str "run.jsonl") (str "failed.jsonl") (str "system") (str "user")
    LmApiFlavor.OPENAI_COMPAT 8000 false None ScoringOutputMode.SCORE_RESULTS None.
Definition scenario_parse (batch : list BaseWordRow.t) (body : pystr)
    (mode : ScoringOutputMode.t) (forced expected : option Z) : result ParsedBatch.t :=
  Raise (RuntimeError (str "LM content is not valid JSON. Excerpt: " ++ body)).



(** The order in which the response format may only move. *)
Definition mode_rank (m : ResponseFormatMode.t) : Z :=
  match m with
  | ResponseFormatMode.JSON_OBJECT => 0
  | ResponseFormatMode.JSON_SCHEMA => 1
  | ResponseFormatMode.NONE => 2
  end.

(** One assignment to the capability state that narrows it: the format
    moves forward and the reasoning flag stays, or the flag is cleared and
    the format stays. *)
Definition narrows (a b : CapabilityState) : Prop :=
  (mode_rank (response_format_mode a) < mode_rank (response_format_mode b) /\
   reasoning_controls_supported b = reasoning_controls_supported a) \/
  (response_format_mode b = response_format_mode a /\
   reasoning_controls_supported a = true /\ reasoning_controls_supported b = false).

(** Every element is related to the next one. *)
Fixpoint chain {A} (R : A -> A -> Prop) (l : list A) : Prop :=
  match l with
  | a :: (b :: _) as rest => R a b /\ chain R rest
  | _ => True
  end.

(** The recorded assignments start at the initial state, end at the
    current one and each narrows the one before. *)
Definition history_ok (st : state) : Prop :=
  head (capability_history st) = Some (capability_state __init__) /\
  last (capability_history st) = Some (capability_state st) /\
  chain narrows (capability_history st).

(** The local [response_format_mode] of a retry loop is the negotiated
    one, or [NONE] for an endpoint of the other flavor. *)
Definition mode_in_sync (local : ResponseFormatMode.t) (st : state) : Prop :=
  local = ResponseFormatMode.NONE \/ local = response_format_mode (capability_state st).

(** The row has a score among [scores]. *)
Definition scored_in (scores : list ScoreResult.t) (row : BaseWordRow.t) : Prop :=
  exists s,
    s ∈ scores /\
    ScoreResult.word_id s = BaseWordRow.word_id row /\
    ScoreResult.word s = BaseWordRow.word row /\
    ScoreResult.type s = BaseWordRow.type row.

(** A parser that, in score mode, leaves no row of the batch out: each
    row is scored or handed back as unresolved. *)
Definition parser_covers
    (parse : list BaseWordRow.t -> pystr -> ScoringOutputMode.t -> option Z -> option Z ->
             result ParsedBatch.t) : Prop :=
  forall batch body forced expected parsed,
    parse batch body ScoringOutputMode.SCORE_RESULTS forced expected = Ok parsed ->
    forall row, row ∈ batch ->
      scored_in (ParsedBatch.scores parsed) row \/ row ∈ ParsedBatch.unresolved parsed.

(** The word is on record in the failed-words log. *)
Definition logged_as_failed (ctx : ScoringContext) (st : state) (row : BaseWordRow.t) : Prop :=
  exists error last_error,
    (failed_log_path ctx, FailedWord (run_slug ctx) row error last_error) ∈ log_lines st.

End client.

(** ** transitions.py and distribution.py *)

Module transitions.

Record LevelTransition : Type := mk {
  from_level : Z;
  to_level : Z;
  from_level_upper : option Z
}.

Definition source_levels (t : LevelTransition) : list Z :=
  match from_level_upper t with
  | None => [from_level t]
  | Some upper => [from_level t; upper]
  end.

Definition describe_sources (t : LevelTransition) : pystr :=
  match from_level_upper t with
  | None => str_of_int (from_level t)
  | Some upper => str_of_int (from_level t) ++ str "-" ++ str_of_int upper
  end.

Definition other_level (t : LevelTransition) : result Z :=
  match from_level_upper t with
  | Some _ =>
      match List.find (fun level => negb (level =? to_level t)) (source_levels t) with
      | Some level => Ok level
      | None => Raise (ValueError (str "Invalid pair transition"))
      end
  | None =>
      if to_level t =? from_level t then Ok (Z.min 5 (to_level t + 1))
      else Ok (from_level t)
  end.

Definition in_1_5 (level : Z) : bool := (1 <=? level) && (level <=? 5).

Definition require_valid_transition (from_level to_level : Z) : result unit :=
  let valid_range := in_1_5 from_level && in_1_5 to_level in
  let valid_relation := (to_level =? from_level - 1) || (to_level =? from_level) in
  let invalid_top_self_split := (from_level =? 5) && (to_level =? 5) in
  if valid_range && valid_relation && negb invalid_top_self_split then Ok tt
  else Raise (ValueError
                (str "Invalid transition '" ++ str_of_int from_level ++ str ":"
                 ++ str_of_int to_level
                 ++ str "'. Allowed: one-step downgrade (3:2) or keep+promote split (2:2); 5:5 forbidden.")).

Definition require_valid_pair_transition (from_lower from_upper to_level : Z) : result unit :=
  if negb (in_1_5 from_lower && in_1_5 from_upper && in_1_5 to_level) then
    Raise (ValueError (str "Pair transition levels must be in 1..5"))
  else if negb (from_upper =? from_lower + 1) then
    Raise (ValueError (str "Pair transition source levels must be consecutive"))
  else if negb ((to_level =? from_lower) || (to_level =? from_upper)) then
    Raise (ValueError (str "Pair transition target must be one of the source levels"))
  else Ok tt.

(** The transition passes the check its constructor in [parse_transitions]
    is guarded by. *)
Definition valid (t : LevelTransition) : Prop :=
  match from_level_upper t with
  | None => require_valid_transition (from_level t) (to_level t) = Ok tt
  | Some upper => require_valid_pair_transition (from_level t) upper (to_level t) = Ok tt
  end.

(** One pass of the inner loop of [validate_transition_set]: [seen] maps
    a level to the index of the last transition that listed it. *)
Definition note_level (idx : nat) (st : gmap Z nat * gset Z) (level : Z)
    : gmap Z nat * gset Z :=
  let '(seen, duplicates) := st in
  let duplicates :=
    match seen !! level with
    | Some other => if bool_decide (other <> idx) then duplicates ∪ {[level]} else duplicates
    | None => duplicates
    end in
  (<[level := idx]> seen, duplicates).

Definition scan_transitions (transitions : list LevelTransition) : gmap Z nat * gset Z :=
  fold_left (fun st it => fold_left (note_level (fst it)) (source_levels (snd it)) st)
            (enumerate 0 transitions) (∅, ∅).

(** [", ".join(parts)] *)
Fixpoint join_comma_space (parts : list pystr) : pystr :=
  match parts with
  | [] => []
  | [p] => p
  | p :: rest => p ++ str ", " ++ join_comma_space rest
  end.

Definition validate_transition_set (transitions : list LevelTransition) : result unit :=
  match transitions with
  | [] => Raise (ValueError (str "At least one transition is required"))
  | _ :: _ =>
      let '(_, duplicates) := scan_transitions transitions in
      if bool_decide (duplicates = ∅) then Ok tt
      else
        let dup := join_comma_space (map str_of_int (merge_sort Z.le (elements duplicates))) in
        Raise (ValueError (str "Transitions must not overlap source levels: " ++ dup))
  end.

(** The pairs (index, level) the two loops of [validate_transition_set]
    go through, in order. *)
Definition listed_levels (items : list (nat * LevelTransition)) : list (nat * Z) :=
  flat_map (fun it => map (pair (fst it)) (source_levels (snd it))) items.

(** What the loops keep true of [seen] and [duplicates] once the pairs
    [done] are read. *)
Definition scan_ok (done : list (nat * Z)) (st : gmap Z nat * gset Z) : Prop :=
  (forall level k, fst st !! level = Some k -> (k, level) ∈ done) /\
  (forall level, fst st !! level = None -> forall i, (i, level) ∉ done) /\
  (forall level, level ∈ snd st <->
     exists i j, i <> j /\ (i, level) ∈ done /\ (j, level) ∈ done).

End transitions.

Module RarityDistribution.

(** [self._counts], six counters of which index 0 is unused. *)
Definition t : Type := list Z.

Definition __init__ : t := [0; 0; 0; 0; 0; 0].

Definition count (d : t) (level : Z) : Z := nth (Z.to_nat level) d 0.

Definition add_at (d : t) (level : Z) (delta : Z) : t :=
  <[Z.to_nat level := count d level + delta]> d.

Definition increment (d : t) (level : Z) : t :=
  if (1 <=? level) && (level <=? 5) then add_at d level 1 else d.

Definition from_levels (levels : list Z) : t := fold_left increment levels __init__.

Definition set_level (d : t) (previous_level : option Z) (new_level : Z) : t :=
  let d :=
    match previous_level with
    | Some previous =>
        if (1 <=? previous) && (previous <=? 5) && (0 <? count d previous)
        then add_at d previous (-1) else d
    | None => d
    end in
  if (1 <=? new_level) && (new_level <=? 5) then add_at d new_level 1 else d.

End RarityDistribution.

(** ** steps/step5_rebalance.py *)

Module step5_rebalance.
Import transitions.

Definition REBALANCE_FROM_LEVEL_PLACEHOLDER : pystr := str "{{FROM_LEVEL}}".
Definition REBALANCE_TO_LEVEL_PLACEHOLDER : pystr := str "{{TO_LEVEL}}".
Definition REBALANCE_OTHER_LEVEL_PLACEHOLDER : pystr := str "{{OTHER_LEVEL}}".
Definition REBALANCE_COMMON_LEVEL_PLACEHOLDER : pystr := str "{{COMMON_LEVEL}}".

Record Step5Options : Type := mkOptions {
  run_slug : pystr;
  model : pystr;
  batch_size : Z;
  lower_ratio : Q;
  max_retries : Z;
  timeout_seconds : Z;
  max_tokens : Z;
  system_prompt : pystr;
  user_template : pystr
}.

Record RebalanceWord : Type := mkWord { word_id : Z; word : pystr; type : pystr }.

Record RebalanceDataset : Type := mkDataset {
  words_by_id : Dict.t RebalanceWord;
  dataset_levels_by_id : gmap Z Z
}.

Record RebalanceRuntime : Type := mkRuntime {
  levels_by_id : gmap Z Z;
  distribution : RarityDistribution.t;
  rebalance_rules : gmap Z pystr;
  processed_word_ids : gset Z
}.

Record ResolvedEndpoint : Type := mkEndpoint {
  endpoint : pystr;
  endpoint_flavor : LmApiFlavor.t
}.

Record Step5Logs : Type := mkLogs {
  run_log_path : pystr;
  failed_log_path : pystr;
  switched_words_log_path : pystr;
  checkpoint_path : pystr;
  progress_log_path : pystr
}.

Record SwitchedWordEvent : Type := mkEvent {
  ev_word_id : Z;
  ev_word : pystr;
  ev_type : pystr;
  previous_level : Z;
  next_level : Z;
  rule : pystr;
  selected_by_llm : bool
}.

Record TransitionSummary : Type := mkSummary {
  transition : LevelTransition;
  eligible : Z;
  target_assigned : Z;
  switched_count : Z
}.

(** A line of the checkpoint log and a line of the progress log (without
    the time stamp; of the progress line the words are left out, the ids
    are kept). *)
Record checkpoint_line : Type := mkCheckpoint {
  cp_transition : pystr;
  cp_processed_word_ids : list Z;
  cp_switched : list (Z * Z * pystr)
}.

Record progress_line : Type := mkProgress {
  pr_transition : pystr;
  pr_batch_index : Z;
  pr_batch_size : Z;
  pr_processed : Z;
  pr_eligible_total : Z;
  pr_remaining : Z;
  pr_target_assigned : Z;
  pr_target_expected_total : Z;
  pr_batch_target : Z;
  pr_batch_mix : pystr;
  pr_selected_common_level : Z;
  pr_selected_common_word_ids : list Z;
  pr_picked_target_level : Z;
  pr_picked_target_word_ids : list Z;
  pr_distribution : list Z
}.

Definition _compute_adaptive_target_count
    (processed_before_batch assigned_before_batch batch_size : Z) (ratio : Q)
    (expected_total : Z) : Z :=
  if batch_size <=? 0 then 0
  else
    let processed_after := processed_before_batch + batch_size in
    let desired_cumulative := round_mul processed_after ratio in
    let desired_cumulative := Z.max 0 (Z.min expected_total desired_cumulative) in
    let delta := desired_cumulative - assigned_before_batch in
    Z.max 0 (Z.min batch_size delta).

(** [sorted(ids)] *)
Fixpoint insert_sorted (x : Z) (l : list Z) : list Z :=
  match l with
  | [] => [x]
  | y :: rest => if x <? y then x :: l else y :: insert_sorted x rest
  end.
Definition sorted (l : list Z) : list Z := fold_left (fun acc x => insert_sorted x acc) l [].

Definition _format_batch_source_mix (batch : list RebalanceWord) (runtime : RebalanceRuntime)
    : pystr :=
  let counts : Dict.t Z :=
    fold_left
      (fun counts w =>
         let lvl := default (-1) (levels_by_id runtime !! word_id w) in
         Dict.put counts lvl (default 0 (Dict.get counts lvl) + 1))
      batch [] in
  let parts :=
    map (fun lvl => str_of_int lvl ++ str ":" ++ str_of_int (default 0 (Dict.get counts lvl)))
        (sorted (Dict.keys counts)) in
  let fix join (parts : list pystr) : pystr :=
    match parts with
    | [] => []
    | [p] => p
    | p :: rest => p ++ str " " ++ join rest
    end in
  str "[" ++ join parts ++ str "]".

Definition _render_template (template : pystr) (t : LevelTransition) (common_level : Z)
    : result pystr :=
  let source_label := describe_sources t in
  bind (other_level t)
    (fun other =>
       Ok (replace REBALANCE_COMMON_LEVEL_PLACEHOLDER (str_of_int common_level)
             (replace REBALANCE_OTHER_LEVEL_PLACEHOLDER (str_of_int other)
                (replace REBALANCE_TO_LEVEL_PLACEHOLDER (str_of_int (to_level t))
                   (replace REBALANCE_FROM_LEVEL_PLACEHOLDER source_label template))))).

(** [len(remaining_by_source_level.get(level, []))] *)
Definition available (remaining : Dict.t (list RebalanceWord)) (level : Z) : Z :=
  len (default [] (Dict.get remaining level)).

(** [quotas.get(level, 0)] *)
Definition quota (quotas : Dict.t Z) (level : Z) : Z := default 0 (Dict.get quotas level).

(** [sum(f(level) for level in levels)] *)
Definition sum_over (f : Z -> Z) (levels : list Z) : Z :=
  fold_left (fun acc level => acc + f level) levels 0.

(** [sum(len(remaining.get(level, [])) for level in source_levels)] *)
Definition total_remaining (source_levels : list Z) (remaining : Dict.t (list RebalanceWord))
    : Z :=
  fold_left (fun acc level => acc + available remaining level) source_levels 0.

(** [sorted(levels, key=..., reverse=True)] for a key given by its
    numerator over a common positive denominator: descending and stable. *)
Fixpoint insert_descending (key : Z -> Z) (x : Z) (l : list Z) : list Z :=
  match l with
  | [] => [x]
  | y :: rest => if key y <? key x then x :: l else y :: insert_descending key x rest
  end.
Definition sorted_descending (key : Z -> Z) (l : list Z) : list Z :=
  fold_left (fun acc x => insert_descending key x acc) l [].

(** The integer parts of the proportional quotas:
    [quotas[level] = int(batch_size * (count / total_initial))]. *)
Definition integer_quotas (source_levels : list Z) (initial_source_counts : Dict.t Z)
    (batch_size total_initial : Z) : Dict.t Z :=
  fold_left
    (fun q level =>
       Dict.put q level
         (Z.quot (batch_size * quota initial_source_counts level) total_initial))
    source_levels [].

(** The loop [for level in fractions] that hands out the units left. *)
Definition hand_out (fractions : list Z) (quotas : Dict.t Z) (unassigned : Z)
    : Dict.t Z * Z :=
  fold_left
    (fun '(q, unassigned) level =>
       if unassigned <=? 0 then (q, unassigned)
       else (Dict.put q level (quota q level + 1), unassigned - 1))
    fractions (quotas, unassigned).

(** The proportional quotas of two or more source levels: the integer
    parts, then one more for the largest fractions while units are left. *)
Definition proportional_quotas (source_levels : list Z) (initial_source_counts : Dict.t Z)
    (batch_size : Z) : result (Dict.t Z) :=
  let total_initial := fold_left Z.add (Dict.values initial_source_counts) 0 in
  if total_initial =? 0 then Raise (ZeroDivisionError (str "float division by zero"))
  else
    let quotas := integer_quotas source_levels initial_source_counts batch_size total_initial in
    let unassigned := batch_size - fold_left Z.add (Dict.values quotas) 0 in
    let fractions :=
      sorted_descending
        (fun level =>
           batch_size * quota initial_source_counts level - quota quotas level * total_initial)
        source_levels in
    Ok (fst (hand_out fractions quotas unassigned)).

(** The loop that caps each quota by the stock of its level. *)
Definition cap_quotas (source_levels : list Z) (remaining : Dict.t (list RebalanceWord))
    (quotas : Dict.t Z) : Dict.t Z * Z :=
  fold_left
    (fun '(q, missing) level =>
       let avail := available remaining level in
       let planned := quota q level in
       if avail <? planned then (Dict.put q level avail, missing + (planned - avail))
       else (q, missing))
    source_levels (quotas, 0).

(** [max(candidates, key=...)]: the first of the greatest. *)
Fixpoint first_max (key : Z -> Z) (best : Z) (rest : list Z) : Z :=
  match rest with
  | [] => best
  | x :: rest => first_max key (if key best <? key x then x else best) rest
  end.

(** The loop [while missing > 0] that hands the missing units to levels
    with stock left; every pass lowers [missing]. *)
Fixpoint backfill (passes : nat) (source_levels : list Z)
    (remaining : Dict.t (list RebalanceWord)) (quotas : Dict.t Z) (missing : Z) : Dict.t Z :=
  match passes with
  | O => quotas
  | S passes =>
      if missing <=? 0 then quotas
      else
        match List.filter (fun level => quota quotas level <? available remaining level)
                source_levels with
        | [] => quotas
        | c :: candidates =>
            let candidate :=
              first_max (fun level => available remaining level - quota quotas level)
                c candidates in
            backfill passes source_levels remaining
              (Dict.put quotas candidate (quota quotas candidate + 1)) (missing - 1)
        end
  end.

(** [take] times [if queue: batch.append(queue.pop())]: the taken words
    in the order they are appended, and the queue that is left. *)
Definition pop_many (take : Z) (queue : list RebalanceWord)
    : list RebalanceWord * list RebalanceWord :=
  let n := Nat.min (Z.to_nat take) (length queue) in
  (rev (drop (length queue - n) queue), firstn (length queue - n) queue).

(** The loop that moves the quota of each level from its queue to the
    batch. *)
Definition take_queues (quotas : Dict.t Z) (source_levels : list Z)
    (batch : list RebalanceWord) (remaining : Dict.t (list RebalanceWord))
    : list RebalanceWord * Dict.t (list RebalanceWord) :=
  fold_left
    (fun '(batch, remaining) level =>
       match Dict.get remaining level with
       | Some queue =>
           let '(taken, queue) := pop_many (quota quotas level) queue in
           (batch ++ taken, Dict.put remaining level queue)
       | None => (batch, remaining)
       end)
    source_levels (batch, remaining).

(** The quotas of a batch of [batch_size] words: planned, capped by the
    stock, and the shortfall handed to levels with stock left. *)
Definition batch_quotas (source_levels : list Z) (remaining : Dict.t (list RebalanceWord))
    (initial_source_counts : Dict.t Z) (batch_size : Z) : result (Dict.t Z) :=
  bind
    (match source_levels with
     | [level] => Ok [(level, batch_size)]
     | _ => proportional_quotas source_levels initial_source_counts batch_size
     end)
    (fun quotas =>
       let '(quotas, missing) := cap_quotas source_levels remaining quotas in
       Ok (backfill (Z.to_nat missing) source_levels remaining quotas missing)).

Section WithRng.

(** The generator [random.Random(seed)]: its state and its [shuffle]. *)
Variable Rng : Type.
Variable shuffle : Rng -> list RebalanceWord -> list RebalanceWord * Rng.

Definition _select_stratified_batch (source_levels : list Z)
    (remaining : Dict.t (list RebalanceWord)) (initial_source_counts : Dict.t Z)
    (max_batch_size : Z) (rng : Rng)
    : result (list RebalanceWord * Dict.t (list RebalanceWord) * Rng) :=
  if total_remaining source_levels remaining =? 0 then Ok ([], remaining, rng)
  else
    let batch_size := Z.min max_batch_size (total_remaining source_levels remaining) in
    bind (batch_quotas source_levels remaining initial_source_counts batch_size)
      (fun quotas =>
         let '(batch, remaining) := take_queues quotas source_levels [] remaining in
         let '(batch, rng) := shuffle rng batch in
         Ok (batch, remaining, rng)).

(** The world a transition runs in: the runtime, the client, the
    generator and the three logs of the step. *)
Record world : Type := mkWorld {
  runtime : RebalanceRuntime;
  lm : client.state;
  rng : Rng;
  switched_log : list SwitchedWordEvent;
  checkpoint_log : list checkpoint_line;
  progress_log : list progress_line
}.

Definition with_runtime (w : world) (r : RebalanceRuntime) : world :=
  mkWorld r (lm w) (rng w) (switched_log w) (checkpoint_log w) (progress_log w).
Definition with_lm (w : world) (st : client.state) : world :=
  mkWorld (runtime w) st (rng w) (switched_log w) (checkpoint_log w) (progress_log w).
Definition with_rng (w : world) (g : Rng) : world :=
  mkWorld (runtime w) (lm w) g (switched_log w) (checkpoint_log w) (progress_log w).

Definition transition_label (t : LevelTransition) : pystr :=
  describe_sources t ++ str "->" ++ str_of_int (to_level t).

Definition _select_common_word_ids (batch : list RebalanceWord) (scored : list ScoreResult.t)
    (common_level common_count : Z) : result (gset Z) :=
  let batch_ids : gset Z := list_to_set (map word_id batch) in
  let selected :=
    fst (fold_left
           (fun '(selected, seen) s =>
              let wid := ScoreResult.word_id s in
              if bool_decide (wid ∈ batch_ids)
                 && (ScoreResult.rarity_level s =? common_level)
                 && negb (bool_decide (wid ∈ (seen : gset Z)))
              then (selected ++ [wid], {[ wid ]} ∪ seen)
              else (selected, seen))
           scored ([], ∅)) in
  if negb (len selected =? common_count) then
    Raise (RuntimeError
             (str "Expected exactly " ++ str_of_int common_count ++ str " selected word_ids, got "
              ++ str_of_int (len selected) ++ str ". Prompt/parse contract violation."))
  else Ok (list_to_set selected).

(** One pass of the loop of [_apply_batch_assignments]. *)
Definition assign_word (t : LevelTransition) (common_level rare_level : Z)
    (selected_common_word_ids : gset Z)
    (acc : RebalanceRuntime * list SwitchedWordEvent) (w : RebalanceWord)
    : RebalanceRuntime * list SwitchedWordEvent :=
  let '(runtime, switched_events) := acc in
  let selected := bool_decide (word_id w ∈ selected_common_word_ids) in
  let next := if selected then common_level else rare_level in
  let previous := levels_by_id runtime !! word_id w in
  let changed := negb (bool_decide (previous = Some next)) in
  let rule :=
    describe_sources t ++ str "->" ++ str_of_int next ++ str " (via " ++ describe_sources t
    ++ str ":" ++ str_of_int (to_level t) ++ str ")" in
  let runtime :=
    mkRuntime (<[word_id w := next]> (levels_by_id runtime))
      (RarityDistribution.set_level (distribution runtime) previous next)
      (if changed then <[word_id w := rule]> (rebalance_rules runtime)
       else rebalance_rules runtime)
      ({[ word_id w ]} ∪ processed_word_ids runtime) in
  (runtime,
   if changed then
     switched_events
     ++ [mkEvent (word_id w) (word w) (type w) (default (-1) previous) next rule selected]
   else switched_events).

Definition _apply_batch_assignments (batch : list RebalanceWord)
    (selected_common_word_ids : gset Z) (t : LevelTransition) (w : world)
    : result (list SwitchedWordEvent) * world :=
  match other_level t with
  | Raise e => (Raise e, w)
  | Ok other =>
      let common_level := Z.min (to_level t) other in
      let rare_level := Z.max (to_level t) other in
      let '(runtime, switched_events) :=
        fold_left (assign_word t common_level rare_level selected_common_word_ids)
          batch (runtime w, []) in
      (Ok switched_events,
       mkWorld runtime (lm w) (rng w) (switched_log w ++ switched_events)
         (checkpoint_log w) (progress_log w))
  end.

Definition _append_batch_checkpoint (w : world) (t : LevelTransition)
    (processed_ids : list Z) (switched_events : list SwitchedWordEvent) : world :=
  mkWorld (runtime w) (lm w) (rng w) (switched_log w)
    (checkpoint_log w
     ++ [mkCheckpoint (transition_label t) processed_ids
           (map (fun ev => (ev_word_id ev, next_level ev, rule ev)) switched_events)])
    (progress_log w).

Definition _append_batch_progress (w : world) (t : LevelTransition) (batch_index : Z)
    (batch : list RebalanceWord) (selected_common_word_ids : gset Z) (common_level : Z)
    (processed eligible_count target_assigned expected_target_total batch_target : Z)
    (batch_mix : pystr) : world :=
  let selected_common_sorted := sorted (elements selected_common_word_ids) in
  let target_word_ids :=
    if to_level t =? common_level then selected_common_sorted
    else sorted (List.filter (fun wid => negb (bool_decide (wid ∈ selected_common_word_ids)))
                   (map word_id batch)) in
  mkWorld (runtime w) (lm w) (rng w) (switched_log w) (checkpoint_log w)
    (progress_log w
     ++ [mkProgress (transition_label t) batch_index (len batch) processed eligible_count
           (Z.max 0 (eligible_count - processed)) target_assigned expected_target_total
           batch_target batch_mix common_level selected_common_sorted (to_level t)
           target_word_ids
           (map (RarityDistribution.count (distribution (runtime w))) [1; 2; 3; 4; 5])]).

Section WithClient.
Variable py : builtins.
Variable post_json : nat -> client.Request -> client.http_outcome.
Variable parse :
  list BaseWordRow.t -> pystr -> ScoringOutputMode.t -> option Z -> option Z ->
  result ParsedBatch.t.

Definition _score_transition_batch (options : Step5Options) (t : LevelTransition)
    (common_count common_level : Z) (batch : list RebalanceWord)
    (resolved_endpoint : ResolvedEndpoint) (logs : Step5Logs) (st : client.state)
    : result (list ScoreResult.t) * client.state :=
  match _render_template (system_prompt options) t common_level with
  | Raise e => (Raise e, st)
  | Ok rendered_system_prompt =>
      match _render_template (user_template options) t common_level with
      | Raise e => (Raise e, st)
      | Ok rendered_user_template =>
          let scoring_ctx :=
            client.mkContext
              (run_slug options ++ str "_"
               ++ replace (str "-") (str "_") (describe_sources t)
               ++ str "_" ++ str_of_int (to_level t))
              (model options) (endpoint resolved_endpoint) (max_retries options)
              (timeout_seconds options) (run_log_path logs) (failed_log_path logs)
              rendered_system_prompt rendered_user_template
              (endpoint_flavor resolved_endpoint) (max_tokens options) false
              (Some common_count) ScoringOutputMode.SELECTED_WORD_IDS (Some common_level) in
          let base_rows :=
            map (fun w => BaseWordRow.mk (word_id w) (word w) (type w)) batch in
          client.score_batch_resilient py post_json parse base_rows scoring_ctx st
      end
  end.

(** How the loop [while True] of [_apply_transition] ends. *)
Inductive loop_end : Type :=
  | Completed (processed target_assigned switched_count : Z)
  | Failed (e : exn)
  | StillRunning.

(** The choice of the words that get the common level: none, all, or
    those the model selects. *)
Definition choose_common (options : Step5Options) (t : LevelTransition)
    (common_count common_level : Z) (batch : list RebalanceWord)
    (resolved_endpoint : ResolvedEndpoint) (logs : Step5Logs) (w : world)
    : result (gset Z) * world :=
  if common_count <=? 0 then (Ok ∅, w)
  else if len batch <=? common_count then (Ok (list_to_set (map word_id batch)), w)
  else
    match _score_transition_batch options t common_count common_level
            batch resolved_endpoint logs (lm w) with
    | (Raise e, st) => (Raise e, with_lm w st)
    | (Ok scored, st) =>
        (_select_common_word_ids batch scored common_level common_count, with_lm w st)
    end.

(** One pass of the loop for a batch that is not empty: the new values
    of [processed], [target_assigned] and [switched_count]. *)
Definition transition_batch (t : LevelTransition) (options : Step5Options)
    (resolved_endpoint : ResolvedEndpoint) (logs : Step5Logs)
    (eligible_count expected_target_total : Z) (batch : list RebalanceWord)
    (processed target_assigned switched_count batch_index : Z) (w : world)
    : result (Z * Z * Z) * world :=
  let target_count :=
    _compute_adaptive_target_count processed target_assigned (len batch)
      (lower_ratio options) expected_target_total in
  let processed := processed + len batch in
  let batch_mix := _format_batch_source_mix batch (runtime w) in
  match other_level t with
  | Raise e => (Raise e, w)
  | Ok other =>
      let common_level := Z.min (to_level t) other in
      let common_count :=
        if to_level t =? common_level then target_count else len batch - target_count in
      match choose_common options t common_count common_level batch
              resolved_endpoint logs w with
      | (Raise e, w) => (Raise e, w)
      | (Ok selected_common_word_ids, w) =>
          match _apply_batch_assignments batch selected_common_word_ids t w with
          | (Raise e, w) => (Raise e, w)
          | (Ok switched_events, w) =>
              let w := _append_batch_checkpoint w t (map word_id batch) switched_events in
              let assigned_to_target :=
                if to_level t =? common_level
                then Z.of_nat (size selected_common_word_ids)
                else len batch - Z.of_nat (size selected_common_word_ids) in
              let target_assigned := target_assigned + assigned_to_target in
              let switched_count := switched_count + len switched_events in
              let w :=
                _append_batch_progress w t batch_index batch selected_common_word_ids
                  common_level processed eligible_count target_assigned
                  expected_target_total target_count batch_mix in
              (Ok (processed, target_assigned, switched_count), w)
          end
      end
  end.

(** The loop, for at most [passes] passes. *)
Fixpoint transition_loop (passes : nat) (t : LevelTransition) (options : Step5Options)
    (resolved_endpoint : ResolvedEndpoint) (logs : Step5Logs)
    (source_levels : list Z) (initial_source_counts : Dict.t Z)
    (eligible_count expected_target_total : Z)
    (remaining : Dict.t (list RebalanceWord))
    (processed target_assigned switched_count batch_index : Z) (w : world)
    : loop_end * world :=
  match passes with
  | O => (StillRunning, w)
  | S passes =>
      match _select_stratified_batch source_levels remaining initial_source_counts
              (batch_size options) (rng w) with
      | Raise e => (Failed e, w)
      | Ok ([], _, g) => (Completed processed target_assigned switched_count, with_rng w g)
      | Ok (batch, remaining, g) =>
          let batch_index := batch_index + 1 in
          match transition_batch t options resolved_endpoint logs eligible_count
                  expected_target_total batch processed target_assigned switched_count
                  batch_index (with_rng w g) with
          | (Raise e, w) => (Failed e, w)
          | (Ok (processed, target_assigned, switched_count), w) =>
              transition_loop passes t options resolved_endpoint logs source_levels
                initial_source_counts eligible_count expected_target_total remaining
                processed target_assigned switched_count batch_index w
          end
      end
  end.

(** The pools of a transition: per source level the unprocessed words at
    that level, shuffled. *)
Definition eligible_pools (t : LevelTransition) (dataset : RebalanceDataset) (w : world)
    : Dict.t (list RebalanceWord) * world :=
  fold_left
    (fun '(remaining, w) level =>
       let items :=
         List.filter
           (fun x =>
              bool_decide (levels_by_id (runtime w) !! word_id x = Some level)
              && negb (bool_decide (word_id x ∈ processed_word_ids (runtime w))))
           (Dict.values (words_by_id dataset)) in
       let '(items, g) := shuffle (rng w) items in
       (Dict.put remaining level items, with_rng w g))
    (source_levels t) ([], w).

Definition _apply_transition (t : LevelTransition) (options : Step5Options)
    (dataset : RebalanceDataset) (resolved_endpoint : ResolvedEndpoint) (logs : Step5Logs)
    (w : world) : option (result TransitionSummary) * world :=
  let '(remaining_by_source, w) := eligible_pools t dataset w in
  let initial_source_counts : Dict.t Z :=
    fold_left (fun d level => Dict.put d level (available remaining_by_source level))
      (source_levels t) [] in
  let eligible_count := fold_left Z.add (Dict.values initial_source_counts) 0 in
  if eligible_count =? 0 then (Some (Ok (mkSummary t 0 0 0)), w)
  else
    let expected_target_total := round_mul eligible_count (lower_ratio options) in
    match transition_loop (S (Z.to_nat eligible_count)) t options resolved_endpoint logs
            (source_levels t) initial_source_counts eligible_count expected_target_total
            remaining_by_source 0 0 0 0 w with
    | (Completed _ target_assigned switched_count, w) =>
        (Some (Ok (mkSummary t eligible_count target_assigned switched_count)), w)
    | (Failed e, w) => (Some (Raise e), w)
    | (StillRunning, w) => (None, w)
    end.

End WithClient.
End WithRng.

Arguments mkWorld {Rng}.
Arguments runtime {Rng}.
Arguments lm {Rng}.
Arguments rng {Rng}.
Arguments switched_log {Rng}.
Arguments checkpoint_log {Rng}.
Arguments progress_log {Rng}.
Arguments with_runtime {Rng}.
Arguments with_lm {Rng}.
Arguments with_rng {Rng}.
Arguments _select_stratified_batch {Rng}.
Arguments _apply_batch_assignments {Rng}.
Arguments _append_batch_checkpoint {Rng}.
Arguments _append_batch_progress {Rng}.
Arguments choose_common {Rng}.
Arguments transition_batch {Rng}.
Arguments transition_loop {Rng}.
Arguments eligible_pools {Rng}.
Arguments _apply_transition {Rng}.

(** The cumulative count the loop steers towards after [processed] words. *)
Definition desired_cumulative (ratio : Q) (expected_total processed : Z) : Z :=
  Z.max 0 (Z.min expected_total (round_mul processed ratio)).

(** All the words that wait in the queues, and the number of them whose
    current level is [level]. *)
Definition all_words (remaining : Dict.t (list RebalanceWord)) : list RebalanceWord :=
  concat (Dict.values remaining).

Definition at_level (levels : gmap Z Z) (level : Z) (w : RebalanceWord) : bool :=
  bool_decide (levels !! word_id w = Some level).


(** The words a transition is about: the unprocessed words of the data
    set that are at one of its source levels. *)
Definition eligible_words (t : LevelTransition) (dataset : RebalanceDataset)
    (runtime : RebalanceRuntime) : list RebalanceWord :=
  List.filter
    (fun x =>
       existsb (fun level => at_level (levels_by_id runtime) level x) (source_levels t)
       && negb (bool_decide (word_id x ∈ processed_word_ids runtime)))
    (Dict.values (words_by_id dataset)).

(** The number of words that [levels] puts at [level], and the counter
    agreeing with it for the levels 1 to 5. *)
Definition census (levels : gmap Z Z) (level : Z) : Z :=
  Z.of_nat (size (filter (fun kv : Z * Z => snd kv = level) levels)).

Definition distribution_in_sync (runtime : RebalanceRuntime) : Prop :=
  length (distribution runtime) = 6%nat /\
  forall level, 1 <= level <= 5 ->
    RarityDistribution.count (distribution runtime) level
    = census (levels_by_id runtime) level.

(** *** Resuming from the checkpoint log *)

Record Step5ResumeStats : Type := mkResumeStats {
  resumed_batches : Z;
  resumed_processed_words : Z;
  resumed_switched_words : Z
}.

(** The raw value of a key of a decoded object, a JSON [null] included:
    what [d.get(key, default)] returns when the key is there. *)
Fixpoint fields_find (fields : list (pystr * json)) (key : pystr) : option json :=
  match fields with
  | [] => None
  | (k, v) :: rest => if bool_decide (k = key) then Some v else fields_find rest key
  end.

Section Resume.
Variable py : builtins.

(** [int(value)] for a decoded JSON value, [None] when it raises: a
    [bool] is an [int], a float is truncated towards zero. *)
Definition int_of_json (value : json) : option Z :=
  match value with
  | JInt n => Some n
  | JBool b => Some (if b then 1 else 0)
  | JFloat q => Some (Z.quot (Qnum q) (Zpos (Qden q)))
  | JStr s => int_of_str py s
  | JNull | JList _ | JDict _ => None
  end.

(** One pass of the loop over [processed_word_ids]. *)
Definition restore_processed (dataset : RebalanceDataset)
    (acc : RebalanceRuntime * Z) (pid : json) : RebalanceRuntime * Z :=
  let '(runtime, resumed_processed) := acc in
  match int_of_json pid with
  | None => acc
  | Some word_id =>
      if (0 <? word_id)
         && bool_decide (is_Some (Dict.get (words_by_id dataset) word_id))
         && negb (bool_decide (word_id ∈ processed_word_ids runtime))
      then
        (mkRuntime (levels_by_id runtime) (distribution runtime) (rebalance_rules runtime)
           ({[ word_id ]} ∪ processed_word_ids runtime),
         resumed_processed + 1)
      else acc
  end.

(** One pass of the loop over [switched]; the state is the runtime,
    [applied_switched_ids] and [resumed_switched].  [str] of a string is
    the string itself. *)
Definition restore_switched (dataset : RebalanceDataset)
    (acc : RebalanceRuntime * gset Z * Z) (item : json) : RebalanceRuntime * gset Z * Z :=
  let '(runtime, applied_switched_ids, resumed_switched) := acc in
  match item with
  | JDict fields =>
      let word_id_value :=
        match fields_find fields (str "word_id") with
        | Some v => int_of_json v
        | None => Some (-1)
        end in
      let new_level_value :=
        match fields_find fields (str "new_level") with
        | Some v => int_of_json v
        | None => Some (-1)
        end in
      match word_id_value, new_level_value with
      | Some word_id, Some new_level =>
          let rule :=
            match fields_find fields (str "rule") with
            | None => []
            | Some (JStr s) => s
            | Some v => str_of py v
            end in
          if (word_id <=? 0) || negb (in_1_5 new_level) then acc
          else if negb (bool_decide (is_Some (Dict.get (words_by_id dataset) word_id)))
                  || bool_decide (word_id ∈ applied_switched_ids) then acc
          else
            let previous := levels_by_id runtime !! word_id in
            (mkRuntime (<[word_id := new_level]> (levels_by_id runtime))
               (RarityDistribution.set_level (distribution runtime) previous new_level)
               (match rule with
                | [] => rebalance_rules runtime
                | _ :: _ => <[word_id := rule]> (rebalance_rules runtime)
                end)
               (processed_word_ids runtime),
             {[ word_id ]} ∪ applied_switched_ids,
             resumed_switched + 1)
      | _, _ => acc
      end
  | _ => acc
  end.

(** The body of the loop over the lines of the checkpoint file, for a
    line that [json.loads] decodes to [node]; [None] when the line is no
    JSON object and [node.get] raises. *)
Definition restore_node (dataset : RebalanceDataset)
    (acc : option (RebalanceRuntime * gset Z * Step5ResumeStats)) (node : json)
    : option (RebalanceRuntime * gset Z * Step5ResumeStats) :=
  match acc, node with
  | Some (runtime, applied_switched_ids, stats), JDict fields =>
      let '(runtime, resumed_processed) :=
        match fields_get fields (str "processed_word_ids") with
        | Some (JList processed) =>
            fold_left (restore_processed dataset) processed
              (runtime, resumed_processed_words stats)
        | _ => (runtime, resumed_processed_words stats)
        end in
      let '(runtime, applied_switched_ids, resumed_switched) :=
        match fields_get fields (str "switched") with
        | Some (JList switched) =>
            fold_left (restore_switched dataset) switched
              (runtime, applied_switched_ids, resumed_switched_words stats)
        | _ => (runtime, applied_switched_ids, resumed_switched_words stats)
        end in
      Some (runtime, applied_switched_ids,
            mkResumeStats (resumed_batches stats + 1) resumed_processed resumed_switched)
  | _, _ => None
  end.

(** [_restore_from_checkpoint] on the decoded lines of the checkpoint
    file that are not blank (none when the file does not exist): the
    runtime it leaves and the statistics it returns. *)
Definition _restore_from_checkpoint (dataset : RebalanceDataset) (runtime : RebalanceRuntime)
    (nodes : list json) : option (RebalanceRuntime * Step5ResumeStats) :=
  match fold_left (restore_node dataset) nodes (Some (runtime, ∅, mkResumeStats 0 0 0)) with
  | Some (runtime, _, stats) => Some (runtime, stats)
  | None => None
  end.

End Resume.

(** The payload [_append_batch_checkpoint] writes for a line, as
    [json.loads] reads it back; [timestamp] is the time of writing. *)
Definition checkpoint_node (timestamp : pystr) (c : checkpoint_line) : json :=
  JDict
    [(str "timestamp", JStr timestamp);
     (str "transition", JStr (cp_transition c));
     (str "processed_word_ids", JList (map JInt (cp_processed_word_ids c)));
     (str "switched",
      JList (map (fun '(word_id, new_level, rule) =>
                    JDict [(str "word_id", JInt word_id);
                           (str "new_level", JInt new_level);
                           (str "rule", JStr rule)])
                 (cp_switched c)))].

(** The data set is keyed as [_load_dataset] builds it, and its ids are
    positive. *)
Definition dataset_keyed (dataset : RebalanceDataset) : Prop :=
  Forall (fun kv => word_id (snd kv) = fst kv /\ 0 < fst kv) (words_by_id dataset).


(** The end-to-end scenario: ten words at level 2, the transition 2:1,
    batches of five, a generator that leaves every list as it is, and a
    mock endpoint that answers with the first [expected] local ids as a
    JSON array, which the scenario's parser reads back. *)
Definition e2e_words : list RebalanceWord :=
  map (fun n => mkWord (Z.of_nat n) (str "w" ++ str_of_int (Z.of_nat n)) (str "N"))
    (seq 1 10).

Definition e2e_dataset : RebalanceDataset :=
  mkDataset (map (fun x => (word_id x, x)) e2e_words)
    (list_to_map (map (fun x => (word_id x, 2)) e2e_words)).

Definition e2e_transition : LevelTransition := transitions.mk 2 1 None.

Definition e2e_options (lower_ratio : Q) : Step5Options :=
  mkOptions (str "rb") (str "m") 5 lower_ratio 3 300 8000 (str "system") (str "user").

Definition e2e_endpoint : ResolvedEndpoint :=
  mkEndpoint (str "http://127.0.0.1:1234/v1/chat/completions") LmApiFlavor.OPENAI_COMPAT.

Definition e2e_logs : Step5Logs :=
  mkLogs (str "run.jsonl") (str "failed.jsonl") (str "switched.jsonl")
    (str "checkpoint.jsonl") (str "progress.jsonl").

Definition e2e_shuffle (g : unit) (l : list RebalanceWord) : list RebalanceWord * unit :=
  (l, g).

Definition e2e_world : world unit :=
  mkWorld
    (mkRuntime (dataset_levels_by_id e2e_dataset)
       (RarityDistribution.from_levels (map (fun _ => 2) e2e_words)) ∅ ∅)
    client.__init__ tt [] [] [].

Fixpoint split_commas (s current : pystr) : list pystr :=
  match s with
  | [] => [current]
  | c :: rest =>
      if N.eqb c 44 then current :: split_commas rest []
      else split_commas rest (current ++ [c])
  end.

Definition read_int_array (body : pystr) : option (list json) :=
  match body with
  | 91%N :: rest =>
      match rev rest with
      | 93%N :: inner =>
          mapM (fun s => option_map JInt (PyAscii.ascii_int_of_str s))
            (split_commas (rev inner) [])
      | _ => None
      end
  | _ => None
  end.

Definition e2e_post_json (n : nat) (request : client.Request) : client.http_outcome :=
  let expected := Z.to_nat (default 0 (client.rq_expected_items request)) in
  client.Responded 200
    (str "[" ++ run_csv_repository.join_comma
                  (map (fun i => str_of_int (Z.of_nat i)) (seq 1 expected))
     ++ str "]").

Definition e2e_parse (batch : list BaseWordRow.t) (body : pystr)
    (mode : ScoringOutputMode.t) (forced expected : option Z) : result ParsedBatch.t :=
  match read_int_array body with
  | Some results =>
      response_parser._parse_selected_word_ids PyAscii.ascii_builtins batch results
        forced expected
  | None => Raise (RuntimeError (str "LM content is not valid JSON. Excerpt: " ++ body))
  end.

Definition e2e_run (lower_ratio : Q) : option (result TransitionSummary) * world unit :=
  _apply_transition e2e_shuffle PyAscii.ascii_builtins e2e_post_json e2e_parse
    e2e_transition (e2e_options lower_ratio) e2e_dataset e2e_endpoint e2e_logs e2e_world.

End step5_rebalance.

(* ===================================================================== *)
(** * Properties *)
(* ===================================================================== *)

(** ** Batch size adapter *)

Section AdapterFacts.
Import BatchSizeAdapter.

Lemma init_wf i m w a : __init__ i m w = Ok a -> adapter_wf a /\ initial_size a = i /\ min_size a = m.
Proof.
  unfold __init__, adapter_wf.
  destruct (i <? m) eqn:E1; [discriminate|].
  destruct (m <? 1) eqn:E2; [discriminate|].
  destruct (w <? 1) eqn:E3; [discriminate|].
  intros [= <-]; simpl. lia.
Qed.

Lemma adjust_size_wf a : adapter_wf a -> adapter_wf (_adjust_size a).
Proof.
  unfold adapter_wf, _adjust_size. intros (Hm & Hlo & Hhi).
  destruct (Qltb _ _); simpl.
  - assert (current_size a * 2 / 3 <= current_size a)
      by (apply Z.div_le_upper_bound; lia).
    lia.
  - destruct (Qltb _ _); simpl; [|lia].
    assert (current_size a <= current_size a * 3 / 2)
      by (apply Z.div_le_lower_bound; lia).
    lia.
Qed.

Lemma adjust_size_params a :
  initial_size (_adjust_size a) = initial_size a /\
  min_size (_adjust_size a) = min_size a /\
  window_size (_adjust_size a) = window_size a /\
  outcomes (_adjust_size a) = outcomes a.
Proof. unfold _adjust_size. repeat destruct (Qltb _ _); simpl; auto. Qed.

Lemma record_outcome_wf a r : adapter_wf a -> adapter_wf (record_outcome a r).
Proof. intros H. unfold record_outcome. apply adjust_size_wf. exact H. Qed.

Lemma record_outcome_params a r :
  initial_size (record_outcome a r) = initial_size a /\
  min_size (record_outcome a r) = min_size a.
Proof.
  unfold record_outcome.
  destruct (adjust_size_params
    (mk (initial_size a) (min_size a) (window_size a) (current_size a)
        (popleft_while (window_size a)
           (outcomes a ++ [Qleb (9 # 10) (normalized r)])))) as (-> & -> & _).
  auto.
Qed.

Lemma fold_record_wf outs : forall a,
  adapter_wf a ->
  adapter_wf (fold_left record_outcome outs a) /\
  initial_size (fold_left record_outcome outs a) = initial_size a /\
  min_size (fold_left record_outcome outs a) = min_size a.
Proof.
  induction outs as [|r outs IH]; intros a Ha; simpl; [auto|].
  destruct (IH (record_outcome a r) (record_outcome_wf a r Ha)) as (H1 & H2 & H3).
  destruct (record_outcome_params a r) as (E1 & E2).
  rewrite H2, H3. auto.
Qed.

Lemma record_outcome_step a r :
  current_size (record_outcome a r) = stepped_size a (record_outcome a r).
Proof.
  unfold stepped_size, record_outcome.
  set (b := mk _ _ _ _ _).
  assert (Hr : success_rate (_adjust_size b) = success_rate b).
  { unfold success_rate. destruct (adjust_size_params b) as (_ & _ & _ & ->). reflexivity. }
  rewrite Hr. unfold _adjust_size.
  destruct (Qltb (success_rate b) (1 # 2)); simpl; [reflexivity|].
  destruct (Qltb (9 # 10) (success_rate b)); simpl; reflexivity.
Qed.

End AdapterFacts.



(** ** Rounding *)




(** ** Fuzzy word matcher *)


Section LevFacts.
Import fuzzy_word_matcher.

Lemma lev_nil_l y : lev [] y = length y.
Proof. destruct y; reflexivity. Qed.

Lemma lev_nil_r x : lev x [] = length x.
Proof. destruct x; reflexivity. Qed.

Lemma lev_cons c x e y :
  lev (c :: x) (e :: y) =
  Nat.min (Nat.min (S (lev (c :: x) y)) (S (lev x (e :: y))))
          (lev x y + (if N.eqb c e then 0 else 1))%nat.
Proof. reflexivity. Qed.

Lemma edit_script_insert_all y : edit_script [] y (length y).
Proof. induction y; simpl; constructor; auto. Qed.

Lemma edit_script_delete_all x : edit_script x [] (length x).
Proof. induction x; simpl; constructor; auto. Qed.

(** [lev] is the cost of some script ... *)
Lemma lev_script x : forall y, edit_script x y (lev x y).
Proof.
  induction x as [|c x IHx]; intros y.
  - rewrite lev_nil_l. apply edit_script_insert_all.
  - induction y as [|e y IHy].
    + rewrite lev_nil_r. apply edit_script_delete_all.
    + rewrite lev_cons.
      destruct (Nat.min_spec (Nat.min (S (lev (c :: x) y)) (S (lev x (e :: y))))
                  (lev x y + (if N.eqb c e then 0 else 1))%nat) as [[_ ->]|[_ ->]].
      * destruct (Nat.min_spec (S (lev (c :: x) y)) (S (lev x (e :: y)))) as [[_ ->]|[_ ->]].
        -- apply es_insert, IHy.
        -- apply es_delete, IHx.
      * destruct (N.eqb_spec c e) as [->|_].
        -- rewrite Nat.add_0_r. apply es_keep, IHx.
        -- rewrite Nat.add_1_r. apply es_subst, IHx.
Qed.

Lemma lev_delete_le c x y : (lev (c :: x) y <= S (lev x y))%nat.
Proof. destruct y as [|e y]; [rewrite !lev_nil_r; simpl; lia|rewrite lev_cons; lia]. Qed.

Lemma lev_insert_le e x y : (lev x (e :: y) <= S (lev x y))%nat.
Proof. destruct x as [|c x]; [rewrite !lev_nil_l; simpl; lia|rewrite lev_cons; lia]. Qed.

(** ... and no script is cheaper. *)
Lemma lev_least x y n : edit_script x y n -> (lev x y <= n)%nat.
Proof.
  induction 1 as [|c x y n _ IH|c e x y n _ IH|c x y n _ IH|e x y n _ IH].
  - simpl. lia.
  - rewrite lev_cons, N.eqb_refl. lia.
  - rewrite lev_cons. destruct (N.eqb c e); lia.
  - pose proof (lev_delete_le c x y). lia.
  - pose proof (lev_insert_le e x y). lia.
Qed.

Lemma lev_refl x : lev x x = 0%nat.
Proof.
  assert (edit_script x x 0) by (induction x; constructor; auto).
  pose proof (lev_least _ _ _ H). lia.
Qed.

(** Scripts can be extended at the right end as well. *)
Lemma edit_script_snoc x y n :
  edit_script x y n ->
  forall c e,
    edit_script (x ++ [c]) (y ++ [c]) n /\
    edit_script (x ++ [c]) (y ++ [e]) (S n) /\
    edit_script (x ++ [c]) y (S n) /\
    edit_script x (y ++ [e]) (S n).
Proof.
  induction 1 as [|k x y n _ IH|k k' x y n _ IH|k x y n _ IH|k x y n _ IH]; intros c e.
  - simpl. repeat split; repeat constructor.
  - destruct (IH c e) as (H1 & H2 & H3 & H4). simpl.
    repeat split; first [apply es_keep; assumption].
  - destruct (IH c e) as (H1 & H2 & H3 & H4). simpl.
    repeat split; first [apply es_subst; assumption].
  - destruct (IH c e) as (H1 & H2 & H3 & H4). simpl.
    repeat split; first [apply es_delete; assumption].
  - destruct (IH c e) as (H1 & H2 & H3 & H4). simpl.
    repeat split; first [apply es_insert; assumption].
Qed.

Lemma edit_script_rev x y n : edit_script x y n -> edit_script (rev x) (rev y) n.
Proof.
  induction 1 as [|c x y n _ IH|c e x y n _ IH|c x y n _ IH|e x y n _ IH]; simpl.
  - constructor.
  - apply (edit_script_snoc _ _ _ IH c c).
  - apply (edit_script_snoc _ _ _ IH c e).
  - apply (edit_script_snoc _ _ _ IH c c).
  - apply (edit_script_snoc _ _ _ IH e e).
Qed.

Lemma lev_rev x y : lev (rev x) (rev y) = lev x y.
Proof.
  apply Nat.le_antisymm.
  - apply lev_least, edit_script_rev, lev_script.
  - rewrite <- (rev_involutive x), <- (rev_involutive y) at 1.
    apply lev_least, edit_script_rev, lev_script.
Qed.

(** The recursion read at the right end: the recurrence the rows of the
    dynamic program follow. *)
Lemma lev_snoc x c y e :
  lev (x ++ [c]) (y ++ [e]) =
  Nat.min (Nat.min (S (lev (x ++ [c]) y)) (S (lev x (y ++ [e]))))
          (lev x y + (if N.eqb c e then 0 else 1))%nat.
Proof.
  rewrite <- (lev_rev (x ++ [c]) (y ++ [e])), !rev_unit, lev_cons.
  rewrite <- (rev_unit x c), <- (rev_unit y e), !lev_rev.
  reflexivity.
Qed.

End LevFacts.

Section LevenshteinRows.
Import fuzzy_word_matcher.

Lemma row_upto_length x b k : length (row_upto x b k) = S k.
Proof. unfold row_upto. rewrite length_map, length_seq. reflexivity. Qed.

Lemma row_upto_nth x b k j :
  (j <= k)%nat -> nth j (row_upto x b k) 0 = Z.of_nat (lev x (take j b)).
Proof.
  intros Hj. unfold row_upto.
  rewrite (nth_indep _ 0 (Z.of_nat (lev x (take 0 b)))) by (rewrite length_map, length_seq; lia).
  rewrite (map_nth (fun j => Z.of_nat (lev x (take j b))) (seq 0 (S k)) 0%nat j).
  rewrite seq_nth by lia. reflexivity.
Qed.

Lemma row_upto_S x b k :
  row_upto x b (S k) = row_upto x b k ++ [Z.of_nat (lev x (take (S k) b))].
Proof. unfold row_upto. rewrite (seq_S (S k) 0), map_app. reflexivity. Qed.

Lemma enumerate_snoc {A} (l : list A) a : forall start,
  enumerate start (l ++ [a]) = enumerate start l ++ [((start + length l)%nat, a)].
Proof.
  unfold enumerate. induction l as [|x l IH]; intros start; simpl.
  - rewrite Nat.add_0_r. reflexivity.
  - rewrite IH. simpl. repeat f_equal. lia.
Qed.

Lemma enumerate_cons {A} start (a : A) l :
  enumerate start (a :: l) = (start, a) :: enumerate (S start) l.
Proof. reflexivity. Qed.

(** The inner loop over the first [k] characters of [b] yields the first
    [k + 1] entries of the next row. *)
Lemma inner_loop_row x c b k :
  (k <= length b)%nat ->
  fold_left (inner_step c (row_upto x b (length b))) (enumerate 1 (take k b))
            [Z.of_nat (S (length x))]
  = row_upto (x ++ [c]) b k.
Proof.
  induction k as [|k IH]; intros Hk.
  - rewrite take_0. simpl. unfold row_upto. simpl.
    rewrite lev_nil_r, length_app. simpl. f_equal. lia.
  - destruct (lookup_lt_is_Some_2 b k ltac:(lia)) as [e He].
    rewrite (take_S_r _ _ _ He), enumerate_snoc, fold_left_app, IH by lia.
    rewrite length_take, Nat.min_l by lia.
    cbn [fold_left]. unfold inner_step.
    replace (1 + k - 1)%nat with k by lia.
    rewrite !row_upto_nth by lia.
    rewrite row_upto_S, (take_S_r _ _ _ He), lev_snoc.
    f_equal. f_equal.
    change (1 + k)%nat with (S k). rewrite (take_S_r _ _ _ He).
    destruct (N.eqb c e); lia.
Qed.

Lemma outer_step_row x c b :
  outer_step b (row_upto x b (length b)) (S (length x), c)
  = row_upto (x ++ [c]) b (length b).
Proof.
  unfold outer_step.
  pose proof (inner_loop_row x c b (length b) ltac:(lia)) as H.
  rewrite firstn_all in H. exact H.
Qed.

Lemma outer_loop_row b a : forall x,
  fold_left (outer_step b) (enumerate (S (length x)) a) (row_upto x b (length b))
  = row_upto (x ++ a) b (length b).
Proof.
  induction a as [|c a IH]; intros x.
  - simpl. rewrite app_nil_r. reflexivity.
  - rewrite enumerate_cons. cbn [fold_left]. rewrite outer_step_row.
    replace (S (S (length x))) with (S (length (x ++ [c])))
      by (rewrite length_app; simpl; lia).
    rewrite IH, <- app_assoc. reflexivity.
Qed.

Lemma first_row b :
  map Z.of_nat (seq 0 (length b + 1)) = row_upto [] b (length b).
Proof.
  unfold row_upto. rewrite Nat.add_1_r.
  apply map_ext_in. intros j Hj. apply in_seq in Hj.
  rewrite lev_nil_l, length_take. f_equal. lia.
Qed.

Lemma last_row x b : List.last (row_upto x b (length b)) 0 = Z.of_nat (lev x b).
Proof.
  rewrite <- (firstn_all b) at 3.
  destruct (length b) as [|k]; [reflexivity|].
  rewrite row_upto_S, last_last. reflexivity.
Qed.

(** The dynamic program computes the least number of edits. *)
Lemma levenshtein_lev a b : levenshtein a b = Z.of_nat (lev a b).
Proof.
  unfold levenshtein. case_bool_decide as Hab.
  - subst. rewrite lev_refl. reflexivity.
  - destruct a as [|c a]; [rewrite lev_nil_l; reflexivity|].
    destruct b as [|e b]; [rewrite lev_nil_r; reflexivity|].
    rewrite first_row.
    change (enumerate 1 (c :: a)) with (enumerate (S (length (@nil N))) (c :: a)).
    rewrite (outer_loop_row (e :: b) (c :: a) []).
    apply last_row.
Qed.

End LevenshteinRows.

Lemma levenshtein_le_iff a b k :
  fuzzy_word_matcher.levenshtein a b <= Z.of_nat k <->
  fuzzy_word_matcher.distance_at_most a b k.
Proof.
  rewrite levenshtein_lev. unfold fuzzy_word_matcher.distance_at_most. split.
  - intros H. exists (fuzzy_word_matcher.lev a b). split; [lia|apply lev_script].
  - intros (n & Hn & Hs). apply lev_least in Hs. lia.
Qed.

(** C9. [matches a b] holds exactly when the strings are equal, or equal
    once diacritics are folded and case is lowered, or when the folded
    forms differ in length by at most 2 and can be turned into one another
    with at most 2 single-character edits; so "măr" matches "mar", "pâine"
    does not match "xyz", distance 2 is accepted and distance 3 is not. *)
Theorem matches_iff_equal_or_within_two_edits :
  (forall lower a b,
     fuzzy_word_matcher.matches lower a b = true <->
     a = b \/
     fuzzy_word_matcher.normalize lower a = fuzzy_word_matcher.normalize lower b \/
     (Z.abs (len (fuzzy_word_matcher.normalize lower a)
             - len (fuzzy_word_matcher.normalize lower b)) <= 2 /\
      fuzzy_word_matcher.distance_at_most
        (fuzzy_word_matcher.normalize lower a)
        (fuzzy_word_matcher.normalize lower b) 2)) /\
  fuzzy_word_matcher.matches fuzzy_word_matcher.ascii_lower
    [109; 259; 114]%N (str "mar") = true /\
  fuzzy_word_matcher.matches fuzzy_word_matcher.ascii_lower
    [112; 226; 105; 110; 101]%N (str "xyz") = false /\
  fuzzy_word_matcher.matches fuzzy_word_matcher.ascii_lower
    (str "carte") (str "curtea") = true /\
  fuzzy_word_matcher.levenshtein (str "carte") (str "curtea") = 2 /\
  fuzzy_word_matcher.matches fuzzy_word_matcher.ascii_lower
    (str "carte") (str "curtean") = false /\
  fuzzy_word_matcher.levenshtein (str "carte") (str "curtean") = 3.
Proof.
  split; [|repeat split; reflexivity].
  intros lower a b. unfold fuzzy_word_matcher.matches.
  set (na := fuzzy_word_matcher.normalize lower a).
  set (nb := fuzzy_word_matcher.normalize lower b).
  case_bool_decide as Hab; [tauto|].
  case_bool_decide as Hn; [tauto|].
  unfold fuzzy_word_matcher.MAX_EDIT_DISTANCE.
  destruct (2 <? Z.abs (len na - len nb)) eqn:Hlen.
  - apply Z.ltb_lt in Hlen. split; [discriminate|].
    intros [?|[?|[? _]]]; [contradiction|contradiction|lia].
  - apply Z.ltb_ge in Hlen. rewrite Z.leb_le.
    change 2 with (Z.of_nat 2) at 1. rewrite levenshtein_le_iff. tauto.
Qed.

(** ** JSON repair *)

Example repair_trailing_decimal :
  json_repair.repair json_repair.ascii_isdigit json_repair.ascii_isspace
    (str "{" ++ [34] ++ str "a" ++ [34] ++ str ": 1.}")%N
  = (str "{" ++ [34] ++ str "a" ++ [34] ++ str ": 1.0}")%N.
Proof. reflexivity. Qed.

Example repair_trailing_comma :
  json_repair.repair json_repair.ascii_isdigit json_repair.ascii_isspace (str "[1,2,]")
  = str "[1,2]".
Proof. reflexivity. Qed.

Example repair_unclosed :
  json_repair.repair json_repair.ascii_isdigit json_repair.ascii_isspace
    (str "{" ++ [34] ++ str "a" ++ [34] ++ str ":[1,2")%N
  = (str "{" ++ [34] ++ str "a" ++ [34] ++ str ":[1,2]}")%N.
Proof. reflexivity. Qed.

(** C8 (the code departs from it). A response cut off inside a string
    literal right after a backslash: the quote that [repair] appends is
    taken for an escaped quote, so the string stays open and a second
    [repair] appends another quote.  Here the input is the three
    characters quote, [a], backslash, whatever the character classes are. *)
Theorem repair_not_idempotent_after_dangling_backslash :
  forall isdigit isspace,
    let x := [json_repair.QUOTE; 97%N; json_repair.BACKSLASH] in
    json_repair.repair isdigit isspace x = x ++ [json_repair.QUOTE] /\
    json_repair.repair isdigit isspace (json_repair.repair isdigit isspace x)
      = x ++ [json_repair.QUOTE; json_repair.QUOTE] /\
    json_repair.repair isdigit isspace (json_repair.repair isdigit isspace x)
      <> json_repair.repair isdigit isspace x.
Proof.
  intros isdigit isspace x. repeat split; try reflexivity.
  discriminate.
Qed.

(** ** Dictionaries *)

Section DictFacts.
Context {V : Type}.
Implicit Types (d : Dict.t V) (k : Z) (v : V).

Lemma dict_get_put d k v k' :
  Dict.get (Dict.put d k v) k' = if Z.eqb k k' then Some v else Dict.get d k'.
Proof.
  induction d as [|[k0 v0] d IH]; simpl.
  - reflexivity.
  - destruct (Z.eqb_spec k0 k) as [->|Hne]; simpl.
    + destruct (Z.eqb_spec k k'); reflexivity.
    + rewrite IH. destruct (Z.eqb_spec k0 k') as [->|]; [|reflexivity].
      destruct (Z.eqb_spec k k'); [congruence|reflexivity].
Qed.

Lemma dict_get_elem d k v : Dict.get d k = Some v -> (k, v) ∈ d.
Proof.
  induction d as [|[k0 v0] d IH]; simpl; [discriminate|].
  destruct (Z.eqb_spec k0 k) as [->|_].
  - intros [= ->]. left.
  - intros H. right. auto.
Qed.

Lemma dict_elem_get d k v : (k, v) ∈ d -> is_Some (Dict.get d k).
Proof.
  induction d as [|[k0 v0] d IH]; simpl; intros H.
  - inversion H.
  - destruct (Z.eqb_spec k0 k); [eauto|].
    apply elem_of_cons in H as [[= -> ->]|H]; [contradiction|auto].
Qed.

Lemma dict_elem_put d k v kv : kv ∈ Dict.put d k v -> kv = (k, v) \/ kv ∈ d.
Proof.
  induction d as [|[k0 v0] d IH]; simpl.
  - intros H. apply list_elem_of_singleton in H. auto.
  - destruct (Z.eqb_spec k0 k) as [->|_]; intros H.
    + apply elem_of_cons in H as [->|H]; [auto|]. right. right. exact H.
    + apply elem_of_cons in H as [->|H]; [right; left|].
      destruct (IH H); [auto|]. right. right. assumption.
Qed.

End DictFacts.

Section BatchDictFacts.
Import response_parser.

Lemma batch_by_id_fold_entries batch : forall (d : Dict.t BaseWordRow.t) kv,
  kv ∈ fold_left (fun d r => Dict.put d (BaseWordRow.word_id r) r) batch d ->
  kv ∈ d \/ (snd kv ∈ batch /\ BaseWordRow.word_id (snd kv) = fst kv).
Proof.
  induction batch as [|r batch IH]; intros d kv; simpl; [auto|].
  intros H. apply IH in H as [H|[H1 H2]].
  - apply dict_elem_put in H as [->|H]; [|auto]. right. simpl. split; [left|reflexivity].
  - right. split; [right; exact H1|exact H2].
Qed.

Lemma batch_by_id_entries batch kv :
  kv ∈ batch_by_id_of batch ->
  snd kv ∈ batch /\ BaseWordRow.word_id (snd kv) = fst kv.
Proof.
  intros H. apply batch_by_id_fold_entries in H as [H|H]; [inversion H|exact H].
Qed.

Lemma batch_by_id_sound batch k row :
  Dict.get (batch_by_id_of batch) k = Some row ->
  row ∈ batch /\ BaseWordRow.word_id row = k.
Proof. intros H. apply dict_get_elem, batch_by_id_entries in H. exact H. Qed.

Lemma batch_by_id_fold_complete batch : forall (d : Dict.t BaseWordRow.t) k,
  is_Some (Dict.get d k) \/ (exists r, r ∈ batch /\ BaseWordRow.word_id r = k) ->
  is_Some (Dict.get (fold_left (fun d r => Dict.put d (BaseWordRow.word_id r) r) batch d) k).
Proof.
  induction batch as [|r batch IH]; intros d k; simpl.
  - intros [H|(r & H & _)]; [exact H|inversion H].
  - intros H. apply IH. rewrite dict_get_put.
    destruct (Z.eqb_spec (BaseWordRow.word_id r) k) as [E|E]; [left; eauto|].
    destruct H as [H|(r' & H & E')]; [auto|].
    apply elem_of_cons in H as [->|H]; [contradiction|]. right. eauto.
Qed.

Lemma batch_by_id_complete batch row :
  row ∈ batch -> is_Some (Dict.get (batch_by_id_of batch) (BaseWordRow.word_id row)).
Proof. intros H. apply batch_by_id_fold_complete. right. eauto. Qed.

Lemma batch_by_local_fold_sound batch : forall s (d : Dict.t BaseWordRow.t) l row,
  Dict.get (fold_left (fun d ir => Dict.put d (Z.of_nat (fst ir) + 1) (snd ir))
              (enumerate s batch) d) l = Some row ->
  Dict.get d l = Some row \/ row ∈ batch.
Proof.
  induction batch as [|r batch IH]; intros s d l row; [simpl; auto|].
  rewrite enumerate_cons. simpl. intros H. apply IH in H as [H|H].
  - rewrite dict_get_put in H. destruct (Z.eqb _ _).
    + injection H as <-. right. left.
    + auto.
  - right. right. exact H.
Qed.

Lemma batch_by_local_sound batch l row :
  Dict.get (batch_by_local_of batch) l = Some row -> row ∈ batch.
Proof.
  intros H. apply batch_by_local_fold_sound in H as [H|H]; [discriminate|exact H].
Qed.

Lemma batch_by_local_fold_complete batch : forall s (d : Dict.t BaseWordRow.t) l,
  is_Some (Dict.get d l) \/ Z.of_nat s + 1 <= l <= Z.of_nat s + len batch ->
  is_Some (Dict.get (fold_left (fun d ir => Dict.put d (Z.of_nat (fst ir) + 1) (snd ir))
                       (enumerate s batch) d) l).
Proof.
  induction batch as [|r batch IH]; intros s d l.
  - unfold len. simpl. intros [H|H]; [exact H|lia].
  - rewrite enumerate_cons. simpl. intros H. apply IH. rewrite dict_get_put. simpl.
    destruct (Z.eqb_spec (Z.of_nat s + 1) l) as [E|E]; [left; eauto|].
    destruct H as [H|H]; [auto|]. right. unfold len in *. simpl length in H. lia.
Qed.

Lemma batch_by_local_complete batch l :
  1 <= l <= len batch -> is_Some (Dict.get (batch_by_local_of batch) l).
Proof. intros H. apply batch_by_local_fold_complete. right. simpl. lia. Qed.

End BatchDictFacts.

(** ** Selection parsing: the three stages *)

Section SelectionStages.
Import response_parser.
Variable py : builtins.
Variable batch : list BaseWordRow.t.

Lemma selection_ok_empty : selection_ok batch ([], ∅).
Proof.
  repeat split; simpl; try set_solver. constructor.
Qed.

Lemma selection_ok_add selected selected_set wid :
  selection_ok batch (selected, selected_set) ->
  wid ∉ selected_set ->
  has_row batch wid ->
  selection_ok batch (selected ++ [wid], {[ wid ]} ∪ selected_set).
Proof.
  intros (Hnd & Hset & Hrow) Hnew Hwid. simpl in *. repeat split; simpl.
  - apply NoDup_app. repeat split; [exact Hnd| |apply NoDup_singleton].
    intros x Hx Hx'. apply list_elem_of_singleton in Hx' as ->.
    apply Hnew, Hset, Hx.
  - intros H. apply elem_of_app. apply elem_of_union in H as [H|H].
    + right. apply elem_of_singleton in H as ->. left.
    + left. apply Hset, H.
  - intros H. apply elem_of_union. apply elem_of_app in H as [H|H].
    + right. apply Hset, H.
    + left. apply list_elem_of_singleton in H as ->. set_solver.
  - intros x H. apply elem_of_app in H as [H|H]; [auto|].
    apply list_elem_of_singleton in H as ->. exact Hwid.
Qed.

Lemma stage_local_id_ok expected cands : forall st,
  selection_ok batch st ->
  match stage_local_id (batch_by_local_of batch) expected cands st with
  | Return selected => exists selected_set, selection_ok batch (selected, selected_set)
  | Next st' =>
      selection_ok batch st' /\
      (fst st' = [] -> fst st = [] /\ Forall (no_local_id (batch_by_local_of batch)) cands)
  end.
Proof.
  induction cands as [|c cands IH]; intros st Hst; simpl.
  - split; [exact Hst|]. intros H. split; [exact H|constructor].
  - destruct (returned_id c) as [l|] eqn:Hl.
    + destruct st as [selected selected_set].
      destruct (Dict.get (batch_by_local_of batch) l) as [row|] eqn:Hget.
      * case_bool_decide as Hin.
        -- (* already selected: nothing is added *)
           simpl. destruct (len selected =? expected); [eauto|].
           specialize (IH _ Hst).
           destruct (stage_local_id _ _ _ _) as [st'|]; [|exact IH].
           destruct IH as (H1 & H2). split; [exact H1|].
           intros E. destruct (H2 E) as (E' & _). simpl in E'. subst selected.
           destruct Hst as (_ & Hset & _). apply Hset in Hin. inversion Hin.
        -- assert (Hok : selection_ok batch
                     (selected ++ [BaseWordRow.word_id row],
                      {[ BaseWordRow.word_id row ]} ∪ selected_set)).
           { apply selection_ok_add; [exact Hst|exact Hin|].
             exists row. split; [|reflexivity].
             eapply batch_by_local_sound, Hget. }
           simpl. destruct (len _ =? expected); [eauto|].
           specialize (IH _ Hok).
           destruct (stage_local_id _ _ _ _) as [st'|]; [|exact IH].
           destruct IH as (H1 & H2). split; [exact H1|].
           intros E. destruct (H2 E) as (E' & _). simpl in E'.
           destruct selected; discriminate.
      * simpl. destruct (len selected =? expected); [eauto|].
        specialize (IH _ Hst).
        destruct (stage_local_id _ _ _ _) as [st'|]; [|exact IH].
        destruct IH as (H1 & H2). split; [exact H1|].
        intros E. destruct (H2 E) as (E' & HF). split; [exact E'|].
        constructor; [|exact HF]. intros l' Hl'. congruence.
    + specialize (IH _ Hst).
      destruct (stage_local_id _ _ _ _) as [st'|]; [|exact IH].
      destruct IH as (H1 & H2). split; [exact H1|].
      intros E. destruct (H2 E) as (E' & HF). split; [exact E'|].
      constructor; [|exact HF]. intros l' Hl'. congruence.
Qed.

Lemma find_matching_row_elem (remaining : Dict.t BaseWordRow.t) w matched :
  find_matching_row py remaining w = Some matched ->
  exists k, (k, matched) ∈ remaining.
Proof.
  unfold find_matching_row. intros H. apply find_some in H as [H _].
  unfold Dict.values in H. apply in_map_iff in H as ([k v] & E & H). simpl in E. subst v.
  exists k. apply list_elem_of_In. exact H.
Qed.

Lemma stage_word_match_ok expected cands : forall st remaining,
  selection_ok batch st ->
  (forall kv, kv ∈ remaining -> snd kv ∈ batch) ->
  match stage_word_match py (batch_by_local_of batch) expected cands st remaining with
  | Return selected => exists selected_set, selection_ok batch (selected, selected_set)
  | Next (st', _) => selection_ok batch st' /\ (fst st' = [] -> fst st = [])
  end.
Proof.
  induction cands as [|c cands IH]; intros st remaining Hst Hrem; simpl.
  - destruct st. auto.
  - destruct st as [selected selected_set].
    destruct (len selected =? expected); [eauto|].
    pose proof (IH _ _ Hst Hrem) as Hskip.
    destruct (match returned_id c with Some _ => _ | None => _ end); [exact Hskip|].
    destruct (word c) as [[|a w]|]; [exact Hskip| |exact Hskip].
    destruct (find_matching_row py remaining _) as [matched|] eqn:Hfind; [|exact Hskip].
    case_bool_decide as Hin; [exact Hskip|].
    apply find_matching_row_elem in Hfind as (k & Hk).
    assert (Hok : selection_ok batch
              (selected ++ [BaseWordRow.word_id matched],
               {[ BaseWordRow.word_id matched ]} ∪ selected_set)).
    { apply selection_ok_add; [exact Hst|exact Hin|].
      exists matched. split; [|reflexivity]. apply (Hrem _ Hk). }
    assert (Hrem' : forall kv,
              kv ∈ Dict.pop remaining (BaseWordRow.word_id matched) -> snd kv ∈ batch).
    { intros kv Hkv. apply Hrem. unfold Dict.pop in Hkv.
      apply list_elem_of_In, filter_In in Hkv as [Hkv _]. apply list_elem_of_In, Hkv. }
    specialize (IH _ _ Hok Hrem').
    destruct (stage_word_match _ _ _ _ _ _) as [[st' rem']|]; [|exact IH].
    destruct IH as (H1 & H2). split; [exact H1|].
    intros E. apply H2 in E. simpl in E. destruct selected; discriminate.
Qed.

End SelectionStages.

Section PositionalFallback.
Import response_parser.
Variable batch : list BaseWordRow.t.

Lemma distinct_ids_of_Forall (P : Z -> Prop) cands : forall acc seen,
  Forall P acc ->
  Forall (fun c => forall l, returned_id c = Some l -> P l) cands ->
  Forall P (distinct_ids_of cands acc seen).
Proof.
  induction cands as [|c cands IH]; intros acc seen Hacc Hc; simpl; [exact Hacc|].
  apply Forall_cons in Hc as [Hc Hcs].
  destruct (returned_id c) as [rid|]; [|auto].
  case_bool_decide; [auto|].
  apply IH; [|exact Hcs]. apply Forall_app. split; [exact Hacc|].
  constructor; [auto|constructor].
Qed.

(** Every position the loop keeps is in range, comes from an id that
    satisfies [P], and is kept once. *)
Lemma positional_indices_ok (P : Z -> Prop) base expected ids : forall indices seen_idx,
  Forall P ids ->
  NoDup indices ->
  (forall x, x ∈ seen_idx <-> x ∈ indices) ->
  Forall (fun idx => 0 <= idx < len batch /\ P (idx + base)) indices ->
  let r := positional_indices base (len batch) expected ids indices seen_idx in
  NoDup r /\ Forall (fun idx => 0 <= idx < len batch /\ P (idx + base)) r.
Proof.
  induction ids as [|raw ids IH]; intros indices seen_idx Hids Hnd Hseen Hin; simpl; [auto|].
  apply Forall_cons in Hids as [Hraw Hids].
  destruct ((0 <=? raw - base) && (raw - base <? len batch)
            && negb (bool_decide (raw - base ∈ seen_idx))) eqn:Hc.
  - apply andb_true_iff in Hc as [Hc Hnew]. apply andb_true_iff in Hc as [H0 Hn].
    apply Z.leb_le in H0. apply Z.ltb_lt in Hn.
    apply negb_true_iff, bool_decide_eq_false in Hnew.
    assert (Hnd' : NoDup (indices ++ [raw - base])).
    { apply NoDup_app. repeat split; [exact Hnd| |apply NoDup_singleton].
      intros x Hx Hx'. apply list_elem_of_singleton in Hx' as ->.
      apply Hnew, Hseen, Hx. }
    assert (Hin' : Forall (fun idx => 0 <= idx < len batch /\ P (idx + base))
                          (indices ++ [raw - base])).
    { apply Forall_app. split; [exact Hin|]. constructor; [|constructor].
      split; [lia|]. replace (raw - base + base) with raw by lia. exact Hraw. }
    destruct (len (indices ++ [raw - base]) =? expected); [auto|].
    apply IH; auto.
    intros x. rewrite elem_of_union, elem_of_app, elem_of_singleton,
      list_elem_of_singleton, Hseen. tauto.
  - destruct (len indices =? expected); [auto|]. apply IH; auto.
Qed.

Lemma ids_of_indices indices :
  Forall (fun idx => 0 <= idx < len batch) indices ->
  exists ids,
    fold_right
      (fun idx acc =>
         bind acc (fun ids =>
           match nth_error batch (Z.to_nat idx) with
           | Some row => Ok (BaseWordRow.word_id row :: ids)
           | None => Raise (KeyError (str "list index out of range"))
           end))
      (Ok []) indices = Ok ids /\
    length ids = length indices /\
    (forall x, x ∈ ids -> has_row batch x).
Proof.
  induction indices as [|idx indices IH]; intros H; simpl.
  - exists []. repeat split. intros x Hx. inversion Hx.
  - apply Forall_cons in H as [Hidx H]. destruct (IH H) as (ids & -> & Hlen & Hrows).
    simpl. destruct (nth_error batch (Z.to_nat idx)) as [row|] eqn:Hnth.
    + exists (BaseWordRow.word_id row :: ids). repeat split; [simpl; lia|].
      intros x Hx. apply elem_of_cons in Hx as [->|Hx]; [|auto].
      exists row. split; [|reflexivity].
      apply list_elem_of_In. eapply nth_error_In, Hnth.
    + apply nth_error_None in Hnth. unfold len in Hidx. lia.
Qed.

(** The fallback never fails and only names rows of the batch. *)
Lemma stage_positional_rows cands expected :
  exists ids,
    stage_positional cands batch expected = Ok ids /\
    (forall x, x ∈ ids -> has_row batch x).
Proof.
  unfold stage_positional.
  destruct (distinct_ids_of cands [] ∅) as [|i ids] eqn:Hd.
  - exists []. split; [reflexivity|]. intros x Hx. inversion Hx.
  - set (base := if bool_decide (0 ∈ i :: ids) then 0 else 1).
    assert (Hseen0 : forall x : Z, x ∈ (∅ : gset Z) <-> x ∈ @nil Z) by set_solver.
    destruct (positional_indices_ok (fun _ => True) base expected (i :: ids) [] ∅
                ltac:(apply Forall_forall; auto) NoDup_nil_2 Hseen0 (Forall_nil_2 _))
      as (_ & Hin).
    destruct (ids_of_indices (positional_indices base (len batch) expected (i :: ids) [] ∅))
      as (out & Hout & _ & Hrows).
    { eapply Forall_impl; [exact Hin|]. simpl. tauto. }
    exists out. split; [exact Hout|exact Hrows].
Qed.

(** When no candidate carries a valid local id, the fallback can only
    pick position 0, so it yields at most one id. *)
Lemma stage_positional_short cands expected ids :
  Forall (no_local_id (batch_by_local_of batch)) cands ->
  stage_positional cands batch expected = Ok ids ->
  (length ids <= 1)%nat.
Proof.
  intros Hno. unfold stage_positional.
  destruct (distinct_ids_of cands [] ∅) as [|i rest] eqn:Hd.
  - intros [= <-]. simpl. lia.
  - cbv zeta.
    set (P := fun l : Z => ~ (1 <= l <= len batch)).
    assert (HP : Forall P (i :: rest)).
    { rewrite <- Hd. apply distinct_ids_of_Forall; [constructor|].
      eapply Forall_impl; [exact Hno|]. intros c Hc l Hl [H1 H2].
      specialize (Hc l Hl).
      destruct (batch_by_local_complete batch l ltac:(lia)) as [row Hrow]. congruence. }
    set (base := if bool_decide (0 ∈ i :: rest) then 0 else 1).
    assert (Hseen0 : forall x : Z, x ∈ (∅ : gset Z) <-> x ∈ @nil Z) by set_solver.
    destruct (positional_indices_ok P base expected (i :: rest) [] ∅ HP
                NoDup_nil_2 Hseen0 (Forall_nil_2 _))
      as (Hnd & Hin).
    set (indices := positional_indices base (len batch) expected (i :: rest) [] ∅) in *.
    assert (Hzero : Forall (fun idx => idx = 0) indices).
    { eapply Forall_impl; [exact Hin|]. simpl. intros idx [Hr Hp]. unfold P in Hp.
      subst base. destruct (bool_decide _); lia. }
    assert (Hlen : (length indices <= 1)%nat).
    { destruct indices as [|a [|b l]]; simpl; try lia.
      apply Forall_cons in Hzero as [-> Hzero]. apply Forall_cons in Hzero as [-> _].
      apply NoDup_cons in Hnd as [Hnd _]. exfalso. apply Hnd. left. }
    destruct (ids_of_indices indices) as (out & Hout & Hl & _).
    { eapply Forall_impl; [exact Hin|]. simpl. tauto. }
    rewrite Hout. intros [= <-]. lia.
Qed.

End PositionalFallback.

Section Coerce.
Import response_parser.
Variable py : builtins.

(** [_coerce_selections_to_word_ids] always returns, and what it returns
    are distinct word ids of the batch. *)
Lemma coerce_selections_ok cands batch expected :
  exists selected,
    _coerce_selections_to_word_ids py cands batch
      (batch_by_id_of batch) (batch_by_local_of batch) expected = Ok selected /\
    NoDup selected /\
    (forall x, x ∈ selected -> has_row batch x).
Proof.
  unfold _coerce_selections_to_word_ids.
  destruct ((expected <=? 0) || bool_decide (batch = [])).
  { exists []. repeat split; [constructor|]. intros x Hx. inversion Hx. }
  pose proof (stage_local_id_ok batch expected cands _ (selection_ok_empty batch)) as H1.
  destruct (stage_local_id _ _ _ _) as [[selected selected_set]|selected].
  2:{ destruct H1 as (set & Hnd & _ & Hrows). exists selected. auto. }
  destruct H1 as (Hok1 & Hempty1). simpl in Hempty1.
  assert (Hafter :
    match (if len selected <? expected
           then match stage_word_match py (batch_by_local_of batch) expected cands
                        (selected, selected_set)
                        (List.filter (fun kv => negb (bool_decide (fst kv ∈ selected_set)))
                           (batch_by_id_of batch)) with
                | Return sel => Return sel
                | Next ((sel, set), _) =>
                    if len sel =? expected then Return sel else Next (sel, set)
                end
           else Next (selected, selected_set)) with
    | Return sel => exists set, selection_ok batch (sel, set)
    | Next st' => selection_ok batch st' /\ (fst st' = [] -> selected = [])
    end).
  { destruct (len selected <? expected); [|auto].
    pose proof (stage_word_match_ok py batch expected cands (selected, selected_set)
                  (List.filter (fun kv => negb (bool_decide (fst kv ∈ selected_set)))
                     (batch_by_id_of batch)) Hok1) as H2.
    destruct (stage_word_match _ _ _ _ _ _) as [[[sel set] rem]|sel].
    - destruct H2 as (Hok2 & Hempty2).
      { intros kv Hkv. apply list_elem_of_In, filter_In in Hkv as [Hkv _].
        apply list_elem_of_In, batch_by_id_entries in Hkv. tauto. }
      destruct (len sel =? expected); eauto.
    - apply H2. intros kv Hkv. apply list_elem_of_In, filter_In in Hkv as [Hkv _].
      apply list_elem_of_In, batch_by_id_entries in Hkv. tauto. }
  destruct (if len selected <? expected then _ else _) as [[sel set]|sel].
  2:{ destruct Hafter as (set & Hnd & _ & Hrows). exists sel. auto. }
  destruct Hafter as ((Hnd & _ & Hrows) & Hempty2). simpl in *.
  destruct sel as [|x sel].
  - destruct (Hempty1 (Hempty2 eq_refl)) as (_ & Hno).
    destruct (stage_positional_rows batch cands expected) as (ids & Hids & Hrows').
    exists ids. repeat split; [exact Hids| |exact Hrows'].
    pose proof (stage_positional_short batch cands expected ids Hno Hids) as Hlen.
    destruct ids as [|a [|b l]]; simpl in Hlen; try lia; [constructor|apply NoDup_singleton].
  - exists (x :: sel). auto.
Qed.

End Coerce.

(** ** Selection parsing *)

Section SelectionScores.
Import response_parser.

Lemma scores_of_selected batch rarity_level selected :
  (forall x, x ∈ selected -> has_row batch x) ->
  exists scores,
    fold_right
      (fun word_id acc =>
         bind acc (fun scores =>
           match Dict.get (batch_by_id_of batch) word_id with
           | Some row =>
               Ok (ScoreResult.mk (BaseWordRow.word_id row) (BaseWordRow.word row)
                     (BaseWordRow.type row) rarity_level (str "common") (9 # 10) :: scores)
           | None => Raise (KeyError (str_of_int word_id))
           end))
      (Ok []) selected = Ok scores /\
    map ScoreResult.word_id scores = selected /\
    (forall s, s ∈ scores ->
       (exists row, row ∈ batch /\
          BaseWordRow.word_id row = ScoreResult.word_id s /\
          BaseWordRow.word row = ScoreResult.word s /\
          BaseWordRow.type row = ScoreResult.type s) /\
       ScoreResult.rarity_level s = rarity_level /\
       ScoreResult.tag s = str "common" /\
       ScoreResult.confidence s = 9 # 10).
Proof.
  induction selected as [|x selected IH]; intros Hrows.
  - exists []. repeat split; intros; exfalso; eapply not_elem_of_nil; eassumption.
  - destruct IH as (scores & Hs & Hmap & Hall).
    { intros y Hy. apply Hrows. right. exact Hy. }
    simpl. rewrite Hs. simpl.
    destruct (Hrows x ltac:(left)) as (r & Hr & Hid).
    destruct (batch_by_id_complete batch r Hr) as [row Hrow]. rewrite Hid in Hrow.
    rewrite Hrow. eexists. split; [reflexivity|].
    apply batch_by_id_sound in Hrow as [Hin Hwid].
    split; [simpl; congruence|].
    intros s Hs'. apply elem_of_cons in Hs' as [->|Hs']; [|auto].
    simpl. split; [|auto]. exists row. auto.
Qed.

End SelectionScores.

(** C10. Whatever the selection parser returns: the word ids of the
    results are pairwise distinct, every result repeats the id, word and
    type of a row of the batch, and carries the forced level, the tag
    "common" and the confidence 0.9 -- through the local-id stage, the
    word-match stage and the positional stage alike. *)
Theorem selection_results_distinct_rows_of_batch :
  forall py batch results forced_rarity_level expected_items parsed,
    response_parser._parse_selected_word_ids py batch results
      forced_rarity_level expected_items = Ok parsed ->
    NoDup (map ScoreResult.word_id (ParsedBatch.scores parsed)) /\
    (forall s, s ∈ ParsedBatch.scores parsed ->
       (exists row, row ∈ batch /\
          BaseWordRow.word_id row = ScoreResult.word_id s /\
          BaseWordRow.word row = ScoreResult.word s /\
          BaseWordRow.type row = ScoreResult.type s) /\
       forced_rarity_level = Some (ScoreResult.rarity_level s) /\
       ScoreResult.tag s = str "common" /\
       ScoreResult.confidence s = 9 # 10).
Proof.
  intros py batch results forced expected_items parsed.
  unfold response_parser._parse_selected_word_ids.
  destruct forced as [level|]; [|discriminate].
  destruct ((1 <=? level) && (level <=? 5)); [|discriminate].
  destruct expected_items as [expected|]; [|discriminate].
  destruct (0 <? expected); [|discriminate].
  destruct batch as [|r0 batch0] eqn:Hb.
  { intros [= <-]. simpl. split; [constructor|]. intros s Hs. inversion Hs. }
  rewrite <- Hb. clear Hb.
  destruct (coerce_selections_ok py (omap (response_parser.candidate_of_node py) results)
              batch expected) as (selected & -> & Hnd & Hrows).
  simpl. destruct (negb (len selected =? expected)); [discriminate|].
  destruct (scores_of_selected batch level selected Hrows) as (scores & -> & Hmap & Hall).
  simpl. intros [= <-]. simpl. split; [rewrite Hmap; exact Hnd|].
  intros s Hs. destruct (Hall s Hs) as (H1 & H2 & H3 & H4).
  repeat split; auto. congruence.
Qed.

Lemma selection_results_distinct_rows_of_batch_witness :
  NoDup (map ScoreResult.word_id
           [ScoreResult.mk 101 (str "om") (str "N") 1 (str "common") (9 # 10)]).
Proof.
  exact (proj1 (selection_results_distinct_rows_of_batch
                  PyAscii.ascii_builtins response_parser.selection_test_batch [JInt 1]
                  (Some 1) (Some 1)
                  (ParsedBatch.mk
                     [ScoreResult.mk 101 (str "om") (str "N") 1 (str "common") (9 # 10)] [])
                  eq_refl)).
Defined.

(** C1 (as amended). For a non-empty batch and a positive expected count
    the selection parser returns exactly that many results, or rejects the
    response: with the count-mismatch error when another number of ids
    could be selected, with the missing-level error when the forced level
    is not one of 1..5.  On a batch of two with one id expected, [[1]]
    yields the row numbered 1, [[999]] is rejected, and [[1]] is rejected
    when two ids are expected. *)
Theorem selection_count_exact_or_rejected :
  (forall py batch results forced_rarity_level expected,
     batch <> [] ->
     0 < expected ->
     match response_parser._parse_selected_word_ids py batch results
             forced_rarity_level (Some expected) with
     | Ok parsed =>
         len (ParsedBatch.scores parsed) = expected /\ ParsedBatch.unresolved parsed = []
     | Raise (RuntimeError msg) =>
         exists got, got <> expected /\
           msg = response_parser.count_mismatch_message expected got (len batch)
     | Raise (ValueError _) =>
         forall level, forced_rarity_level = Some level -> ~ (1 <= level <= 5)
     | Raise _ => False
     end) /\
  response_parser._parse_selected_word_ids PyAscii.ascii_builtins
    response_parser.selection_test_batch [JInt 1] (Some 1) (Some 1)
  = Ok (ParsedBatch.mk
          [ScoreResult.mk 101 (str "om") (str "N") 1 (str "common") (9 # 10)] []) /\
  response_parser._parse_selected_word_ids PyAscii.ascii_builtins
    response_parser.selection_test_batch [JInt 999] (Some 1) (Some 1)
  = Raise (RuntimeError (response_parser.count_mismatch_message 1 0 2)) /\
  response_parser._parse_selected_word_ids PyAscii.ascii_builtins
    response_parser.selection_test_batch [JInt 1] (Some 1) (Some 2)
  = Raise (RuntimeError (response_parser.count_mismatch_message 2 1 2)).
Proof.
  split; [|repeat split; vm_compute; reflexivity].
  intros py batch results forced expected Hbatch Hexp.
  unfold response_parser._parse_selected_word_ids.
  destruct forced as [level|]; [|intros l; discriminate].
  destruct ((1 <=? level) && (level <=? 5)) eqn:Hlevel.
  2:{ intros l [= <-] [H1 H2]. apply andb_false_iff in Hlevel as [H|H];
      [apply Z.leb_gt in H|apply Z.leb_gt in H]; lia. }
  replace (0 <? expected) with true by (symmetry; apply Z.ltb_lt; exact Hexp).
  destruct batch as [|r0 batch0] eqn:Hb; [contradiction|].
  rewrite <- Hb. clear Hb.
  destruct (coerce_selections_ok py (omap (response_parser.candidate_of_node py) results)
              batch expected) as (selected & -> & Hnd & Hrows).
  simpl. destruct (Z.eqb_spec (len selected) expected) as [Hlen|Hlen]; simpl.
  - destruct (scores_of_selected batch level selected Hrows) as (scores & -> & Hmap & _).
    simpl. split; [|reflexivity]. rewrite <- Hlen, <- Hmap. unfold len.
    rewrite length_map. reflexivity.
  - exists (len selected). split; [exact Hlen|reflexivity].
Qed.

Lemma selection_count_exact_or_rejected_witness :
  len (ParsedBatch.scores
         (ParsedBatch.mk
            [ScoreResult.mk 101 (str "om") (str "N") 1 (str "common") (9 # 10)] [])) = 1.
Proof.
  exact (proj1 (proj1 selection_count_exact_or_rejected
                  PyAscii.ascii_builtins response_parser.selection_test_batch [JInt 1] (Some 1) 1
                  ltac:(discriminate) ltac:(lia))).
Defined.

(** The claim C1 as worded fails on the empty batch: one id is expected,
    the parser returns no result and raises nothing. *)
Lemma selection_count_fails_on_empty_batch :
  response_parser._parse_selected_word_ids PyAscii.ascii_builtins
    [] [JInt 1] (Some 1) (Some 1) = Ok (ParsedBatch.mk [] []) /\
  len (ParsedBatch.scores (ParsedBatch.mk [] [])) <> 1.
Proof. split; [reflexivity|discriminate]. Qed.

(** ** Guarded rewrite of the run table *)

Section SortedRows.
Import run_csv_repository.

Lemma insert_by_word_id_ids r rows x :
  x ∈ map RunCsvRow.word_id (insert_by_word_id r rows) ->
  x = RunCsvRow.word_id r \/ x ∈ map RunCsvRow.word_id rows.
Proof.
  induction rows as [|y rows IH]; simpl.
  - intros H. apply list_elem_of_singleton in H. auto.
  - destruct (RunCsvRow.word_id r <? RunCsvRow.word_id y); simpl; intros H.
    + apply elem_of_cons in H as [->|H]; auto.
    + apply elem_of_cons in H as [->|H]; [right; left|].
      destruct (IH H); [auto|]. right. right. assumption.
Qed.

Lemma insert_by_word_id_ascending r rows :
  ids_ascending rows -> ids_ascending (insert_by_word_id r rows).
Proof.
  unfold ids_ascending. induction rows as [|y rows IH]; simpl; intros H.
  - repeat constructor.
  - apply StronglySorted_inv in H as [Hs Hall].
    destruct (Z.ltb_spec (RunCsvRow.word_id r) (RunCsvRow.word_id y)); simpl.
    + constructor; [constructor; assumption|].
      constructor; [lia|]. eapply Forall_impl; [exact Hall|]. simpl. lia.
    + constructor; [auto|].
      apply Forall_forall. intros x Hx. apply insert_by_word_id_ids in Hx as [->|Hx]; [lia|].
      rewrite Forall_forall in Hall. auto.
Qed.

Lemma sorted_by_word_id_ascending rows : ids_ascending (sorted_by_word_id rows).
Proof.
  unfold sorted_by_word_id.
  assert (H : forall acc, ids_ascending acc ->
            ids_ascending (fold_left (fun acc r => insert_by_word_id r acc) rows acc)).
  { induction rows as [|r rows IH]; intros acc Hacc; simpl; [exact Hacc|].
    apply IH, insert_by_word_id_ascending, Hacc. }
  apply H. constructor.
Qed.

Lemma list_min_least x rest : Forall (Z.le x) rest -> list_min x rest = x.
Proof.
  unfold list_min. induction rest as [|y rest IH]; intros H; simpl; [reflexivity|].
  apply Forall_cons in H as [Hy H]. rewrite Z.min_l by exact Hy. auto.
Qed.

Lemma list_max_last rest : forall x,
  StronglySorted Z.le (x :: rest) -> Some (list_max x rest) = last (x :: rest).
Proof.
  unfold list_max. induction rest as [|y rest IH]; intros x H; simpl; [reflexivity|].
  apply StronglySorted_inv in H as [Hs Hall]. apply Forall_cons in Hall as [Hy _].
  rewrite Z.max_r by exact Hy. rewrite (IH y Hs). reflexivity.
Qed.

(** On a table in ascending id order the recomputed baseline reads the
    first and the last row. *)
Lemma compute_baseline_ascending rows :
  ids_ascending rows ->
  RunBaseline.count (compute_baseline rows) = len rows /\
  RunBaseline.min_id (compute_baseline rows) = option_map RunCsvRow.word_id (head rows) /\
  RunBaseline.max_id (compute_baseline rows) = option_map RunCsvRow.word_id (last rows).
Proof.
  unfold ids_ascending, compute_baseline. intros H.
  destruct rows as [|r rows]; simpl; [auto|].
  simpl in H. split; [reflexivity|]. split.
  - f_equal. apply list_min_least. apply StronglySorted_inv in H. tauto.
  - rewrite (list_max_last _ _ H). change (RunCsvRow.word_id r :: map RunCsvRow.word_id rows)
      with (map RunCsvRow.word_id (r :: rows)).
    generalize (r :: rows). intros l. induction l as [|a [|b l] IH]; try reflexivity.
    exact IH.
Qed.

Lemma merged_rows_ascending py fs path in_memory_rows merged_rows :
  merged_rows_of py fs path in_memory_rows = Ok merged_rows -> ids_ascending merged_rows.
Proof.
  unfold merged_rows_of. destruct (load_run_rows py fs path); simpl; [|discriminate].
  intros [= <-]. apply sorted_by_word_id_ascending.
Qed.

End SortedRows.

(** C5. When the table about to be written -- the rows on disk merged
    with the rows in memory -- has fewer rows than the baseline counts, a
    least id above the baseline's or a greatest id below the baseline's,
    [merge_and_rewrite_atomic] raises and the file system is as it was:
    no file is written or replaced. *)
Theorem merge_guard_raises_before_any_write :
  forall py fs path in_memory_rows baseline merged_rows,
    run_csv_repository.merged_rows_of py fs path in_memory_rows = Ok merged_rows ->
    let fresh := run_csv_repository.compute_baseline merged_rows in
    (RunBaseline.count fresh < RunBaseline.count baseline \/
     (exists fresh_min base_min,
        RunBaseline.min_id fresh = Some fresh_min /\
        RunBaseline.min_id baseline = Some base_min /\ base_min < fresh_min) \/
     (exists fresh_max base_max,
        RunBaseline.max_id fresh = Some fresh_max /\
        RunBaseline.max_id baseline = Some base_max /\ fresh_max < base_max)) ->
    exists msg,
      run_csv_repository.merge_and_rewrite_atomic py fs path in_memory_rows baseline
      = (Raise (RuntimeError msg), fs).
Proof.
  intros py fs path in_memory_rows baseline merged_rows Hmerged fresh Hshrunk.
  unfold run_csv_repository.merge_and_rewrite_atomic. rewrite Hmerged.
  destruct (compute_baseline_ascending merged_rows
              (merged_rows_ascending _ _ _ _ _ Hmerged)) as (Hcount & Hmin & Hmax).
  fold fresh in Hcount, Hmin, Hmax.
  unfold run_csv_repository._assert_not_shrunk.
  destruct (Z.ltb_spec (len merged_rows) (RunBaseline.count baseline)) as [Hc|Hc]; [eauto|].
  rewrite <- Hmin, <- Hmax.
  destruct Hshrunk as [H|[(a & b & Ha & Hb & Hlt)|(a & b & Ha & Hb & Hlt)]]; [lia| |].
  - rewrite Ha, Hb. replace (b <? a) with true by (symmetry; apply Z.ltb_lt; exact Hlt). eauto.
  - rewrite Ha, Hb.
    replace (a <? b) with true by (symmetry; apply Z.ltb_lt; exact Hlt).
    destruct (RunBaseline.min_id baseline) as [bm|], (RunBaseline.min_id fresh) as [fm|]; eauto.
    destruct (bm <? fm); eauto.
Qed.

Lemma merge_guard_raises_before_any_write_witness :
  exists msg,
    run_csv_repository.merge_and_rewrite_atomic PyAscii.ascii_builtins
      run_csv_repository.example_fs run_csv_repository.example_path
      [run_csv_repository.example_row] (RunBaseline.mk 3 (Some 1) (Some 2))
    = (Raise (RuntimeError msg), run_csv_repository.example_fs).
Proof.
  refine (merge_guard_raises_before_any_write PyAscii.ascii_builtins
            run_csv_repository.example_fs run_csv_repository.example_path
            [run_csv_repository.example_row] (RunBaseline.mk 3 (Some 1) (Some 2))
            _ eq_refl _).
  left. vm_compute. reflexivity.
Defined.

Example merge_within_baseline :
  fst (run_csv_repository.merge_and_rewrite_atomic PyAscii.ascii_builtins
         run_csv_repository.example_fs run_csv_repository.example_path
         [run_csv_repository.example_row] (RunBaseline.mk 2 (Some 1) (Some 2)))
  = Ok tt.
Proof. vm_compute. reflexivity. Qed.

(** ** Capability negotiation *)

Section CapabilityFacts.
Import client.
Variable py : builtins.
Variable post_json : nat -> Request -> http_outcome.
Variable parse :
  list BaseWordRow.t -> pystr -> ScoringOutputMode.t -> option Z -> option Z ->
  result ParsedBatch.t.

Lemma chain_snoc {A} (R : A -> A -> Prop) l a b :
  last l = Some a -> chain R l -> R a b -> chain R (l ++ [b]).
Proof.
  induction l as [|x [|y l] IH]; simpl; intros Hlast Hchain Hab.
  - exact I.
  - injection Hlast as ->. auto.
  - destruct Hchain as [Hxy Hchain]. split; [exact Hxy|].
    apply IH; assumption.
Qed.

Lemma history_ok_init : history_ok __init__.
Proof. repeat split. Qed.

Lemma set_capability_ok st c :
  history_ok st -> narrows (capability_state st) c -> history_ok (set_capability st c).
Proof.
  intros (Hhead & Hlast & Hchain) Hn. unfold history_ok, set_capability. simpl.
  split; [|split].
  - destruct (capability_history st); [discriminate|exact Hhead].
  - apply last_snoc.
  - eapply chain_snoc; eassumption.
Qed.

Lemma append_json_line_ok st path line :
  history_ok st -> history_ok (_append_json_line st path line).
Proof. intros H. exact H. Qed.

Lemma mark_disabled_ok st :
  history_ok st ->
  history_ok (_mark_response_format_disabled st) /\
  response_format_mode (capability_state (_mark_response_format_disabled st))
    = ResponseFormatMode.NONE.
Proof.
  intros H. unfold _mark_response_format_disabled.
  destruct (response_format_mode (capability_state st)) eqn:E; simpl; auto.
  - split; [|reflexivity]. apply set_capability_ok; [exact H|].
    left. rewrite E. simpl. split; [lia|reflexivity].
  - split; [|reflexivity]. apply set_capability_ok; [exact H|].
    left. rewrite E. simpl. split; [lia|reflexivity].
Qed.

Lemma mark_json_schema_ok st :
  history_ok st ->
  response_format_mode (capability_state st) = ResponseFormatMode.JSON_OBJECT ->
  history_ok (_mark_response_format_json_schema st) /\
  response_format_mode (capability_state (_mark_response_format_json_schema st))
    = ResponseFormatMode.JSON_SCHEMA.
Proof.
  intros H E. unfold _mark_response_format_json_schema. rewrite E. simpl.
  split; [|reflexivity]. apply set_capability_ok; [exact H|].
  left. rewrite E. simpl. split; [lia|reflexivity].
Qed.

Lemma mark_reasoning_ok st :
  history_ok st ->
  history_ok (_mark_reasoning_controls_unsupported st) /\
  response_format_mode (capability_state (_mark_reasoning_controls_unsupported st))
    = response_format_mode (capability_state st).
Proof.
  intros H. unfold _mark_reasoning_controls_unsupported.
  destruct (reasoning_controls_supported (capability_state st)) eqn:E; simpl; auto.
  split; [|reflexivity]. apply set_capability_ok; [exact H|].
  right. simpl. auto.
Qed.

Lemma retry_loop_history remaining : forall attempt batch ctx mode reasoning last_error saw st,
  history_ok st ->
  mode_in_sync mode st ->
  history_ok (snd (retry_loop py post_json parse remaining attempt batch ctx
                     mode reasoning last_error saw st)).
Proof.
  induction remaining as [|remaining IH]; intros attempt batch ctx mode reasoning last_error
    saw st Hok Hsync; [exact Hok|].
  cbn [retry_loop].
  destruct (_resolve_selection_prompt_counts ctx) as [sp ut].
  match goal with |- context [attempt_once ?a ?b ?c ?d ?e ?f] =>
    destruct (attempt_once a b c d e f) as [parsed|exc] end.
  - (* the attempt parsed *)
    cbn [snd].
    destruct (ResponseFormatMode.eqb mode ResponseFormatMode.JSON_SCHEMA && _); simpl.
    + apply (mark_disabled_ok (count_request st) Hok).
    + exact Hok.
  - (* the attempt raised *)
    set (st1 := _append_json_line (count_request st) _ _).
    assert (Hok1 : history_ok st1) by exact Hok.
    assert (Hsync1 : mode_in_sync mode st1) by exact Hsync.
    clearbody st1.
    destruct (ResponseFormatMode.eqb mode ResponseFormatMode.JSON_OBJECT
              && _should_switch_to_json_schema py exc) eqn:Hswitch.
    + apply andb_true_iff in Hswitch as [Hmode _].
      assert (mode = ResponseFormatMode.JSON_OBJECT) by (destruct mode; simpl in Hmode; congruence).
      subst mode. destruct Hsync1 as [Hs|Hs]; [discriminate|].
      destruct (mark_json_schema_ok st1 Hok1 (eq_sym Hs)) as (Hok2 & Hm2).
      destruct (mark_reasoning_ok (_mark_response_format_json_schema st1) Hok2) as (Hok3 & Hm3).
      destruct (reasoning && _is_unsupported_reasoning_controls py exc);
        destruct (_is_model_crash py exc);
        apply IH; try assumption;
        right; simpl; congruence.
    + destruct (mark_disabled_ok st1 Hok1) as (Hok2 & Hm2).
      destruct (mark_reasoning_ok (_mark_response_format_disabled st1) Hok2) as (Hok3 & Hm3).
      destruct (mark_reasoning_ok st1 Hok1) as (Hok3' & Hm3').
      destruct (negb (ResponseFormatMode.eqb mode ResponseFormatMode.NONE)
                && _is_unsupported_response_format py exc
                || ResponseFormatMode.eqb mode ResponseFormatMode.JSON_SCHEMA
                   && _is_empty_parsed_results py exc);
        destruct (reasoning && _is_unsupported_reasoning_controls py exc);
        destruct (_is_model_crash py exc);
        apply IH; try assumption;
        first [left; reflexivity
              |destruct Hsync1 as [Hs|Hs]; [left; exact Hs|right; simpl; congruence]].
Qed.

(** A property of the client state that logging and a retry loop keep is
    kept by the whole resilient call. *)
Section Preservation.
Variable P : state -> Prop.
Hypothesis P_log : forall st path line, P st -> P (_append_json_line st path line).
Hypothesis P_try : forall batch ctx st,
  P st -> P (snd (_try_score_batch py post_json parse batch ctx st)).

Lemma repair_preserves batch ctx direct st :
  P st -> P (snd (repair_after_count_mismatch py post_json parse batch ctx direct st)).
Proof.
  intros HP. unfold repair_after_count_mismatch, _try_selection_repair_before_split.
  destruct (output_mode ctx); [exact HP|].
  destruct (_is_selection_count_mismatch py _); [|exact HP].
  destruct (expected_json_items ctx) as [expected|]; [|exact HP].
  destruct ((expected <=? 0) || (len batch <=? expected)); [exact HP|].
  pose proof (P_try batch (repair_context ctx) st HP) as H.
  destruct (_try_score_batch _ _ _ _ _ _) as [repaired st1]. simpl in H.
  destruct (BatchAttempt.connectivity_failure repaired); [exact H|].
  destruct (BatchAttempt.unresolved repaired); [|exact H].
  destruct (negb _); exact H.
Qed.

Lemma internal_preserves budget : forall batch ctx st,
  P st ->
  P (snd (_score_batch_resilient_internal py post_json parse budget batch ctx st)).
Proof.
  induction budget as [|budget IH]; intros batch ctx st HP.
  - simpl. revert st HP. induction batch as [|w batch IHb]; intros st HP; simpl; [exact HP|].
    apply IHb. apply P_log, HP.
  - cbn [_score_batch_resilient_internal].
    destruct (selection_shortcut batch ctx); [exact HP|].
    pose proof (P_try batch ctx st HP) as H1.
    destruct (_try_score_batch _ _ _ _ _ _) as [direct st1]. simpl in H1.
    destruct (BatchAttempt.connectivity_failure direct); [exact H1|].
    destruct (BatchAttempt.scores direct) as [|s ss].
    + pose proof (repair_preserves batch ctx direct st1 H1) as H2.
      destruct (repair_after_count_mismatch _ _ _ _ _ _ _) as [[scores|] st2];
        simpl in H2; [exact H2|].
      destruct (len batch =? 1).
      { simpl. destruct batch; [exact H2|]. apply P_log, H2. }
      destruct (split_contexts _ _ _) as [[left_ctx right_ctx]|e]; [|exact H2].
      pose proof (IH (take (Z.to_nat (len batch / 2)) batch) left_ctx st2 H2) as H3.
      destruct (_score_batch_resilient_internal _ _ _ _ _ left_ctx st2) as [[ls|e] st3];
        simpl in H3; [|exact H3].
      pose proof (IH (drop (Z.to_nat (len batch / 2)) batch) right_ctx st3 H3) as H4.
      destruct (_score_batch_resilient_internal _ _ _ _ _ right_ctx st3) as [[rs|e] st4];
        exact H4.
    + destruct (allow_partial_results ctx); [exact H1|].
      destruct (BatchAttempt.unresolved direct) as [|u us]; [exact H1|].
      pose proof (IH (u :: us) ctx st1 H1) as H3.
      destruct (_score_batch_resilient_internal _ _ _ _ _ ctx st1) as [[rs|e] st3]; exact H3.
Qed.

End Preservation.

Lemma try_score_batch_history batch ctx st :
  history_ok st -> history_ok (snd (_try_score_batch py post_json parse batch ctx st)).
Proof.
  intros H. unfold _try_score_batch. apply retry_loop_history; [exact H|].
  unfold mode_in_sync, _response_format_mode_for. destruct (flavor ctx); auto.
Qed.

Lemma score_batch_resilient_eq batch ctx st :
  score_batch_resilient py post_json parse batch ctx st
  = _score_batch_resilient_internal py post_json parse MAX_RECURSION_DEPTH batch ctx st.
Proof. reflexivity. Qed.

Lemma fold_left_cons_eq {A B} (f : A -> B -> A) x l a :
  fold_left f (x :: l) a = fold_left f l (f a x).
Proof. reflexivity. Qed.

Lemma score_batch_resilient_history batch ctx st :
  history_ok st ->
  history_ok (snd (score_batch_resilient py post_json parse batch ctx st)).
Proof.
  intros H. rewrite score_batch_resilient_eq.
  apply internal_preserves; [| |exact H].
  - intros. apply append_json_line_ok. assumption.
  - intros. apply try_score_batch_history. assumption.
Qed.

Lemma run_session_history calls : forall st,
  history_ok st -> history_ok (run_session py post_json parse calls st).
Proof.
  unfold run_session. induction calls as [|call calls IH]; intros st H; [exact H|].
  rewrite fold_left_cons_eq. apply IH, score_batch_resilient_history, H.
Qed.

End CapabilityFacts.

(** C6. A client starts with the response format [json_object] and the
    reasoning controls supported.  Whatever batches it then scores, against
    whatever endpoint and parser, the values assigned to its capability
    state form a chain from the initial one to the current one in which
    every assignment either moves the format forward in the order
    json-object, json-schema, none, or clears the reasoning flag; nothing
    is ever widened again. *)
Theorem capability_state_only_narrows :
  client.capability_state client.__init__
    = client.mkCapability ResponseFormatMode.JSON_OBJECT true /\
  forall py post_json parse calls,
    let st := client.run_session py post_json parse calls client.__init__ in
    head (client.capability_history st) = Some (client.capability_state client.__init__) /\
    last (client.capability_history st) = Some (client.capability_state st) /\
    client.chain client.narrows (client.capability_history st).
Proof.
  split; [reflexivity|]. intros py post_json parse calls st.
  exact (run_session_history py post_json parse calls client.__init__ history_ok_init).
Qed.

(** ** Resilient scoring: when it raises *)

Section RaiseFacts.
Import client.
Variable py : builtins.
Variable post_json : nat -> Request -> http_outcome.
Variable parse :
  list BaseWordRow.t -> pystr -> ScoringOutputMode.t -> option Z -> option Z ->
  result ParsedBatch.t.










End RaiseFacts.




(** ** The adaptive target count of the rebalance loop *)







Import step5_rebalance.






(** ** Dictionaries whose keys are distinct *)

Section DictKeys.
Context {V : Type}.
Implicit Types (d : Dict.t V) (k : Z) (v : V).

Lemma dict_get_None d k : Dict.get d k = None <-> k ∉ Dict.keys d.
Proof.
  unfold Dict.keys. induction d as [|[k0 v0] d IH]; simpl.
  - split; [intros _ H; inversion H|reflexivity].
  - destruct (Z.eqb_spec k0 k) as [->|Hne].
    + split; [discriminate|]. intros H. exfalso. apply H. left.
    + rewrite IH, not_elem_of_cons. split; [auto|]. intros [_ H]. exact H.
Qed.

Lemma dict_put_present d k v v' :
  Dict.get d k = Some v ->
  exists d1 d2, d = d1 ++ (k, v) :: d2 /\ Dict.put d k v' = d1 ++ (k, v') :: d2.
Proof.
  induction d as [|[k0 v0] d IH]; simpl; [discriminate|].
  destruct (Z.eqb_spec k0 k) as [->|Hne].
  - intros [= ->]. exists [], d. auto.
  - intros H. destruct (IH H) as (d1 & d2 & -> & ->).
    exists ((k0, v0) :: d1), d2. auto.
Qed.

Lemma dict_put_absent d k v : Dict.get d k = None -> Dict.put d k v = d ++ [(k, v)].
Proof.
  induction d as [|[k0 v0] d IH]; simpl; [reflexivity|].
  destruct (Z.eqb_spec k0 k) as [->|Hne]; [discriminate|].
  intros H. rewrite IH by assumption. reflexivity.
Qed.

Lemma dict_keys_put d k v :
  Dict.keys (Dict.put d k v)
  = match Dict.get d k with Some _ => Dict.keys d | None => Dict.keys d ++ [k] end.
Proof.
  destruct (Dict.get d k) as [v0|] eqn:E.
  - destruct (dict_put_present d k v0 v E) as (d1 & d2 & -> & ->).
    unfold Dict.keys. rewrite !map_app. reflexivity.
  - rewrite dict_put_absent by assumption. unfold Dict.keys. rewrite map_app. reflexivity.
Qed.

Lemma dict_keys_put_NoDup d k v : NoDup (Dict.keys d) -> NoDup (Dict.keys (Dict.put d k v)).
Proof.
  intros H. rewrite dict_keys_put. destruct (Dict.get d k) eqn:E; [assumption|].
  apply NoDup_app. split; [assumption|]. split.
  - intros x Hx Hk. apply list_elem_of_singleton in Hk as ->.
    apply dict_get_None in E. contradiction.
  - apply NoDup_singleton.
Qed.

Lemma dict_keys_put_elem d k v x :
  x ∈ Dict.keys (Dict.put d k v) <-> x = k \/ x ∈ Dict.keys d.
Proof.
  rewrite dict_keys_put. destruct (Dict.get d k) as [v0|] eqn:E.
  - split; [auto|]. intros [->|H]; [|assumption].
    apply dict_get_elem in E. unfold Dict.keys.
    apply (list_elem_of_fmap_2 fst) in E. exact E.
  - rewrite elem_of_app, list_elem_of_singleton. tauto.
Qed.

Lemma dict_elem_get_NoDup d k v : NoDup (Dict.keys d) -> (k, v) ∈ d -> Dict.get d k = Some v.
Proof.
  unfold Dict.keys. induction d as [|[k0 v0] d IH]; simpl; intros Hnd H.
  - inversion H.
  - apply NoDup_cons in Hnd as [Hk0 Hnd].
    apply elem_of_cons in H as [[= -> ->]|H].
    + rewrite Z.eqb_refl. reflexivity.
    + destruct (Z.eqb_spec k0 k) as [->|_]; [|auto].
      exfalso. apply Hk0. apply (list_elem_of_fmap_2 fst) in H. exact H.
Qed.

End DictKeys.

(** ** The stratified batch *)

Section Stratified.
Import step5_rebalance.
Implicit Types (remaining : Dict.t (list RebalanceWord)) (quotas : Dict.t Z).

Lemma pop_many_spec take queue :
  let '(taken, rest) := pop_many take queue in
  queue = rest ++ rev taken /\
  length taken = Nat.min (Z.to_nat take) (length queue).
Proof.
  unfold pop_many.
  set (n := Nat.min (Z.to_nat take) (length queue)).
  split.
  - rewrite rev_involutive. symmetry. apply firstn_skipn.
  - rewrite length_rev, length_drop. lia.
Qed.

Lemma all_words_put remaining level queue rest taken :
  Dict.get remaining level = Some queue ->
  queue ≡ₚ rest ++ taken ->
  all_words (Dict.put remaining level rest) ++ taken ≡ₚ all_words remaining.
Proof.
  intros Hget Hq.
  destruct (dict_put_present remaining level queue rest Hget) as (d1 & d2 & -> & ->).
  unfold all_words, Dict.values. rewrite !map_app, !concat_app. simpl.
  rewrite Hq. solve_Permutation.
Qed.

Lemma available_put remaining level queue l :
  available (Dict.put remaining level queue) l
  = if Z.eqb level l then len queue else available remaining l.
Proof.
  unfold available. rewrite dict_get_put. destruct (Z.eqb level l); reflexivity.
Qed.

Lemma take_queues_spec quotas source_levels batch remaining :
  let '(batch', remaining') := take_queues quotas source_levels batch remaining in
  (exists taken, batch' = batch ++ taken /\
                 all_words remaining' ++ taken ≡ₚ all_words remaining) /\
  Dict.keys remaining' = Dict.keys remaining.
Proof.
  unfold take_queues.
  revert batch remaining.
  induction source_levels as [|level rest IH]; intros batch remaining; cbn [fold_left].
  - split; [|reflexivity]. exists []. rewrite !app_nil_r. auto.
  - destruct (Dict.get remaining level) as [queue|] eqn:Hget; [|apply IH].
    pose proof (pop_many_spec (quota quotas level) queue) as Hpop.
    destruct (pop_many (quota quotas level) queue) as [taken queue'].
    destruct Hpop as [Hq _]. cbv beta iota.
    specialize (IH (batch ++ taken) (Dict.put remaining level queue')).
    destruct (fold_left _ rest _) as [batch' remaining'].
    destruct IH as [(more & -> & Hperm) Hkeys]. split.
    + exists (taken ++ more). split; [rewrite app_assoc; reflexivity|].
      rewrite <- (all_words_put remaining level queue queue' taken Hget).
      * rewrite <- Hperm. solve_Permutation.
      * rewrite Hq. rewrite <- (Permutation_rev taken). reflexivity.
    + rewrite Hkeys, dict_keys_put, Hget. reflexivity.
Qed.


End Stratified.

Section Quotas.
Import step5_rebalance.
Implicit Types (remaining : Dict.t (list RebalanceWord)) (quotas : Dict.t Z).

Lemma some_level_or_none (P : Z -> Prop) `{forall x, Decision (P x)} (levels : list Z) :
  (exists l, l ∈ levels /\ P l) \/ (forall l, l ∈ levels -> ~ P l).
Proof.
  destruct (decide (Exists P levels)) as [Hsome|Hnone].
  - left. apply Exists_exists in Hsome. exact Hsome.
  - right. intros l Hin Hl. apply Hnone, Exists_exists. eauto.
Qed.

Lemma quota_put quotas level v l :
  quota (Dict.put quotas level v) l = if Z.eqb level l then v else quota quotas l.
Proof. unfold quota. rewrite dict_get_put. destruct (Z.eqb level l); reflexivity. Qed.

Lemma available_nonneg remaining level : 0 <= available remaining level.
Proof. unfold available, len. lia. Qed.

Lemma fold_add_shift (l : list Z) a : fold_left Z.add l a = a + fold_left Z.add l 0.
Proof.
  revert a. induction l as [|x l IH]; intros a; simpl; [lia|].
  rewrite (IH (a + x)), (IH (0 + x)). lia.
Qed.



Lemma total_remaining_nonneg source_levels remaining :
  0 <= total_remaining source_levels remaining.
Proof.
  unfold total_remaining.
  assert (forall a, a <= fold_left (fun acc level => acc + available remaining level)
                           source_levels a) as H; [|apply H].
  induction source_levels as [|l rest IH]; intros a; simpl; [lia|].
  specialize (IH (a + available remaining l)).
  pose proof (available_nonneg remaining l). lia.
Qed.

(** *** The planned quotas *)

Lemma integer_quotas_keys source_levels counts batch_size total :
  NoDup (Dict.keys (integer_quotas source_levels counts batch_size total)).
Proof.
  unfold integer_quotas.
  assert (forall q : Dict.t Z, NoDup (Dict.keys q) ->
            NoDup (Dict.keys
                     (fold_left
                        (fun q level =>
                           Dict.put q level (Z.quot (batch_size * quota counts level) total))
                        source_levels q))) as H.
  { induction source_levels as [|l rest IH]; intros q Hq; simpl; [assumption|].
    apply IH, dict_keys_put_NoDup, Hq. }
  apply H. apply NoDup_nil_2.
Qed.

Lemma integer_quotas_quota source_levels counts batch_size total l :
  quota (integer_quotas source_levels counts batch_size total) l
  = if bool_decide (l ∈ source_levels)
    then Z.quot (batch_size * quota counts l) total else 0.
Proof.
  unfold integer_quotas.
  assert (forall q : Dict.t Z,
            quota (fold_left
                     (fun q level =>
                        Dict.put q level (Z.quot (batch_size * quota counts level) total))
                     source_levels q) l
            = if bool_decide (l ∈ source_levels)
              then Z.quot (batch_size * quota counts l) total else quota q l) as H.
  { induction source_levels as [|l0 rest IH]; intros q; cbn [fold_left].
    - rewrite bool_decide_eq_false_2; [reflexivity|]. intros H. inversion H.
    - rewrite IH, quota_put.
      destruct (Z.eqb_spec l0 l) as [->|Hne].
      + rewrite (bool_decide_eq_true_2 (l ∈ l :: rest)) by left.
        destruct (bool_decide (l ∈ rest)); reflexivity.
      + destruct (bool_decide (l ∈ rest)) eqn:E.
        * apply bool_decide_eq_true in E.
          rewrite bool_decide_eq_true_2; [reflexivity|]. right. exact E.
        * apply bool_decide_eq_false in E.
          rewrite bool_decide_eq_false_2; [reflexivity|].
          intros H. apply elem_of_cons in H as [->|H]; [congruence|contradiction]. }
  rewrite H. reflexivity.
Qed.

Lemma hand_out_grows fractions quotas unassigned l :
  quota quotas l <= quota (fst (hand_out fractions quotas unassigned)) l.
Proof.
  unfold hand_out. revert quotas unassigned.
  induction fractions as [|f rest IH]; intros quotas unassigned; cbn [fold_left]; [simpl; lia|].
  destruct (unassigned <=? 0); [apply IH|].
  etransitivity; [|apply IH]. rewrite quota_put. destruct (Z.eqb f l) eqn:E; [|lia].
  apply Z.eqb_eq in E as ->. lia.
Qed.


Lemma insert_descending_perm key x l : insert_descending key x l ≡ₚ x :: l.
Proof.
  induction l as [|y l IH]; simpl; [reflexivity|].
  destruct (key y <? key x); [reflexivity|]. rewrite IH. apply Permutation_swap.
Qed.

Lemma sorted_descending_perm key l : sorted_descending key l ≡ₚ l.
Proof.
  unfold sorted_descending.
  assert (forall acc, fold_left (fun acc x => insert_descending key x acc) l acc ≡ₚ acc ++ l)
    as H; [|apply (H [])].
  induction l as [|x l IH]; intros acc; simpl; [rewrite app_nil_r; reflexivity|].
  rewrite IH, insert_descending_perm. solve_Permutation.
Qed.


(** *** Capping by the stock and handing on the shortfall *)

Lemma cap_quotas_spec source_levels remaining quotas :
  let '(capped, missing) := cap_quotas source_levels remaining quotas in
  (forall l, quota capped l
             = if bool_decide (l ∈ source_levels)
               then Z.min (quota quotas l) (available remaining l)
               else quota quotas l) /\
  (forall l, l ∈ source_levels -> quota quotas l - quota capped l <= missing).
Proof.
  unfold cap_quotas.
  assert (forall q m,
            let '(capped, missing) :=
              fold_left
                (fun '(q, missing) level =>
                   let avail := available remaining level in
                   let planned := quota q level in
                   if avail <? planned
                   then (Dict.put q level avail, missing + (planned - avail))
                   else (q, missing))
                source_levels (q, m) in
            (forall l, quota capped l
                       = if bool_decide (l ∈ source_levels)
                         then Z.min (quota q l) (available remaining l)
                         else quota q l) /\
            m <= missing /\
            (forall l, l ∈ source_levels -> m + (quota q l - quota capped l) <= missing))
    as H.
  { induction source_levels as [|l0 rest IH]; intros q m; cbn [fold_left].
    - split; [|split; [lia|]].
      + intros l. rewrite bool_decide_eq_false_2; [reflexivity|]. intros H. inversion H.
      + intros l H. inversion H.
    - cbv zeta.
      set (q1 := if available remaining l0 <? quota q l0
                 then Dict.put q l0 (available remaining l0) else q).
      set (m1 := if available remaining l0 <? quota q l0
                 then m + (quota q l0 - available remaining l0) else m).
      assert ((if available remaining l0 <? quota q l0
               then (Dict.put q l0 (available remaining l0),
                     m + (quota q l0 - available remaining l0))
               else (q, m)) = (q1, m1)) as ->.
      { subst q1 m1. destruct (available remaining l0 <? quota q l0); reflexivity. }
      assert (forall l, quota q1 l
                        = if Z.eqb l0 l then Z.min (quota q l) (available remaining l)
                          else quota q l) as Hq1.
      { intros l. subst q1. destruct (Z.ltb_spec (available remaining l0) (quota q l0)).
        - rewrite quota_put. destruct (Z.eqb_spec l0 l) as [->|]; lia.
        - destruct (Z.eqb_spec l0 l) as [->|]; lia. }
      assert (m1 = m + (quota q l0 - quota q1 l0)) as Hm1.
      { rewrite Hq1, Z.eqb_refl. subst m1.
        destruct (Z.ltb_spec (available remaining l0) (quota q l0)); lia. }
      assert (m <= m1) as Hmm.
      { subst m1. destruct (Z.ltb_spec (available remaining l0) (quota q l0)); lia. }
      specialize (IH q1 m1).
      destruct (fold_left _ rest (q1, m1)) as [capped missing].
      destruct IH as (Hcap & Hm & Hmiss).
      assert (forall l, quota capped l
                        = if bool_decide (l ∈ l0 :: rest)
                          then Z.min (quota q l) (available remaining l)
                          else quota q l) as Hcapped.
      { intros l. rewrite Hcap, Hq1.
        destruct (Z.eqb_spec l0 l) as [->|Hne].
        - rewrite (bool_decide_eq_true_2 (l ∈ l :: rest)) by left.
          destruct (bool_decide (l ∈ rest)); lia.
        - destruct (bool_decide (l ∈ rest)) eqn:E.
          + apply bool_decide_eq_true in E.
            rewrite bool_decide_eq_true_2; [reflexivity|]. right. exact E.
          + apply bool_decide_eq_false in E.
            rewrite bool_decide_eq_false_2; [reflexivity|].
            intros H. apply elem_of_cons in H as [->|H]; [congruence|contradiction]. }
      split; [exact Hcapped|]. split; [lia|].
      intros l Hin. pose proof (Hq1 l) as Hq1l.
      destruct (decide (l ∈ rest)) as [Hrest|Hrest].
      + specialize (Hmiss l Hrest).
        destruct (Z.eqb_spec l0 l) as [->|Hne]; lia.
      + apply elem_of_cons in Hin as [->|Hin]; [|contradiction].
        pose proof (Hcap l0) as Hcl. rewrite bool_decide_eq_false_2 in Hcl by assumption.
        lia. }
  specialize (H quotas 0).
  destruct (fold_left _ source_levels (quotas, 0)) as [capped missing].
  destruct H as (Hcap & _ & Hmiss). split; [exact Hcap|].
  intros l Hin. specialize (Hmiss l Hin). lia.
Qed.

Lemma first_max_in key best rest : first_max key best rest ∈ best :: rest.
Proof.
  revert best. induction rest as [|x rest IH]; intros best; simpl; [left|].
  specialize (IH (if key best <? key x then x else best)).
  apply elem_of_cons in IH as [->|IH].
  - destruct (key best <? key x); [right; left|left].
  - right. right. exact IH.
Qed.

Lemma backfill_grows passes source_levels remaining quotas missing l :
  quota quotas l <= quota (backfill passes source_levels remaining quotas missing) l.
Proof.
  revert quotas missing.
  induction passes as [|passes IH]; intros quotas missing; simpl; [lia|].
  destruct (missing <=? 0); [lia|].
  destruct (List.filter _ source_levels) as [|c candidates]; [lia|].
  etransitivity; [|apply IH]. rewrite quota_put.
  destruct (Z.eqb_spec (first_max
                          (fun level => available remaining level - quota quotas level)
                          c candidates) l) as [->|]; lia.
Qed.

Lemma backfill_within_stock passes source_levels remaining quotas missing :
  (forall l, l ∈ source_levels -> quota quotas l <= available remaining l) ->
  forall l, l ∈ source_levels ->
    quota (backfill passes source_levels remaining quotas missing) l <= available remaining l.
Proof.
  revert quotas missing.
  induction passes as [|passes IH]; intros quotas missing Hq; simpl; [exact Hq|].
  destruct (missing <=? 0); [exact Hq|].
  destruct (List.filter _ source_levels) as [|c candidates] eqn:Ecand; [exact Hq|].
  apply IH. intros l Hin. rewrite quota_put.
  set (candidate := first_max _ c candidates).
  destruct (Z.eqb_spec candidate l) as [<-|_]; [|auto].
  pose proof (first_max_in (fun level => available remaining level - quota quotas level)
                c candidates) as Hc.
  fold candidate in Hc. rewrite <- Ecand in Hc.
  apply list_elem_of_In, filter_In in Hc as [_ Hc]. apply Z.ltb_lt in Hc. lia.
Qed.



End Quotas.

(** ** One pass of the rebalance loop *)

Section Batch.
Import transitions step5_rebalance.
Context {Rng : Type}.
Variable shuffle : Rng -> list RebalanceWord -> list RebalanceWord * Rng.
Hypothesis shuffle_permutes : forall g l, fst (shuffle g l) ≡ₚ l.

Lemma select_stratified_batch_spec source_levels remaining counts max_batch_size g
    batch remaining' g' :
  _select_stratified_batch shuffle source_levels remaining counts max_batch_size g
  = Ok (batch, remaining', g') ->
  all_words remaining' ++ batch ≡ₚ all_words remaining /\
  Dict.keys remaining' = Dict.keys remaining.
Proof.
  unfold _select_stratified_batch.
  destruct (total_remaining source_levels remaining =? 0).
  { intros H. inversion H; subst. rewrite app_nil_r. auto. }
  destruct (batch_quotas _ _ _ _) as [quotas|e]; [|discriminate]. simpl.
  pose proof (take_queues_spec quotas source_levels [] remaining) as Htake.
  destruct (take_queues quotas source_levels [] remaining) as [taken remaining''].
  destruct Htake as [(more & -> & Hperm) Hkeys]. cbn [app].
  pose proof (shuffle_permutes g more) as Hsh.
  destruct (shuffle g more) as [shuffled g'']. simpl in Hsh.
  intros H. inversion H; subst. rewrite Hsh. auto.
Qed.


(** *** The selected ids *)


End Batch.

Section Counting.
Import transitions step5_rebalance.

Lemma filter_agree {A} (f g : A -> bool) (l : list A) :
  (forall x, x ∈ l -> f x = g x) -> List.filter f l = List.filter g l.
Proof.
  induction l as [|x l IH]; intros H; simpl; [reflexivity|].
  rewrite (H x) by left. rewrite IH; [reflexivity|].
  intros y Hy. apply H. right. exact Hy.
Qed.


Lemma filter_length_le {A} (f : A -> bool) (l : list A) :
  len (List.filter f l) <= len l.
Proof.
  unfold len. induction l as [|x l IH]; simpl; [lia|]. destruct (f x); simpl; lia.
Qed.


Lemma word_ids_filter_NoDup (f : RebalanceWord -> bool) (l : list RebalanceWord) :
  NoDup (map word_id l) -> NoDup (map word_id (List.filter f l)).
Proof.
  induction l as [|x l IH]; simpl; intros Hnd; [assumption|].
  apply NoDup_cons in Hnd as [Hx Hnd]. destruct (f x); simpl; [|auto].
  apply NoDup_cons. split; [|auto].
  intros Hin. apply Hx. apply list_elem_of_fmap in Hin as (y & -> & Hy).
  apply list_elem_of_In, filter_In in Hy as [Hy _]. apply list_elem_of_In in Hy.
  apply list_elem_of_fmap. eauto.
Qed.





End Counting.

Section Assignments.
Import transitions step5_rebalance.
Context {Rng : Type}.

Lemma apply_batch_assignments_spec batch (selected : gset Z) t other (w : world Rng) :
  other_level t = Ok other ->
  let common_level := Z.min (to_level t) other in
  let rare_level := Z.max (to_level t) other in
  exists events w',
    _apply_batch_assignments batch selected t w = (Ok events, w') /\
    progress_log w' = progress_log w /\
    forall id,
      levels_by_id (runtime w') !! id
      = if bool_decide (id ∈ map word_id batch)
        then Some (if bool_decide (id ∈ selected) then common_level else rare_level)
        else levels_by_id (runtime w) !! id.
Proof.
  intros Hother common_level rare_level.
  unfold _apply_batch_assignments. rewrite Hother. fold common_level rare_level.
  assert (forall acc : RebalanceRuntime * list SwitchedWordEvent,
            forall id,
              levels_by_id
                (fst (fold_left (assign_word t common_level rare_level selected) batch acc))
              !! id
              = if bool_decide (id ∈ map word_id batch)
                then Some (if bool_decide (id ∈ selected) then common_level else rare_level)
                else levels_by_id (fst acc) !! id) as Hfold.
  { induction batch as [|x batch IH]; intros acc id; cbn [fold_left map].
    - rewrite bool_decide_eq_false_2; [reflexivity|]. intros H. inversion H.
    - rewrite IH. destruct acc as [runtime events]. cbn [assign_word fst levels_by_id].
      destruct (bool_decide (id ∈ map word_id batch)) eqn:E.
      + apply bool_decide_eq_true in E.
        rewrite (bool_decide_eq_true_2 (id ∈ word_id x :: map word_id batch));
          [reflexivity|]. right. exact E.
      + apply bool_decide_eq_false in E.
        destruct (decide (id = word_id x)) as [->|Hne].
        * rewrite lookup_insert_eq.
          rewrite (bool_decide_eq_true_2 (word_id x ∈ word_id x :: map word_id batch))
            by left.
          reflexivity.
        * rewrite lookup_insert_ne by congruence.
          rewrite (bool_decide_eq_false_2 (id ∈ word_id x :: map word_id batch));
            [reflexivity|].
          intros H. apply elem_of_cons in H as [?|?]; contradiction. }
  specialize (Hfold (runtime w, [])).
  destruct (fold_left _ batch (runtime w, [])) as [runtime' events].
  eexists _, _. split; [reflexivity|].
  cbn [progress_log runtime]. split; [reflexivity|]. exact Hfold.
Qed.

End Assignments.

Section Pass.
Import transitions step5_rebalance.
Context {Rng : Type}.
Variable py : builtins.
Variable post_json : nat -> client.Request -> client.http_outcome.
Variable parse :
  list BaseWordRow.t -> pystr -> ScoringOutputMode.t -> option Z -> option Z ->
  result ParsedBatch.t.
Variable t : LevelTransition.
Variable options : Step5Options.
Variable resolved_endpoint : ResolvedEndpoint.
Variable logs : Step5Logs.


Variable eligible_count expected_target_total : Z.
Let ratio := lower_ratio options.
Hypothesis ratio_nonneg : (0 <= ratio)%Q.
Hypothesis ratio_le_1 : (ratio <= 1)%Q.


End Pass.

(** ** The rebalance loop *)

Section Pools.
Import transitions step5_rebalance.




Lemma filter_split {A} (f g : A -> bool) (l : list A) :
  (forall x, f x = true -> g x = true -> False) ->
  List.filter (fun x => f x || g x) l ≡ₚ List.filter f l ++ List.filter g l.
Proof.
  intros Hfg. induction l as [|x l IH]; simpl; [reflexivity|].
  destruct (f x) eqn:Ef, (g x) eqn:Eg; simpl.
  - destruct (Hfg x Ef Eg).
  - rewrite IH. reflexivity.
  - rewrite IH. apply Permutation_middle.
  - exact IH.
Qed.

Lemma pools_partition levels (unprocessed : RebalanceWord -> bool) source_levels
    (ws : list RebalanceWord) :
  NoDup source_levels ->
  concat (map (fun level =>
                 List.filter (fun x => at_level levels level x && unprocessed x) ws)
            source_levels)
  ≡ₚ List.filter
       (fun x => existsb (fun level => at_level levels level x) source_levels
                 && unprocessed x) ws.
Proof.
  induction source_levels as [|l rest IH]; intros Hnd; simpl.
  - induction ws; simpl; auto.
  - apply NoDup_cons in Hnd as [Hl Hnd]. rewrite (IH Hnd).
    rewrite <- filter_split.
    + rewrite (filter_agree
                 (fun x => (at_level levels l x
                            || existsb (fun level => at_level levels level x) rest)
                           && unprocessed x)
                 (fun x => at_level levels l x && unprocessed x
                           || existsb (fun level => at_level levels level x) rest
                              && unprocessed x)); [reflexivity|].
      intros x _. destruct (at_level levels l x), (existsb _ rest), (unprocessed x);
        reflexivity.
    + intros x Hx Hrest. apply andb_true_iff in Hx as [Hx _].
      apply andb_true_iff in Hrest as [Hrest _].
      apply existsb_exists in Hrest as (l' & Hl' & Hx').
      unfold at_level in Hx, Hx'. apply bool_decide_eq_true in Hx, Hx'.
      assert (l' = l) as -> by congruence. apply Hl, list_elem_of_In, Hl'.
Qed.

Lemma valid_transition_levels t :
  valid t ->
  NoDup (source_levels t) /\
  exists other, other_level t = Ok other /\ other <> to_level t.
Proof.
  destruct t as [from to [upper|]];
    unfold valid, source_levels, other_level;
    cbn [from_level to_level from_level_upper].
  - unfold require_valid_pair_transition, source_levels.
    cbn [from_level to_level from_level_upper List.find].
    destruct (in_1_5 from && in_1_5 upper && in_1_5 to); [|discriminate].
    cbn [negb].
    destruct (Z.eqb_spec upper (from + 1)) as [Hup|]; [|discriminate]. cbn [negb].
    intros Hto. split.
    { apply NoDup_cons. split; [|apply NoDup_singleton].
      intros H. apply list_elem_of_singleton in H. lia. }
    destruct (Z.eqb_spec from to) as [Hfrom|Hfrom]; cbn [negb].
    + destruct (Z.eqb_spec upper to) as [|Hupper]; [lia|]. cbn [negb].
      exists upper. auto.
    + exists from. auto.
  - unfold require_valid_transition, in_1_5. intros H. split; [apply NoDup_singleton|].
    destruct (Z.eqb_spec to from) as [Heq|Hne].
    + exists (Z.min 5 (to + 1)). split; [reflexivity|].
      rewrite Heq in H.
      destruct (Z.eqb_spec from 5) as [E5|E5].
      * rewrite !andb_false_r in H. discriminate.
      * destruct (Z.leb_spec from 5); [lia|].
        rewrite !andb_false_r in H. discriminate.
    + exists from. split; [reflexivity|]. congruence.
Qed.

End Pools.

Section Loop.
Import transitions step5_rebalance.
Context {Rng : Type}.
Variable shuffle : Rng -> list RebalanceWord -> list RebalanceWord * Rng.
Hypothesis shuffle_permutes : forall g l, fst (shuffle g l) ≡ₚ l.
Variable py : builtins.
Variable post_json : nat -> client.Request -> client.http_outcome.
Variable parse :
  list BaseWordRow.t -> pystr -> ScoringOutputMode.t -> option Z -> option Z ->
  result ParsedBatch.t.
Variable t : LevelTransition.
Variable options : Step5Options.
Variable resolved_endpoint : ResolvedEndpoint.
Variable logs : Step5Logs.
Variable source_levels : list Z.
Variable initial_source_counts : Dict.t Z.
Variable eligible_count expected_target_total : Z.
Let ratio := lower_ratio options.
Hypothesis ratio_nonneg : (0 <= ratio)%Q.
Hypothesis ratio_le_1 : (ratio <= 1)%Q.
Hypothesis expected_nonneg : 0 <= expected_target_total.



(** The words of the queues have distinct ids; then so have the words
    of a batch and the words that are left. *)
Lemma pool_split (remaining remaining' : Dict.t (list RebalanceWord)) batch :
  all_words remaining' ++ batch ≡ₚ all_words remaining ->
  NoDup (map word_id (all_words remaining)) ->
  NoDup (map word_id batch) /\
  NoDup (map word_id (all_words remaining')) /\
  (forall x, x ∈ batch -> word_id x ∉ map word_id (all_words remaining')).
Proof.
  intros Hperm Hnd. rewrite <- Hperm, map_app in Hnd.
  apply NoDup_app in Hnd as (Hrest & Hdisj & Hbatch).
  split; [assumption|]. split; [assumption|].
  intros x Hx Hin. apply (Hdisj _ Hin). apply list_elem_of_fmap_2. exact Hx.
Qed.


End Loop.

Section Transition.
Import transitions step5_rebalance.
Context {Rng : Type}.
Variable shuffle : Rng -> list RebalanceWord -> list RebalanceWord * Rng.
Hypothesis shuffle_permutes : forall g l, fst (shuffle g l) ≡ₚ l.

Lemma eligible_pools_spec t dataset (w : world Rng) :
  NoDup (source_levels t) ->
  let '(remaining, w') := eligible_pools shuffle t dataset w in
  Dict.keys remaining = source_levels t /\
  all_words remaining ≡ₚ eligible_words t dataset (runtime w) /\
  runtime w' = runtime w /\ progress_log w' = progress_log w.
Proof.
  intros Hnd. unfold eligible_pools.
  set (ws := Dict.values (words_by_id dataset)).
  set (unprocessed :=
         fun x : RebalanceWord =>
           negb (bool_decide (word_id x ∈ processed_word_ids (runtime w)))).
  set (pass := fun '(remaining, w) level => _).
  assert (forall levels remaining (w0 : world Rng),
            runtime w0 = runtime w ->
            NoDup (Dict.keys remaining ++ levels) ->
            let '(remaining', w') := fold_left pass levels (remaining, w0) in
            Dict.keys remaining' = Dict.keys remaining ++ levels /\
            all_words remaining'
            ≡ₚ all_words remaining
               ++ concat (map (fun level =>
                                 List.filter
                                   (fun x => at_level (levels_by_id (runtime w)) level x
                                             && unprocessed x) ws) levels) /\
            runtime w' = runtime w /\ progress_log w' = progress_log w0) as Hfold.
  { induction levels as [|level levels IH]; intros remaining w0 Hw0 Hkeys;
      cbn [fold_left map concat].
    - rewrite !app_nil_r. auto.
    - subst pass. cbv beta iota. rewrite Hw0.
      pose proof (shuffle_permutes (rng w0)
                    (List.filter
                       (fun x => bool_decide (levels_by_id (runtime w) !! word_id x
                                              = Some level)
                                 && negb (bool_decide (word_id x
                                                       ∈ processed_word_ids (runtime w))))
                       ws)) as Hsh.
      destruct (shuffle (rng w0) _) as [items g]. cbn [fst] in Hsh.
      assert (Dict.get remaining level = None) as Hnone.
      { apply dict_get_None. apply NoDup_app in Hkeys as (_ & Hdisj & _).
        intros Hl. apply (Hdisj level Hl). left. }
      specialize (IH (Dict.put remaining level items) (with_rng w0 g) Hw0).
      rewrite dict_keys_put, Hnone, <- app_assoc in IH. specialize (IH Hkeys).
      destruct (fold_left _ levels _) as [remaining' w'].
      destruct IH as (Hk & Hwords & Hruntime & Hlog).
      split; [exact Hk|]. split; [|split; [exact Hruntime|exact Hlog]].
      rewrite Hwords, dict_put_absent by assumption.
      unfold all_words, Dict.values. rewrite map_app, concat_app. cbn [map snd concat].
      rewrite app_nil_r, Hsh, <- app_assoc. reflexivity. }
  specialize (Hfold (source_levels t) [] w eq_refl Hnd).
  destruct (fold_left pass (source_levels t) _) as [remaining w'].
  destruct Hfold as (Hk & Hwords & Hruntime & Hlog).
  split; [exact Hk|]. split; [|split; assumption].
  rewrite Hwords. cbn [all_words Dict.values map concat app].
  apply pools_partition. exact Hnd.
Qed.

End Transition.




(** ** More on the rebalance step *)

Section TakeQueues.
Import step5_rebalance.

Lemma take_queues_other_levels quotas source_levels batch remaining level :
  level ∉ source_levels ->
  Dict.get (snd (take_queues quotas source_levels batch remaining)) level
  = Dict.get remaining level.
Proof.
  unfold take_queues. revert batch remaining.
  induction source_levels as [|l rest IH]; intros batch remaining Hout; cbn [fold_left].
  - reflexivity.
  - apply not_elem_of_cons in Hout as [Hne Hout].
    destruct (Dict.get remaining l) as [queue|] eqn:Hget; [|apply IH; exact Hout].
    destruct (pop_many (quota quotas l) queue) as [taken queue']. cbv beta iota.
    rewrite IH by exact Hout. rewrite dict_get_put.
    destruct (Z.eqb_spec l level); [congruence|reflexivity].
Qed.

Lemma take_queues_prefixes quotas source_levels batch remaining level queue' :
  Dict.get (snd (take_queues quotas source_levels batch remaining)) level = Some queue' ->
  exists queue taken, Dict.get remaining level = Some queue /\ queue = queue' ++ taken.
Proof.
  unfold take_queues. revert batch remaining.
  induction source_levels as [|l rest IH]; intros batch remaining; cbn [fold_left].
  - intros H. exists queue', []. rewrite app_nil_r. auto.
  - destruct (Dict.get remaining l) as [queue|] eqn:Hget; [|apply IH].
    pose proof (pop_many_spec (quota quotas l) queue) as Hpop.
    destruct (pop_many (quota quotas l) queue) as [taken queue1]. cbv beta iota.
    destruct Hpop as [Hqueue _]. intros H.
    destruct (IH _ _ H) as (queue2 & taken2 & Hget2 & Hqueue2).
    rewrite dict_get_put in Hget2.
    destruct (Z.eqb_spec l level) as [<-|Hne].
    + injection Hget2 as <-. exists queue, (taken2 ++ rev taken). split; [exact Hget|].
      rewrite Hqueue, Hqueue2, <- app_assoc. reflexivity.
    + exists queue2, taken2. auto.
Qed.

End TakeQueues.

(** X1. The stratified batch moves words and neither loses nor repeats
    one: the batch together with the queues that are left is a
    rearrangement of the queues before; the queues keep their levels, a
    queue of a source level keeps a prefix of what it held, and the queue
    of any other level is not touched. *)
Theorem stratified_batch_moves_words :
  forall {Rng : Type} (shuffle : Rng -> list step5_rebalance.RebalanceWord
                                  -> list step5_rebalance.RebalanceWord * Rng)
         source_levels remaining counts max_batch_size g batch remaining' g',
    (forall g l, fst (shuffle g l) ≡ₚ l) ->
    step5_rebalance._select_stratified_batch shuffle source_levels remaining counts
      max_batch_size g = Ok (batch, remaining', g') ->
    step5_rebalance.all_words remaining' ++ batch ≡ₚ step5_rebalance.all_words remaining /\
    Dict.keys remaining' = Dict.keys remaining /\
    (forall level queue',
       Dict.get remaining' level = Some queue' ->
       exists queue taken, Dict.get remaining level = Some queue /\ queue = queue' ++ taken) /\
    (forall level, level ∉ source_levels ->
       Dict.get remaining' level = Dict.get remaining level).
Proof.
  intros Rng shuffle source_levels remaining counts max_batch_size g batch remaining' g'
    Hshuffle Hsel.
  destruct (select_stratified_batch_spec shuffle Hshuffle _ _ _ _ _ _ _ _ Hsel)
    as [Hperm Hkeys].
  split; [exact Hperm|]. split; [exact Hkeys|].
  unfold step5_rebalance._select_stratified_batch in Hsel.
  destruct (step5_rebalance.total_remaining source_levels remaining =? 0).
  { inversion Hsel; subst. split.
    - intros level queue' H. exists queue', []. rewrite app_nil_r. auto.
    - reflexivity. }
  destruct (step5_rebalance.batch_quotas _ _ _ _) as [quotas|e]; [|discriminate].
  cbn [bind] in Hsel.
  pose proof (take_queues_prefixes quotas source_levels [] remaining) as Hprefix.
  pose proof (take_queues_other_levels quotas source_levels [] remaining) as Hother.
  destruct (step5_rebalance.take_queues quotas source_levels [] remaining)
    as [taken remaining''].
  destruct (shuffle g taken) as [shuffled g''].
  inversion Hsel; subst. cbn [snd] in Hprefix, Hother. split; assumption.
Qed.

Lemma stratified_batch_moves_words_witness :
  step5_rebalance.all_words [(2, take 5 step5_rebalance.e2e_words)]
  ++ rev (drop 5 step5_rebalance.e2e_words)
  ≡ₚ step5_rebalance.all_words [(2, step5_rebalance.e2e_words)].
Proof.
  refine (proj1 (stratified_batch_moves_words step5_rebalance.e2e_shuffle [2]
                   [(2, step5_rebalance.e2e_words)] [(2, 10)] 5 tt
                   (rev (drop 5 step5_rebalance.e2e_words))
                   [(2, take 5 step5_rebalance.e2e_words)] tt
                   (fun g l => Permutation_refl l) _)).
  vm_compute. reflexivity.
Defined.

Section Sums.
Import step5_rebalance.
Implicit Types (f g : Z -> Z) (levels : list Z) (quotas : Dict.t Z).

Lemma sum_over_cons f l levels : sum_over f (l :: levels) = f l + sum_over f levels.
Proof.
  unfold sum_over. cbn [fold_left].
  assert (forall a, fold_left (fun acc level => acc + f level) levels a
                    = a + fold_left (fun acc level => acc + f level) levels 0) as H.
  { induction levels as [|x xs IH]; intros a; cbn [fold_left]; [lia|].
    rewrite (IH (a + f x)), (IH (0 + f x)). lia. }
  rewrite H. lia.
Qed.

Lemma sum_over_agree f g levels :
  (forall l, l ∈ levels -> f l = g l) -> sum_over f levels = sum_over g levels.
Proof.
  induction levels as [|x xs IH]; intros H; [reflexivity|].
  rewrite !sum_over_cons, (H x) by left. rewrite IH; [reflexivity|].
  intros l Hl. apply H. right. exact Hl.
Qed.

Lemma sum_over_perm f levels levels' :
  levels ≡ₚ levels' -> sum_over f levels = sum_over f levels'.
Proof.
  induction 1 as [|x l l' _ IH|x y l|l l' l'' _ IH1 _ IH2].
  - reflexivity.
  - rewrite !sum_over_cons, IH. reflexivity.
  - rewrite !sum_over_cons. lia.
  - congruence.
Qed.

Lemma sum_over_le f g levels :
  (forall l, l ∈ levels -> f l <= g l) -> sum_over f levels <= sum_over g levels.
Proof.
  induction levels as [|x xs IH]; intros H; [reflexivity|].
  rewrite !sum_over_cons. specialize (H x ltac:(left)) as Hx.
  assert (sum_over f xs <= sum_over g xs); [|lia].
  apply IH. intros l Hl. apply H. right. exact Hl.
Qed.

Lemma sum_over_room f g levels :
  sum_over f levels < sum_over g levels -> exists l, l ∈ levels /\ f l < g l.
Proof.
  intros Hlt.
  destruct (some_level_or_none (fun l => f l < g l) levels) as [H|Hnone]; [exact H|].
  exfalso. assert (sum_over g levels <= sum_over f levels); [|lia].
  apply sum_over_le. intros l Hl. specialize (Hnone l Hl). lia.
Qed.

Lemma sum_over_put quotas levels c v :
  NoDup levels -> c ∈ levels ->
  sum_over (quota (Dict.put quotas c v)) levels
  = sum_over (quota quotas) levels + (v - quota quotas c).
Proof.
  induction levels as [|x xs IH]; intros Hnd Hin; [inversion Hin|].
  apply NoDup_cons in Hnd as [Hx Hnd]. rewrite !sum_over_cons, quota_put.
  apply elem_of_cons in Hin as [->|Hin].
  - rewrite Z.eqb_refl.
    rewrite (sum_over_agree (quota (Dict.put quotas x v)) (quota quotas) xs); [lia|].
    intros l Hl. rewrite quota_put.
    destruct (Z.eqb_spec x l) as [->|]; [contradiction|reflexivity].
  - rewrite (IH Hnd Hin).
    destruct (Z.eqb_spec c x) as [->|]; [contradiction|lia].
Qed.

Lemma sum_over_put_outside quotas levels c v :
  c ∉ levels -> sum_over (quota (Dict.put quotas c v)) levels = sum_over (quota quotas) levels.
Proof.
  intros Hout. apply sum_over_agree. intros l Hl. rewrite quota_put.
  destruct (Z.eqb_spec c l) as [->|]; [contradiction|reflexivity].
Qed.

Lemma sum_values quotas :
  NoDup (Dict.keys quotas) ->
  fold_left Z.add (Dict.values quotas) 0 = sum_over (quota quotas) (Dict.keys quotas).
Proof.
  induction quotas as [|[k v] rest IH]; intros Hnd; [reflexivity|].
  unfold Dict.keys in Hnd. cbn [map fst] in Hnd. apply NoDup_cons in Hnd as [Hk Hnd].
  unfold Dict.values, Dict.keys. cbn [map fst snd fold_left].
  fold (Dict.values rest). fold (Dict.keys rest).
  rewrite fold_add_shift, sum_over_cons, (IH Hnd).
  assert (quota ((k, v) :: rest) k = v) as ->.
  { unfold quota. cbn. rewrite Z.eqb_refl. reflexivity. }
  rewrite (sum_over_agree (quota ((k, v) :: rest)) (quota rest) (Dict.keys rest)); [lia|].
  intros l Hl. unfold quota. cbn.
  destruct (Z.eqb_spec k l) as [->|]; [contradiction|reflexivity].
Qed.

Lemma total_remaining_sum source_levels remaining :
  total_remaining source_levels remaining = sum_over (available remaining) source_levels.
Proof. reflexivity. Qed.

End Sums.

Section QuotaSums.
Import step5_rebalance.
Implicit Types (remaining : Dict.t (list RebalanceWord)) (quotas counts : Dict.t Z).

Lemma fold_put_fresh {V} (f : Z -> V) (levels : list Z) (d : Dict.t V) :
  NoDup (Dict.keys d ++ levels) ->
  fold_left (fun d level => Dict.put d level (f level)) levels d
  = d ++ map (fun level => (level, f level)) levels.
Proof.
  revert d. induction levels as [|l rest IH]; intros d Hnd; cbn [fold_left map].
  - rewrite app_nil_r. reflexivity.
  - assert (Dict.get d l = None) as Hnone.
    { apply dict_get_None. apply NoDup_app in Hnd as (_ & Hdisj & _).
      intros Hl. apply (Hdisj l Hl). left. }
    rewrite IH.
    + rewrite dict_put_absent by assumption. rewrite <- app_assoc. reflexivity.
    + rewrite dict_keys_put, Hnone, <- app_assoc. exact Hnd.
Qed.

Lemma integer_quotas_levels source_levels counts batch_size total :
  NoDup source_levels ->
  Dict.keys (integer_quotas source_levels counts batch_size total) = source_levels.
Proof.
  intros Hnd. unfold integer_quotas.
  rewrite (fold_put_fresh
             (fun level => Z.quot (batch_size * quota counts level) total)
             source_levels [] Hnd).
  unfold Dict.keys. cbn [app]. rewrite map_map. cbn [fst]. apply map_id.
Qed.

Lemma quot_near x t : 0 <= x -> 0 < t -> t * Z.quot x t <= x <= t * Z.quot x t + (t - 1).
Proof.
  intros Hx Ht. rewrite Z.quot_div_nonneg by lia.
  pose proof (Z.div_mod x t ltac:(lia)). pose proof (Z.mod_pos_bound x t Ht). lia.
Qed.

Lemma integer_quotas_sum source_levels counts batch_size total :
  NoDup source_levels -> 0 <= batch_size -> 0 < total ->
  (forall l, 0 <= quota counts l) ->
  sum_over (quota counts) source_levels = total ->
  let s := sum_over (quota (integer_quotas source_levels counts batch_size total))
             source_levels in
  s <= batch_size /\ (source_levels <> [] -> batch_size - s < len source_levels).
Proof.
  intros Hnd Hbs Htotal Hcounts Hsum s.
  assert (s = sum_over (fun l => Z.quot (batch_size * quota counts l) total) source_levels)
    as Hs.
  { subst s. apply sum_over_agree. intros l Hl.
    rewrite integer_quotas_quota, bool_decide_eq_true_2 by assumption. reflexivity. }
  assert (forall levels,
            total * sum_over (fun l => Z.quot (batch_size * quota counts l) total) levels
            <= batch_size * sum_over (quota counts) levels
            <= total * sum_over (fun l => Z.quot (batch_size * quota counts l) total) levels
               + len levels * (total - 1)) as Hnear.
  { induction levels as [|x xs IH].
    - unfold sum_over, len. simpl. lia.
    - rewrite !sum_over_cons. unfold len in *. cbn [length]. rewrite Nat2Z.inj_succ.
      pose proof (quot_near (batch_size * quota counts x) total
                    ltac:(specialize (Hcounts x); nia) Htotal).
      nia. }
  specialize (Hnear source_levels). rewrite Hsum, <- Hs in Hnear. split; [nia|].
  intros Hne. assert (1 <= len source_levels).
  { unfold len. destruct source_levels; [congruence|]. cbn [length]. lia. }
  nia.
Qed.

Lemma hand_out_nothing fractions quotas unassigned :
  unassigned <= 0 -> fst (hand_out fractions quotas unassigned) = quotas.
Proof.
  intros Hu. unfold hand_out. revert quotas.
  induction fractions as [|f rest IH]; intros quotas; cbn [fold_left]; [reflexivity|].
  destruct (Z.leb_spec unassigned 0); [apply IH|lia].
Qed.

Lemma hand_out_outside fractions quotas unassigned l :
  l ∉ fractions -> quota (fst (hand_out fractions quotas unassigned)) l = quota quotas l.
Proof.
  unfold hand_out. revert quotas unassigned.
  induction fractions as [|f rest IH]; intros quotas unassigned Hout; cbn [fold_left].
  - reflexivity.
  - apply not_elem_of_cons in Hout as [Hne Hout].
    destruct (unassigned <=? 0); [apply IH; exact Hout|].
    rewrite IH by exact Hout. rewrite quota_put.
    destruct (Z.eqb_spec f l); [congruence|reflexivity].
Qed.

Lemma hand_out_sum fractions quotas unassigned :
  NoDup fractions -> 0 <= unassigned <= len fractions ->
  sum_over (quota (fst (hand_out fractions quotas unassigned))) fractions
  = sum_over (quota quotas) fractions + unassigned.
Proof.
  revert quotas unassigned.
  induction fractions as [|f rest IH]; intros quotas unassigned Hnd Hu.
  - unfold len in Hu. cbn in Hu. assert (unassigned = 0) as -> by lia. reflexivity.
  - apply NoDup_cons in Hnd as [Hf Hnd].
    destruct (Z.eq_dec unassigned 0) as [->|Hpos].
    { rewrite hand_out_nothing by lia. lia. }
    assert (fst (hand_out (f :: rest) quotas unassigned)
            = fst (hand_out rest (Dict.put quotas f (quota quotas f + 1)) (unassigned - 1)))
      as ->.
    { unfold hand_out. cbn [fold_left].
      destruct (Z.leb_spec unassigned 0); [lia|reflexivity]. }
    rewrite !sum_over_cons, hand_out_outside by exact Hf.
    rewrite IH; [|exact Hnd|unfold len in *; cbn [length] in Hu; lia].
    rewrite quota_put, Z.eqb_refl, sum_over_put_outside by exact Hf. lia.
Qed.

(** The planned quotas add up to the batch size. *)
Lemma proportional_quotas_sum source_levels counts batch_size planned :
  proportional_quotas source_levels counts batch_size = Ok planned ->
  NoDup source_levels -> source_levels <> [] -> 0 <= batch_size ->
  Dict.keys counts = source_levels ->
  Forall (fun kv => 0 <= snd kv) counts ->
  (forall l, 0 <= quota planned l) /\
  sum_over (quota planned) source_levels = batch_size.
Proof.
  unfold proportional_quotas.
  set (total := fold_left Z.add (Dict.values counts) 0).
  destruct (total =? 0) eqn:Etotal; [discriminate|]. apply Z.eqb_neq in Etotal.
  intros [= <-] Hnd Hne Hbs Hkeys Hcounts.
  assert (forall l, 0 <= quota counts l) as Hc.
  { intros l. unfold quota. destruct (Dict.get counts l) as [v|] eqn:E; simpl; [|lia].
    apply dict_get_elem in E. rewrite Forall_forall in Hcounts. apply (Hcounts _ E). }
  assert (sum_over (quota counts) source_levels = total) as Hsum.
  { subst total. rewrite sum_values by (rewrite Hkeys; exact Hnd). rewrite Hkeys.
    reflexivity. }
  assert (0 < total) as Htotal.
  { assert (0 <= total); [|lia]. rewrite <- Hsum.
    transitivity (sum_over (fun _ => 0) source_levels).
    - clear. induction source_levels as [|x xs IH]; [reflexivity|].
      rewrite sum_over_cons. lia.
    - apply sum_over_le. intros l _. apply Hc. }
  set (q0 := integer_quotas source_levels counts batch_size total).
  destruct (integer_quotas_sum source_levels counts batch_size total Hnd Hbs Htotal Hc Hsum)
    as [Hle Hlt].
  fold q0 in Hle, Hlt. specialize (Hlt Hne).
  assert (forall l, 0 <= quota q0 l) as Hq0.
  { intros l. subst q0. rewrite integer_quotas_quota.
    destruct (bool_decide (l ∈ source_levels)); [|lia].
    apply Z.quot_pos; [|lia]. specialize (Hc l). nia. }
  assert (fold_left Z.add (Dict.values q0) 0 = sum_over (quota q0) source_levels) as Hvalues.
  { rewrite sum_values by apply integer_quotas_keys.
    subst q0. rewrite integer_quotas_levels by exact Hnd. reflexivity. }
  rewrite Hvalues.
  match goal with |- context [hand_out ?fr _ _] => set (fractions := fr) end.
  assert (fractions ≡ₚ source_levels) as Hperm by apply sorted_descending_perm.
  split.
  - intros l. etransitivity; [apply Hq0|]. apply hand_out_grows.
  - rewrite <- (sum_over_perm _ _ _ Hperm).
    rewrite hand_out_sum.
    + rewrite (sum_over_perm _ _ _ Hperm). lia.
    + rewrite Hperm. exact Hnd.
    + unfold len in *. rewrite Hperm. lia.
Qed.

Lemma cap_quotas_missing source_levels remaining quotas :
  NoDup source_levels ->
  let '(capped, missing) := cap_quotas source_levels remaining quotas in
  missing = sum_over (quota quotas) source_levels - sum_over (quota capped) source_levels.
Proof.
  intros Hnd.
  pose proof (cap_quotas_spec source_levels remaining quotas) as Hspec.
  unfold cap_quotas in *.
  assert (forall q m,
            snd (fold_left
                   (fun '(q, missing) level =>
                      let avail := available remaining level in
                      let planned := quota q level in
                      if avail <? planned
                      then (Dict.put q level avail, missing + (planned - avail))
                      else (q, missing))
                   source_levels (q, m))
            = m + sum_over (fun l => quota q l - Z.min (quota q l) (available remaining l))
                    source_levels) as H.
  { clear Hspec. induction source_levels as [|l0 rest IH]; intros q m; cbn [fold_left].
    - unfold sum_over. simpl. lia.
    - apply NoDup_cons in Hnd as [Hl0 Hnd]. cbv zeta. rewrite sum_over_cons.
      destruct (Z.ltb_spec (available remaining l0) (quota q l0)) as [Hlt|Hge].
      + rewrite (IH Hnd).
        rewrite (sum_over_agree
                   (fun l => quota (Dict.put q l0 (available remaining l0)) l
                             - Z.min (quota (Dict.put q l0 (available remaining l0)) l)
                                 (available remaining l))
                   (fun l => quota q l - Z.min (quota q l) (available remaining l)) rest).
        * lia.
        * intros l Hl. rewrite quota_put.
          destruct (Z.eqb_spec l0 l) as [->|]; [contradiction|reflexivity].
      + rewrite (IH Hnd). lia. }
  specialize (H quotas 0).
  destruct (fold_left _ source_levels (quotas, 0)) as [capped missing].
  destruct Hspec as [Hcap _]. cbn [snd] in H. rewrite H.
  assert (sum_over (quota capped) source_levels
          = sum_over (fun l => Z.min (quota quotas l) (available remaining l)) source_levels)
    as ->.
  { apply sum_over_agree. intros l Hl.
    rewrite Hcap, bool_decide_eq_true_2 by assumption. reflexivity. }
  clear. induction source_levels as [|x xs IH]; [reflexivity|].
  rewrite !sum_over_cons. lia.
Qed.

Lemma backfill_sum passes source_levels remaining quotas missing :
  NoDup source_levels ->
  (forall l, l ∈ source_levels -> quota quotas l <= available remaining l) ->
  0 <= missing -> passes = Z.to_nat missing ->
  sum_over (quota quotas) source_levels + missing
  <= sum_over (available remaining) source_levels ->
  sum_over (quota (backfill passes source_levels remaining quotas missing)) source_levels
  = sum_over (quota quotas) source_levels + missing.
Proof.
  intros Hnd. revert quotas missing.
  induction passes as [|passes IH]; intros quotas missing Hstock Hm Hpasses Hroom;
    cbn [backfill].
  - lia.
  - destruct (Z.leb_spec missing 0) as [|Hpos]; [lia|].
    destruct (sum_over_room (quota quotas) (available remaining) source_levels
                ltac:(lia)) as (l & Hl & Hlt).
    destruct (List.filter _ source_levels) as [|c candidates] eqn:Ecand.
    { exfalso. assert (In l []) as H; [|inversion H].
      rewrite <- Ecand. apply filter_In. split; [apply list_elem_of_In; exact Hl|].
      apply Z.ltb_lt. exact Hlt. }
    set (candidate := first_max _ c candidates).
    pose proof (first_max_in (fun level => available remaining level - quota quotas level)
                  c candidates) as Hc.
    fold candidate in Hc. rewrite <- Ecand in Hc.
    apply list_elem_of_In, filter_In in Hc as [Hc1 Hc2]. apply Z.ltb_lt in Hc2.
    apply list_elem_of_In in Hc1.
    rewrite IH.
    + rewrite sum_over_put by assumption. lia.
    + intros l' Hl'. rewrite quota_put.
      destruct (Z.eqb_spec candidate l') as [<-|_]; [lia|auto].
    + lia.
    + lia.
    + rewrite sum_over_put by assumption. lia.
Qed.

(** The quotas of a batch that the stock can fill add up to its size
    and none exceeds the stock of its level. *)
Lemma batch_quotas_sum source_levels remaining counts batch_size quotas :
  batch_quotas source_levels remaining counts batch_size = Ok quotas ->
  NoDup source_levels ->
  Dict.keys counts = source_levels ->
  Forall (fun kv => 0 <= snd kv) counts ->
  1 <= batch_size <= total_remaining source_levels remaining ->
  (forall l, l ∈ source_levels -> 0 <= quota quotas l <= available remaining l) /\
  sum_over (quota quotas) source_levels = batch_size.
Proof.
  unfold batch_quotas. intros Hq Hnd Hkeys Hcounts Hbs.
  rewrite total_remaining_sum in Hbs.
  assert (exists planned,
            (forall l, 0 <= quota planned l) /\
            sum_over (quota planned) source_levels = batch_size /\
            (let '(capped, missing) := cap_quotas source_levels remaining planned in
             Ok (backfill (Z.to_nat missing) source_levels remaining capped missing))
            = Ok quotas) as (planned & Hnonneg & Hplanned & Hrest).
  { destruct source_levels as [|level [|level' rest]].
    - unfold sum_over in Hbs. simpl in Hbs. lia.
    - simpl in Hq. exists [(level, batch_size)]. split; [|split; [|exact Hq]].
      + intros l. unfold quota. simpl. destruct (level =? l); simpl; lia.
      + rewrite sum_over_cons. unfold quota, sum_over. simpl. rewrite Z.eqb_refl. simpl. lia.
    - destruct (proportional_quotas (level :: level' :: rest) counts batch_size)
        as [planned|e] eqn:Eplan; [|discriminate].
      simpl in Hq. exists planned.
      destruct (proportional_quotas_sum _ _ _ _ Eplan Hnd ltac:(discriminate) ltac:(lia)
                  Hkeys Hcounts) as [H1 H2].
      split; [exact H1|]. split; [exact H2|exact Hq]. }
  clear Hq.
  pose proof (cap_quotas_spec source_levels remaining planned) as Hcap.
  pose proof (cap_quotas_missing source_levels remaining planned Hnd) as Hmissing.
  destruct (cap_quotas source_levels remaining planned) as [capped missing].
  destruct Hcap as [Hcap _]. injection Hrest as <-.
  assert (forall l, l ∈ source_levels ->
            0 <= quota capped l <= available remaining l) as Hstock.
  { intros l Hin. rewrite Hcap, bool_decide_eq_true_2 by assumption.
    specialize (Hnonneg l). pose proof (available_nonneg remaining l). lia. }
  assert (0 <= missing) as Hm.
  { rewrite Hmissing.
    assert (sum_over (quota capped) source_levels <= sum_over (quota planned) source_levels);
      [|lia].
    apply sum_over_le. intros l Hl. rewrite Hcap, bool_decide_eq_true_2 by assumption. lia. }
  split.
  - intros l Hl. split.
    + etransitivity; [apply (Hstock l Hl)|]. apply backfill_grows.
    + apply backfill_within_stock; [|exact Hl]. intros l' Hl'. apply (Hstock l' Hl').
  - rewrite backfill_sum; try assumption; try reflexivity; try lia.
    intros l Hl. apply (Hstock l Hl).
Qed.

Lemma take_queues_length quotas source_levels batch remaining :
  NoDup source_levels ->
  len (fst (take_queues quotas source_levels batch remaining))
  = len batch
    + sum_over (fun l => Z.min (Z.max 0 (quota quotas l)) (available remaining l))
        source_levels.
Proof.
  unfold take_queues. revert batch remaining.
  induction source_levels as [|l rest IH]; intros batch remaining Hnd; cbn [fold_left].
  - unfold sum_over. simpl. lia.
  - apply NoDup_cons in Hnd as [Hl Hnd]. rewrite sum_over_cons.
    unfold available at 1.
    destruct (Dict.get remaining l) as [queue|] eqn:Hget; cbn [default].
    + pose proof (pop_many_spec (quota quotas l) queue) as Hpop.
      destruct (pop_many (quota quotas l) queue) as [taken queue']. cbv beta iota.
      destruct Hpop as [_ Hlen]. rewrite (IH _ _ Hnd).
      rewrite (sum_over_agree
                 (fun l0 => Z.min (Z.max 0 (quota quotas l0))
                              (available (Dict.put remaining l queue') l0))
                 (fun l0 => Z.min (Z.max 0 (quota quotas l0)) (available remaining l0))
                 rest).
      * unfold len, id. rewrite length_app. lia.
      * intros l0 Hl0. rewrite available_put.
        destruct (Z.eqb_spec l l0) as [->|]; [contradiction|reflexivity].
    + rewrite (IH _ _ Hnd). unfold len. simpl. lia.
Qed.

End QuotaSums.

(** X2. The batch has exactly the requested size, or what is left when
    that is less: with distinct source levels, initial counts recorded for
    exactly these levels and a positive maximum, the stratified batch holds
    [min(max_batch_size, total_remaining)] words. *)
Theorem stratified_batch_has_requested_size :
  forall {Rng : Type} (shuffle : Rng -> list step5_rebalance.RebalanceWord
                                  -> list step5_rebalance.RebalanceWord * Rng)
         source_levels remaining counts max_batch_size g batch remaining' g',
    (forall g l, fst (shuffle g l) ≡ₚ l) ->
    NoDup source_levels ->
    Dict.keys counts = source_levels ->
    Forall (fun kv => 0 <= snd kv) counts ->
    1 <= max_batch_size ->
    step5_rebalance._select_stratified_batch shuffle source_levels remaining counts
      max_batch_size g = Ok (batch, remaining', g') ->
    len batch
    = Z.min max_batch_size (step5_rebalance.total_remaining source_levels remaining).
Proof.
  intros Rng shuffle source_levels remaining counts max_batch_size g batch remaining' g'
    Hshuffle Hnd Hkeys Hcounts Hbs Hsel.
  unfold step5_rebalance._select_stratified_batch in Hsel.
  pose proof (total_remaining_nonneg source_levels remaining) as Hnonneg.
  destruct (Z.eqb_spec (step5_rebalance.total_remaining source_levels remaining) 0)
    as [Hzero|Hsome].
  { inversion Hsel; subst. rewrite Hzero. unfold len. simpl. lia. }
  set (size := Z.min max_batch_size
                 (step5_rebalance.total_remaining source_levels remaining)) in *.
  destruct (step5_rebalance.batch_quotas source_levels remaining counts size)
    as [quotas|e] eqn:Equotas; [|discriminate].
  cbn [bind] in Hsel.
  assert (1 <= size <= step5_rebalance.total_remaining source_levels remaining) as Hsize.
  { subst size. lia. }
  destruct (batch_quotas_sum _ _ _ _ _ Equotas Hnd Hkeys Hcounts Hsize) as [Hstock Hsum].
  pose proof (take_queues_length quotas source_levels [] remaining Hnd) as Hlen.
  destruct (step5_rebalance.take_queues quotas source_levels [] remaining)
    as [taken remaining''].
  pose proof (Hshuffle g taken) as Hsh.
  destruct (shuffle g taken) as [shuffled g'']. cbn [fst] in Hsh, Hlen.
  assert (shuffled = batch) as <- by congruence.
  unfold len at 1. rewrite Hsh. fold (len taken). rewrite Hlen.
  rewrite (sum_over_agree _ (step5_rebalance.quota quotas) source_levels).
  - unfold len. simpl. lia.
  - intros l Hl. specialize (Hstock l Hl). lia.
Qed.

Lemma stratified_batch_has_requested_size_witness :
  len (rev (drop 5 step5_rebalance.e2e_words))
  = Z.min 5 (step5_rebalance.total_remaining [2] [(2, step5_rebalance.e2e_words)]).
Proof.
  refine (stratified_batch_has_requested_size step5_rebalance.e2e_shuffle [2]
            [(2, step5_rebalance.e2e_words)] [(2, 10)] 5 tt
            (rev (drop 5 step5_rebalance.e2e_words))
            [(2, take 5 step5_rebalance.e2e_words)] tt
            (fun g l => Permutation_refl l) _ _ _ _ _).
  - apply NoDup_singleton.
  - reflexivity.
  - repeat constructor. simpl. lia.
  - lia.
  - vm_compute. reflexivity.
Defined.

(** X3. [_select_common_word_ids] returns the set of the ids of the batch
    that some scored entry gives the common level, when there are exactly
    [common_count] of them, and raises its contract violation otherwise:
    repeated entries count once and entries for other words or other
    levels are ignored. *)
Theorem selected_common_ids_are_the_scored_ones :
  forall batch scored common_level common_count,
    let in_batch : gset Z := list_to_set (map step5_rebalance.word_id batch) in
    let chosen : gset Z :=
      list_to_set
        (map ScoreResult.word_id
           (List.filter
              (fun s => bool_decide (ScoreResult.word_id s ∈ in_batch)
                        && (ScoreResult.rarity_level s =? common_level))
              scored)) in
    step5_rebalance._select_common_word_ids batch scored common_level common_count
    = if Z.of_nat (size chosen) =? common_count then Ok chosen
      else Raise (RuntimeError
                    (str "Expected exactly " ++ str_of_int common_count
                     ++ str " selected word_ids, got "
                     ++ str_of_int (Z.of_nat (size chosen))
                     ++ str ". Prompt/parse contract violation.")).
Proof.
  intros batch scored common_level common_count in_batch chosen.
  unfold step5_rebalance._select_common_word_ids. fold in_batch.
  set (keep := fun s : ScoreResult.t =>
                 bool_decide (ScoreResult.word_id s ∈ in_batch)
                 && (ScoreResult.rarity_level s =? common_level)).
  set (pass := fun '(selected, seen) s => _).
  assert (forall sel seen s,
            pass (sel, seen) s
            = if keep s && negb (bool_decide (ScoreResult.word_id s ∈ seen))
              then (sel ++ [ScoreResult.word_id s], {[ ScoreResult.word_id s ]} ∪ seen)
              else (sel, seen)) as Hpass by reflexivity.
  assert (forall rest (done : list ScoreResult.t) acc,
            NoDup (fst acc) ->
            snd acc = list_to_set (fst acc) ->
            (list_to_set (fst acc) : gset Z)
            = list_to_set (map ScoreResult.word_id (List.filter keep done)) ->
            let acc' := fold_left pass rest acc in
            NoDup (fst acc') /\
            (list_to_set (fst acc') : gset Z)
            = list_to_set (map ScoreResult.word_id (List.filter keep (done ++ rest))))
    as Hfold.
  { induction rest as [|s rest IH]; intros done [sel seen] Hnd Hseen Hset;
      cbn [fold_left].
    - rewrite app_nil_r. auto.
    - cbn [fst snd] in Hnd, Hseen, Hset.
      replace (done ++ s :: rest) with ((done ++ [s]) ++ rest)
        by (rewrite <- app_assoc; reflexivity).
      assert ((list_to_set (map ScoreResult.word_id (List.filter keep (done ++ [s])))
               : gset Z)
              = if keep s then {[ ScoreResult.word_id s ]} ∪ list_to_set sel
                else list_to_set sel) as Hnext.
      { rewrite List.filter_app, map_app, list_to_set_app_L, <- Hset. cbn [List.filter].
        destruct (keep s); cbn [map list_to_set]; set_solver. }
      rewrite Hpass.
      destruct (keep s) eqn:Ekeep; cbn [andb].
      + destruct (bool_decide (ScoreResult.word_id s ∈ seen)) eqn:Eseen; cbn [negb].
        * apply bool_decide_eq_true in Eseen. rewrite Hseen in Eseen.
          apply IH; cbn [fst snd]; [exact Hnd|exact Hseen|].
          rewrite Hnext. set_solver.
        * apply bool_decide_eq_false in Eseen. rewrite Hseen in Eseen.
          apply IH; cbn [fst snd].
          -- apply NoDup_app. split; [exact Hnd|]. split; [|apply NoDup_singleton].
             intros x Hx Hs. apply list_elem_of_singleton in Hs as ->.
             apply Eseen, elem_of_list_to_set, Hx.
          -- rewrite list_to_set_app_L, Hseen. cbn [list_to_set]. set_solver.
          -- rewrite Hnext, list_to_set_app_L. cbn [list_to_set]. set_solver.
      + apply IH; cbn [fst snd]; [exact Hnd|exact Hseen|]. rewrite Hnext. reflexivity. }
  specialize (Hfold scored [] ([], ∅) (NoDup_nil_2) eq_refl eq_refl).
  cbn [app] in Hfold.
  destruct (fold_left pass scored ([], ∅)) as [sel seen]. cbn [fst] in *.
  destruct Hfold as [Hnd Hset].
  assert (chosen = list_to_set sel) as Hchosen by (symmetry; exact Hset).
  rewrite Hchosen, size_list_to_set by exact Hnd. fold (len sel).
  destruct (len sel =? common_count); reflexivity.
Qed.

Section AssignmentEvents.
Import transitions step5_rebalance.

Lemma assign_words_events t common_level rare_level (selected : gset Z) batch :
  forall acc : RebalanceRuntime * list SwitchedWordEvent,
    NoDup (map word_id batch) ->
    let next x := if bool_decide (word_id x ∈ selected) then common_level else rare_level in
    let rule_of x :=
      describe_sources t ++ str "->" ++ str_of_int (next x) ++ str " (via "
      ++ describe_sources t ++ str ":" ++ str_of_int (to_level t) ++ str ")" in
    let levels := levels_by_id (fst acc) in
    let acc' := fold_left (assign_word t common_level rare_level selected) batch acc in
    snd acc'
    = snd acc
      ++ map (fun x =>
                mkEvent (word_id x) (word x) (type x) (default (-1) (levels !! word_id x))
                  (next x) (rule_of x) (bool_decide (word_id x ∈ selected)))
          (List.filter (fun x => negb (bool_decide (levels !! word_id x = Some (next x))))
             batch).
Proof.
  induction batch as [|x batch IH]; intros [runtime events] Hnd next rule_of levels;
    cbn [fold_left map List.filter fst snd].
  - rewrite app_nil_r. reflexivity.
  - cbn [map] in Hnd. apply NoDup_cons in Hnd as [Hx Hnd].
    specialize (IH (assign_word t common_level rare_level selected (runtime, events) x) Hnd).
    cbv zeta in IH. rewrite IH. clear IH.
    cbn [assign_word fst snd levels_by_id processed_word_ids].
    fold (next x) (rule_of x). subst levels. cbn [fst].
    assert (forall y, y ∈ batch ->
              <[word_id x := next x]> (levels_by_id runtime) !! word_id y
              = levels_by_id runtime !! word_id y) as Hsame.
    { intros y Hy. apply lookup_insert_ne. intros Heq. apply Hx. rewrite Heq.
      apply list_elem_of_fmap_2. exact Hy. }
    rewrite (filter_agree
                 (fun y => negb (bool_decide
                                   (<[word_id x := next x]> (levels_by_id runtime)
                                    !! word_id y = Some (next y))))
                 (fun y => negb (bool_decide
                                   (levels_by_id runtime !! word_id y = Some (next y))))
                 batch)
        by (intros y Hy; rewrite (Hsame y Hy); reflexivity).
      rewrite (map_ext_in
                 (fun y => mkEvent (word_id y) (word y) (type y)
                             (default (-1)
                                (<[word_id x := next x]> (levels_by_id runtime)
                                 !! word_id y))
                             (next y) (rule_of y) (bool_decide (word_id y ∈ selected)))
                 (fun y => mkEvent (word_id y) (word y) (type y)
                             (default (-1) (levels_by_id runtime !! word_id y))
                             (next y) (rule_of y) (bool_decide (word_id y ∈ selected)))).
    + destruct (negb (bool_decide (levels_by_id runtime !! word_id x = Some (next x))));
        cbn [map]; [rewrite <- app_assoc|]; reflexivity.
    + intros y Hy. apply filter_In in Hy as [Hy _]. apply list_elem_of_In in Hy.
      rewrite (Hsame y Hy). reflexivity.
Qed.

Lemma assign_words_processed t common_level rare_level (selected : gset Z) batch :
  forall acc : RebalanceRuntime * list SwitchedWordEvent,
    processed_word_ids
      (fst (fold_left (assign_word t common_level rare_level selected) batch acc))
    = list_to_set (map word_id batch) ∪ processed_word_ids (fst acc).
Proof.
  induction batch as [|x batch IH]; intros [runtime events]; cbn [fold_left map fst].
  - cbn [list_to_set]. rewrite union_empty_l_L. reflexivity.
  - rewrite IH. cbn [assign_word fst processed_word_ids list_to_set].
    rewrite (union_comm_L {[word_id x]} (list_to_set (map word_id batch))).
    rewrite <- union_assoc_L. reflexivity.
Qed.

End AssignmentEvents.

(** X4. [_apply_batch_assignments] puts every word of the batch at the
    common level when its id is selected and at the rare level otherwise,
    leaves the other levels alone and marks the batch as processed.  For a
    batch without repeated ids it reports, in batch order, one switched
    word for each word whose level is not the one it gets, with its
    level before (-1 when it had none) and after. *)
Theorem batch_assignments_set_levels_and_report_changes :
  forall {Rng : Type} batch (selected : gset Z) t other (w : step5_rebalance.world Rng),
    transitions.other_level t = Ok other ->
    let common_level := Z.min (transitions.to_level t) other in
    let rare_level := Z.max (transitions.to_level t) other in
    let next x :=
      if bool_decide (step5_rebalance.word_id x ∈ selected)
      then common_level else rare_level in
    let levels := step5_rebalance.levels_by_id (step5_rebalance.runtime w) in
    exists events w',
      step5_rebalance._apply_batch_assignments batch selected t w = (Ok events, w') /\
      (forall x, x ∈ batch ->
         step5_rebalance.levels_by_id (step5_rebalance.runtime w')
         !! step5_rebalance.word_id x = Some (next x)) /\
      (forall id, id ∉ map step5_rebalance.word_id batch ->
         step5_rebalance.levels_by_id (step5_rebalance.runtime w') !! id = levels !! id) /\
      step5_rebalance.processed_word_ids (step5_rebalance.runtime w')
      = list_to_set (map step5_rebalance.word_id batch)
        ∪ step5_rebalance.processed_word_ids (step5_rebalance.runtime w) /\
      step5_rebalance.switched_log w' = step5_rebalance.switched_log w ++ events /\
      (NoDup (map step5_rebalance.word_id batch) ->
       map (fun ev => (step5_rebalance.ev_word_id ev, step5_rebalance.previous_level ev,
                       step5_rebalance.next_level ev, step5_rebalance.selected_by_llm ev))
         events
       = map (fun x => (step5_rebalance.word_id x,
                        default (-1) (levels !! step5_rebalance.word_id x), next x,
                        bool_decide (step5_rebalance.word_id x ∈ selected)))
           (List.filter
              (fun x => negb (bool_decide
                                (levels !! step5_rebalance.word_id x = Some (next x))))
              batch)).
Proof.
  intros Rng batch selected t other w Hother common_level rare_level next levels.
  destruct (apply_batch_assignments_spec batch selected t other w Hother)
    as (events & w' & Hrun & _ & Hlevels).
  exists events, w'. split; [exact Hrun|].
  fold common_level rare_level in Hlevels.
  unfold step5_rebalance._apply_batch_assignments in Hrun. rewrite Hother in Hrun.
  fold common_level rare_level in Hrun.
  pose proof (assign_words_events t common_level rare_level selected batch
                (step5_rebalance.runtime w, [])) as Hevents.
  pose proof (assign_words_processed t common_level rare_level selected batch
                (step5_rebalance.runtime w, [])) as Hprocessed.
  destruct (fold_left _ batch (step5_rebalance.runtime w, [])) as [runtime' events'].
  cbv beta iota in Hrun. inversion Hrun; subst events w'; clear Hrun. cbn [fst snd] in *.
  cbn [step5_rebalance.runtime step5_rebalance.switched_log].
  split; [|split; [|split; [exact Hprocessed|split; [reflexivity|]]]].
  - intros x Hx. rewrite Hlevels.
    rewrite (bool_decide_eq_true_2
               (step5_rebalance.word_id x ∈ map step5_rebalance.word_id batch));
      [reflexivity|]. apply list_elem_of_fmap_2. exact Hx.
  - intros id Hid. rewrite Hlevels.
    rewrite (bool_decide_eq_false_2 (id ∈ map step5_rebalance.word_id batch)) by exact Hid.
    reflexivity.
  - intros Hnd. rewrite (Hevents Hnd). cbn [app]. rewrite !map_map. reflexivity.
Qed.

Lemma batch_assignments_set_levels_and_report_changes_witness :
  exists events w',
    step5_rebalance._apply_batch_assignments (take 2 step5_rebalance.e2e_words) {[ 2 ]}
      step5_rebalance.e2e_transition step5_rebalance.e2e_world = (Ok events, w') /\
    map (fun ev => (step5_rebalance.ev_word_id ev, step5_rebalance.previous_level ev,
                    step5_rebalance.next_level ev, step5_rebalance.selected_by_llm ev))
      events
    = [(2, 2, 1, true)].
Proof.
  destruct (batch_assignments_set_levels_and_report_changes
              (take 2 step5_rebalance.e2e_words) {[ 2 ]} step5_rebalance.e2e_transition 2
              step5_rebalance.e2e_world eq_refl)
    as (events & w' & Hrun & _ & _ & _ & _ & Hevents).
  exists events, w'. split; [exact Hrun|].
  rewrite Hevents by (vm_compute; repeat constructor; set_solver).
  vm_compute. reflexivity.
Defined.

(** X5. A transition that passed its check has two distinct source
    levels at most, its other level exists and is a level from 1 to 5 next
    to the target level, and every source level is the target level or the
    other level: a word is moved by one level or not at all. *)
Theorem valid_transition_moves_one_level :
  forall t,
    transitions.valid t ->
    NoDup (transitions.source_levels t) /\
    exists other,
      transitions.other_level t = Ok other /\
      1 <= other <= 5 /\ 1 <= transitions.to_level t <= 5 /\
      (other = transitions.to_level t + 1 \/ other = transitions.to_level t - 1) /\
      forall level, level ∈ transitions.source_levels t ->
        level = transitions.to_level t \/ level = other.
Proof.
  intros [from to [upper|]];
    unfold transitions.valid, transitions.source_levels, transitions.other_level;
    cbn [transitions.from_level transitions.to_level transitions.from_level_upper].
  - unfold transitions.require_valid_pair_transition, transitions.source_levels,
      transitions.in_1_5.
    cbn [transitions.from_level transitions.to_level transitions.from_level_upper List.find].
    destruct (Z.leb_spec 1 from), (Z.leb_spec from 5), (Z.leb_spec 1 upper),
      (Z.leb_spec upper 5), (Z.leb_spec 1 to), (Z.leb_spec to 5);
      cbn [andb negb]; try discriminate.
    destruct (Z.eqb_spec upper (from + 1)) as [Hup|]; [|discriminate]. cbn [negb].
    destruct (Z.eqb_spec to from) as [Hto|Hto]; cbn [orb negb].
    + intros _. split.
      { apply NoDup_cons. split; [|apply NoDup_singleton].
        intros Hin. apply list_elem_of_singleton in Hin. lia. }
      destruct (Z.eqb_spec from to) as [_|]; [|congruence]. cbn [negb].
      destruct (Z.eqb_spec upper to) as [|_]; [lia|]. cbn [negb].
      exists upper. repeat split; try lia.
      intros level Hl. apply elem_of_cons in Hl as [->|Hl]; [left; lia|].
      apply list_elem_of_singleton in Hl as ->. right. reflexivity.
    + destruct (Z.eqb_spec to upper) as [Hto'|]; [|discriminate]. cbn [negb].
      intros _. split.
      { apply NoDup_cons. split; [|apply NoDup_singleton].
        intros Hin. apply list_elem_of_singleton in Hin. lia. }
      destruct (Z.eqb_spec from to) as [|_]; [congruence|]. cbn [negb].
      exists from. repeat split; try lia.
      intros level Hl. apply elem_of_cons in Hl as [->|Hl]; [right; reflexivity|].
      apply list_elem_of_singleton in Hl as ->. left. lia.
  - unfold transitions.require_valid_transition, transitions.in_1_5.
    destruct (Z.leb_spec 1 from), (Z.leb_spec from 5), (Z.leb_spec 1 to), (Z.leb_spec to 5);
      cbn [andb negb]; try discriminate.
    intros Hvalid. split; [apply NoDup_singleton|].
    destruct (Z.eqb_spec to from) as [Heq|Hne].
    + destruct (Z.eqb_spec from 5) as [E5|E5], (Z.eqb_spec to 5) as [E5'|E5'];
        try lia; cbn [andb orb negb] in Hvalid; try discriminate;
        try (rewrite orb_true_r in Hvalid; discriminate).
      exists (Z.min 5 (to + 1)). repeat split; try lia.
      intros level Hl. apply list_elem_of_singleton in Hl as ->. left. lia.
    + destruct (Z.eqb_spec to (from - 1)) as [Hdown|]; [|discriminate].
      exists from. repeat split; try lia.
      intros level Hl. apply list_elem_of_singleton in Hl as ->. right. reflexivity.
Qed.

Lemma valid_transition_moves_one_level_witness :
  NoDup (transitions.source_levels (transitions.mk 3 3 (Some 4))) /\
  exists other,
    transitions.other_level (transitions.mk 3 3 (Some 4)) = Ok other /\
    1 <= other <= 5 /\ 1 <= 3 <= 5 /\ (other = 3 + 1 \/ other = 3 - 1) /\
    forall level, level ∈ [3; 4] -> level = 3 \/ level = other.
Proof.
  apply (valid_transition_moves_one_level (transitions.mk 3 3 (Some 4))).
  vm_compute. reflexivity.
Defined.

(** ** The distribution counter *)

Section Distribution.
Import RarityDistribution.

Lemma count_add_at (d : RarityDistribution.t) level delta l :
  (Z.to_nat level < length d)%nat -> 0 <= level -> 0 <= l ->
  count (add_at d level delta) l = count d l + (if Z.eqb l level then delta else 0).
Proof.
  intros Hlen Hlevel Hl. unfold add_at, count. rewrite !nth_lookup.
  destruct (Z.eqb_spec l level) as [->|Hne].
  - rewrite (list_lookup_insert_eq (d : list Z)) by exact Hlen. reflexivity.
  - rewrite (list_lookup_insert_ne (d : list Z)) by lia. lia.
Qed.

Lemma length_add_at (d : RarityDistribution.t) level delta :
  length (add_at d level delta) = length d.
Proof. unfold add_at. apply length_insert. Qed.

Lemma count_increment (d : RarityDistribution.t) level l :
  length d = 6%nat -> 1 <= l <= 5 ->
  count (increment d level) l = count d l + (if Z.eqb l level then 1 else 0).
Proof.
  intros Hlen Hl. unfold increment.
  destruct (Z.leb_spec 1 level), (Z.leb_spec level 5); cbn [andb].
  - apply count_add_at; lia.
  - destruct (Z.eqb_spec l level); lia.
  - destruct (Z.eqb_spec l level); lia.
  - destruct (Z.eqb_spec l level); lia.
Qed.

Lemma length_increment (d : RarityDistribution.t) level :
  length (increment d level) = length d.
Proof.
  unfold increment. destruct ((1 <=? level) && (level <=? 5)); [apply length_add_at|reflexivity].
Qed.

Lemma count_set_level (d : RarityDistribution.t) previous next l :
  length d = 6%nat -> 1 <= l <= 5 ->
  count (set_level d previous next) l
  = count d l
    - (if bool_decide (previous = Some l) && (0 <? count d l) then 1 else 0)
    + (if Z.eqb l next then 1 else 0).
Proof.
  intros Hlen Hl. unfold set_level.
  set (d1 := match previous with
             | Some p => if (1 <=? p) && (p <=? 5) && (0 <? count d p)
                         then add_at d p (-1) else d
             | None => d
             end).
  assert (length d1 = 6%nat) as Hlen1.
  { subst d1. destruct previous as [p|]; [|exact Hlen].
    destruct ((1 <=? p) && (p <=? 5) && (0 <? count d p)); [|exact Hlen].
    rewrite length_add_at. exact Hlen. }
  assert (count d1 l
          = count d l - (if bool_decide (previous = Some l) && (0 <? count d l) then 1 else 0))
    as Hd1.
  { subst d1. destruct previous as [p|].
    - destruct (decide (p = l)) as [->|Hne].
      + rewrite bool_decide_eq_true_2 by reflexivity.
        destruct (Z.leb_spec 1 l), (Z.leb_spec l 5); try lia. cbn [andb].
        destruct (0 <? count d l); [|lia].
        rewrite count_add_at by lia. rewrite Z.eqb_refl. lia.
      + rewrite bool_decide_eq_false_2 by congruence. cbn [andb].
        destruct ((1 <=? p) && (p <=? 5) && (0 <? count d p)) eqn:E; [|lia].
        apply andb_prop in E as [E _]. apply andb_prop in E as [E1 E2].
        apply Z.leb_le in E1, E2.
        rewrite count_add_at by lia.
        destruct (Z.eqb_spec l p); [congruence|lia].
    - rewrite bool_decide_eq_false_2 by discriminate. cbn [andb]. lia. }
  fold (increment d1 next). rewrite count_increment by assumption. lia.
Qed.

Lemma length_set_level (d : RarityDistribution.t) previous next :
  length (set_level d previous next) = length d.
Proof.
  unfold set_level.
  set (d1 := match previous with
             | Some p => if (1 <=? p) && (p <=? 5) && (0 <? count d p)
                         then add_at d p (-1) else d
             | None => d
             end).
  assert (length d1 = length d) as <-.
  { subst d1. destruct previous as [p|]; [|reflexivity].
    destruct ((1 <=? p) && (p <=? 5) && (0 <? count d p)); [|reflexivity].
    apply length_add_at. }
  fold (increment d1 next). apply length_increment.
Qed.

End Distribution.

Section Census.
Import step5_rebalance.

Lemma census_insert (levels : gmap Z Z) k next l :
  census (<[k := next]> levels) l
  = census levels l
    - (if bool_decide (levels !! k = Some l) then 1 else 0)
    + (if Z.eqb l next then 1 else 0).
Proof.
  unfold census.
  set (P := fun kv : Z * Z => snd kv = l).
  assert (filter P levels !! k = if bool_decide (levels !! k = Some l)
                                   then Some l else None) as Hat.
  { destruct (bool_decide (levels !! k = Some l)) eqn:E.
    - apply bool_decide_eq_true in E. apply map_lookup_filter_Some. split; [exact E|].
      reflexivity.
    - apply bool_decide_eq_false in E. apply map_lookup_filter_None.
      destruct (levels !! k) as [y|] eqn:Ey; [right|left; reflexivity].
      intros x [= <-] Hx. unfold P in Hx. cbn in Hx. congruence. }
  rewrite map_filter_insert.
  destruct (Z.eqb_spec l next) as [Heq|Hne].
  - rewrite decide_True by (unfold P; cbn; congruence).
    rewrite map_size_insert, Hat.
    destruct (bool_decide (levels !! k = Some l)); cbn [id]; lia.
  - rewrite decide_False by (unfold P; cbn; congruence).
    rewrite map_filter_delete, map_size_delete, Hat.
    destruct (bool_decide (levels !! k = Some l)) eqn:E; [|cbn [id]; lia].
    assert (size (filter P levels) <> 0%nat) as Hpos.
    { intros Hzero. apply map_size_empty_inv in Hzero. rewrite Hzero in Hat.
      rewrite lookup_empty in Hat. discriminate. }
    lia.
Qed.

Lemma assign_word_in_sync t common_level rare_level (selected : gset Z) acc x :
  distribution_in_sync (fst acc) ->
  distribution_in_sync (fst (assign_word t common_level rare_level selected acc x)).
Proof.
  destruct acc as [runtime events]. cbn [fst]. intros [Hlen Hsync].
  cbn [assign_word fst]. unfold distribution_in_sync. cbn [distribution levels_by_id].
  split; [rewrite length_set_level; exact Hlen|].
  intros l Hl. rewrite count_set_level, census_insert, (Hsync l Hl) by assumption.
  destruct (bool_decide (levels_by_id runtime !! word_id x = Some l)) eqn:E;
    cbn [andb]; [|lia].
  apply bool_decide_eq_true in E.
  assert (0 < census (levels_by_id runtime) l) as Hpos.
  { unfold census.
    assert (size (filter (fun kv : Z * Z => snd kv = l) (levels_by_id runtime)) <> 0%nat);
      [|lia].
    intros Hzero. apply map_size_empty_inv in Hzero.
    assert (filter (fun kv : Z * Z => snd kv = l) (levels_by_id runtime) !! word_id x
            = Some l) as Hin by (apply map_lookup_filter_Some; auto).
    rewrite Hzero, lookup_empty in Hin. discriminate. }
  destruct (Z.ltb_spec 0 (census (levels_by_id runtime) l)); lia.
Qed.

End Census.

(** X6. [RarityDistribution.from_levels] counts occurrences: for each of
    the levels 1 to 5 the counter holds the number of times the level
    occurs in the list, and values that are no level are left out. *)
Theorem distribution_counts_occurrences :
  forall levels level,
    1 <= level <= 5 ->
    RarityDistribution.count (RarityDistribution.from_levels levels) level
    = len (List.filter (fun x => Z.eqb x level) levels).
Proof.
  intros levels level Hlevel. unfold RarityDistribution.from_levels.
  assert (forall d : RarityDistribution.t,
            length d = 6%nat ->
            RarityDistribution.count (fold_left RarityDistribution.increment levels d) level
            = RarityDistribution.count d level
              + len (List.filter (fun x => Z.eqb x level) levels)) as H.
  { induction levels as [|x levels IH]; intros d Hlen; cbn [fold_left List.filter].
    - unfold len. simpl. lia.
    - rewrite IH by (rewrite length_increment; exact Hlen).
      rewrite count_increment by assumption. rewrite (Z.eqb_sym level x).
      destruct (x =? level); unfold len; cbn [length]; lia. }
  rewrite H by reflexivity.
  assert (RarityDistribution.count RarityDistribution.__init__ level = 0) as ->; [|lia].
  unfold RarityDistribution.count, RarityDistribution.__init__.
  assert (level = 1 \/ level = 2 \/ level = 3 \/ level = 4 \/ level = 5) as Hcases by lia.
  destruct Hcases as [->|[->|[->|[->| ->]]]]; reflexivity.
Qed.

Lemma distribution_counts_occurrences_witness :
  RarityDistribution.count (RarityDistribution.from_levels [4; 4; 5; 0; 9]) 4 = 2.
Proof.
  exact (distribution_counts_occurrences [4; 4; 5; 0; 9] 4 ltac:(lia)).
Defined.

Lemma batch_assignments_keep_sync_helper {Rng : Type} batch (selected : gset Z) t
    (w w' : step5_rebalance.world Rng) events :
  step5_rebalance.distribution_in_sync (step5_rebalance.runtime w) ->
  step5_rebalance._apply_batch_assignments batch selected t w = (Ok events, w') ->
  step5_rebalance.distribution_in_sync (step5_rebalance.runtime w').
Proof.
  intros Hsync.
  unfold step5_rebalance._apply_batch_assignments.
  destruct (transitions.other_level t) as [other|e]; [|discriminate].
  cbv zeta.
  assert (forall acc : step5_rebalance.RebalanceRuntime
                       * list step5_rebalance.SwitchedWordEvent,
            step5_rebalance.distribution_in_sync (fst acc) ->
            step5_rebalance.distribution_in_sync
              (fst (fold_left
                      (step5_rebalance.assign_word t
                         (Z.min (transitions.to_level t) other)
                         (Z.max (transitions.to_level t) other) selected)
                      batch acc))) as Hfold.
  { induction batch as [|x batch IH]; intros acc Hacc; cbn [fold_left]; [exact Hacc|].
    apply IH, assign_word_in_sync, Hacc. }
  specialize (Hfold (step5_rebalance.runtime w, []) Hsync).
  destruct (fold_left _ batch (step5_rebalance.runtime w, [])) as [runtime' events'].
  intros H. inversion H; subst. exact Hfold.
Qed.

(** X7. When the distribution counter agrees with [levels_by_id] (for
    each level 1 to 5 it holds the number of words at that level), it
    still does after [_apply_batch_assignments], whatever the batch, the
    selection and the levels the words had. *)
Theorem batch_assignments_keep_distribution_in_sync :
  forall {Rng : Type} batch (selected : gset Z) t (w w' : step5_rebalance.world Rng) events,
    step5_rebalance.distribution_in_sync (step5_rebalance.runtime w) ->
    step5_rebalance._apply_batch_assignments batch selected t w = (Ok events, w') ->
    step5_rebalance.distribution_in_sync (step5_rebalance.runtime w').
Proof.
  intros Rng batch selected t w w' events.
  apply batch_assignments_keep_sync_helper.
Qed.

Lemma batch_assignments_keep_distribution_in_sync_witness :
  step5_rebalance.distribution_in_sync
    (step5_rebalance.runtime
       (snd (step5_rebalance._apply_batch_assignments (take 2 step5_rebalance.e2e_words)
               {[ 2 ]} step5_rebalance.e2e_transition step5_rebalance.e2e_world))).
Proof.
  destruct (step5_rebalance._apply_batch_assignments (take 2 step5_rebalance.e2e_words)
              {[ 2 ]} step5_rebalance.e2e_transition step5_rebalance.e2e_world)
    as [[events|e] w'] eqn:Hrun; [|vm_compute in Hrun; discriminate].
  cbn [snd].
  refine (batch_assignments_keep_distribution_in_sync _ _ _ _ _ _ _ Hrun).
  split; [reflexivity|]. intros level Hlevel.
  assert (level = 1 \/ level = 2 \/ level = 3 \/ level = 4 \/ level = 5) as Hcases by lia.
  destruct Hcases as [->|[->|[->|[->| ->]]]]; vm_compute; reflexivity.
Defined.

Section LoopInvariant.
Import transitions step5_rebalance.
Context {Rng : Type}.
Variable shuffle : Rng -> list RebalanceWord -> list RebalanceWord * Rng.
Variable py : builtins.
Variable post_json : nat -> client.Request -> client.http_outcome.
Variable parse :
  list BaseWordRow.t -> pystr -> ScoringOutputMode.t -> option Z -> option Z ->
  result ParsedBatch.t.
Variable t : LevelTransition.
Variable options : Step5Options.
Variable resolved_endpoint : ResolvedEndpoint.
Variable logs : Step5Logs.

Lemma choose_common_keeps_data common_count common_level batch (w : world Rng) :
  let w' := snd (choose_common py post_json parse options t common_count common_level batch
                   resolved_endpoint logs w) in
  runtime w' = runtime w /\ switched_log w' = switched_log w /\
  checkpoint_log w' = checkpoint_log w /\ progress_log w' = progress_log w /\
  rng w' = rng w.
Proof.
  unfold choose_common.
  destruct (common_count <=? 0); [cbn; auto|].
  destruct (len batch <=? common_count); [cbn; auto|].
  destruct (_score_transition_batch _ _ _ _ _ _ _ _ _ _ _) as [[scored|e] st]; cbn; auto.
Qed.

(** A property of the world that the generator does not matter to and
    that a pass keeps is kept by the loop and by the transition. *)
Variable keeps : world Rng -> Prop.
Hypothesis keeps_rng : forall w g, keeps w -> keeps (with_rng w g).
Hypothesis keeps_batch :
  forall eligible_count expected_target_total batch processed target_assigned
         switched_count batch_index w,
    keeps w ->
    keeps (snd (transition_batch py post_json parse t options resolved_endpoint logs
                  eligible_count expected_target_total batch processed target_assigned
                  switched_count batch_index w)).

Lemma transition_loop_keeps source_levels counts eligible_count expected_target_total
    passes :
  forall remaining processed target_assigned switched_count batch_index w,
    keeps w ->
    keeps (snd (transition_loop shuffle py post_json parse passes t options
                  resolved_endpoint logs source_levels counts eligible_count
                  expected_target_total remaining processed target_assigned
                  switched_count batch_index w)).
Proof.
  induction passes as [|passes IH];
    intros remaining processed target_assigned switched_count batch_index w Hw;
    cbn [transition_loop]; [exact Hw|].
  destruct (_select_stratified_batch shuffle source_levels remaining counts
              (batch_size options) (rng w)) as [[[batch remaining'] g]|e]; [|exact Hw].
  destruct batch as [|x batch]; [apply keeps_rng; exact Hw|].
  pose proof (keeps_batch eligible_count expected_target_total (x :: batch) processed
                target_assigned switched_count (batch_index + 1) (with_rng w g)
                (keeps_rng w g Hw)) as Hpass.
  destruct (transition_batch _ _ _ _ _ _ _ _ _ _ _ _ _ _ _)
    as [[[[processed1 target_assigned1] switched_count1]|e] w1]; cbn [snd] in Hpass.
  - apply IH. exact Hpass.
  - exact Hpass.
Qed.

Lemma eligible_pools_keeps dataset w :
  keeps w -> keeps (snd (eligible_pools shuffle t dataset w)).
Proof.
  unfold eligible_pools.
  generalize ([] : Dict.t (list RebalanceWord)).
  induction (source_levels t) as [|level levels IH]; intros remaining Hw;
    cbn [fold_left]; [exact Hw|].
  destruct (shuffle (rng w) _) as [items g].
  assert (forall remaining w0,
            keeps w0 ->
            keeps (snd (fold_left
                          (fun '(remaining, w) level =>
                             let items :=
                               List.filter
                                 (fun x =>
                                    bool_decide (levels_by_id (runtime w) !! word_id x
                                                 = Some level)
                                    && negb (bool_decide
                                               (word_id x ∈ processed_word_ids (runtime w))))
                                 (Dict.values (words_by_id dataset)) in
                             let '(items, g) := shuffle (rng w) items in
                             (Dict.put remaining level items, with_rng w g))
                          levels (remaining, w0)))) as Hfold.
  { clear -keeps_rng. induction levels as [|l ls IHl]; intros remaining w0 Hw0;
      cbn [fold_left]; [exact Hw0|].
    destruct (shuffle (rng w0) _) as [items g]. apply IHl, keeps_rng, Hw0. }
  apply Hfold, keeps_rng, Hw.
Qed.

Lemma apply_transition_keeps dataset w :
  keeps w ->
  keeps (snd (_apply_transition shuffle py post_json parse t options dataset
                resolved_endpoint logs w)).
Proof.
  intros Hw. unfold _apply_transition.
  pose proof (eligible_pools_keeps dataset w Hw) as Hpools.
  destruct (eligible_pools shuffle t dataset w) as [remaining w0]. cbn [snd] in Hpools.
  destruct (_ =? 0); [exact Hpools|].
  match goal with
  | |- context [transition_loop ?sh ?p ?pj ?pa ?n ?tt ?o ?re ?lg ?sl ?c ?e ?x ?r ?a ?b ?cc ?d ?ww] =>
      pose proof (transition_loop_keeps sl c e x n r a b cc d ww Hpools) as Hloop;
      destruct (transition_loop sh p pj pa n tt o re lg sl c e x r a b cc d ww)
        as [[processed' assigned' switched'|e'|] w']
  end; exact Hloop.
Qed.

End LoopInvariant.

Section BatchKeepsSync.
Import transitions step5_rebalance.
Context {Rng : Type}.

Lemma transition_batch_in_sync py post_json parse t options resolved_endpoint logs
    eligible_count expected_target_total batch processed target_assigned switched_count
    batch_index (w : world Rng) :
  distribution_in_sync (runtime w) ->
  distribution_in_sync
    (runtime (snd (transition_batch py post_json parse t options resolved_endpoint logs
                     eligible_count expected_target_total batch processed target_assigned
                     switched_count batch_index w))).
Proof.
  intros Hsync. unfold transition_batch.
  destruct (other_level t) as [other|e] eqn:Hother; [|exact Hsync]. cbv zeta.
  match goal with
  | |- context [choose_common ?p ?pj ?pa ?o ?tt ?cc ?cl ?b ?re ?lg ?ww] =>
      pose proof (choose_common_keeps_data p pj pa tt o re lg cc cl b ww) as Hchoose;
      destruct (choose_common p pj pa o tt cc cl b re lg ww) as [[selected|e] w1]
  end; cbn [snd] in Hchoose; destruct Hchoose as (Hruntime & _);
    [|cbn [snd]; rewrite Hruntime; exact Hsync].
  destruct (_apply_batch_assignments batch selected t w1) as [[events|e] w2] eqn:Hassign.
  - cbn [snd _append_batch_progress _append_batch_checkpoint runtime].
    apply (batch_assignments_keep_sync_helper batch selected t w1 w2 events);
      [rewrite Hruntime; exact Hsync|exact Hassign].
  - unfold _apply_batch_assignments in Hassign. rewrite Hother in Hassign.
    cbv zeta in Hassign. destruct (fold_left _ batch _) in Hassign. discriminate.
Qed.

End BatchKeepsSync.

(** X8. A transition keeps the distribution counter in agreement with
    [levels_by_id], however it ends. *)
Theorem transition_keeps_distribution_in_sync :
  forall {Rng : Type} (shuffle : Rng -> list step5_rebalance.RebalanceWord
                                  -> list step5_rebalance.RebalanceWord * Rng)
         py post_json parse t options dataset resolved_endpoint logs
         (w : step5_rebalance.world Rng),
    step5_rebalance.distribution_in_sync (step5_rebalance.runtime w) ->
    step5_rebalance.distribution_in_sync
      (step5_rebalance.runtime
         (snd (step5_rebalance._apply_transition shuffle py post_json parse t options
                 dataset resolved_endpoint logs w))).
Proof.
  intros Rng shuffle py post_json parse t options dataset resolved_endpoint logs w.
  apply (apply_transition_keeps shuffle py post_json parse t options resolved_endpoint logs
           (fun w => step5_rebalance.distribution_in_sync (step5_rebalance.runtime w))).
  - intros w0 g Hw0. exact Hw0.
  - intros. apply transition_batch_in_sync. assumption.
Qed.

Lemma transition_keeps_distribution_in_sync_witness :
  step5_rebalance.distribution_in_sync
    (step5_rebalance.runtime (snd (step5_rebalance.e2e_run (1 # 2)))).
Proof.
  apply (transition_keeps_distribution_in_sync step5_rebalance.e2e_shuffle).
  split; [reflexivity|]. intros level Hlevel.
  assert (level = 1 \/ level = 2 \/ level = 3 \/ level = 4 \/ level = 5) as Hcases by lia.
  destruct Hcases as [->|[->|[->|[->| ->]]]]; vm_compute; reflexivity.
Defined.

Section Bookkeeping.
Import transitions step5_rebalance.
Context {Rng : Type}.

(** What has been recorded since the world was [w0]: one checkpoint for
    each line of progress, with the ids of the batch, which are the ids
    newly processed, and with the words switched. *)
Let recorded (w0 w : world Rng) : Prop :=
  exists checkpoints lines events,
    checkpoint_log w = checkpoint_log w0 ++ checkpoints /\
    progress_log w = progress_log w0 ++ lines /\
    switched_log w = switched_log w0 ++ events /\
    map (fun c => len (cp_processed_word_ids c)) checkpoints = map pr_batch_size lines /\
    processed_word_ids (runtime w)
    = list_to_set (concat (map cp_processed_word_ids checkpoints))
      ∪ processed_word_ids (runtime w0) /\
    concat (map cp_switched checkpoints)
    = map (fun ev => (ev_word_id ev, next_level ev, rule ev)) events.

Lemma recorded_refl w : recorded w w.
Proof.
  exists [], [], []. rewrite !app_nil_r. cbn [map concat list_to_set].
  rewrite union_empty_l_L. auto 10.
Qed.

Lemma transition_batch_recorded py post_json parse t options resolved_endpoint logs
    eligible_count expected_target_total batch processed target_assigned switched_count
    batch_index w0 (w : world Rng) :
  recorded w0 w ->
  recorded w0
    (snd (transition_batch py post_json parse t options resolved_endpoint logs
            eligible_count expected_target_total batch processed target_assigned
            switched_count batch_index w)).
Proof.
  intros Hw. unfold transition_batch.
  destruct (other_level t) as [other|e] eqn:Hother; [|exact Hw]. cbv zeta.
  match goal with
  | |- context [choose_common ?p ?pj ?pa ?o ?tt ?cc ?cl ?b ?re ?lg ?ww] =>
      pose proof (choose_common_keeps_data p pj pa tt o re lg cc cl b ww) as Hchoose;
      destruct (choose_common p pj pa o tt cc cl b re lg ww) as [[selected|e] w1]
  end; cbn [snd] in Hchoose;
    destruct Hchoose as (Hruntime & Hswitched & Hcheckpoint & Hprogress & _).
  2:{ cbn [snd]. destruct Hw as (cs & ls & es & H1 & H2 & H3 & H4 & H5 & H6).
      exists cs, ls, es. rewrite Hruntime, Hswitched, Hcheckpoint, Hprogress. auto 10. }
  unfold _apply_batch_assignments. rewrite Hother. cbv zeta.
  pose proof (assign_words_processed t (Z.min (to_level t) other)
                (Z.max (to_level t) other) selected batch (runtime w1, [])) as Hprocessed.
  destruct (fold_left _ batch (runtime w1, [])) as [runtime' events].
  cbn [fst snd] in Hprocessed.
  unfold _append_batch_progress, _append_batch_checkpoint.
  cbn [snd runtime checkpoint_log progress_log switched_log].
  destruct Hw as (cs & ls & es & H1 & H2 & H3 & H4 & H5 & H6).
  eexists (cs ++ [_]), (ls ++ [_]), (es ++ events).
  rewrite Hcheckpoint, Hprogress, Hswitched, H1, H2, H3, <- !app_assoc.
  split; [reflexivity|]. split; [reflexivity|]. split; [reflexivity|].
  cbn [runtime].
  rewrite !map_app, !concat_app, H4, H6, Hprocessed, Hruntime, H5.
  cbn [map concat cp_processed_word_ids cp_switched pr_batch_size].
  rewrite !app_nil_r, list_to_set_app_L.
  split; [unfold len; rewrite length_map; reflexivity|]. split; [|reflexivity].
  rewrite (union_comm_L (list_to_set (concat (map cp_processed_word_ids cs)))
             (list_to_set (map word_id batch))).
  rewrite union_assoc_L. reflexivity.
Qed.

Lemma apply_transition_recorded
    (shuffle : Rng -> list RebalanceWord -> list RebalanceWord * Rng)
    py post_json parse t options dataset resolved_endpoint logs (w : world Rng) :
  recorded w
    (snd (_apply_transition shuffle py post_json parse t options dataset
            resolved_endpoint logs w)).
Proof.
  apply (apply_transition_keeps shuffle py post_json parse t options resolved_endpoint logs
           (recorded w)).
  - intros w0 g Hw0. exact Hw0.
  - intros. apply transition_batch_recorded. assumption.
  - apply recorded_refl.
Qed.

End Bookkeeping.

(** X9. Whatever the generator, the transport and the parser do, and
    however a transition ends, its logs only grow and it writes one
    checkpoint for each batch it commits: the checkpoints added are as many
    as the progress lines added and have the sizes of their batches, the
    ids they list are exactly the ids added to [processed_word_ids], and
    their switched entries are, in order, the words added to the switched
    words log. *)
Theorem transition_checkpoints_every_committed_batch :
  forall {Rng : Type} (shuffle : Rng -> list step5_rebalance.RebalanceWord
                                  -> list step5_rebalance.RebalanceWord * Rng)
         py post_json parse t options dataset resolved_endpoint logs
         (w : step5_rebalance.world Rng),
    let w' := snd (step5_rebalance._apply_transition shuffle py post_json parse t options
                     dataset resolved_endpoint logs w) in
    exists checkpoints lines events,
      step5_rebalance.checkpoint_log w' = step5_rebalance.checkpoint_log w ++ checkpoints /\
      step5_rebalance.progress_log w' = step5_rebalance.progress_log w ++ lines /\
      step5_rebalance.switched_log w' = step5_rebalance.switched_log w ++ events /\
      map (fun c => len (step5_rebalance.cp_processed_word_ids c)) checkpoints
      = map step5_rebalance.pr_batch_size lines /\
      step5_rebalance.processed_word_ids (step5_rebalance.runtime w')
      = list_to_set (concat (map step5_rebalance.cp_processed_word_ids checkpoints))
        ∪ step5_rebalance.processed_word_ids (step5_rebalance.runtime w) /\
      concat (map step5_rebalance.cp_switched checkpoints)
      = map (fun ev => (step5_rebalance.ev_word_id ev, step5_rebalance.next_level ev,
                        step5_rebalance.rule ev)) events.
Proof.
  intros Rng shuffle py post_json parse t options dataset resolved_endpoint logs w w'.
  exact (apply_transition_recorded shuffle py post_json parse t options dataset
           resolved_endpoint logs w).
Qed.

(** ** Fuzzy word matcher: the distance as a metric *)

Section LevMetric.
Import fuzzy_word_matcher.

Lemma edit_script_sym x y n : edit_script x y n -> edit_script y x n.
Proof. induction 1; constructor; assumption. Qed.

Lemma lev_sym x y : lev x y = lev y x.
Proof. apply Nat.le_antisymm; apply lev_least, edit_script_sym, lev_script. Qed.

Lemma edit_script_zero x y n : edit_script x y n -> n = 0%nat -> x = y.
Proof.
  induction 1 as [|c x y n _ IH| | |]; intros Hn; try discriminate.
  - reflexivity.
  - f_equal. auto.
Qed.

Lemma edit_script_lengths x y n :
  edit_script x y n ->
  (length x <= length y + n)%nat /\ (length y <= length x + n)%nat.
Proof. induction 1; simpl; lia. Qed.

Lemma lev_upper x : forall y, (lev x y <= Nat.max (length x) (length y))%nat.
Proof.
  induction x as [|c x IH]; intros y.
  - rewrite lev_nil_l. lia.
  - destruct y as [|e y].
    + rewrite lev_nil_r. lia.
    + rewrite lev_cons. specialize (IH y). cbn [length]. destruct (N.eqb c e); lia.
Qed.

(** Scripts compose: the edits of the first followed by those of the
    second, with edits on a character that the first inserted and the
    second removes merged or dropped. *)
Lemma edit_script_trans x y n :
  edit_script x y n ->
  forall z m, edit_script y z m -> exists k, (k <= n + m)%nat /\ edit_script x z k.
Proof.
  induction 1 as [|c x y n _ IH|c e x y n _ IH|c x y n _ IH|e x y n _ IH]; intros z m Hz.
  - exists m. split; [lia|assumption].
  - remember (c :: y) as y0 eqn:Ey. revert Ey.
    induction Hz as [|c' y' z m Hz _|c' e' y' z m Hz _|c' y' z m Hz _|e' y' z m _ IHz];
      intros Ey; try discriminate.
    + injection Ey as -> ->. destruct (IH _ _ Hz) as (k & Hk & Hs).
      exists k. split; [lia|apply es_keep, Hs].
    + injection Ey as -> ->. destruct (IH _ _ Hz) as (k & Hk & Hs).
      exists (S k). split; [lia|apply es_subst, Hs].
    + injection Ey as -> ->. destruct (IH _ _ Hz) as (k & Hk & Hs).
      exists (S k). split; [lia|apply es_delete, Hs].
    + destruct (IHz Ey) as (k & Hk & Hs).
      exists (S k). split; [lia|apply es_insert, Hs].
  - remember (e :: y) as y0 eqn:Ey. revert Ey.
    induction Hz as [|c' y' z m Hz _|c' e' y' z m Hz _|c' y' z m Hz _|e' y' z m _ IHz];
      intros Ey; try discriminate.
    + injection Ey as -> ->. destruct (IH _ _ Hz) as (k & Hk & Hs).
      exists (S k). split; [lia|apply es_subst, Hs].
    + injection Ey as -> ->. destruct (IH _ _ Hz) as (k & Hk & Hs).
      exists (S k). split; [lia|apply es_subst, Hs].
    + injection Ey as -> ->. destruct (IH _ _ Hz) as (k & Hk & Hs).
      exists (S k). split; [lia|apply es_delete, Hs].
    + destruct (IHz Ey) as (k & Hk & Hs).
      exists (S k). split; [lia|apply es_insert, Hs].
  - destruct (IH _ _ Hz) as (k & Hk & Hs).
    exists (S k). split; [lia|apply es_delete, Hs].
  - remember (e :: y) as y0 eqn:Ey. revert Ey.
    induction Hz as [|c' y' z m Hz _|c' e' y' z m Hz _|c' y' z m Hz _|e' y' z m _ IHz];
      intros Ey; try discriminate.
    + injection Ey as -> ->. destruct (IH _ _ Hz) as (k & Hk & Hs).
      exists (S k). split; [lia|apply es_insert, Hs].
    + injection Ey as -> ->. destruct (IH _ _ Hz) as (k & Hk & Hs).
      exists (S k). split; [lia|apply es_insert, Hs].
    + injection Ey as -> ->. destruct (IH _ _ Hz) as (k & Hk & Hs).
      exists k. split; [lia|exact Hs].
    + destruct (IHz Ey) as (k & Hk & Hs).
      exists (S k). split; [lia|apply es_insert, Hs].
Qed.

Lemma lev_triangle x y z : (lev x z <= lev x y + lev y z)%nat.
Proof.
  destruct (edit_script_trans _ _ _ (lev_script x y) _ _ (lev_script y z)) as (k & Hk & Hs).
  apply lev_least in Hs. lia.
Qed.

Lemma lev_zero x y : lev x y = 0%nat -> x = y.
Proof. intros H. exact (edit_script_zero _ _ _ (lev_script x y) H). Qed.

Lemma lev_lengths x y :
  (length x <= length y + lev x y)%nat /\ (length y <= length x + lev x y)%nat.
Proof. exact (edit_script_lengths _ _ _ (lev_script x y)). Qed.

End LevMetric.

(** X10. [levenshtein] is a metric on strings: never negative, zero
    exactly on equal strings, symmetric, and it obeys the triangle
    inequality. *)
Theorem levenshtein_is_a_metric :
  forall a b c,
    0 <= fuzzy_word_matcher.levenshtein a b /\
    (fuzzy_word_matcher.levenshtein a b = 0 <-> a = b) /\
    fuzzy_word_matcher.levenshtein a b = fuzzy_word_matcher.levenshtein b a /\
    fuzzy_word_matcher.levenshtein a c
      <= fuzzy_word_matcher.levenshtein a b + fuzzy_word_matcher.levenshtein b c.
Proof.
  intros a b c. rewrite !levenshtein_lev. repeat split.
  - lia.
  - intros H. apply lev_zero. lia.
  - intros ->. rewrite lev_refl. reflexivity.
  - rewrite (lev_sym a b). reflexivity.
  - pose proof (lev_triangle a b c). lia.
Qed.

(** X11. The distance lies between the difference of the two lengths and
    the greater length. *)
Theorem levenshtein_between_length_difference_and_longer_length :
  forall a b,
    Z.abs (len a - len b) <= fuzzy_word_matcher.levenshtein a b
      <= Z.max (len a) (len b).
Proof.
  intros a b. rewrite levenshtein_lev. unfold len.
  pose proof (lev_lengths a b). pose proof (lev_upper a b). lia.
Qed.

(** X12. [matches] does not depend on the order of its two arguments, and
    every string matches itself, whatever [str.lower] does. *)
Theorem matches_symmetric_and_reflexive :
  forall lower a b,
    fuzzy_word_matcher.matches lower a b = fuzzy_word_matcher.matches lower b a /\
    fuzzy_word_matcher.matches lower a a = true.
Proof.
  intros lower a b. split.
  - unfold fuzzy_word_matcher.matches.
    set (na := fuzzy_word_matcher.normalize lower a).
    set (nb := fuzzy_word_matcher.normalize lower b).
    repeat case_bool_decide; try congruence.
    replace (len nb - len na) with (- (len na - len nb)) by lia.
    rewrite Z.abs_opp, !levenshtein_lev, (lev_sym na nb). reflexivity.
  - unfold fuzzy_word_matcher.matches. rewrite bool_decide_eq_true_2; reflexivity.
Qed.

(** X13. The length shortcut of [matches] never changes the answer: the
    result is that of the three tests equal, equal once normalised, and
    distance at most two. *)
Theorem matches_length_shortcut_is_sound :
  forall lower a b,
    fuzzy_word_matcher.matches lower a b =
      bool_decide (a = b)
      || bool_decide (fuzzy_word_matcher.normalize lower a
                      = fuzzy_word_matcher.normalize lower b)
      || (fuzzy_word_matcher.levenshtein (fuzzy_word_matcher.normalize lower a)
            (fuzzy_word_matcher.normalize lower b) <=? 2).
Proof.
  intros lower a b. unfold fuzzy_word_matcher.matches.
  set (na := fuzzy_word_matcher.normalize lower a).
  set (nb := fuzzy_word_matcher.normalize lower b).
  repeat case_bool_decide; try reflexivity.
  unfold fuzzy_word_matcher.MAX_EDIT_DISTANCE. cbn [orb].
  destruct (2 <? Z.abs (len na - len nb)) eqn:Hlen; [|reflexivity].
  apply Z.ltb_lt in Hlen. symmetry. apply Z.leb_gt.
  rewrite levenshtein_lev. unfold len in Hlen.
  pose proof (lev_lengths na nb). lia.
Qed.

(** ** Batch size adapter: the window of outcomes *)

Section AdapterWindow.
Import BatchSizeAdapter.

(** Whether [record_outcome] counts a ratio as a success. *)
Let success_of (r : pyfloat) : bool := Qleb (9 # 10) (normalized r).

Lemma popleft_while_drop w l :
  0 <= w -> popleft_while w l = drop (length l - Z.to_nat w) l.
Proof.
  intros Hw. induction l as [|x l IH]; [reflexivity|].
  cbn [popleft_while]. destruct (w <? Z.of_nat (length (x :: l))) eqn:E.
  - apply Z.ltb_lt in E. cbn [length] in *.
    replace (S (length l) - Z.to_nat w)%nat with (S (length l - Z.to_nat w)) by lia.
    rewrite IH. reflexivity.
  - apply Z.ltb_ge in E. cbn [length] in *.
    replace (S (length l) - Z.to_nat w)%nat with 0%nat by lia. reflexivity.
Qed.

Lemma window_slides {A} (w : nat) (h : list A) s :
  (1 <= w)%nat ->
  drop (length (drop (length h - w) h ++ [s]) - w) (drop (length h - w) h ++ [s])
  = drop (length (h ++ [s]) - w) (h ++ [s]).
Proof.
  intros Hw. rewrite !length_app, length_drop. cbn [length].
  destruct (decide (length h <= w)%nat) as [Hle|Hgt].
  - replace (length h - w)%nat with 0%nat by lia. rewrite drop_0, Nat.sub_0_r. reflexivity.
  - replace (length h - (length h - w) + 1 - w)%nat with 1%nat by lia.
    replace (length h + 1 - w)%nat with (length h - w + 1)%nat by lia.
    rewrite !drop_app_le by (rewrite ?length_drop; lia).
    rewrite drop_drop. reflexivity.
Qed.

Lemma record_outcome_outcomes a r :
  outcomes (record_outcome a r)
  = popleft_while (window_size a) (outcomes a ++ [success_of r]).
Proof.
  unfold record_outcome.
  destruct (adjust_size_params
    (mk (initial_size a) (min_size a) (window_size a) (current_size a)
        (popleft_while (window_size a)
           (outcomes a ++ [Qleb (9 # 10) (normalized r)])))) as (_ & _ & _ & ->).
  reflexivity.
Qed.

Lemma record_outcome_window a r : window_size (record_outcome a r) = window_size a.
Proof.
  unfold record_outcome.
  destruct (adjust_size_params
    (mk (initial_size a) (min_size a) (window_size a) (current_size a)
        (popleft_while (window_size a)
           (outcomes a ++ [Qleb (9 # 10) (normalized r)])))) as (_ & _ & -> & _).
  reflexivity.
Qed.

(** The deque after a history of ratios, from an empty deque. *)
Lemma fold_record_outcomes outs : forall a,
  1 <= window_size a -> outcomes a = [] ->
  let a' := fold_left record_outcome outs a in
  window_size a' = window_size a /\
  outcomes a' = drop (length outs - Z.to_nat (window_size a)) (map success_of outs).
Proof.
  induction outs as [|r outs IH] using rev_ind; intros a Hw Hempty.
  - cbn. rewrite Hempty. auto.
  - cbv zeta. rewrite fold_left_app. cbn [fold_left].
    destruct (IH a Hw Hempty) as (Ew & Eo).
    rewrite record_outcome_window, record_outcome_outcomes, Ew. split; [reflexivity|].
    rewrite popleft_while_drop by lia. rewrite Eo, map_app. cbn [map].
    assert (length outs = length (map success_of outs)) as Hlen
      by (rewrite length_map; reflexivity).
    assert (length (outs ++ [r]) = length (map success_of outs ++ [success_of r])) as ->
      by (rewrite !length_app, length_map; reflexivity).
    rewrite Hlen. generalize (map success_of outs). intros h.
    apply window_slides. lia.
Qed.

Lemma init_fresh i m w a :
  __init__ i m w = Ok a ->
  1 <= w /\ window_size a = w /\ outcomes a = [] /\ current_size a = i.
Proof.
  unfold __init__.
  destruct (i <? m) eqn:E1; [discriminate|].
  destruct (m <? 1) eqn:E2; [discriminate|].
  destruct (w <? 1) eqn:E3; [discriminate|].
  apply Z.ltb_ge in E3. intros [= <-]; simpl. repeat split; try reflexivity; lia.
Qed.

Lemma successes_all_true l :
  Forall (fun ok => ok = true) l -> successes l = Z.of_nat (length l).
Proof.
  intros H. unfold successes. f_equal. induction H as [|x l -> _ IH]; [reflexivity|].
  rewrite filter_cons_True by reflexivity. cbn [length]. rewrite IH. reflexivity.
Qed.

Lemma successes_all_false l :
  Forall (fun ok => ok = false) l -> successes l = 0.
Proof.
  intros H. unfold successes. induction H as [|x l -> _ IH]; [reflexivity|].
  rewrite filter_cons_False by discriminate. exact IH.
Qed.

Lemma success_rate_all_true a :
  Forall (fun ok => ok = true) (outcomes a) ->
  Qltb (success_rate a) (1 # 2) = false /\ Qltb (9 # 10) (success_rate a) = true.
Proof.
  intros H. unfold success_rate. destruct (outcomes a) as [|x l] eqn:E; [split; reflexivity|].
  rewrite successes_all_true by exact H. unfold Qltb. cbn [Qnum Qden length].
  rewrite Z2Pos.id by lia. split; [apply Z.ltb_ge|apply Z.ltb_lt]; lia.
Qed.

Lemma success_rate_all_false a :
  outcomes a <> [] -> Forall (fun ok => ok = false) (outcomes a) ->
  Qltb (success_rate a) (1 # 2) = true.
Proof.
  intros Hne H. unfold success_rate. destruct (outcomes a) as [|x l] eqn:E; [congruence|].
  rewrite successes_all_false by exact H. unfold Qltb. cbn [Qnum Qden]. reflexivity.
Qed.

Lemma Forall_drop_map {A B} (P : B -> Prop) (f : A -> B) n l :
  Forall (fun x => P (f x)) l -> Forall P (drop n (map f l)).
Proof.
  intros H. apply Forall_drop. apply Forall_map. exact H.
Qed.

(** One more success after a history of successes: the size does not
    shrink and is capped by the initial size. *)
Lemma record_success_run outs r a0 :
  1 <= window_size a0 -> outcomes a0 = [] ->
  Forall (fun x => success_of x = true) (outs ++ [r]) ->
  let a := fold_left record_outcome outs a0 in
  current_size (record_outcome a r)
  = Z.min (initial_size a) (current_size a * 3 / 2).
Proof.
  intros Hw He Hall a.
  pose proof (fold_record_outcomes (outs ++ [r]) a0 Hw He) as (_ & Ho).
  rewrite fold_left_app in Ho. cbn [fold_left] in Ho. fold a in Ho.
  rewrite record_outcome_step. unfold stepped_size.
  destruct (success_rate_all_true (record_outcome a r)) as (-> & ->); [|reflexivity].
  rewrite Ho. apply Forall_drop_map. exact Hall.
Qed.

Lemma record_failure_run outs r a0 :
  1 <= window_size a0 -> outcomes a0 = [] ->
  Forall (fun x => success_of x = false) (outs ++ [r]) ->
  let a := fold_left record_outcome outs a0 in
  current_size (record_outcome a r)
  = Z.max (min_size a) (current_size a * 2 / 3).
Proof.
  intros Hw He Hall a.
  pose proof (fold_record_outcomes (outs ++ [r]) a0 Hw He) as (_ & Ho).
  rewrite fold_left_app in Ho. cbn [fold_left] in Ho. fold a in Ho.
  rewrite record_outcome_step. unfold stepped_size.
  rewrite success_rate_all_false; [reflexivity| |].
  - rewrite Ho. intros Hnil. apply (f_equal length) in Hnil.
    rewrite length_drop, length_map, length_app in Hnil. cbn [length] in Hnil. lia.
  - rewrite Ho. apply Forall_drop_map. exact Hall.
Qed.

End AdapterWindow.

(** X14. The deque of a constructed adapter always holds the most recent
    [window_size] outcomes, oldest first: after any history of ratios it
    is the tail of the history of success flags (ratio at least 0.9 once
    clamped to the unit interval; a NaN counts as a success), of length
    at most [window_size]. *)
Theorem adapter_window_keeps_latest_outcomes :
  forall initial_size min_size window_size a,
    BatchSizeAdapter.__init__ initial_size min_size window_size = Ok a ->
    forall (outs : list pyfloat),
      let a' := fold_left BatchSizeAdapter.record_outcome outs a in
      BatchSizeAdapter.outcomes a'
        = drop (length outs - Z.to_nat window_size)
            (map (fun r => Qleb (9 # 10) (BatchSizeAdapter.normalized r)) outs) /\
      len (BatchSizeAdapter.outcomes a') = Z.min (len outs) window_size.
Proof.
  intros i m w a Hinit outs a'.
  destruct (init_fresh _ _ _ _ Hinit) as (Hw & Ew & Ho & _).
  destruct (fold_record_outcomes outs a ltac:(lia) Ho) as (_ & E).
  fold a' in E. rewrite Ew in E. split; [exact E|].
  rewrite E. unfold len. rewrite length_drop, length_map. lia.
Qed.

Lemma adapter_window_keeps_latest_outcomes_witness :
  exists a,
    BatchSizeAdapter.__init__ 50 3 2 = Ok a /\
    BatchSizeAdapter.outcomes
      (fold_left BatchSizeAdapter.record_outcome [Num (1 # 10); Num 1; NaN] a)
    = [true; true].
Proof.
  eexists. split; [reflexivity|].
  exact (proj1 (adapter_window_keeps_latest_outcomes 50 3 2 _ eq_refl
                  [Num (1 # 10); Num 1; NaN])).
Defined.

(** X15. Uniform histories from a constructed adapter: while every
    recorded ratio is a success the recommended size stays at the initial
    size, and while every recorded ratio is a failure each record shrinks
    it to [max(min_size, size * 2 // 3)], so the size after [n] failures
    is that step iterated [n] times from the initial size. *)
Theorem adapter_under_uniform_outcomes :
  forall initial_size min_size window_size a,
    BatchSizeAdapter.__init__ initial_size min_size window_size = Ok a ->
    forall (outs : list pyfloat),
      let a' := fold_left BatchSizeAdapter.record_outcome outs a in
      (Forall (fun r => Qleb (9 # 10) (BatchSizeAdapter.normalized r) = true) outs ->
       BatchSizeAdapter.recommended_size a' = initial_size) /\
      (Forall (fun r => Qleb (9 # 10) (BatchSizeAdapter.normalized r) = false) outs ->
       BatchSizeAdapter.recommended_size a'
       = Nat.iter (length outs) (fun size => Z.max min_size (size * 2 / 3)) initial_size).
Proof.
  intros i m w a Hinit outs.
  destruct (init_fresh _ _ _ _ Hinit) as (Hw & Ew & Ho & Ec).
  destruct (init_wf _ _ _ _ Hinit) as (Hwf & Ei & Em).
  rewrite <- Ew in Hw. unfold BatchSizeAdapter.recommended_size.
  induction outs as [|r outs IH] using rev_ind; cbv zeta.
  - cbn. auto.
  - rewrite fold_left_app. cbn [fold_left].
    destruct (fold_record_wf outs a Hwf) as (Hb & Ei' & Em').
    cbv zeta in IH. destruct IH as (IHs & IHf). split; intros Hall.
    + rewrite (record_success_run outs r a Hw Ho Hall).
      rewrite IHs by (apply Forall_app in Hall; tauto).
      rewrite Ei', Ei.
      assert (i <= i * 3 / 2).
      { apply Z.div_le_lower_bound; [lia|]. destruct Hwf as (? & ? & ?). lia. }
      lia.
    + rewrite (record_failure_run outs r a Hw Ho Hall).
      rewrite IHf by (apply Forall_app in Hall; tauto).
      rewrite Em', Em, length_app. cbn [length].
      rewrite Nat.add_1_r. reflexivity.
Qed.

Lemma adapter_under_uniform_outcomes_witness :
  exists a,
    BatchSizeAdapter.__init__ 50 3 10 = Ok a /\
    BatchSizeAdapter.recommended_size
      (fold_left BatchSizeAdapter.record_outcome (replicate 5 (Num (1 # 10))) a) = 6 /\
    BatchSizeAdapter.recommended_size
      (fold_left BatchSizeAdapter.record_outcome (replicate 5 (Num 1)) a) = 50.
Proof.
  eexists. split; [reflexivity|]. split.
  - apply (proj2 (adapter_under_uniform_outcomes 50 3 10 _ eq_refl
                    (replicate 5 (Num (1 # 10))))).
    repeat constructor.
  - apply (proj1 (adapter_under_uniform_outcomes 50 3 10 _ eq_refl
                    (replicate 5 (Num 1)))).
    repeat constructor.
Defined.

(** ** JSON repair: what each pass does to the text *)

Section RepairPasses.
Import json_repair.
Variable isdigit : N -> bool.
Variable isspace : N -> bool.

Lemma sublist_rev {A} (l1 l2 : list A) : sublist l1 l2 -> sublist (rev l1) (rev l2).
Proof.
  induction 1 as [|x l1 l2 _ IH|x l1 l2 _ IH]; cbn [rev].
  - constructor.
  - apply sublist_app; [exact IH|reflexivity].
  - apply sublist_inserts_r. exact IH.
Qed.

Lemma pop_spaces_rev_sublist l : sublist (pop_spaces_rev l) l.
Proof.
  induction l as [|c l IH]; cbn [pop_spaces_rev]; [constructor|].
  destruct (N.eqb c SPACE); [apply sublist_cons, IH|reflexivity].
Qed.

Lemma pop_spaces_sublist out : sublist (pop_spaces out) out.
Proof.
  unfold pop_spaces. rewrite <- (rev_involutive out) at 2.
  apply sublist_rev, pop_spaces_rev_sublist.
Qed.

Lemma sublist_snoc_cons {A} (l out : list A) ch rest :
  sublist l ((out ++ [ch]) ++ rest) -> sublist l (out ++ ch :: rest).
Proof. rewrite <- app_assoc. exact id. Qed.

Lemma sublist_pass {A} (l out : list A) ch rest :
  sublist l (out ++ rest) -> sublist l (out ++ ch :: rest).
Proof.
  intros H. etransitivity; [exact H|].
  apply sublist_app; [reflexivity|apply sublist_cons; reflexivity].
Qed.

Lemma remove_line_comments_deletes text : forall in_string escaped skipping out,
  sublist (remove_line_comments_from in_string escaped skipping out text) (out ++ text).
Proof.
  induction text as [|ch rest IH]; intros in_string escaped skipping out.
  - cbn. rewrite app_nil_r. reflexivity.
  - cbn [remove_line_comments_from].
    destruct skipping.
    { destruct (N.eqb ch NEWLINE); [apply sublist_snoc_cons, IH|apply sublist_pass, IH]. }
    destruct in_string.
    { destruct (scan_string escaped ch). apply sublist_snoc_cons, IH. }
    destruct (N.eqb ch QUOTE); [apply sublist_snoc_cons, IH|].
    destruct (N.eqb ch SLASH && _).
    + apply sublist_pass. etransitivity; [apply IH|].
      apply sublist_app; [apply pop_spaces_sublist|reflexivity].
    + apply sublist_snoc_cons, IH.
Qed.

Lemma remove_trailing_commas_deletes text : forall in_string escaped pending_comma out,
  sublist (remove_trailing_commas_from isspace in_string escaped pending_comma out text)
          ((if pending_comma then out ++ [COMMA] else out) ++ text).
Proof.
  induction text as [|ch rest IH]; intros in_string escaped pending_comma out.
  - cbn. rewrite app_nil_r. reflexivity.
  - cbn [remove_trailing_commas_from].
    destruct in_string.
    { destruct (scan_string escaped ch). apply sublist_snoc_cons, (IH _ _ false). }
    destruct (N.eqb ch QUOTE); [apply sublist_snoc_cons, (IH _ _ false)|].
    destruct (N.eqb_spec ch COMMA) as [->|_].
    { etransitivity; [apply (IH _ _ true)|].
      destruct pending_comma.
      - rewrite <- !app_assoc. apply sublist_app; [reflexivity|].
        cbn. apply sublist_cons. reflexivity.
      - rewrite <- app_assoc. reflexivity. }
    destruct (N.eqb ch RBRACKET || N.eqb ch RBRACE).
    { etransitivity; [apply (IH _ _ false)|].
      destruct pending_comma.
      - rewrite <- !app_assoc. apply sublist_app; [reflexivity|].
        cbn. apply sublist_cons. reflexivity.
      - rewrite <- app_assoc. reflexivity. }
    destruct (isspace ch && pending_comma) eqn:E.
    { apply andb_true_iff in E as (_ & ->).
      apply sublist_pass. apply (IH _ _ true). }
    apply sublist_snoc_cons, (IH _ _ false).
Qed.

Lemma fix_trailing_decimal_points_inserts text : forall in_string escaped prev out,
  sublist (out ++ text)
          (fix_trailing_decimal_points_from isdigit in_string escaped prev out text).
Proof.
  induction text as [|ch rest IH]; intros in_string escaped prev out.
  - cbn. rewrite app_nil_r. reflexivity.
  - cbn [fix_trailing_decimal_points_from].
    assert (Hkeep : forall s e p,
      sublist (out ++ ch :: rest)
        (fix_trailing_decimal_points_from isdigit s e p (out ++ [ch]) rest)).
    { intros s e p. etransitivity; [|apply IH]. rewrite <- app_assoc. reflexivity. }
    destruct in_string.
    { destruct (scan_string escaped ch). apply Hkeep. }
    destruct (N.eqb ch QUOTE); [apply Hkeep|].
    destruct (N.eqb_spec ch DOT) as [->|_]; [|apply Hkeep].
    destruct (_ && _ && _); [|apply Hkeep].
    etransitivity; [|apply IH]. rewrite <- app_assoc.
    apply sublist_app; [reflexivity|]. cbn.
    apply sublist_skip, sublist_cons. reflexivity.
Qed.

Lemma top_snoc (l : pystr) c : top (l ++ [c]) = Some c.
Proof. unfold top. rewrite map_app. cbn [map]. apply last_last. Qed.

Lemma open_structures_app x : forall in_string escaped stack y,
  open_structures_from in_string escaped stack (x ++ y)
  = open_structures_from (scanner_state_from in_string escaped x).1
      (scanner_state_from in_string escaped x).2
      (open_structures_from in_string escaped stack x) y.
Proof.
  induction x as [|ch rest IH]; intros in_string escaped stack y; [reflexivity|].
  cbn [app open_structures_from scanner_state_from].
  destruct in_string.
  { unfold scan_string. destruct escaped; [apply IH|].
    destruct (N.eqb ch BACKSLASH); [apply IH|].
    destruct (N.eqb ch QUOTE); apply IH. }
  destruct (N.eqb ch QUOTE); [apply IH|].
  destruct (N.eqb ch LBRACE); [apply IH|].
  destruct (N.eqb ch LBRACKET); [apply IH|].
  destruct (N.eqb ch RBRACE && _); [apply IH|].
  destruct (N.eqb ch RBRACKET && _); apply IH.
Qed.

Lemma Forall_removelast {A} (P : A -> Prop) l : Forall P l -> Forall P (removelast l).
Proof.
  induction 1 as [|x l Hx Hl IH]; [constructor|].
  cbn [removelast]. destruct l; [constructor|]. constructor; assumption.
Qed.

Lemma open_structures_stack_ok x : forall in_string escaped stack,
  stack_ok in_string stack ->
  stack_ok (scanner_state_from in_string escaped x).1
           (open_structures_from in_string escaped stack x).
Proof.
  induction x as [|ch rest IH]; intros in_string escaped stack Hok; [exact Hok|].
  cbn [open_structures_from scanner_state_from].
  destruct in_string.
  { unfold scan_string. destruct escaped; [apply IH, Hok|].
    destruct (N.eqb ch BACKSLASH); [apply IH, Hok|].
    destruct (N.eqb ch QUOTE); [|apply IH, Hok].
    apply IH. destruct Hok as (base & Hbase & ->).
    rewrite top_snoc, bool_decide_eq_true_2 by reflexivity.
    rewrite removelast_last. exists base. auto. }
  destruct Hok as (base & Hbase & ->).
  destruct (N.eqb ch QUOTE); [apply IH; exists base; auto|].
  destruct (N.eqb ch LBRACE).
  { apply IH. exists (base ++ [LBRACE]). split; [|reflexivity].
    apply Forall_app. split; [exact Hbase|]. apply Forall_singleton. left. reflexivity. }
  destruct (N.eqb ch LBRACKET).
  { apply IH. exists (base ++ [LBRACKET]). split; [|reflexivity].
    apply Forall_app. split; [exact Hbase|]. apply Forall_singleton. right. reflexivity. }
  destruct (N.eqb ch RBRACE && _).
  { apply IH. exists (removelast base). split; [|reflexivity].
    apply Forall_removelast, Hbase. }
  destruct (N.eqb ch RBRACKET && _).
  { apply IH. exists (removelast base). split; [|reflexivity].
    apply Forall_removelast, Hbase. }
  apply IH. exists base. auto.
Qed.

(** Reading the closers of a stack of braces and brackets empties it. *)
Lemma closers_close base : forall escaped,
  Forall (fun c => c = LBRACE \/ c = LBRACKET) base ->
  open_structures_from false escaped base (map closers (rev base)) = [] /\
  scanner_state_from false escaped (map closers (rev base)) = (false, escaped).
Proof.
  induction base as [|c base IH] using rev_ind; intros escaped Hbase; [split; reflexivity|].
  apply Forall_app in Hbase as (Hbase & Hc). apply Forall_inv in Hc.
  rewrite rev_unit. cbn [map open_structures_from scanner_state_from].
  destruct Hc as [->| ->]; cbn -[open_structures_from scanner_state_from removelast top].
  - rewrite top_snoc, bool_decide_eq_true_2 by reflexivity.
    rewrite removelast_last. apply IH, Hbase.
  - rewrite top_snoc.
    rewrite bool_decide_eq_true_2 by reflexivity.
    rewrite removelast_last. apply IH, Hbase.
Qed.

Lemma closers_close_all in_string stack :
  stack_ok in_string stack ->
  open_structures_from in_string false stack (map closers (rev stack)) = [].
Proof.
  intros (base & Hbase & ->). destruct in_string.
  - rewrite rev_unit. cbn [map open_structures_from].
    change (closers QUOTE) with QUOTE.
    change (N.eqb QUOTE BACKSLASH) with false. change (N.eqb QUOTE QUOTE) with true.
    cbv iota. rewrite top_snoc, bool_decide_eq_true_2 by reflexivity.
    rewrite removelast_last. apply closers_close, Hbase.
  - apply closers_close, Hbase.
Qed.

Lemma scanner_state_not_in_string x : forall in_string escaped,
  (in_string = false -> escaped = false) ->
  (scanner_state_from in_string escaped x).1 = false ->
  (scanner_state_from in_string escaped x).2 = false.
Proof.
  induction x as [|ch rest IH]; intros in_string escaped Hinv; cbn [scanner_state_from].
  - cbn. exact Hinv.
  - destruct in_string.
    + unfold scan_string. destruct escaped; [apply IH; discriminate|].
      destruct (N.eqb ch BACKSLASH); [apply IH; discriminate|].
      destruct (N.eqb ch QUOTE); apply IH; auto; discriminate.
    + rewrite (Hinv eq_refl). destruct (N.eqb ch QUOTE); apply IH; auto; discriminate.
Qed.

Lemma close_unclosed_balanced text :
  ends_after_backslash text = false ->
  open_structures_from false false [] (_close_unclosed_structures text) = [].
Proof.
  unfold ends_after_backslash, _close_unclosed_structures. intros Hend.
  rewrite open_structures_app.
  assert (stack_ok false []) as Hnil by (exists []; split; [constructor|reflexivity]).
  pose proof (open_structures_stack_ok text false false [] Hnil) as Hok.
  pose proof (scanner_state_not_in_string text false false (fun _ => eq_refl)) as Hout.
  destruct (scanner_state_from false false text) as [in_string escaped].
  cbn [fst snd] in *.
  assert (escaped = false) as ->.
  { destruct in_string; [destruct escaped; [discriminate|reflexivity]|auto]. }
  apply closers_close_all, Hok.
Qed.

End RepairPasses.

(** X16. Unless the text ends right after a backslash inside a string
    literal, [_close_unclosed_structures] leaves nothing open: the scan of
    its result ends with an empty stack, so closing a second time changes
    nothing. *)
Theorem close_unclosed_structures_balances :
  forall text,
    json_repair.ends_after_backslash text = false ->
    json_repair.open_structures_from false false []
      (json_repair._close_unclosed_structures text) = [] /\
    json_repair._close_unclosed_structures (json_repair._close_unclosed_structures text)
      = json_repair._close_unclosed_structures text.
Proof.
  intros text Hend. pose proof (close_unclosed_balanced text Hend) as H.
  split; [exact H|].
  unfold json_repair._close_unclosed_structures at 1.
  rewrite H. cbn. apply app_nil_r.
Qed.

Lemma close_unclosed_structures_balances_witness :
  let text := str "{" ++ [json_repair.QUOTE] ++ str "a" ++ [json_repair.QUOTE]
              ++ str ":[1,{" ++ [json_repair.QUOTE] ++ str "b" in
  json_repair._close_unclosed_structures text
    = text ++ [json_repair.QUOTE] ++ str "}]}" /\
  json_repair._close_unclosed_structures (json_repair._close_unclosed_structures text)
    = json_repair._close_unclosed_structures text.
Proof.
  intros text. split; [vm_compute; reflexivity|].
  apply (close_unclosed_structures_balances text).
  vm_compute. reflexivity.
Defined.

(** X17. The passes of [repair] either only delete or only insert: the
    results of [_remove_line_comments] and [_remove_trailing_commas] are
    what is left of the text when some characters are deleted, the text
    is what is left of the result of [_fix_trailing_decimal_points] when
    the inserted zeros are deleted, and [_close_unclosed_structures] only
    appends. *)
Theorem repair_passes_only_delete_or_only_insert :
  forall isdigit isspace text,
    sublist (json_repair._remove_line_comments text) text /\
    sublist (json_repair._remove_trailing_commas isspace text) text /\
    sublist text (json_repair._fix_trailing_decimal_points isdigit text) /\
    text `prefix_of` json_repair._close_unclosed_structures text.
Proof.
  intros isdigit isspace text. repeat split.
  - exact (remove_line_comments_deletes text false false false []).
  - exact (remove_trailing_commas_deletes isspace text false false false []).
  - exact (fix_trailing_decimal_points_inserts isdigit text false false None []).
  - unfold json_repair._close_unclosed_structures. apply prefix_app_r. reflexivity.
Qed.

(** ** Transitions: the overlap check *)

Section TransitionSet.
Import transitions.

Lemma elem_of_snoc {A} (l : list A) (x y : A) : y ∈ l ++ [x] <-> y ∈ l \/ y = x.
Proof. rewrite elem_of_app, list_elem_of_singleton. reflexivity. Qed.

Lemma note_level_ok idx level done st :
  scan_ok done st -> scan_ok (done ++ [(idx, level)]) (note_level idx st level).
Proof.
  destruct st as [seen duplicates]. intros (Hseen & Hnone & Hdup).
  cbn [fst snd] in *. unfold note_level, scan_ok. cbn [fst snd].
  split; [|split].
  - intros l k. rewrite elem_of_snoc. destruct (decide (l = level)) as [->|Hne].
    + rewrite lookup_insert_eq. intros [= <-]. right. reflexivity.
    + rewrite lookup_insert_ne by congruence. intros H. left. exact (Hseen _ _ H).
  - intros l. destruct (decide (l = level)) as [->|Hne].
    + rewrite lookup_insert_eq. discriminate.
    + rewrite lookup_insert_ne by congruence. intros H i Hin.
      apply elem_of_snoc in Hin as [Hin|Hin]; [exact (Hnone l H i Hin)|congruence].
  - intros l. destruct (decide (l = level)) as [->|Hne].
    + destruct (seen !! level) as [k|] eqn:Hk.
      * case_bool_decide as Hki.
        -- split; [intros _|intros _; apply elem_of_union_r, elem_of_singleton; reflexivity].
           exists k, idx. split; [exact Hki|]. apply Hseen in Hk.
           rewrite !elem_of_snoc. auto.
        -- assert (k = idx) as -> by (destruct (decide (k = idx)); [assumption|contradiction]).
           apply Hseen in Hk. rewrite Hdup. split.
           ++ intros (i & j & Hij & Hi & Hj). exists i, j. rewrite !elem_of_snoc. auto.
           ++ intros (i & j & Hij & Hi & Hj).
              apply elem_of_snoc in Hi as [Hi|Hi], Hj as [Hj|Hj].
              ** exists i, j. auto.
              ** injection Hj as ->. exists i, idx. auto.
              ** injection Hi as ->. exists idx, j. auto.
              ** congruence.
      * rewrite Hdup. split.
        -- intros (i & j & Hij & Hi & Hj). exists i, j. rewrite !elem_of_snoc. auto.
        -- intros (i & j & Hij & Hi & Hj).
           apply elem_of_snoc in Hi as [Hi|Hi]; [destruct (Hnone level Hk i Hi)|].
           apply elem_of_snoc in Hj as [Hj|Hj]; [destruct (Hnone level Hk j Hj)|].
           congruence.
    + assert (Hsame : l ∈ (match seen !! level with
                           | Some other =>
                               if bool_decide (other <> idx) then duplicates ∪ {[level]}
                               else duplicates
                           | None => duplicates
                           end) <-> l ∈ duplicates).
      { destruct (seen !! level); [case_bool_decide|]; try reflexivity.
        rewrite elem_of_union, elem_of_singleton. tauto. }
      rewrite Hsame, Hdup. split.
      * intros (i & j & Hij & Hi & Hj). exists i, j. rewrite !elem_of_snoc. auto.
      * intros (i & j & Hij & Hi & Hj). exists i, j. split; [exact Hij|].
        apply elem_of_snoc in Hi as [Hi|Hi], Hj as [Hj|Hj]; try congruence. auto.
Qed.

Lemma note_levels_ok idx levels : forall done st,
  scan_ok done st ->
  scan_ok (done ++ map (pair idx) levels) (fold_left (note_level idx) levels st).
Proof.
  induction levels as [|level levels IH]; intros done st Hok; cbn [map fold_left].
  - rewrite app_nil_r. exact Hok.
  - rewrite cons_middle, app_assoc. apply IH, note_level_ok, Hok.
Qed.

Lemma scan_items_ok items : forall done st,
  scan_ok done st ->
  scan_ok (done ++ listed_levels items)
    (fold_left (fun st it => fold_left (note_level (fst it)) (source_levels (snd it)) st)
               items st).
Proof.
  induction items as [|it items IH]; intros done st Hok; cbn [listed_levels flat_map fold_left].
  - rewrite app_nil_r. exact Hok.
  - rewrite app_assoc. apply IH, note_levels_ok, Hok.
Qed.

Lemma enumerate_lookup {A} (l : list A) : forall start i x,
  (i, x) ∈ enumerate start l <-> (start <= i)%nat /\ l !! (i - start)%nat = Some x.
Proof.
  induction l as [|a l IH]; intros start i x.
  - unfold enumerate. cbn. split; [intros H; inversion H|intros (_ & H); discriminate].
  - rewrite enumerate_cons, elem_of_cons, IH. split.
    + intros [[= -> ->]|(Hle & Hl)].
      * split; [lia|]. rewrite Nat.sub_diag. reflexivity.
      * split; [lia|]. replace (i - start)%nat with (S (i - S start)) by lia. exact Hl.
    + intros (Hle & Hl). destruct (decide (i = start)) as [->|Hne].
      * left. rewrite Nat.sub_diag in Hl. cbn in Hl. congruence.
      * right. split; [lia|].
        replace (i - start)%nat with (S (i - S start)) in Hl by lia. exact Hl.
Qed.

Lemma listed_levels_elem (ts : list LevelTransition) i level :
  (i, level) ∈ listed_levels (enumerate 0 ts) <->
  exists t, ts !! i = Some t /\ level ∈ source_levels t.
Proof.
  unfold listed_levels. rewrite list_elem_of_In, in_flat_map. split.
  - intros ([k t] & Hit & Hin). cbn [fst snd] in Hin.
    rewrite <- list_elem_of_In in Hin. rewrite <- list_elem_of_In in Hit.
    apply list_elem_of_fmap in Hin as (l & [= -> ->] & Hl).
    apply enumerate_lookup in Hit as (_ & Hit).
    rewrite Nat.sub_0_r in Hit. eauto.
  - intros (t & Hit & Hl). exists (i, t). split; rewrite <- list_elem_of_In.
    + apply enumerate_lookup. rewrite Nat.sub_0_r. split; [lia|exact Hit].
    + cbn [fst snd]. apply list_elem_of_fmap. eauto.
Qed.

Lemma scan_transitions_ok ts : scan_ok (listed_levels (enumerate 0 ts)) (scan_transitions ts).
Proof.
  unfold scan_transitions.
  change (listed_levels (enumerate 0 ts)) with ([] ++ listed_levels (enumerate 0 ts)).
  apply scan_items_ok. unfold scan_ok. cbn [fst snd]. split; [|split].
  - intros level k H. rewrite lookup_empty in H. discriminate.
  - intros level _ i H. inversion H.
  - intros level. split.
    + intros H. apply elem_of_empty in H. destruct H.
    + intros (i & j & _ & H & _). inversion H.
Qed.

End TransitionSet.

(** X18. [validate_transition_set] accepts exactly the non-empty lists in
    which no level is a source level of two different transitions, and
    rejects every other list with a [ValueError].  A level listed twice by
    one transition is no overlap. *)
Theorem transition_set_accepted_iff_sources_disjoint :
  forall ts,
    (transitions.validate_transition_set ts = Ok tt <->
     ts <> [] /\
     forall i j ti tj level,
       ts !! i = Some ti -> ts !! j = Some tj -> i <> j ->
       level ∈ transitions.source_levels ti -> level ∉ transitions.source_levels tj) /\
    (transitions.validate_transition_set ts = Ok tt \/
     exists msg, transitions.validate_transition_set ts = Raise (ValueError msg)).
Proof.
  intros ts. pose proof (scan_transitions_ok ts) as (_ & _ & Hdup).
  destruct ts as [|t0 ts'].
  { split; [|right; eexists; reflexivity].
    split; [discriminate|intros (H & _); congruence]. }
  unfold transitions.validate_transition_set.
  set (ts := t0 :: ts') in *.
  destruct (transitions.scan_transitions ts) as [seen duplicates]. cbn [snd] in Hdup.
  case_bool_decide as Hempty.
  - split; [|left; reflexivity]. split; [intros _|reflexivity].
    split; [discriminate|].
    intros i j ti tj level Hi Hj Hij Hin Hin'.
    assert (level ∈ duplicates) as Hd.
    { apply Hdup. exists i, j. split; [exact Hij|].
      split; apply listed_levels_elem; eauto. }
    rewrite Hempty in Hd. apply elem_of_empty in Hd. exact Hd.
  - split; [|right; eexists; reflexivity].
    split; [discriminate|]. intros (_ & Hdisj). exfalso.
    apply Hempty. apply set_eq. intros level. split.
    + intros Hin. apply Hdup in Hin as (i & j & Hij & Hi & Hj).
      apply listed_levels_elem in Hi as (ti & Hi & Hli).
      apply listed_levels_elem in Hj as (tj & Hj & Hlj).
      destruct (Hdisj i j ti tj level Hi Hj Hij Hli Hlj).
    + intros H. apply elem_of_empty in H. destruct H.
Qed.

(** ** Resuming: the checkpoints replay the transition *)

(** Two unions of the same sets. *)
Ltac union_equal :=
  try reflexivity;
  apply set_eq; intros ?; rewrite ?elem_of_union, ?elem_of_singleton; tauto.

Section Replay.
Import transitions step5_rebalance.
Variable py : builtins.
Variable dataset : RebalanceDataset.

(** An id that [_restore_from_checkpoint] takes up. *)
Let known (id : Z) : Prop := 0 < id /\ is_Some (Dict.get (words_by_id dataset) id).

Let entry (ev : SwitchedWordEvent) : Z * Z * pystr :=
  (ev_word_id ev, next_level ev, rule ev).

Let entry_node (e : Z * Z * pystr) : json :=
  let '(word_id, new_level, rule) := e in
  JDict [(str "word_id", JInt word_id); (str "new_level", JInt new_level);
         (str "rule", JStr rule)].

Lemma set_level_same (d : RarityDistribution.t) n :
  length d = 6%nat -> 1 <= n <= 5 -> 0 < RarityDistribution.count d n ->
  RarityDistribution.set_level d (Some n) n = d.
Proof.
  intros Hlen Hn Hpos. unfold RarityDistribution.set_level.
  destruct (Z.leb_spec 1 n), (Z.leb_spec n 5); try lia.
  destruct (Z.ltb_spec 0 (RarityDistribution.count d n)); try lia. cbn [andb].
  unfold RarityDistribution.add_at at 1.
  rewrite count_add_at by lia. rewrite Z.eqb_refl.
  unfold RarityDistribution.add_at.
  rewrite (list_insert_insert_eq (d : list Z)).
  apply (list_insert_id (d : list Z)).
  unfold RarityDistribution.count. rewrite nth_lookup.
  destruct (lookup_lt_is_Some_2 (d : list Z) (Z.to_nat n)) as [x Hx]; [lia|].
  rewrite Hx. cbn [default]. unfold id. f_equal. lia.
Qed.

Lemma census_pos (levels : gmap Z Z) k l : levels !! k = Some l -> 0 < census levels l.
Proof.
  intros Hk. unfold census.
  assert (size (filter (fun kv : Z * Z => snd kv = l) levels) <> 0%nat); [|lia].
  intros Hzero. apply map_size_empty_inv in Hzero.
  assert (filter (fun kv : Z * Z => snd kv = l) levels !! k = Some l) as Hin.
  { apply map_lookup_filter_Some. split; [exact Hk|reflexivity]. }
  rewrite Hzero, lookup_empty in Hin. discriminate.
Qed.

Lemma restore_processed_fold ids : forall runtime n,
  NoDup ids ->
  Forall (fun id => known id /\ id ∉ processed_word_ids runtime) ids ->
  fold_left (restore_processed py dataset) (map JInt ids) (runtime, n)
  = (mkRuntime (levels_by_id runtime) (distribution runtime) (rebalance_rules runtime)
       (list_to_set ids ∪ processed_word_ids runtime),
     n + len ids).
Proof.
  induction ids as [|id ids IH]; intros runtime n Hnd Hall; cbn [map fold_left].
  - cbn [list_to_set]. rewrite union_empty_l_L. unfold len. cbn [length].
    rewrite Z.add_0_r. destruct runtime; reflexivity.
  - apply NoDup_cons in Hnd as [Hid Hnd].
    apply Forall_cons in Hall as [[[Hpos Hin] Hnew] Hall].
    unfold restore_processed at 2. cbn [int_of_json].
    destruct (Z.ltb_spec 0 id); [|lia].
    rewrite (bool_decide_eq_true_2 _ Hin), (bool_decide_eq_false_2 _ Hnew). cbn [andb negb].
    rewrite IH; [|exact Hnd|].
    + cbn [levels_by_id distribution rebalance_rules processed_word_ids list_to_set].
      f_equal; [f_equal; union_equal|]. unfold len. cbn [length]. lia.
    + cbn [processed_word_ids]. apply Forall_forall. intros y Hy.
      rewrite Forall_forall in Hall. destruct (Hall y Hy) as [Hk Hn]. split; [exact Hk|].
      intros Hu. apply elem_of_union in Hu as [Hu|Hu]; [|exact (Hn Hu)].
      apply elem_of_singleton in Hu. subst y. exact (Hid Hy).
Qed.

Lemma entry_fields a b c :
  let fields := [(str "word_id", a); (str "new_level", b); (str "rule", c)] in
  fields_find fields (str "word_id") = Some a /\
  fields_find fields (str "new_level") = Some b /\
  fields_find fields (str "rule") = Some c.
Proof. repeat split; reflexivity. Qed.

Lemma restore_switched_entry runtime (applied : gset Z) m id level rule :
  known id -> in_1_5 level = true -> rule <> [] -> id ∉ applied ->
  restore_switched py dataset (runtime, applied, m) (entry_node (id, level, rule))
  = (mkRuntime (<[id := level]> (levels_by_id runtime))
       (RarityDistribution.set_level (distribution runtime) (levels_by_id runtime !! id) level)
       (<[id := rule]> (rebalance_rules runtime))
       (processed_word_ids runtime),
     {[ id ]} ∪ applied, m + 1).
Proof.
  intros [Hpos Hin] Hlevel Hrule Hnew.
  unfold restore_switched, entry_node.
  destruct (entry_fields (JInt id) (JInt level) (JStr rule)) as (-> & -> & ->).
  cbn [int_of_json]. rewrite Hlevel.
  destruct (Z.leb_spec id 0); [lia|]. cbn [orb negb].
  rewrite (bool_decide_eq_true_2 _ Hin), (bool_decide_eq_false_2 _ Hnew). cbn [orb negb].
  destruct rule; [congruence|reflexivity].
Qed.

Lemma rule_nonempty (a b : pystr) : a ++ str "->" ++ b <> [].
Proof. destruct a; [|discriminate]. change (str "->") with [45; 62]%N. discriminate. Qed.

(** The assignments of a batch, replayed from the entries of its
    checkpoint: [P] is the set of processed ids that the replay has. *)
Lemma assign_replay t common_level rare_level (selected : gset Z) batch :
  in_1_5 common_level = true -> in_1_5 rare_level = true ->
  forall (r : RebalanceRuntime) ev0 (applied : gset Z) m P,
    distribution_in_sync r ->
    NoDup (map word_id batch) ->
    Forall (fun x => known (word_id x) /\ word_id x ∉ applied) batch ->
    exists new,
      snd (fold_left (assign_word t common_level rare_level selected) batch (r, ev0))
      = ev0 ++ new /\
      (let r' := fst (fold_left (assign_word t common_level rare_level selected) batch
                        (r, ev0)) in
       fold_left (restore_switched py dataset) (map (fun ev => entry_node (entry ev)) new)
         (mkRuntime (levels_by_id r) (distribution r) (rebalance_rules r) P, applied, m)
       = (mkRuntime (levels_by_id r') (distribution r') (rebalance_rules r') P,
          list_to_set (map ev_word_id new) ∪ applied, m + len new)) /\
      (forall id, id ∈ map ev_word_id new -> id ∈ map word_id batch).
Proof.
  intros Hcommon Hrare.
  induction batch as [|x batch IH]; intros r ev0 applied m P Hsync Hnd Hall.
  { exists []. cbn [fold_left map fst snd list_to_set]. rewrite app_nil_r, union_empty_l_L.
    unfold len. cbn [length]. rewrite Z.add_0_r. split; [reflexivity|].
    split; [reflexivity|]. intros id Hid. inversion Hid. }
  cbn [map] in Hnd. apply NoDup_cons in Hnd as [Hx Hnd].
  apply Forall_cons in Hall as [[Hknown Hnew] Hall].
  cbn [fold_left].
  set (next := if bool_decide (word_id x ∈ selected) then common_level else rare_level).
  assert (in_1_5 next = true) as Hnext by (subst next; destruct (bool_decide _); assumption).
  pose proof (assign_word_in_sync t common_level rare_level selected (r, ev0) x Hsync)
    as Hsync1.
  destruct (decide (levels_by_id r !! word_id x = Some next)) as [Hsame|Hchanged].
  - assert (assign_word t common_level rare_level selected (r, ev0) x
            = (mkRuntime (levels_by_id r) (distribution r) (rebalance_rules r)
                 ({[ word_id x ]} ∪ processed_word_ids r), ev0)) as Hstep.
    { unfold assign_word. fold next. rewrite (bool_decide_eq_true_2 _ Hsame). cbn [negb].
      rewrite insert_id by exact Hsame. rewrite Hsame.
      destruct Hsync as [Hlen Hcount].
      unfold in_1_5 in Hnext. apply andb_prop in Hnext as [H1 H5].
      apply Z.leb_le in H1, H5.
      rewrite set_level_same; [reflexivity|exact Hlen|lia|].
      rewrite Hcount by lia. exact (census_pos _ _ _ Hsame). }
    rewrite Hstep in *. cbn [fst] in Hsync1.
    destruct (IH _ ev0 applied m P Hsync1 Hnd Hall) as (new & Hev & Hfold & Hids).
    exists new. split; [exact Hev|]. split; [exact Hfold|].
    intros id Hid. cbn [map]. right. exact (Hids id Hid).
  - set (rule1 := describe_sources t ++ str "->" ++ str_of_int next ++ str " (via "
                  ++ describe_sources t ++ str ":" ++ str_of_int (to_level t) ++ str ")").
    set (e := mkEvent (word_id x) (word x) (type x)
                (default (-1) (levels_by_id r !! word_id x)) next rule1
                (bool_decide (word_id x ∈ selected))).
    assert (assign_word t common_level rare_level selected (r, ev0) x
            = (mkRuntime (<[word_id x := next]> (levels_by_id r))
                 (RarityDistribution.set_level (distribution r)
                    (levels_by_id r !! word_id x) next)
                 (<[word_id x := rule1]> (rebalance_rules r))
                 ({[ word_id x ]} ∪ processed_word_ids r), ev0 ++ [e])) as Hstep.
    { unfold assign_word. fold next. rewrite (bool_decide_eq_false_2 _ Hchanged).
      cbn [negb]. reflexivity. }
    rewrite Hstep in *. cbn [fst] in Hsync1.
    assert (Forall (fun y => known (word_id y) /\ word_id y ∉ {[ word_id x ]} ∪ applied) batch)
      as Hall'.
    { apply Forall_forall. intros y Hy. rewrite Forall_forall in Hall.
      destruct (Hall y Hy) as [Hk Hn]. split; [exact Hk|].
      intros Hu. apply elem_of_union in Hu as [Hu|Hu]; [|exact (Hn Hu)].
      apply elem_of_singleton in Hu. apply Hx. rewrite <- Hu.
      apply list_elem_of_fmap_2. exact Hy. }
    destruct (IH _ (ev0 ++ [e]) ({[ word_id x ]} ∪ applied) (m + 1) P Hsync1 Hnd Hall')
      as (new & Hev & Hfold & Hids).
    exists (e :: new). split; [rewrite Hev, <- app_assoc; reflexivity|]. split.
    + cbv zeta in *. cbn [map fold_left].
      change (entry e) with (word_id x, next, rule1).
      rewrite (restore_switched_entry _ applied m (word_id x) next rule1 Hknown Hnext
                 (rule_nonempty _ _) Hnew).
      cbn [levels_by_id distribution rebalance_rules processed_word_ids] in *.
      rewrite Hfold. cbn [list_to_set]. unfold len. cbn [length].
      cbn [ev_word_id e]. f_equal; [f_equal; union_equal|lia].
    + intros id Hid. cbn [map] in *. apply elem_of_cons in Hid as [->|Hid].
      * left.
      * right. exact (Hids id Hid).
Qed.

Lemma checkpoint_fields timestamp label processed switched :
  let fields :=
    [(str "timestamp", JStr timestamp); (str "transition", JStr label);
     (str "processed_word_ids", JList processed); (str "switched", JList switched)] in
  fields_get fields (str "processed_word_ids") = Some (JList processed) /\
  fields_get fields (str "switched") = Some (JList switched).
Proof. split; reflexivity. Qed.

(** Reading the checkpoint of a batch does to the runtime what the
    assignments of the batch did. *)
Lemma restore_node_batch t common_level rare_level (selected : gset Z) batch timestamp label
    (r : RebalanceRuntime) (applied : gset Z) stats :
  in_1_5 common_level = true -> in_1_5 rare_level = true ->
  distribution_in_sync r ->
  NoDup (map word_id batch) ->
  Forall (fun x => known (word_id x) /\ word_id x ∉ processed_word_ids r) batch ->
  applied ⊆ processed_word_ids r ->
  let result := fold_left (assign_word t common_level rare_level selected) batch (r, []) in
  restore_node py dataset (Some (r, applied, stats))
    (checkpoint_node timestamp (mkCheckpoint label (map word_id batch) (map entry result.2)))
  = Some (result.1, list_to_set (map ev_word_id result.2) ∪ applied,
          mkResumeStats (resumed_batches stats + 1)
            (resumed_processed_words stats + len batch)
            (resumed_switched_words stats + len result.2)) /\
  list_to_set (map ev_word_id result.2) ∪ applied ⊆ processed_word_ids result.1.
Proof.
  intros Hcommon Hrare Hsync Hnd Hall Happlied result.
  assert (Forall (fun x => known (word_id x) /\ word_id x ∉ applied) batch) as Hall'.
  { eapply Forall_impl; [exact Hall|]. intros x [Hk Hn]. split; [exact Hk|].
    intros Hin. apply Hn, Happlied, Hin. }
  assert (Forall (fun id => known id /\ id ∉ processed_word_ids r) (map word_id batch))
    as Hids by (apply Forall_map; exact Hall).
  destruct (assign_replay t common_level rare_level selected batch Hcommon Hrare r []
              applied (resumed_switched_words stats)
              (list_to_set (map word_id batch) ∪ processed_word_ids r) Hsync Hnd Hall')
    as (new & Hev & Hfold & Hsub).
  fold result in Hev, Hfold. cbn [app] in Hev. cbv zeta in Hfold.
  pose proof (assign_words_processed t common_level rare_level selected batch (r, []))
    as Hprocessed.
  fold result in Hprocessed. cbn [fst] in Hprocessed.
  split.
  - unfold restore_node, checkpoint_node.
    cbn [cp_transition cp_processed_word_ids cp_switched].
    destruct (checkpoint_fields timestamp label (map JInt (map word_id batch))
                (map (fun '(word_id, new_level, rule) =>
                        JDict [(str "word_id", JInt word_id);
                               (str "new_level", JInt new_level);
                               (str "rule", JStr rule)])
                     (map entry result.2))) as [-> ->].
    rewrite (restore_processed_fold _ r _ Hnd Hids).
    rewrite map_map, Hev.
    unfold entry_node in Hfold.
    rewrite Hfold, <- Hprocessed.
    unfold len. rewrite length_map.
    destruct result.1; reflexivity.
  - rewrite Hev, Hprocessed. intros id Hid.
    apply elem_of_union in Hid as [Hid|Hid].
    + apply elem_of_union_l. apply elem_of_list_to_set. apply Hsub.
      apply elem_of_list_to_set in Hid. exact Hid.
    + apply elem_of_union_r, Happlied, Hid.
Qed.

End Replay.

Section ReplayLoop.
Import transitions step5_rebalance.
Context {Rng : Type}.
Variable shuffle : Rng -> list RebalanceWord -> list RebalanceWord * Rng.
Hypothesis shuffle_permutes : forall g l, fst (shuffle g l) ≡ₚ l.
Variable py : builtins.
Variable post_json : nat -> client.Request -> client.http_outcome.
Variable parse :
  list BaseWordRow.t -> pystr -> ScoringOutputMode.t -> option Z -> option Z ->
  result ParsedBatch.t.
Variable t : LevelTransition.
Variable options : Step5Options.
Variable resolved_endpoint : ResolvedEndpoint.
Variable logs : Step5Logs.

(** A pass either leaves the runtime and the checkpoints alone, or it
    assigns the batch and appends the checkpoint of the batch. *)
Lemma transition_batch_checkpoint eligible_count expected_target_total batch processed
    target_assigned switched_count batch_index (w : world Rng) :
  let w2 := snd (transition_batch py post_json parse t options resolved_endpoint logs
                   eligible_count expected_target_total batch processed target_assigned
                   switched_count batch_index w) in
  (runtime w2 = runtime w /\ checkpoint_log w2 = checkpoint_log w) \/
  (exists other selected,
     other_level t = Ok other /\
     let result :=
       fold_left (assign_word t (Z.min (to_level t) other) (Z.max (to_level t) other)
                    selected) batch (runtime w, []) in
     runtime w2 = result.1 /\
     checkpoint_log w2
     = checkpoint_log w
       ++ [mkCheckpoint (transition_label t) (map word_id batch)
             (map (fun ev => (ev_word_id ev, next_level ev, rule ev)) result.2)]).
Proof.
  unfold transition_batch.
  destruct (other_level t) as [other|e] eqn:Hother; [|left; auto]. cbv zeta.
  match goal with
  | |- context [choose_common ?p ?pj ?pa ?o ?tt ?cc ?cl ?b ?re ?lg ?ww] =>
      pose proof (choose_common_keeps_data p pj pa tt o re lg cc cl b ww) as Hchoose;
      destruct (choose_common p pj pa o tt cc cl b re lg ww) as [[selected|e] w1]
  end; cbn [snd] in Hchoose;
    destruct Hchoose as (Hruntime & _ & Hcheckpoint & _).
  2:{ left. cbn [snd]. auto. }
  right. exists other, selected. split; [reflexivity|].
  unfold _apply_batch_assignments. rewrite Hother. cbv zeta. rewrite Hruntime.
  destruct (fold_left _ batch (runtime w, [])) as [runtime' events].
  unfold _append_batch_progress, _append_batch_checkpoint.
  cbn [snd fst runtime checkpoint_log]. rewrite Hcheckpoint. auto.
Qed.

(** A property of the queues and the world that the generator does not
    matter to and that a pass taking a batch from the queues keeps. *)
Variable keeps : Dict.t (list RebalanceWord) -> world Rng -> Prop.
Hypothesis keeps_rng : forall remaining w g, keeps remaining w -> keeps remaining (with_rng w g).
Hypothesis keeps_batch :
  forall remaining remaining' eligible_count expected_target_total batch processed
         target_assigned switched_count batch_index w,
    keeps remaining w ->
    all_words remaining' ++ batch ≡ₚ all_words remaining ->
    keeps remaining'
      (snd (transition_batch py post_json parse t options resolved_endpoint logs
              eligible_count expected_target_total batch processed target_assigned
              switched_count batch_index w)).

Lemma transition_loop_keeps_pool source_levels counts eligible_count expected_target_total
    passes :
  forall remaining processed target_assigned switched_count batch_index w,
    keeps remaining w ->
    exists remaining',
      keeps remaining'
        (snd (transition_loop shuffle py post_json parse passes t options
                resolved_endpoint logs source_levels counts eligible_count
                expected_target_total remaining processed target_assigned
                switched_count batch_index w)).
Proof.
  induction passes as [|passes IH];
    intros remaining processed target_assigned switched_count batch_index w Hw;
    cbn [transition_loop]; [exists remaining; exact Hw|].
  destruct (_select_stratified_batch shuffle source_levels remaining counts
              (batch_size options) (rng w)) as [[[batch remaining'] g]|e] eqn:Esel;
    [|exists remaining; exact Hw].
  destruct (select_stratified_batch_spec shuffle shuffle_permutes _ _ _ _ _ _ _ _ Esel)
    as [Hperm _].
  destruct batch as [|x batch]; [exists remaining; apply keeps_rng; exact Hw|].
  pose proof (keeps_batch remaining remaining' eligible_count expected_target_total
                (x :: batch) processed target_assigned switched_count (batch_index + 1)
                (with_rng w g) (keeps_rng remaining w g Hw) Hperm) as Hpass.
  destruct (transition_batch _ _ _ _ _ _ _ _ _ _ _ _ _ _ _)
    as [[[[processed1 target_assigned1] switched_count1]|e] w1]; cbn [snd] in Hpass.
  - apply IH. exact Hpass.
  - exists remaining'. exact Hpass.
Qed.

End ReplayLoop.

Lemma valid_transition_range t other :
  transitions.valid t -> transitions.other_level t = Ok other ->
  transitions.in_1_5 (Z.min (transitions.to_level t) other) = true /\
  transitions.in_1_5 (Z.max (transitions.to_level t) other) = true.
Proof.
  destruct t as [from to [upper|]];
    unfold transitions.valid, transitions.other_level, transitions.source_levels,
      transitions.require_valid_pair_transition, transitions.require_valid_transition,
      transitions.in_1_5;
    cbn [transitions.from_level transitions.to_level transitions.from_level_upper List.find].
  - destruct (Z.leb_spec 1 from), (Z.leb_spec from 5), (Z.leb_spec 1 upper),
      (Z.leb_spec upper 5), (Z.leb_spec 1 to), (Z.leb_spec to 5);
      cbn [andb negb]; try discriminate.
    intros _.
    destruct (Z.eqb_spec from to); cbn [negb].
    + destruct (Z.eqb_spec upper to); cbn [negb]; [discriminate|].
      intros [= <-]. rewrite !andb_true_iff, !Z.leb_le; lia.
    + intros [= <-]. rewrite !andb_true_iff, !Z.leb_le; lia.
  - destruct (Z.leb_spec 1 from), (Z.leb_spec from 5), (Z.leb_spec 1 to), (Z.leb_spec to 5);
      cbn [andb negb]; try discriminate.
    intros _ Hother.
    destruct (Z.eqb_spec to from); injection Hother as <-;
      rewrite !andb_true_iff, !Z.leb_le; lia.
Qed.

Section ReplayTransition.
Import transitions step5_rebalance.
Context {Rng : Type}.
Variable shuffle : Rng -> list RebalanceWord -> list RebalanceWord * Rng.
Hypothesis shuffle_permutes : forall g l, fst (shuffle g l) ≡ₚ l.
Variable py : builtins.
Variable post_json : nat -> client.Request -> client.http_outcome.
Variable parse :
  list BaseWordRow.t -> pystr -> ScoringOutputMode.t -> option Z -> option Z ->
  result ParsedBatch.t.
Variable t : LevelTransition.
Variable options : Step5Options.
Variable dataset : RebalanceDataset.
Variable resolved_endpoint : ResolvedEndpoint.
Variable logs : Step5Logs.
Hypothesis t_valid : valid t.
Hypothesis keyed : dataset_keyed dataset.
Hypothesis distinct : NoDup (map word_id (Dict.values (words_by_id dataset))).
Variable w0 : world Rng.

Let stats_of (cps : list checkpoint_line) : Step5ResumeStats :=
  mkResumeStats (len cps) (len (concat (map cp_processed_word_ids cps)))
    (len (concat (map cp_switched cps))).

(** The checkpoints written since [w0] replay to the runtime of [w], and
    the words still queued are unprocessed words of the data set. *)
Let replayed (remaining : Dict.t (list RebalanceWord)) (w : world Rng) : Prop :=
  distribution_in_sync (runtime w) /\
  NoDup (map word_id (all_words remaining)) /\
  Forall (fun x => (0 < word_id x /\ is_Some (Dict.get (words_by_id dataset) (word_id x)))
                   /\ word_id x ∉ processed_word_ids (runtime w))
         (all_words remaining) /\
  exists cps (applied : gset Z),
    checkpoint_log w = checkpoint_log w0 ++ cps /\
    applied ⊆ processed_word_ids (runtime w) /\
    forall nodes,
      Forall2 (fun node c => exists timestamp, node = checkpoint_node timestamp c) nodes cps ->
      fold_left (restore_node py dataset) nodes (Some (runtime w0, ∅, mkResumeStats 0 0 0))
      = Some (runtime w, applied, stats_of cps).

Lemma replayed_batch remaining remaining' eligible_count expected_target_total batch
    processed target_assigned switched_count batch_index w :
  replayed remaining w ->
  all_words remaining' ++ batch ≡ₚ all_words remaining ->
  replayed remaining'
    (snd (transition_batch py post_json parse t options resolved_endpoint logs
            eligible_count expected_target_total batch processed target_assigned
            switched_count batch_index w)).
Proof.
  intros (Hsync & Hnd & Hall & cps & applied & Hlog & Happlied & Hrestore) Hperm.
  destruct (pool_split remaining remaining' batch Hperm Hnd) as (Hndb & Hndrest & Hdisj).
  rewrite <- Hperm in Hall. apply Forall_app in Hall as [Hrest Hbatch].
  pose proof (transition_batch_in_sync py post_json parse t options resolved_endpoint logs
                eligible_count expected_target_total batch processed target_assigned
                switched_count batch_index w Hsync) as Hsync2.
  destruct (transition_batch_checkpoint py post_json parse t options resolved_endpoint logs
              eligible_count expected_target_total batch processed target_assigned
              switched_count batch_index w)
    as [[Hruntime Hcheckpoint]|(other & selected & Hother & Hruntime & Hcheckpoint)].
  - split; [exact Hsync2|]. split; [exact Hndrest|]. split.
    + rewrite Hruntime. exact Hrest.
    + exists cps, applied. rewrite Hruntime, Hcheckpoint. auto.
  - cbv zeta in Hruntime, Hcheckpoint.
    destruct (valid_transition_range t other t_valid Hother) as [Hcommon Hrare].
    set (result := fold_left (assign_word t (Z.min (to_level t) other)
                                (Z.max (to_level t) other) selected)
                     batch (runtime w, [])) in *.
    pose proof (assign_words_processed t (Z.min (to_level t) other)
                  (Z.max (to_level t) other) selected batch (runtime w, [])) as Hprocessed.
    fold result in Hprocessed. cbn [fst] in Hprocessed.
    split; [exact Hsync2|]. split; [exact Hndrest|]. split.
    + rewrite Hruntime, Hprocessed. apply Forall_forall. intros y Hy.
      rewrite Forall_forall in Hrest. destruct (Hrest y Hy) as [Hknown Hnew].
      split; [exact Hknown|]. intros Hin.
      apply elem_of_union in Hin as [Hin|Hin]; [|exact (Hnew Hin)].
      apply elem_of_list_to_set, list_elem_of_fmap in Hin as (x & Hxy & Hx).
      apply (Hdisj x Hx). rewrite <- Hxy. apply list_elem_of_fmap_2. exact Hy.
    + eexists (cps ++ [_]), (list_to_set (map ev_word_id result.2) ∪ applied).
      split; [rewrite Hcheckpoint, Hlog, <- app_assoc; reflexivity|].
      rewrite Hruntime. split.
      * apply (restore_node_batch py dataset t _ _ selected batch [] (transition_label t)
                 (runtime w) applied (stats_of cps) Hcommon Hrare Hsync Hndb Hbatch Happlied).
      * intros nodes Hnodes.
        apply Forall2_app_inv_r in Hnodes as (nodes1 & last & Hnodes1 & Hlast & ->).
        apply Forall2_cons_inv_r in Hlast as (node & rest & (timestamp & ->) & Hnil & ->).
        apply Forall2_nil_inv_r in Hnil as ->.
        rewrite fold_left_app, (Hrestore nodes1 Hnodes1). cbn [fold_left].
        pose proof (restore_node_batch py dataset t _ _ selected batch timestamp
                      (transition_label t) (runtime w) applied (stats_of cps)
                      Hcommon Hrare Hsync Hndb Hbatch Happlied) as Hnode.
        cbv zeta in Hnode. fold result in Hnode. destruct Hnode as [Hnode _].
        rewrite Hnode. unfold stats_of.
        cbn [resumed_batches resumed_processed_words resumed_switched_words].
        rewrite !map_app, !concat_app. cbn [map concat cp_processed_word_ids cp_switched].
        rewrite !app_nil_r. unfold len. rewrite !length_app, !length_map. cbn [length].
        repeat f_equal; lia.
Qed.

Lemma apply_transition_replayed :
  distribution_in_sync (runtime w0) ->
  exists remaining,
    replayed remaining
      (snd (_apply_transition shuffle py post_json parse t options dataset
              resolved_endpoint logs w0)).
Proof.
  intros Hsync. unfold _apply_transition.
  destruct (valid_transition_levels t t_valid) as [Hsl _].
  pose proof (eligible_pools_spec shuffle shuffle_permutes t dataset w0 Hsl) as Hpools.
  pose proof (eligible_pools_keeps shuffle t
                (fun w => checkpoint_log w = checkpoint_log w0)
                (fun w g H => H) dataset w0 eq_refl) as Hcheckpoint.
  destruct (eligible_pools shuffle t dataset w0) as [remaining w1].
  cbn [snd] in Hcheckpoint. destruct Hpools as (_ & Hwords & Hruntime & _).
  assert (replayed remaining w1) as Hstart.
  { split; [rewrite Hruntime; exact Hsync|]. split.
    - rewrite Hwords. apply word_ids_filter_NoDup. exact distinct.
    - split.
      + rewrite Hwords, Hruntime. apply Forall_forall. intros x Hx.
        unfold eligible_words in Hx. apply list_elem_of_In, filter_In in Hx as [Hx Hf].
        apply andb_prop in Hf as [_ Hf]. apply negb_true_iff, bool_decide_eq_false in Hf.
        split; [|exact Hf].
        apply list_elem_of_In, list_elem_of_fmap in Hx as ([k y] & -> & Hky).
        pose proof (proj1 (Forall_forall _ _) keyed _ Hky) as [Hkey Hpos].
        cbn [fst snd] in *. rewrite Hkey. split; [exact Hpos|].
        exact (dict_elem_get _ _ _ Hky).
      + exists [], ∅. rewrite app_nil_r. split; [exact Hcheckpoint|].
        split; [apply empty_subseteq|].
        intros nodes Hnodes. apply Forall2_nil_inv_r in Hnodes as ->.
        cbn [fold_left]. rewrite Hruntime. reflexivity. }
  destruct (_ =? 0); [exists remaining; exact Hstart|].
  match goal with
  | |- context [transition_loop ?sh ?p ?pj ?pa ?n ?tt ?o ?re ?lg ?sl ?c ?e ?x ?r ?a ?b ?cc ?d ?ww] =>
      pose proof (transition_loop_keeps_pool sh shuffle_permutes p pj pa tt o re lg replayed
                    (fun rem w g H => H) replayed_batch sl c e x n r a b cc d ww Hstart)
        as Hloop;
      destruct (transition_loop sh p pj pa n tt o re lg sl c e x r a b cc d ww)
        as [[processed' assigned' switched'|e'|] w']
  end; exact Hloop.
Qed.

End ReplayTransition.

(** X19. Replaying the checkpoints that a transition wrote, on the
    runtime the transition started from, restores the runtime it ended
    with: for a valid transition, a data set keyed by positive word ids
    and a distribution counter in agreement with the levels,
    [_restore_from_checkpoint] applied to the new checkpoint lines returns
    the levels, the counter, the rules and the processed ids of the final
    runtime, and counts the lines, the processed ids and the switched
    words, however the transition ended. *)
Theorem checkpoints_replay_to_the_final_runtime :
  forall {Rng : Type} (shuffle : Rng -> list step5_rebalance.RebalanceWord
                                  -> list step5_rebalance.RebalanceWord * Rng)
         py post_json parse t options dataset resolved_endpoint logs
         (w : step5_rebalance.world Rng),
    (forall g l, fst (shuffle g l) ≡ₚ l) ->
    transitions.valid t ->
    step5_rebalance.dataset_keyed dataset ->
    NoDup (map step5_rebalance.word_id
             (Dict.values (step5_rebalance.words_by_id dataset))) ->
    step5_rebalance.distribution_in_sync (step5_rebalance.runtime w) ->
    let w' := snd (step5_rebalance._apply_transition shuffle py post_json parse t options
                     dataset resolved_endpoint logs w) in
    exists checkpoints,
      step5_rebalance.checkpoint_log w' = step5_rebalance.checkpoint_log w ++ checkpoints /\
      forall nodes,
        Forall2 (fun node c => exists timestamp,
                   node = step5_rebalance.checkpoint_node timestamp c) nodes checkpoints ->
        step5_rebalance._restore_from_checkpoint py dataset (step5_rebalance.runtime w) nodes
        = Some (step5_rebalance.runtime w',
                step5_rebalance.mkResumeStats (len checkpoints)
                  (len (concat (map step5_rebalance.cp_processed_word_ids checkpoints)))
                  (len (concat (map step5_rebalance.cp_switched checkpoints)))).
Proof.
  intros Rng shuffle py post_json parse t options dataset resolved_endpoint logs w
    Hshuffle Hvalid Hkeyed Hdistinct Hsync w'.
  destruct (apply_transition_replayed shuffle Hshuffle py post_json parse t options dataset
              resolved_endpoint logs Hvalid Hkeyed Hdistinct w Hsync)
    as (remaining & _ & _ & _ & cps & applied & Hlog & _ & Hrestore).
  exists cps. split; [exact Hlog|].
  intros nodes Hnodes. unfold step5_rebalance._restore_from_checkpoint.
  rewrite (Hrestore nodes Hnodes). reflexivity.
Qed.

Lemma checkpoints_replay_to_the_final_runtime_witness :
  let w' := snd (step5_rebalance.e2e_run (1 # 2)) in
  exists checkpoints,
    step5_rebalance.checkpoint_log w'
    = step5_rebalance.checkpoint_log step5_rebalance.e2e_world ++ checkpoints /\
    forall nodes,
      Forall2 (fun node c => exists timestamp,
                 node = step5_rebalance.checkpoint_node timestamp c) nodes checkpoints ->
      step5_rebalance._restore_from_checkpoint PyAscii.ascii_builtins
        step5_rebalance.e2e_dataset
        (step5_rebalance.runtime step5_rebalance.e2e_world) nodes
      = Some (step5_rebalance.runtime w',
              step5_rebalance.mkResumeStats (len checkpoints)
                (len (concat (map step5_rebalance.cp_processed_word_ids checkpoints)))
                (len (concat (map step5_rebalance.cp_switched checkpoints)))).
Proof.
  apply (checkpoints_replay_to_the_final_runtime step5_rebalance.e2e_shuffle).
  - intros g l. reflexivity.
  - vm_compute. reflexivity.
  - apply (bool_decide_unpack _). vm_compute. exact I.
  - apply (bool_decide_unpack _). vm_compute. exact I.
  - split; [reflexivity|]. intros level Hlevel.
    assert (level = 1 \/ level = 2 \/ level = 3 \/ level = 4 \/ level = 5) as Hcases by lia.
    destruct Hcases as [->|[->|[->|[->| ->]]]]; vm_compute; reflexivity.
Defined.

(** ** Run files: merging into the table on disk *)

Section RunRows.
Import csv_codec run_csv_repository.

Let ids (rows : list RunCsvRow.t) : list Z := map RunCsvRow.word_id rows.

(** A dictionary of rows by word id, as the loops build it. *)
Let keyed (d : Dict.t RunCsvRow.t) : Prop :=
  NoDup (Dict.keys d) /\ Forall (fun kv => RunCsvRow.word_id (snd kv) = fst kv) d.

Let put_row (d : Dict.t RunCsvRow.t) (r : RunCsvRow.t) : Dict.t RunCsvRow.t :=
  Dict.put d (RunCsvRow.word_id r) r.

Lemma put_row_keyed d r : keyed d -> keyed (put_row d r).
Proof.
  intros [Hnd Hkeys]. split; [apply dict_keys_put_NoDup, Hnd|].
  apply Forall_forall. intros kv Hkv.
  apply dict_elem_put in Hkv as [->|Hkv]; [reflexivity|].
  exact (proj1 (Forall_forall _ _) Hkeys kv Hkv).
Qed.

Lemma fold_put_row_keyed rows : forall d, keyed d -> keyed (fold_left put_row rows d).
Proof.
  induction rows as [|r rows IH]; intros d Hd; cbn [fold_left]; [exact Hd|].
  apply IH, put_row_keyed, Hd.
Qed.

Lemma fold_put_row_keys rows : forall d x,
  x ∈ Dict.keys (fold_left put_row rows d) <-> x ∈ Dict.keys d \/ x ∈ ids rows.
Proof.
  induction rows as [|r rows IH]; intros d x; cbn [fold_left ids map].
  - split; [auto|]. intros [H|H]; [exact H|inversion H].
  - rewrite IH. unfold put_row. rewrite dict_keys_put_elem, elem_of_cons.
    fold (ids rows). tauto.
Qed.

Lemma fold_put_row_values rows : forall d k v,
  NoDup (Dict.keys d) ->
  (k, v) ∈ fold_left put_row rows d ->
  v ∈ rows \/ ((k, v) ∈ d /\ k ∉ ids rows).
Proof.
  induction rows as [|r rows IH]; intros d k v Hnd Hin; cbn [fold_left] in Hin.
  - right. split; [exact Hin|]. intros H. inversion H.
  - destruct (IH _ k v (dict_keys_put_NoDup _ _ _ Hnd) Hin) as [Hv|[Hput Hk]].
    + left. right. exact Hv.
    + destruct (decide (k = RunCsvRow.word_id r)) as [->|Hne].
      * left.
        pose proof (dict_elem_get_NoDup _ _ _ (dict_keys_put_NoDup _ _ r Hnd) Hput) as Hget.
        unfold put_row in Hget. rewrite dict_get_put, Z.eqb_refl in Hget.
        injection Hget as ->. left.
      * right. apply dict_elem_put in Hput as [[= -> ->]|Hd]; [contradiction|].
        split; [exact Hd|]. cbn [ids map]. apply not_elem_of_cons. auto.
Qed.

Lemma keyed_ids d : keyed d -> ids (Dict.values d) = Dict.keys d.
Proof.
  intros [_ Hkeys]. unfold ids, Dict.values, Dict.keys. rewrite map_map.
  apply map_ext_Forall. exact Hkeys.
Qed.

Lemma insert_by_word_id_perm r rows : insert_by_word_id r rows ≡ₚ r :: rows.
Proof.
  induction rows as [|x rows IH]; cbn [insert_by_word_id]; [reflexivity|].
  destruct (RunCsvRow.word_id r <? RunCsvRow.word_id x); [reflexivity|].
  rewrite IH. apply Permutation_swap.
Qed.

Lemma sorted_by_word_id_perm rows : sorted_by_word_id rows ≡ₚ rows.
Proof.
  unfold sorted_by_word_id.
  assert (forall acc, fold_left (fun acc r => insert_by_word_id r acc) rows acc
                      ≡ₚ acc ++ rows) as H.
  { induction rows as [|r rows IH]; intros acc; cbn [fold_left].
    - rewrite app_nil_r. reflexivity.
    - rewrite IH, insert_by_word_id_perm. apply Permutation_middle. }
  apply (H []).
Qed.

Lemma insert_by_word_id_last r rows :
  Forall (fun x => RunCsvRow.word_id x <= RunCsvRow.word_id r) rows ->
  insert_by_word_id r rows = rows ++ [r].
Proof.
  induction 1 as [|x rows Hx _ IH]; cbn [insert_by_word_id]; [reflexivity|].
  destruct (Z.ltb_spec (RunCsvRow.word_id r) (RunCsvRow.word_id x)); [lia|].
  rewrite IH. reflexivity.
Qed.

Lemma sorted_by_word_id_ascending_id rows :
  ids_ascending rows -> sorted_by_word_id rows = rows.
Proof.
  unfold sorted_by_word_id, ids_ascending.
  assert (forall acc,
            StronglySorted Z.le (map RunCsvRow.word_id (acc ++ rows)) ->
            fold_left (fun acc r => insert_by_word_id r acc) rows acc = acc ++ rows) as H.
  { induction rows as [|r rows IH]; intros acc Hs; cbn [fold_left].
    - rewrite app_nil_r. reflexivity.
    - rewrite insert_by_word_id_last.
      + rewrite IH; rewrite <- app_assoc; [reflexivity|exact Hs].
      + rewrite map_app in Hs. cbn [map] in Hs.
        apply Forall_forall. intros x Hx.
        apply (StronglySorted_app_1_elem_of _ _ _ _ _ Hs).
        * apply list_elem_of_In, in_map, list_elem_of_In, Hx.
        * left. }
  intros Hs. apply (H [] Hs).
Qed.

Lemma load_rows_into_keyed py path headers records : forall d by_id,
  keyed d ->
  load_rows_into py path headers records d = Ok by_id -> keyed by_id.
Proof.
  induction records as [|rec records IH]; intros d by_id Hd; cbn [load_rows_into].
  - intros [= <-]. exact Hd.
  - destruct (parse_run_row py path headers rec) as [parsed|e]; cbn [bind]; [|discriminate].
    apply IH. apply (put_row_keyed d parsed Hd).
Qed.

Lemma keyed_nil : keyed [].
Proof. split; [constructor|constructor]. Qed.

(** The table read from disk has one row for each id. *)
Lemma load_run_rows_distinct py fs path on_disk :
  load_run_rows py fs path = Ok on_disk -> NoDup (ids on_disk) /\ ids_ascending on_disk.
Proof.
  unfold load_run_rows. destruct (fs !! path) as [content|].
  2:{ intros [= <-]. split; constructor. }
  destruct (read_table fs path) as [table|e]; cbn [bind]; [|discriminate].
  destruct (required_columns _ _ _) as [[]|e]; cbn [bind]; [|discriminate].
  destruct (load_rows_into py path (headers table) (records table) []) as [by_id|e] eqn:E;
    cbn [bind]; [|discriminate].
  intros [= <-]. split; [|apply sorted_by_word_id_ascending].
  pose proof (load_rows_into_keyed _ _ _ _ _ _ keyed_nil E) as Hkeyed.
  unfold ids. rewrite (sorted_by_word_id_perm (Dict.values by_id)).
  fold (ids (Dict.values by_id)). rewrite (keyed_ids _ Hkeyed). exact (proj1 Hkeyed).
Qed.

Lemma write_rows_ok width rows : forall written,
  Forall (fun row => length row = width) rows ->
  write_rows width rows written = (Ok tt, written ++ rows).
Proof.
  induction rows as [|row rows IH]; intros written Hall; cbn [write_rows].
  - rewrite app_nil_r. reflexivity.
  - apply Forall_cons in Hall as [Hrow Hall].
    rewrite Hrow, Nat.eqb_refl. cbn [negb]. rewrite IH by exact Hall.
    rewrite <- app_assoc. reflexivity.
Qed.

Lemma tmp_path_differs path : tmp_path path <> path.
Proof.
  unfold tmp_path. intros H. apply (f_equal length) in H.
  rewrite length_app in H. change (length (str ".tmp")) with 4%nat in H. lia.
Qed.

(** Rewriting a table in ascending order leaves it in the file, and no
    temporary file behind. *)
Lemma rewrite_run_rows_ok py fs path rows :
  ids_ascending rows ->
  exists fs',
    rewrite_run_rows_atomic py fs path rows = (Ok tt, fs') /\
    fs' !! path
    = Some (RUN_CSV_HEADERS :: map (fun r => _serialize_for_headers py r RUN_CSV_HEADERS) rows) /\
    fs' !! tmp_path path = None /\
    (forall other, other <> path -> other <> tmp_path path -> fs' !! other = fs !! other).
Proof.
  intros Hasc. unfold rewrite_run_rows_atomic, write_table_atomic, write_table.
  rewrite (sorted_by_word_id_ascending_id rows Hasc), write_rows_ok.
  2:{ apply Forall_map, Forall_forall. intros r _.
      unfold _serialize_for_headers. rewrite length_map. reflexivity. }
  cbv beta iota zeta. unfold os_replace, filesystem in *.
  rewrite (lookup_insert_eq (M := gmap pystr)).
  eexists. split; [reflexivity|].
  pose proof (tmp_path_differs path) as Hne.
  split; [apply lookup_insert_eq|]. split.
  - rewrite lookup_insert_ne by congruence. rewrite lookup_delete_eq. reflexivity.
  - intros other H1 H2. rewrite lookup_insert_ne by congruence.
    rewrite lookup_delete_ne by congruence. rewrite lookup_insert_ne by congruence.
    reflexivity.
Qed.

Lemma sorted_head_least (l : list Z) x first :
  StronglySorted Z.le l -> head l = Some first -> x ∈ l -> first <= x.
Proof.
  destruct l as [|y l]; [discriminate|]. intros Hs [= <-] Hx.
  apply StronglySorted_inv in Hs as [_ Hall].
  apply elem_of_cons in Hx as [->|Hx]; [lia|].
  exact (proj1 (Forall_forall _ _) Hall x Hx).
Qed.

Lemma sorted_last_greatest (l : list Z) : forall x final,
  StronglySorted Z.le l -> last l = Some final -> x ∈ l -> x <= final.
Proof.
  induction l as [|y l IH]; intros x final Hs Hlast Hx; [inversion Hx|].
  apply StronglySorted_inv in Hs as [Hs Hall].
  destruct l as [|z l].
  - cbn in Hlast. injection Hlast as <-. apply list_elem_of_singleton in Hx. lia.
  - change (last (y :: z :: l)) with (last (z :: l)) in Hlast.
    apply elem_of_cons in Hx as [->|Hx]; [|exact (IH x final Hs Hlast Hx)].
    assert (final ∈ z :: l) as Hfinal.
    { apply list_elem_of_In. clear -Hlast. revert z Hlast.
      induction l as [|u l IHl]; intros z Hlast.
      - cbn in Hlast. injection Hlast as <-. left. reflexivity.
      - right. apply (IHl u). exact Hlast. }
    exact (proj1 (Forall_forall _ _) Hall final Hfinal).
Qed.

Lemma head_map {A B} (f : A -> B) (l : list A) : head (map f l) = option_map f (head l).
Proof. destruct l; reflexivity. Qed.

Lemma last_map {A B} (f : A -> B) (l : list A) : last (map f l) = option_map f (last l).
Proof.
  induction l as [|x l IH]; [reflexivity|].
  destruct l as [|y l]; [reflexivity|]. exact IH.
Qed.

Lemma head_elem {A} (l : list A) x : head l = Some x -> x ∈ l.
Proof. destruct l; [discriminate|]. intros [= ->]. left. Qed.

Lemma last_elem {A} (l : list A) x : last l = Some x -> x ∈ l.
Proof.
  induction l as [|y l IH]; [discriminate|].
  destruct l as [|z l]; [intros [= ->]; left|]. intros H. right. exact (IH H).
Qed.

(** The guard passes when every id of the old table is in the new one. *)
Lemma assert_not_shrunk_passes path merged old :
  ids_ascending merged -> ids_ascending old ->
  len old <= len merged ->
  (forall x, x ∈ ids old -> x ∈ ids merged) ->
  _assert_not_shrunk path merged (compute_baseline old) = Ok tt.
Proof.
  intros Hm Ho Hlen Hsub.
  destruct (compute_baseline_ascending old Ho) as (Hcount & Hmin & Hmax).
  unfold _assert_not_shrunk. rewrite Hcount, Hmin, Hmax.
  destruct (Z.ltb_spec (len merged) (len old)); [lia|].
  assert (forall a b, option_map RunCsvRow.word_id (last old) = Some a ->
                      option_map RunCsvRow.word_id (last merged) = Some b ->
                      (b <? a) = false) as Hlast.
  { intros a b Ha Hb. apply Z.ltb_ge. rewrite <- last_map in Ha, Hb.
    apply (sorted_last_greatest _ a b Hm Hb). apply Hsub. exact (last_elem _ _ Ha). }
  assert (forall a b, option_map RunCsvRow.word_id (head old) = Some a ->
                      option_map RunCsvRow.word_id (head merged) = Some b ->
                      (a <? b) = false) as Hhead.
  { intros a b Ha Hb. apply Z.ltb_ge. rewrite <- head_map in Ha, Hb.
    apply (sorted_head_least _ a b Hm Hb). apply Hsub. exact (head_elem _ _ Ha). }
  destruct (option_map RunCsvRow.word_id (head old)) as [a|] eqn:Ea,
           (option_map RunCsvRow.word_id (head merged)) as [b|] eqn:Eb;
    rewrite ?(Hhead a b eq_refl eq_refl);
    destruct (option_map RunCsvRow.word_id (last old)) as [c|] eqn:Ec,
             (option_map RunCsvRow.word_id (last merged)) as [d|] eqn:Ed;
    rewrite ?(Hlast c d eq_refl eq_refl); reflexivity.
Qed.

(** The merged table: its ids and where its rows come from. *)
Lemma merged_rows_spec py fs path in_memory_rows on_disk :
  load_run_rows py fs path = Ok on_disk ->
  exists merged,
    merged_rows_of py fs path in_memory_rows = Ok merged /\
    ids_ascending merged /\ NoDup (ids merged) /\
    (forall x, x ∈ ids merged <-> x ∈ ids on_disk \/ x ∈ ids in_memory_rows) /\
    (forall r, r ∈ merged ->
       r ∈ in_memory_rows \/ (r ∈ on_disk /\ RunCsvRow.word_id r ∉ ids in_memory_rows)) /\
    len on_disk <= len merged.
Proof.
  intros Hload. destruct (load_run_rows_distinct _ _ _ _ Hload) as [Hnd Hasc].
  unfold merged_rows_of. rewrite Hload. cbn [bind].
  change (fun (d : Dict.t RunCsvRow.t) (r : RunCsvRow.t) =>
            Dict.put d (RunCsvRow.word_id r) r) with put_row.
  set (d1 := fold_left put_row on_disk []).
  set (d2 := fold_left put_row in_memory_rows d1).
  assert (keyed d1) as Hd1 by (apply (fold_put_row_keyed on_disk []), keyed_nil).
  assert (keyed d2) as Hd2 by (apply (fold_put_row_keyed in_memory_rows d1), Hd1).
  assert (forall x, x ∈ Dict.keys d2 <-> x ∈ ids on_disk \/ x ∈ ids in_memory_rows) as Hkeys.
  { intros x. unfold d2. rewrite (fold_put_row_keys in_memory_rows d1 x).
    unfold d1. rewrite (fold_put_row_keys on_disk [] x). cbn [Dict.keys map].
    split; [intros [[H|H]|H]; [inversion H|auto|auto]|tauto]. }
  assert (ids (sorted_by_word_id (Dict.values d2)) ≡ₚ Dict.keys d2) as Hperm.
  { unfold ids. rewrite (sorted_by_word_id_perm (Dict.values d2)).
    fold (ids (Dict.values d2)). rewrite (keyed_ids _ Hd2). reflexivity. }
  eexists. split; [reflexivity|]. split; [apply sorted_by_word_id_ascending|].
  split; [rewrite Hperm; exact (proj1 Hd2)|]. split; [|split].
  - intros x. rewrite Hperm. apply Hkeys.
  - intros r Hr. rewrite sorted_by_word_id_perm in Hr.
    apply list_elem_of_fmap in Hr as ([k v] & -> & Hkv). cbn [snd].
    destruct (fold_put_row_values in_memory_rows d1 k v (proj1 Hd1) Hkv) as [Hv|[Hkv1 Hk]];
      [left; exact Hv|right].
    pose proof (proj1 (Forall_forall _ _) (proj2 Hd2) _ Hkv) as Hid. cbn [fst snd] in Hid.
    rewrite Hid. split; [|exact Hk].
    destruct (fold_put_row_values on_disk [] k v (NoDup_nil_2 : NoDup (Dict.keys [])) Hkv1)
      as [Hv|[Hnil _]]; [exact Hv|inversion Hnil].
  - assert (ids on_disk ⊆+ Dict.keys d2) as Hsub.
    { apply NoDup_submseteq; [exact Hnd|]. intros x Hx. apply Hkeys. left. exact Hx. }
    apply submseteq_length in Hsub. rewrite <- Hperm in Hsub.
    unfold ids in Hsub. rewrite !length_map in Hsub. unfold len. lia.
Qed.

End RunRows.

(** X20. Merging into the table that is on disk never trips the guard
    set from that table: with the baseline computed from the rows that
    [load_run_rows] reads, [merge_and_rewrite_atomic] succeeds, the file
    then holds the header and the merged rows in ascending id order, no
    temporary file is left and no other file is touched.  The merged
    table has one row for each id on disk or in memory, each row comes
    from memory or, when memory has no row of that id, from disk, and it
    has at least as many rows as the table on disk. *)
Theorem merge_against_own_baseline_succeeds :
  forall py fs path in_memory_rows on_disk,
    run_csv_repository.load_run_rows py fs path = Ok on_disk ->
    exists merged fs',
      run_csv_repository.merged_rows_of py fs path in_memory_rows = Ok merged /\
      run_csv_repository.merge_and_rewrite_atomic py fs path in_memory_rows
        (run_csv_repository.compute_baseline on_disk) = (Ok tt, fs') /\
      fs' !! path
      = Some (run_csv_repository.RUN_CSV_HEADERS
              :: map (fun r => run_csv_repository._serialize_for_headers py r
                                 run_csv_repository.RUN_CSV_HEADERS) merged) /\
      fs' !! csv_codec.tmp_path path = None /\
      (forall other, other <> path -> other <> csv_codec.tmp_path path ->
         fs' !! other = fs !! other) /\
      run_csv_repository.ids_ascending merged /\
      NoDup (map RunCsvRow.word_id merged) /\
      (forall x, x ∈ map RunCsvRow.word_id merged <->
         x ∈ map RunCsvRow.word_id on_disk \/ x ∈ map RunCsvRow.word_id in_memory_rows) /\
      (forall r, r ∈ merged ->
         r ∈ in_memory_rows \/
         (r ∈ on_disk /\ RunCsvRow.word_id r ∉ map RunCsvRow.word_id in_memory_rows)) /\
      len on_disk <= len merged.
Proof.
  intros py fs path in_memory_rows on_disk Hload.
  destruct (merged_rows_spec py fs path in_memory_rows on_disk Hload)
    as (merged & Hmerged & Hasc & Hnd & Hids & Hrows & Hlen).
  destruct (load_run_rows_distinct _ _ _ _ Hload) as [_ Hold].
  destruct (rewrite_run_rows_ok py fs path merged Hasc) as (fs' & Hwrite & Hfile & Htmp & Hother).
  exists merged, fs'. split; [exact Hmerged|]. split.
  - unfold run_csv_repository.merge_and_rewrite_atomic. rewrite Hmerged.
    rewrite (assert_not_shrunk_passes path merged on_disk Hasc Hold Hlen).
    + exact Hwrite.
    + intros x Hx. apply Hids. left. exact Hx.
  - auto 10.
Qed.

Lemma merge_against_own_baseline_succeeds_witness :
  exists on_disk,
    run_csv_repository.load_run_rows PyAscii.ascii_builtins
      run_csv_repository.example_fs run_csv_repository.example_path = Ok on_disk /\
    fst (run_csv_repository.merge_and_rewrite_atomic PyAscii.ascii_builtins
           run_csv_repository.example_fs run_csv_repository.example_path
           [run_csv_repository.example_row]
           (run_csv_repository.compute_baseline on_disk)) = Ok tt.
Proof.
  eexists. split; [vm_compute; reflexivity|].
  match goal with
  | |- context [run_csv_repository.compute_baseline ?rows] =>
      destruct (merge_against_own_baseline_succeeds PyAscii.ascii_builtins
                  run_csv_repository.example_fs run_csv_repository.example_path
                  [run_csv_repository.example_row] rows)
        as (merged & fs' & _ & Hrun & _); [vm_compute; reflexivity|]
  end.
  rewrite Hrun. reflexivity.
Defined.

(** ** Run files: what is written is read back *)

Section RoundTrip.
Import csv_codec run_csv_repository.
Variable py : builtins.

Let serialize (r : RunCsvRow.t) : list pystr := _serialize_for_headers py r RUN_CSV_HEADERS.

Lemma serialize_cells r :
  serialize r
  = [str_of_int (RunCsvRow.word_id r); RunCsvRow.word r; RunCsvRow.type r;
     str_of_int (RunCsvRow.rarity_level r); RunCsvRow.tag r;
     str_of_float py (RunCsvRow.confidence r); RunCsvRow.scored_at r;
     RunCsvRow.model r; RunCsvRow.run_slug r].
Proof. reflexivity. Qed.

Lemma row_get_cells v1 v2 v3 v4 v5 v6 v7 v8 v9 :
  let cells := [v1; v2; v3; v4; v5; v6; v7; v8; v9] in
  row_get RUN_CSV_HEADERS cells (str "word_id") = v1 /\
  row_get RUN_CSV_HEADERS cells (str "word") = v2 /\
  row_get RUN_CSV_HEADERS cells (str "type") = v3 /\
  row_get RUN_CSV_HEADERS cells (str "rarity_level") = v4 /\
  row_get RUN_CSV_HEADERS cells (str "tag") = v5 /\
  row_get RUN_CSV_HEADERS cells (str "confidence") = v6 /\
  row_get RUN_CSV_HEADERS cells (str "scored_at") = v7 /\
  row_get RUN_CSV_HEADERS cells (str "model") = v8 /\
  row_get RUN_CSV_HEADERS cells (str "run_slug") = v9.
Proof. repeat split; reflexivity. Qed.

Lemma parse_serialized_row path line r :
  reads_back py r ->
  parse_run_row py path RUN_CSV_HEADERS (mkRecord line (serialize r)) = Ok r.
Proof.
  intros (Hid & Hrarity & Hconf & Hrange & Hunit & Hword & Htype).
  rewrite serialize_cells.
  unfold parse_run_row, _parse_int, _parse_float, _require_non_blank.
  cbn [line_number values].
  destruct (row_get_cells (str_of_int (RunCsvRow.word_id r)) (RunCsvRow.word r)
              (RunCsvRow.type r) (str_of_int (RunCsvRow.rarity_level r)) (RunCsvRow.tag r)
              (str_of_float py (RunCsvRow.confidence r)) (RunCsvRow.scored_at r)
              (RunCsvRow.model r) (RunCsvRow.run_slug r))
    as (-> & -> & -> & -> & -> & -> & -> & -> & ->).
  rewrite Hrarity, Hconf, Hid. cbn [bind].
  destruct (Z.ltb_spec (RunCsvRow.rarity_level r) 1); [lia|].
  destruct (Z.ltb_spec 5 (RunCsvRow.rarity_level r)); [lia|].
  cbn [orb]. rewrite Hunit.
  destruct (strip py (RunCsvRow.word r)); [congruence|].
  destruct (strip py (RunCsvRow.type r)); [congruence|].
  cbn [bind]. destruct r; reflexivity.
Qed.

Lemma read_records_ok width (rows : list (list pystr)) : forall line,
  Forall (fun row : list pystr => length row = width /\ row <> [[]]) rows ->
  exists records, read_records width line rows = Ok records /\ map values records = rows.
Proof.
  induction rows as [|row rows IH]; intros line Hall; cbn [read_records].
  - exists []. auto.
  - apply Forall_cons in Hall as [[Hlen Hrow] Hall].
    rewrite (bool_decide_eq_false_2 _ Hrow), Hlen, Nat.eqb_refl. cbn [negb].
    destruct (IH (line + 1) Hall) as (records & -> & Hvalues). cbn [bind].
    eexists. split; [reflexivity|]. cbn [map values]. rewrite Hvalues. reflexivity.
Qed.

Lemma load_serialized_rows path rows : forall records d,
  map values records = map serialize rows ->
  Forall (reads_back py) rows ->
  load_rows_into py path RUN_CSV_HEADERS records d
  = Ok (fold_left (fun d r => Dict.put d (RunCsvRow.word_id r) r) rows d).
Proof.
  induction rows as [|r rows IH]; intros records d Hvalues Hall.
  - destruct records; [reflexivity|discriminate].
  - destruct records as [|[line cells] records]; [discriminate|].
    cbn [map values] in Hvalues. injection Hvalues as -> Hvalues.
    apply Forall_cons in Hall as [Hr Hall].
    cbn [load_rows_into fold_left]. rewrite (parse_serialized_row path line r Hr).
    cbn [bind]. apply IH; assumption.
Qed.

Lemma fold_put_row_fresh rows : forall d : Dict.t RunCsvRow.t,
  NoDup (Dict.keys d ++ map RunCsvRow.word_id rows) ->
  fold_left (fun d r => Dict.put d (RunCsvRow.word_id r) r) rows d
  = d ++ map (fun r => (RunCsvRow.word_id r, r)) rows.
Proof.
  induction rows as [|r rows IH]; intros d Hnd; cbn [fold_left map].
  - rewrite app_nil_r. reflexivity.
  - assert (Dict.get d (RunCsvRow.word_id r) = None) as Hnone.
    { apply dict_get_None. apply NoDup_app in Hnd as (_ & Hdisj & _).
      intros Hin. apply (Hdisj _ Hin). left. }
    rewrite (dict_put_absent _ _ _ Hnone), IH, <- app_assoc; [reflexivity|].
    unfold Dict.keys. rewrite map_app. cbn [map fst]. rewrite <- app_assoc. exact Hnd.
Qed.

Lemma read_table_ok (fs : filesystem) path header_row rows :
  fs !! path = Some (header_row :: rows) -> header_row <> [] ->
  read_table fs path
  = bind (read_records (length header_row) 2 rows)
         (fun records => Ok (mkTable header_row records)).
Proof.
  intros Hfile Hne. unfold read_table. rewrite Hfile.
  destruct header_row; [congruence|reflexivity].
Qed.

Lemma required_run_columns label : required_columns RUN_CSV_HEADERS RUN_CSV_HEADERS label = Ok tt.
Proof.
  unfold required_columns.
  assert (List.filter (fun col => negb (bool_decide (col ∈ RUN_CSV_HEADERS))) RUN_CSV_HEADERS
          = []) as -> by (vm_compute; reflexivity).
  reflexivity.
Qed.

(** The general form of [rewrite_run_rows_ok]: the rows are sorted
    before they are written. *)
Lemma rewrite_run_rows_content fs path rows :
  exists fs',
    rewrite_run_rows_atomic py fs path rows = (Ok tt, fs') /\
    fs' !! path = Some (RUN_CSV_HEADERS :: map serialize (sorted_by_word_id rows)).
Proof.
  destruct (rewrite_run_rows_ok py fs path (sorted_by_word_id rows)
              (sorted_by_word_id_ascending rows)) as (fs' & Hwrite & Hfile & _).
  exists fs'. split; [|exact Hfile].
  unfold rewrite_run_rows_atomic in *.
  rewrite (sorted_by_word_id_ascending_id (sorted_by_word_id rows)
             (sorted_by_word_id_ascending rows)) in Hwrite.
  exact Hwrite.
Qed.

Lemma load_written_rows (fs : filesystem) path rows :
  fs !! path = Some (RUN_CSV_HEADERS :: map serialize rows) ->
  ids_ascending rows -> NoDup (map RunCsvRow.word_id rows) ->
  Forall (reads_back py) rows ->
  load_run_rows py fs path = Ok rows.
Proof.
  intros Hfile Hasc Hnd Hall. unfold load_run_rows.
  match goal with
  | |- context [match ?x with Some _ => _ | None => _ end] =>
      destruct x as [content|] eqn:E
  end.
  2:{ exfalso.
      assert (@None file = Some (RUN_CSV_HEADERS :: map serialize rows)) as Habs
        by (rewrite <- E; exact Hfile).
      discriminate Habs. }
  rewrite (read_table_ok fs path _ _ Hfile) by discriminate.
  destruct (read_records_ok (length RUN_CSV_HEADERS) (map serialize rows) 2)
    as (recs & -> & Hvalues).
  { apply Forall_map, Forall_forall. intros r _. rewrite serialize_cells.
    split; [reflexivity|discriminate]. }
  cbn [bind headers records]. rewrite required_run_columns. cbn [bind].
  rewrite (load_serialized_rows path rows recs [] Hvalues Hall). cbn [bind].
  rewrite (fold_put_row_fresh rows []) by exact Hnd. cbn [app].
  unfold Dict.values. rewrite map_map. cbn [snd]. rewrite map_id.
  rewrite (sorted_by_word_id_ascending_id rows Hasc). reflexivity.
Qed.

End RoundTrip.

(** X21. A run file that has been rewritten is read back as it was
    written: for rows with distinct ids that [load_run_rows] accepts
    (rarity from 1 to 5, confidence in the unit interval or NaN, word and
    type not blank) and whose numbers are read back from their text,
    [rewrite_run_rows_atomic] succeeds and [load_run_rows] on the new
    file returns the rows in ascending id order. *)
Theorem rewritten_run_file_loads_back :
  forall py fs path rows,
    NoDup (map RunCsvRow.word_id rows) ->
    Forall (run_csv_repository.reads_back py) rows ->
    exists fs',
      run_csv_repository.rewrite_run_rows_atomic py fs path rows = (Ok tt, fs') /\
      run_csv_repository.load_run_rows py fs' path
      = Ok (run_csv_repository.sorted_by_word_id rows).
Proof.
  intros py fs path rows Hnd Hall.
  destruct (rewrite_run_rows_content py fs path rows) as (fs' & Hwrite & Hfile).
  exists fs'. split; [exact Hwrite|].
  apply (load_written_rows py fs' path _ Hfile).
  - apply sorted_by_word_id_ascending.
  - rewrite (sorted_by_word_id_perm rows). exact Hnd.
  - rewrite (sorted_by_word_id_perm rows). exact Hall.
Qed.

Lemma rewritten_run_file_loads_back_witness :
  let rows :=
    [run_csv_repository.example_row;
     RunCsvRow.mk 1 (str "om") (str "N") 1 (str "common") (Num (9 # 10)) (str "t")
       (str "m") (str "r")] in
  exists fs',
    run_csv_repository.rewrite_run_rows_atomic PyAscii.ascii_builtins
      run_csv_repository.example_fs run_csv_repository.example_path rows = (Ok tt, fs') /\
    run_csv_repository.load_run_rows PyAscii.ascii_builtins fs'
      run_csv_repository.example_path
    = Ok (run_csv_repository.sorted_by_word_id rows).
Proof.
  intros rows.
  apply (rewritten_run_file_loads_back PyAscii.ascii_builtins
           run_csv_repository.example_fs run_csv_repository.example_path rows).
  - apply (bool_decide_unpack _). vm_compute. exact I.
  - repeat constructor; try (vm_compute; reflexivity); try (vm_compute; discriminate);
      vm_compute; intros H; discriminate H.
Defined.

(** ** The client: what one call of the retry loop does *)

Section RetryAccounting.
Import client.
Variable py : builtins.
Variable post_json : nat -> Request -> http_outcome.
Variable parse :
  list BaseWordRow.t -> pystr -> ScoringOutputMode.t -> option Z -> option Z ->
  result ParsedBatch.t.

(** What a run of the loop adds to the state: [k] requests, a log line
    for each, and time slept. *)
Let accounted (ctx : ScoringContext) (k : nat) (st st' : state) : Prop :=
  requests_sent st' = (requests_sent st + k)%nat /\
  slept st <= slept st' /\
  exists lines,
    log_lines st' = log_lines st ++ lines /\
    length lines = k /\
    Forall (fun line => fst line = run_log_path ctx
                        /\ match snd line with FailedWord _ _ _ _ => False | _ => True end)
           lines.

Lemma mark_disabled_same st :
  requests_sent (_mark_response_format_disabled st) = requests_sent st /\
  log_lines (_mark_response_format_disabled st) = log_lines st /\
  slept (_mark_response_format_disabled st) = slept st.
Proof.
  unfold _mark_response_format_disabled.
  destruct (response_format_mode (capability_state st)); auto.
Qed.

Lemma mark_json_schema_same st :
  requests_sent (_mark_response_format_json_schema st) = requests_sent st /\
  log_lines (_mark_response_format_json_schema st) = log_lines st /\
  slept (_mark_response_format_json_schema st) = slept st.
Proof.
  unfold _mark_response_format_json_schema.
  destruct (response_format_mode (capability_state st)); auto.
Qed.

Lemma mark_reasoning_same st :
  requests_sent (_mark_reasoning_controls_unsupported st) = requests_sent st /\
  log_lines (_mark_reasoning_controls_unsupported st) = log_lines st /\
  slept (_mark_reasoning_controls_unsupported st) = slept st.
Proof.
  unfold _mark_reasoning_controls_unsupported.
  destruct (reasoning_controls_supported (capability_state st)); auto.
Qed.

Lemma attempt_once_parsed st request batch ctx parsed :
  attempt_once post_json parse st request batch ctx = Ok parsed ->
  exists body,
    parse batch body (output_mode ctx) (forced_rarity_level ctx) (expected_json_items ctx)
    = Ok parsed.
Proof.
  unfold attempt_once. destruct (post_json _ _) as [status body|exc]; [|discriminate].
  destruct ((status <? 200) || (299 <? status)); [discriminate|]. eauto.
Qed.

Lemma retry_loop_accounting remaining :
  forall attempt batch ctx mode reasoning last_error saw st,
    0 <= attempt ->
    let '(a, st') :=
      retry_loop py post_json parse remaining attempt batch ctx mode reasoning last_error
        saw st in
    exists k,
      (k <= remaining)%nat /\ accounted ctx k st st' /\
      (((1 <= k)%nat /\
        exists body parsed,
          parse batch body (output_mode ctx) (forced_rarity_level ctx)
            (expected_json_items ctx) = Ok parsed /\
          a = BatchAttempt.mk (ParsedBatch.scores parsed) (ParsedBatch.unresolved parsed)
                None false) \/
       (k = remaining /\ BatchAttempt.scores a = [] /\ BatchAttempt.unresolved a = batch)).
Proof.
  induction remaining as [|remaining IH];
    intros attempt batch ctx mode reasoning last_error saw st Hattempt.
  { cbn [retry_loop]. exists 0%nat. split; [lia|]. split.
    - split; [lia|]. split; [lia|]. exists []. rewrite app_nil_r. auto.
    - right. auto. }
  cbn [retry_loop].
  destruct (_resolve_selection_prompt_counts ctx) as [sp ut].
  match goal with |- context [attempt_once ?a ?b ?c ?d ?e ?f] =>
    destruct (attempt_once a b c d e f) as [parsed|exc] eqn:Htried end.
  - (* the attempt parsed *)
    destruct (attempt_once_parsed _ _ _ _ _ Htried) as (body & Hbody).
    exists 1%nat. split; [lia|]. split.
    + set (disable := ResponseFormatMode.eqb mode ResponseFormatMode.JSON_SCHEMA && _).
      assert (forall s,
                requests_sent (if disable then _mark_response_format_disabled s else s)
                = requests_sent s /\
                log_lines (if disable then _mark_response_format_disabled s else s)
                = log_lines s /\
                slept (if disable then _mark_response_format_disabled s else s) = slept s)
        as Hmark by (intros s; destruct disable; [apply mark_disabled_same|auto]).
      destruct (Hmark (count_request st)) as (Hr & Hl & Hs).
      unfold accounted, _append_json_line. cbn [requests_sent log_lines slept].
      rewrite Hr, Hl, Hs. cbn [count_request requests_sent log_lines slept].
      split; [lia|]. split; [lia|]. eexists [_]. split; [reflexivity|].
      split; [reflexivity|]. repeat constructor.
    + left. split; [lia|]. exists body, parsed. auto.
  - (* the attempt raised *)
    set (st1 := _append_json_line (count_request st) _ _).
    assert (requests_sent st1 = S (requests_sent st) /\ slept st1 = slept st /\
            exists line,
              log_lines st1 = log_lines st ++ [line] /\ fst line = run_log_path ctx /\
              match snd line with FailedWord _ _ _ _ => False | _ => True end)
      as (Hr1 & Hs1 & line & Hl1 & Hpath & Hkind).
    { subst st1. cbn. split; [reflexivity|]. split; [reflexivity|].
      eexists. split; [reflexivity|]. split; [reflexivity|exact I]. }
    clearbody st1.
    repeat match goal with
           | |- context [if ?b then _ else _] => destruct b
           end;
      cbv beta iota zeta;
      match goal with
      | |- context [retry_loop _ _ _ _ (attempt + 1) _ _ ?m ?r ?le ?sw ?s] =>
          pose proof (IH (attempt + 1) batch ctx m r le sw s ltac:(lia)) as Hrest;
          assert (requests_sent s = S (requests_sent st)
                  /\ log_lines s = log_lines st ++ [line]
                  /\ slept st <= slept s) as (Hr2 & Hl2 & Hs2)
            by (cbn [sleep requests_sent log_lines slept];
                repeat first
                  [ rewrite (proj1 (mark_reasoning_same _))
                  | rewrite (proj1 (proj2 (mark_reasoning_same _)))
                  | rewrite (proj2 (proj2 (mark_reasoning_same _)))
                  | rewrite (proj1 (mark_json_schema_same _))
                  | rewrite (proj1 (proj2 (mark_json_schema_same _)))
                  | rewrite (proj2 (proj2 (mark_json_schema_same _)))
                  | rewrite (proj1 (mark_disabled_same _))
                  | rewrite (proj1 (proj2 (mark_disabled_same _)))
                  | rewrite (proj2 (proj2 (mark_disabled_same _))) ];
                unfold MODEL_CRASH_BACKOFF_SECONDS; repeat split; [exact Hr1|exact Hl1|lia]);
          destruct (retry_loop py post_json parse remaining (attempt + 1) batch ctx m r le sw s)
            as [a st']
      end;
      destruct Hrest as (k & Hk & (Hr & Hs & lines & Hl & Hlen & Hall) & Hcases);
      (exists (S k)); (split; [lia|]); (split;
        [ split; [lia|]; split; [lia|]; exists (line :: lines);
          split; [rewrite Hl, Hl2; symmetry; exact (List.app_assoc (log_lines st) [line] lines)|];
          split; [cbn [length]; lia|]; constructor; [auto|exact Hall]
        | destruct Hcases as [[Hk1 Hparsed]|(-> & Hscores & Hunresolved)];
          [left; split; [lia|exact Hparsed]|right; auto] ]).
Qed.

End RetryAccounting.


(** ** The client: no word is dropped silently *)

Section NoSilentDrop.
Import client.
Variable py : builtins.
Variable post_json : nat -> Request -> http_outcome.
Variable parse :
  list BaseWordRow.t -> pystr -> ScoringOutputMode.t -> option Z -> option Z ->
  result ParsedBatch.t.
Hypothesis parse_covers : parser_covers parse.
Variable ctx : ScoringContext.
Hypothesis score_mode : output_mode ctx = ScoringOutputMode.SCORE_RESULTS.
Hypothesis no_partial : allow_partial_results ctx = false.

Lemma try_score_batch_log batch ctx' st x :
  x ∈ log_lines st ->
  x ∈ log_lines (snd (_try_score_batch py post_json parse batch ctx' st)).
Proof.
  intros Hx. unfold _try_score_batch.
  match goal with
  | |- context [retry_loop _ _ _ ?n ?att ?b ?c ?m ?r ?le ?sw ?s] =>
      pose proof (retry_loop_accounting py post_json parse n att b c m r le sw s ltac:(lia))
        as H;
      destruct (retry_loop py post_json parse n att b c m r le sw s) as [a st1]
  end.
  destruct H as (k & _ & (_ & _ & lines & Hl & _) & _). cbn [snd]. rewrite Hl.
  apply elem_of_app. left. exact Hx.
Qed.

Lemma internal_log budget batch ctx' st x :
  x ∈ log_lines st ->
  x ∈ log_lines (snd (_score_batch_resilient_internal py post_json parse budget batch ctx' st)).
Proof.
  apply (internal_preserves py post_json parse (fun s => x ∈ log_lines s)).
  - intros s path line Hs. unfold _append_json_line. cbn [log_lines].
    apply elem_of_app. left. exact Hs.
  - intros b c s Hs. apply try_score_batch_log. exact Hs.
Qed.

Lemma try_score_batch_covers batch st :
  let direct := fst (_try_score_batch py post_json parse batch ctx st) in
  BatchAttempt.scores direct = [] \/
  forall row, row ∈ batch ->
    scored_in (BatchAttempt.scores direct) row \/ row ∈ BatchAttempt.unresolved direct.
Proof.
  unfold _try_score_batch.
  match goal with
  | |- context [retry_loop _ _ _ ?n ?att ?b ?c ?m ?r ?le ?sw ?s] =>
      pose proof (retry_loop_accounting py post_json parse n att b c m r le sw s ltac:(lia))
        as H;
      destruct (retry_loop py post_json parse n att b c m r le sw s) as [a st1]
  end.
  destruct H as (k & _ & _ & [(_ & body & parsed & Hparse & ->)|(_ & Hscores & _)]);
    cbn [fst]; [right|left; exact Hscores].
  rewrite score_mode in Hparse. cbn [BatchAttempt.scores BatchAttempt.unresolved].
  exact (parse_covers _ _ _ _ _ Hparse).
Qed.

Lemma scored_in_app_l scores more row : scored_in scores row -> scored_in (scores ++ more) row.
Proof.
  intros (s & Hs & H). exists s. split; [apply elem_of_app; left; exact Hs|exact H].
Qed.

Lemma scored_in_app_r scores more row : scored_in more row -> scored_in (scores ++ more) row.
Proof.
  intros (s & Hs & H). exists s. split; [apply elem_of_app; right; exact Hs|exact H].
Qed.

Lemma log_failed_words error batch : forall st row,
  row ∈ batch ->
  logged_as_failed ctx
    (fold_left (fun st word => _log_failed_word st ctx word error None) batch st) row.
Proof.
  induction batch as [|w batch IH]; intros st row Hrow; [inversion Hrow|].
  cbn [fold_left]. apply elem_of_cons in Hrow as [->|Hrow]; [|apply IH, Hrow].
  exists error, None.
  assert (forall l s, (failed_log_path ctx, FailedWord (run_slug ctx) w error None)
                      ∈ log_lines s ->
                      (failed_log_path ctx, FailedWord (run_slug ctx) w error None)
                      ∈ log_lines
                          (fold_left (fun st word => _log_failed_word st ctx word error None)
                             l s)) as Hkeep.
  { induction l as [|y l IHl]; intros s Hs; cbn [fold_left]; [exact Hs|].
    apply IHl. unfold _log_failed_word, _append_json_line. cbn [log_lines].
    apply elem_of_app. left. exact Hs. }
  apply Hkeep. unfold _log_failed_word, _append_json_line. cbn [log_lines].
  apply elem_of_app. right. left.
Qed.

Lemma internal_covers budget : forall batch st scores st',
  _score_batch_resilient_internal py post_json parse budget batch ctx st = (Ok scores, st') ->
  forall row, row ∈ batch -> scored_in scores row \/ logged_as_failed ctx st' row.
Proof.
  induction budget as [|budget IH]; intros batch st scores st' Hrun row Hrow.
  { cbn [_score_batch_resilient_internal] in Hrun. injection Hrun as <- <-.
    right. apply log_failed_words. exact Hrow. }
  cbn [_score_batch_resilient_internal] in Hrun.
  assert (selection_shortcut batch ctx = None) as Hshortcut
    by (unfold selection_shortcut; rewrite score_mode; reflexivity).
  rewrite Hshortcut in Hrun.
  pose proof (try_score_batch_covers batch st) as Hcovers.
  destruct (_try_score_batch py post_json parse batch ctx st) as [direct st1].
  cbn [fst] in Hcovers.
  destruct (BatchAttempt.connectivity_failure direct); [discriminate|].
  destruct (BatchAttempt.scores direct) as [|s ss] eqn:Hscores.
  - assert (repair_after_count_mismatch py post_json parse batch ctx direct st1 = (None, st1))
      as Hrepair by (unfold repair_after_count_mismatch; rewrite score_mode; reflexivity).
    rewrite Hrepair in Hrun.
    destruct (Z.eqb_spec (len batch) 1) as [Hone|Hmore].
    + destruct batch as [|w [|w2 batch]]; unfold len in Hone; cbn [length] in Hone; try lia.
      injection Hrun as <- <-. apply list_elem_of_singleton in Hrow as ->.
      right. eexists _, _. unfold _log_failed_word, _append_json_line. cbn [log_lines].
      apply elem_of_app. right. left.
    + assert (split_contexts ctx (len (take (Z.to_nat (len batch / 2)) batch)) (len batch)
              = Ok (ctx, ctx)) as Hsplit
        by (unfold split_contexts; rewrite score_mode; reflexivity).
      rewrite Hsplit in Hrun.
      destruct (_score_batch_resilient_internal py post_json parse budget
                  (take (Z.to_nat (len batch / 2)) batch) ctx st1)
        as [[left_scores|e] st2] eqn:Hleft; [|discriminate].
      pose proof (internal_log budget (drop (Z.to_nat (len batch / 2)) batch) ctx st2) as Hlog.
      destruct (_score_batch_resilient_internal py post_json parse budget
                  (drop (Z.to_nat (len batch / 2)) batch) ctx st2)
        as [[right_scores|e] st3] eqn:Hright; [|discriminate].
      injection Hrun as <- <-. cbn [snd] in Hlog.
      rewrite <- (take_drop (Z.to_nat (len batch / 2)) batch) in Hrow.
      apply elem_of_app in Hrow as [Hrow|Hrow].
      * destruct (IH _ _ _ _ Hleft row Hrow) as [Hs|(error & last & Hl)].
        -- left. apply scored_in_app_l, Hs.
        -- right. exists error, last. apply Hlog, Hl.
      * destruct (IH _ _ _ _ Hright row Hrow) as [Hs|Hl].
        -- left. apply scored_in_app_r, Hs.
        -- right. exact Hl.
  - destruct Hcovers as [Hnil|Hcovers]; [discriminate|].
    rewrite no_partial in Hrun.
    destruct (BatchAttempt.unresolved direct) as [|u us] eqn:Hunresolved.
    + injection Hrun as <- <-. destruct (Hcovers row Hrow) as [Hs|Hu]; [left; exact Hs|].
      inversion Hu.
    + destruct (_score_batch_resilient_internal py post_json parse budget (u :: us) ctx st1)
        as [[retried|e] st2] eqn:Hretry; [|discriminate].
      injection Hrun as <- <-.
      destruct (Hcovers row Hrow) as [Hs|Hu];
        [left; exact (scored_in_app_l (s :: ss) retried row Hs)|].
      destruct (IH _ _ _ _ Hretry row Hu) as [Hs|Hl].
      * left. exact (scored_in_app_r (s :: ss) retried row Hs).
      * right. exact Hl.
Qed.

End NoSilentDrop.

(** X23. In score mode without partial results, and with a parser that
    scores each row of its batch or hands it back as unresolved, a
    resilient call that returns leaves no word out: every row of the batch
    has a score in the result or an entry in the failed-words log. *)
Theorem resilient_scoring_drops_no_word_silently :
  forall py post_json parse batch ctx st scores st',
    client.parser_covers parse ->
    client.output_mode ctx = ScoringOutputMode.SCORE_RESULTS ->
    client.allow_partial_results ctx = false ->
    client.score_batch_resilient py post_json parse batch ctx st = (Ok scores, st') ->
    forall row, row ∈ batch ->
      client.scored_in scores row \/ client.logged_as_failed ctx st' row.
Proof.
  intros py post_json parse batch ctx st scores st' Hcovers Hmode Hpartial Hrun.
  exact (internal_covers py post_json parse Hcovers ctx Hmode Hpartial
           client.MAX_RECURSION_DEPTH batch st scores st' Hrun).
Qed.

Lemma resilient_scoring_drops_no_word_silently_witness :
  client.logged_as_failed client.scenario_context
    (snd (client.score_batch_resilient PyAscii.ascii_builtins
            (fun (_ : nat) (_ : client.Request) => client.Responded 200 (str "no json here"))
            client.scenario_parse client.scenario_batch client.scenario_context
            client.__init__))
    (BaseWordRow.mk 1 (str "om") (str "N")).
Proof.
  set (post_json := fun (_ : nat) (_ : client.Request) =>
                      client.Responded 200 (str "no json here")).
  assert (fst (client.score_batch_resilient PyAscii.ascii_builtins post_json
                 client.scenario_parse client.scenario_batch client.scenario_context
                 client.__init__) = Ok []) as Hscores by (vm_compute; reflexivity).
  destruct (client.score_batch_resilient PyAscii.ascii_builtins post_json
              client.scenario_parse client.scenario_batch client.scenario_context
              client.__init__) as [result st'] eqn:Hrun.
  cbn [fst snd] in *. subst result.
  assert (client.parser_covers client.scenario_parse) as Hcovers
    by (intros b body forced expected parsed Hparse; discriminate Hparse).
  assert (BaseWordRow.mk 1 (str "om") (str "N") ∈ client.scenario_batch) as Hrow
    by (apply list_elem_of_here).
  destruct (resilient_scoring_drops_no_word_silently PyAscii.ascii_builtins post_json
              client.scenario_parse client.scenario_batch client.scenario_context
              client.__init__ [] st' Hcovers eq_refl eq_refl Hrun _ Hrow)
    as [(s & Hs & _)|Hlogged]; [inversion Hs|exact Hlogged].
Defined.
